(** * Mt-KaHyPar refinement core: partitioned hypergraph, km1 gain cache,
      FM destination choice, atomic wrapper and the seed container.

    Shallow embedding of
      - mt-kahypar/parallel/atomic_wrapper.h            (Module AtomicWrapper)
      - the ConcurrentDataContainer of the NUMA work queue (Module WorkQueue)
      - mt-kahypar/datastructures/partitioned_hypergraph.h (Module PHG)
      - mt-kahypar/partition/refinement/fm/fm_details.h    (Module FM)

    Conventions.  Identifiers, block ids, pin counts and weights are
    integers of [Z].  Weights are signed machine integers whose overflow
    is undefined in C++; they are modelled without wrap-around.  Unsigned
    counters whose wrap-around is defined (the atomic [size_t] of the
    container, the atomic wrapper) carry it explicitly.  Arrays indexed by
    dense ids are total maps updated pointwise; an execution is
    sequential: one thread runs every loop in the order the code
    lists it. *)

From Stdlib Require Import ZArith List Lia Bool Permutation.
Import ListNotations.
Open Scope Z_scope.

(* ------------------------------------------------------------------ *)
(** ** Small utilities shared by all modules *)

(** [for (i = 0; i < n; ++i)] visits [range n] = 0, 1, ..., n-1. *)
Fixpoint range_from (start : Z) (len : nat) : list Z :=
  match len with
  | O => []
  | S len' => start :: range_from (start + 1) len'
  end.

Definition range (n : Z) : list Z := range_from 0 (Z.to_nat n).

(** Pointwise update of an array modelled as a total map. *)
Definition upd {V : Type} (f : Z -> V) (i : Z) (v : V) : Z -> V :=
  fun j => if j =? i then v else f j.

(** Sum of [f] over a list, the shape of every weight accumulation. *)
Fixpoint sumZ {X : Type} (f : X -> Z) (l : list X) : Z :=
  match l with
  | [] => 0
  | x :: l' => f x + sumZ f l'
  end.

(* ------------------------------------------------------------------ *)
(** ** atomic_wrapper.h *)

Module AtomicWrapper.

(** The integral type [T] of the template: its width and signedness.
    Arithmetic of [std::atomic<T>] wraps in two's complement. *)
Record Integral := { bits : Z; is_signed : bool }.

Definition size_t : Integral := {| bits := 64; is_signed := false |}.
Definition int32_t : Integral := {| bits := 32; is_signed := true |}.

Definition wrap (T : Integral) (x : Z) : Z :=
  if is_signed T
  then (x + 2 ^ (bits T - 1)) mod 2 ^ bits T - 2 ^ (bits T - 1)
  else x mod 2 ^ bits T.

(** [IntegralAtomicWrapper<T>]: the single field [_value]. *)
Record IntegralAtomicWrapper := { _value : Z }.

Section Ops.
Variable T : Integral.

(** Every operation returns the value handed back to the caller and
    the wrapper after the call. *)
Definition load (a : IntegralAtomicWrapper) : Z := _value a.

Definition store (desired : Z) (_ : IntegralAtomicWrapper) : IntegralAtomicWrapper :=
  {| _value := desired |}.

(** [_value.fetch_add(arg)]: previous value returned. *)
Definition fetch_add (arg : Z) (a : IntegralAtomicWrapper) : Z * IntegralAtomicWrapper :=
  (_value a, {| _value := wrap T (_value a + arg) |}).

(** [_value.fetch_sub(arg)]: previous value returned. *)
Definition fetch_sub (arg : Z) (a : IntegralAtomicWrapper) : Z * IntegralAtomicWrapper :=
  (_value a, {| _value := wrap T (_value a - arg) |}).

(** [T operator++ ()  { return ++_value; }] *)
Definition prefix_increment (a : IntegralAtomicWrapper) : Z * IntegralAtomicWrapper :=
  let v := wrap T (_value a + 1) in (v, {| _value := v |}).

(** [T operator++ (int) { return _value++; }] *)
Definition postfix_increment (a : IntegralAtomicWrapper) : Z * IntegralAtomicWrapper :=
  fetch_add 1 a.

(** [T operator-- ()  { return --_value; }] *)
Definition prefix_decrement (a : IntegralAtomicWrapper) : Z * IntegralAtomicWrapper :=
  let v := wrap T (_value a - 1) in (v, {| _value := v |}).

(** [T operator-- (int) { return _value++; }]: the body of the source,
    which is the body of [operator++ (int)]. *)
Definition postfix_decrement (a : IntegralAtomicWrapper) : Z * IntegralAtomicWrapper :=
  fetch_add 1 a.

(** [T operator+= (T arg) { return _value.fetch_add(arg) + arg; }] *)
Definition add_assign (arg : Z) (a : IntegralAtomicWrapper) : Z * IntegralAtomicWrapper :=
  let '(old, a') := fetch_add arg a in (wrap T (old + arg), a').

(** [T operator-= (T arg) { return _value.fetch_sub(arg) - arg; }] *)
Definition sub_assign (arg : Z) (a : IntegralAtomicWrapper) : Z * IntegralAtomicWrapper :=
  let '(old, a') := fetch_sub arg a in (wrap T (old - arg), a').

End Ops.

End AtomicWrapper.

(* ------------------------------------------------------------------ *)
(** ** ConcurrentDataContainer (backing store of NumaWorkQueue) *)

Module WorkQueue.

(** The result of an operation that indexes [elements]: either it
    completes, or the index lies outside the vector (undefined in C++,
    caught by the [assert] of [push_back] in a debug build). *)
Inductive outcome (R : Type) : Type :=
| Done (r : R)
| OutOfBounds (index : Z).
Arguments Done {R} r.
Arguments OutOfBounds {R} index.

Section Container.
Variable T : Type.
Variable T_default : T.          (* [T()] *)

(** [std::atomic<size_t> size; vec<T> elements;] *)
Record ConcurrentDataContainer := {
  size : Z;
  elements : list T
}.

Definition size_t_wrap (x : Z) : Z := x mod 2 ^ 64.

(** [ConcurrentDataContainer(maxNumElements) : size(0), elements(maxNumElements, T())] *)
Definition make (maxNumElements : nat) : ConcurrentDataContainer :=
  {| size := 0; elements := repeat T_default maxNumElements |}.

Fixpoint list_set (l : list T) (i : nat) (x : T) : list T :=
  match l, i with
  | [], _ => []
  | _ :: l', O => x :: l'
  | y :: l', S i' => y :: list_set l' i' x
  end.

(** [push_back]: [old_size = size.fetch_add(1); elements[old_size] = el]. *)
Definition push_back (el : T) (c : ConcurrentDataContainer) : outcome ConcurrentDataContainer :=
  let old_size := size c in
  let size' := size_t_wrap (old_size + 1) in
  if old_size <? Z.of_nat (length (elements c))
  then Done {| size := size'; elements := list_set (elements c) (Z.to_nat old_size) el |}
  else OutOfBounds old_size.

(** [try_pop(dest)]: [old_size = size.fetch_sub(1)], unconditionally;
    then [dest = elements[old_size - 1]] and [true] when [old_size > 0],
    [false] otherwise.  The triple is (returned flag, [dest] after the
    call, container after the call). *)
Definition try_pop (dest : T) (c : ConcurrentDataContainer)
  : outcome (bool * T * ConcurrentDataContainer) :=
  let old_size := size c in
  let c' := {| size := size_t_wrap (old_size - 1); elements := elements c |} in
  if 0 <? old_size then
    match nth_error (elements c) (Z.to_nat (old_size - 1)) with
    | Some x => Done (true, x, c')
    | None => OutOfBounds (old_size - 1)
    end
  else Done (false, dest, c').

Definition unsafe_size (c : ConcurrentDataContainer) : Z := size c.

Definition empty (c : ConcurrentDataContainer) : bool := unsafe_size c =? 0.

(** [clear() { size.store(0); }] *)
Definition clear (c : ConcurrentDataContainer) : ConcurrentDataContainer :=
  {| size := 0; elements := elements c |}.

End Container.

(** An empty container of capacity 2 holding node ids. *)
Definition empty2 : ConcurrentDataContainer Z := make Z 0 2.

Arguments size {T} c.
Arguments elements {T} c.
Arguments push_back {T} el c.
Arguments try_pop {T} dest c.
Arguments unsafe_size {T} c.
Arguments empty {T} c.
Arguments clear {T} c.

End WorkQueue.

(* ------------------------------------------------------------------ *)
(** ** partitioned_hypergraph.h *)

Module PHG.

(** The scalar types of hypergraph_common.h, all integers here. *)
Abbreviation HypernodeID := Z (only parsing).
Abbreviation HyperedgeID := Z (only parsing).
Abbreviation PartitionID := Z (only parsing).
Abbreviation HypernodeWeight := Z (only parsing).
Abbreviation HyperedgeWeight := Z (only parsing).

Definition kInvalidPartition : PartitionID := -1.
Definition HIGH_DEGREE_THRESHOLD : HyperedgeID := 100000.

(** Modelled from the spec: hypergraph_common.h is not part of the
    sources; weights are 32-bit signed integers, whose
    [std::numeric_limits] bounds serve as sentinels. *)
Definition HyperedgeWeight_max : HyperedgeWeight := 2 ^ 31 - 1.
Definition HyperedgeWeight_min : HyperedgeWeight := - 2 ^ 31.
Definition HypernodeWeight_max : HypernodeWeight := 2 ^ 31 - 1.

(** Modelled from the spec: the external hypergraph (section 6,
    "Hypergraph (input)"): node and edge counts, weights, the ordered
    pin list of an edge, the ordered incident-edge list of a node and
    the enabled flags. *)
Record Hypergraph := {
  initialNumNodes : Z;
  initialNumEdges : Z;
  nodeWeight : HypernodeID -> HypernodeWeight;
  edgeWeight : HyperedgeID -> HyperedgeWeight;
  pins : HyperedgeID -> list HypernodeID;
  incidentEdges : HypernodeID -> list HyperedgeID;
  nodeIsEnabled : HypernodeID -> bool;
  edgeIsEnabled : HyperedgeID -> bool
}.

Definition edgeSize (hg : Hypergraph) (e : HyperedgeID) : Z :=
  Z.of_nat (length (pins hg e)).

Definition nodeDegree (hg : Hypergraph) (u : HypernodeID) : Z :=
  Z.of_nat (length (incidentEdges hg u)).

(** [nodes()] and [edges()]: the enabled ids in ascending order. *)
Definition nodes (hg : Hypergraph) : list HypernodeID :=
  filter (nodeIsEnabled hg) (range (initialNumNodes hg)).

Definition edges (hg : Hypergraph) : list HyperedgeID :=
  filter (edgeIsEnabled hg) (range (initialNumEdges hg)).

(** Modelled from the spec: [CAtomic<T>] is not part of the sources.
    As for [std::atomic], [fetch_add] and [fetch_sub] hand back the
    value held before the update, [add_fetch] and [sub_fetch] the
    value held after it.  Each works on one slot of an array. *)
Definition fetch_add (a : Z -> Z) (i x : Z) : Z * (Z -> Z) := (a i, upd a i (a i + x)).
Definition fetch_sub (a : Z -> Z) (i x : Z) : Z * (Z -> Z) := (a i, upd a i (a i - x)).
Definition add_fetch (a : Z -> Z) (i x : Z) : Z * (Z -> Z) := (a i + x, upd a i (a i + x)).
Definition sub_fetch (a : Z -> Z) (i x : Z) : Z * (Z -> Z) := (a i - x, upd a i (a i - x)).

(** Modelled from the spec: [PinCountInPart] (section 4.1), dense
    storage indexed by (edge, block) with [get], [set], [inc] and [dec],
    the last two returning the new count.  Decrementing an empty slot is
    outside its contract; the reachable states never do it. *)
Definition PinCountInPart := HyperedgeID -> PartitionID -> Z.

Definition setPinCountInPart (pc : PinCountInPart) (e : HyperedgeID) (p : PartitionID) (n : Z)
  : PinCountInPart :=
  fun e' p' => if (e' =? e) && (p' =? p) then n else pc e' p'.

Definition incrementPinCountInPart (pc : PinCountInPart) (e : HyperedgeID) (p : PartitionID)
  : Z * PinCountInPart :=
  (pc e p + 1, setPinCountInPart pc e p (pc e p + 1)).

Definition decrementPinCountInPart (pc : PinCountInPart) (e : HyperedgeID) (p : PartitionID)
  : Z * PinCountInPart :=
  (pc e p - 1, setPinCountInPart pc e p (pc e p - 1)).

(** Modelled from the spec: [ConnectivitySets] (section 4.2), one
    bitset over the blocks per edge with [add], [remove], [contains],
    the popcount [connectivity] and iteration in ascending block order. *)
Definition ConnectivitySets := HyperedgeID -> PartitionID -> bool.

Definition cs_add (cs : ConnectivitySets) (e : HyperedgeID) (p : PartitionID) : ConnectivitySets :=
  fun e' p' => if (e' =? e) && (p' =? p) then true else cs e' p'.

Definition cs_remove (cs : ConnectivitySets) (e : HyperedgeID) (p : PartitionID) : ConnectivitySets :=
  fun e' p' => if (e' =? e) && (p' =? p) then false else cs e' p'.

Definition cs_clear (cs : ConnectivitySets) (e : HyperedgeID) : ConnectivitySets :=
  fun e' p' => if e' =? e then false else cs e' p'.

Definition cs_connectivitySet (k : PartitionID) (cs : ConnectivitySets) (e : HyperedgeID)
  : list PartitionID :=
  filter (cs e) (range k).

Definition cs_connectivity (k : PartitionID) (cs : ConnectivitySets) (e : HyperedgeID) : Z :=
  Z.of_nat (length (cs_connectivitySet k cs e)).

(** The members of [PartitionedHypergraph] that change after
    construction.  [_k] and [_hg] are fixed at construction and are
    parameters of the operations below. *)
Record PartitionedHypergraph := {
  _is_gain_cache_initialized : bool;
  _part_weights : PartitionID -> HypernodeWeight;
  _part_ids : HypernodeID -> PartitionID;
  _pins_in_part : PinCountInPart;
  _connectivity_set : ConnectivitySets;
  _move_to_penalty : Z -> HyperedgeWeight;
  _move_from_benefit : HypernodeID -> HyperedgeWeight;
  _pin_count_update_ownership : HyperedgeID -> bool
}.

Definition with_is_gain_cache_initialized (b : bool) (s : PartitionedHypergraph) :=
  {| _is_gain_cache_initialized := b;
     _part_weights := _part_weights s; _part_ids := _part_ids s;
     _pins_in_part := _pins_in_part s; _connectivity_set := _connectivity_set s;
     _move_to_penalty := _move_to_penalty s; _move_from_benefit := _move_from_benefit s;
     _pin_count_update_ownership := _pin_count_update_ownership s |}.

Definition with_part_weights (w : PartitionID -> HypernodeWeight) (s : PartitionedHypergraph) :=
  {| _is_gain_cache_initialized := _is_gain_cache_initialized s;
     _part_weights := w; _part_ids := _part_ids s;
     _pins_in_part := _pins_in_part s; _connectivity_set := _connectivity_set s;
     _move_to_penalty := _move_to_penalty s; _move_from_benefit := _move_from_benefit s;
     _pin_count_update_ownership := _pin_count_update_ownership s |}.

Definition with_part_ids (ids : HypernodeID -> PartitionID) (s : PartitionedHypergraph) :=
  {| _is_gain_cache_initialized := _is_gain_cache_initialized s;
     _part_weights := _part_weights s; _part_ids := ids;
     _pins_in_part := _pins_in_part s; _connectivity_set := _connectivity_set s;
     _move_to_penalty := _move_to_penalty s; _move_from_benefit := _move_from_benefit s;
     _pin_count_update_ownership := _pin_count_update_ownership s |}.

Definition with_pins_in_part (pc : PinCountInPart) (s : PartitionedHypergraph) :=
  {| _is_gain_cache_initialized := _is_gain_cache_initialized s;
     _part_weights := _part_weights s; _part_ids := _part_ids s;
     _pins_in_part := pc; _connectivity_set := _connectivity_set s;
     _move_to_penalty := _move_to_penalty s; _move_from_benefit := _move_from_benefit s;
     _pin_count_update_ownership := _pin_count_update_ownership s |}.

Definition with_connectivity_set (cs : ConnectivitySets) (s : PartitionedHypergraph) :=
  {| _is_gain_cache_initialized := _is_gain_cache_initialized s;
     _part_weights := _part_weights s; _part_ids := _part_ids s;
     _pins_in_part := _pins_in_part s; _connectivity_set := cs;
     _move_to_penalty := _move_to_penalty s; _move_from_benefit := _move_from_benefit s;
     _pin_count_update_ownership := _pin_count_update_ownership s |}.

Definition with_move_to_penalty (m : Z -> HyperedgeWeight) (s : PartitionedHypergraph) :=
  {| _is_gain_cache_initialized := _is_gain_cache_initialized s;
     _part_weights := _part_weights s; _part_ids := _part_ids s;
     _pins_in_part := _pins_in_part s; _connectivity_set := _connectivity_set s;
     _move_to_penalty := m; _move_from_benefit := _move_from_benefit s;
     _pin_count_update_ownership := _pin_count_update_ownership s |}.

Definition with_move_from_benefit (b : HypernodeID -> HyperedgeWeight) (s : PartitionedHypergraph) :=
  {| _is_gain_cache_initialized := _is_gain_cache_initialized s;
     _part_weights := _part_weights s; _part_ids := _part_ids s;
     _pins_in_part := _pins_in_part s; _connectivity_set := _connectivity_set s;
     _move_to_penalty := _move_to_penalty s; _move_from_benefit := b;
     _pin_count_update_ownership := _pin_count_update_ownership s |}.

Definition with_ownership (o : HyperedgeID -> bool) (s : PartitionedHypergraph) :=
  {| _is_gain_cache_initialized := _is_gain_cache_initialized s;
     _part_weights := _part_weights s; _part_ids := _part_ids s;
     _pins_in_part := _pins_in_part s; _connectivity_set := _connectivity_set s;
     _move_to_penalty := _move_to_penalty s; _move_from_benefit := _move_from_benefit s;
     _pin_count_update_ownership := o |}.

(** The constructor: part ids [kInvalidPartition], everything else zero. *)
Definition construct : PartitionedHypergraph :=
  {| _is_gain_cache_initialized := false;
     _part_weights := fun _ => 0;
     _part_ids := fun _ => kInvalidPartition;
     _pins_in_part := fun _ _ => 0;
     _connectivity_set := fun _ _ => false;
     _move_to_penalty := fun _ => 0;
     _move_from_benefit := fun _ => 0;
     _pin_count_update_ownership := fun _ => false |}.

(** A sequential loop whose body may spin forever: [None] is a loop that
    never exits. *)
Fixpoint for_each {X S : Type} (body : X -> S -> option S) (l : list X) (s : S) : option S :=
  match l with
  | [] => Some s
  | x :: l' =>
      match body x s with
      | Some s' => for_each body l' s'
      | None => None
      end
  end.

Section Operations.

Variable hg : Hypergraph.
Variable k : PartitionID.

(** *** Read accessors *)

Definition partID (s : PartitionedHypergraph) (u : HypernodeID) : PartitionID := _part_ids s u.

Definition partWeight (s : PartitionedHypergraph) (p : PartitionID) : HypernodeWeight :=
  _part_weights s p.

Definition pinCountInPart (s : PartitionedHypergraph) (e : HyperedgeID) (p : PartitionID) : Z :=
  _pins_in_part s e p.

Definition connectivity (s : PartitionedHypergraph) (e : HyperedgeID) : Z :=
  cs_connectivity k (_connectivity_set s) e.

Definition connectivitySet (s : PartitionedHypergraph) (e : HyperedgeID) : list PartitionID :=
  cs_connectivitySet k (_connectivity_set s) e.

(** [size_t(u) * _k + p] *)
Definition penalty_index (u : HypernodeID) (p : PartitionID) : Z := u * k + p.

Definition moveFromBenefit (s : PartitionedHypergraph) (u : HypernodeID) : HyperedgeWeight :=
  _move_from_benefit s u.

Definition moveToPenalty (s : PartitionedHypergraph) (u : HypernodeID) (p : PartitionID)
  : HyperedgeWeight :=
  _move_to_penalty s (penalty_index u p).

Definition km1Gain (s : PartitionedHypergraph) (u : HypernodeID) (from to : PartitionID)
  : HyperedgeWeight :=
  moveFromBenefit s u - moveToPenalty s u to.

(** The loop returns [true] at the first cut edge. *)
Definition isBorderNode (s : PartitionedHypergraph) (u : HypernodeID) : bool :=
  if nodeDegree hg u <=? HIGH_DEGREE_THRESHOLD
  then existsb (fun he => 1 <? connectivity s he) (incidentEdges hg u)
  else false.

(** *** Recomputation from scratch ("only for testing") *)

Definition moveFromBenefitRecomputed (s : PartitionedHypergraph) (u : HypernodeID)
  : HyperedgeWeight :=
  let p := partID s u in
  fold_left (fun w e => if pinCountInPart s e p =? 1 then w + edgeWeight hg e else w)
            (incidentEdges hg u) 0.

Definition moveToPenaltyRecomputed (s : PartitionedHypergraph) (u : HypernodeID) (p : PartitionID)
  : HyperedgeWeight :=
  fold_left (fun w e => if pinCountInPart s e p =? 0 then w + edgeWeight hg e else w)
            (incidentEdges hg u) 0.

Definition pinCountInPartRecomputed (s : PartitionedHypergraph) (e : HyperedgeID) (p : PartitionID)
  : Z :=
  fold_left (fun pcip u => if partID s u =? p then pcip + 1 else pcip) (pins hg e) 0.

(** Modelled from the spec: the km1 objective, the sum over the enabled
    edges of [w(e) * (lambda(e) - 1)]; mt-kahypar/partition/metrics is
    not part of the sources. *)
Definition km1 (s : PartitionedHypergraph) : HyperedgeWeight :=
  sumZ (fun e => edgeWeight hg e * (connectivity s e - 1)) (edges hg).

(** *** Assignment *)

Definition setOnlyNodePart (u : HypernodeID) (p : PartitionID) (s : PartitionedHypergraph)
  : PartitionedHypergraph :=
  with_part_ids (upd (_part_ids s) u p) s.

Definition decrementPinCountInPartWithoutGainUpdate
  (e : HyperedgeID) (p : PartitionID) (s : PartitionedHypergraph)
  : Z * PartitionedHypergraph :=
  let '(pin_count_after, pc) := decrementPinCountInPart (_pins_in_part s) e p in
  let s1 := with_pins_in_part pc s in
  (pin_count_after,
   if pin_count_after =? 0
   then with_connectivity_set (cs_remove (_connectivity_set s1) e p) s1
   else s1).

Definition incrementPinCountInPartWithoutGainUpdate
  (e : HyperedgeID) (p : PartitionID) (s : PartitionedHypergraph)
  : Z * PartitionedHypergraph :=
  let '(pin_count_after, pc) := incrementPinCountInPart (_pins_in_part s) e p in
  let s1 := with_pins_in_part pc s in
  (pin_count_after,
   if pin_count_after =? 1
   then with_connectivity_set (cs_add (_connectivity_set s1) e p) s1
   else s1).

Definition setNodePart (u : HypernodeID) (p : PartitionID) (s : PartitionedHypergraph)
  : PartitionedHypergraph :=
  let s1 := setOnlyNodePart u p s in
  let s2 := with_part_weights (snd (fetch_add (_part_weights s1) p (nodeWeight hg u))) s1 in
  fold_left (fun s' he => snd (incrementPinCountInPartWithoutGainUpdate he p s'))
            (incidentEdges hg u) s2.

(** *** Gain cache delta update *)

(** [for (u : pins(he)) if (partID(u) == from) { benefit[u] += we; break; }] *)
Fixpoint add_benefit_of_first_pin_in
  (ps : list HypernodeID) (from : PartitionID) (we : HyperedgeWeight)
  (s : PartitionedHypergraph) : PartitionedHypergraph :=
  match ps with
  | [] => s
  | u :: ps' =>
      if partID s u =? from
      then with_move_from_benefit (snd (fetch_add (_move_from_benefit s) u we)) s
      else add_benefit_of_first_pin_in ps' from we s
  end.

(** [for (u : pins(he)) penalty[penalty_index(u, p)] += we;] *)
Definition add_penalty_of_all_pins
  (ps : list HypernodeID) (p : PartitionID) (we : HyperedgeWeight)
  (s : PartitionedHypergraph) : PartitionedHypergraph :=
  fold_left (fun s' u =>
               with_move_to_penalty
                 (snd (fetch_add (_move_to_penalty s') (penalty_index u p) we)) s')
            ps s.

(** [for (u : pins(he)) penalty[penalty_index(u, p)] -= we;] *)
Definition sub_penalty_of_all_pins
  (ps : list HypernodeID) (p : PartitionID) (we : HyperedgeWeight)
  (s : PartitionedHypergraph) : PartitionedHypergraph :=
  fold_left (fun s' u =>
               with_move_to_penalty
                 (snd (fetch_sub (_move_to_penalty s') (penalty_index u p) we)) s')
            ps s.

(** [for (u : pins(he)) if (partID(u) == to) benefit[u] -= we;] (no [break]) *)
Definition sub_benefit_of_pins_in
  (ps : list HypernodeID) (to : PartitionID) (we : HyperedgeWeight)
  (s : PartitionedHypergraph) : PartitionedHypergraph :=
  fold_left (fun s' u =>
               if partID s' u =? to
               then with_move_from_benefit (snd (fetch_sub (_move_from_benefit s') u we)) s'
               else s')
            ps s.

(** First statement of [gainCacheUpdate]: the triggers on the pin count
    left in block [from]. *)
Definition gainCacheUpdate_from
  (he : HyperedgeID) (we : HyperedgeWeight) (from : PartitionID)
  (pin_count_in_from_part_after : Z) (s : PartitionedHypergraph) : PartitionedHypergraph :=
  if pin_count_in_from_part_after =? 1
  then add_benefit_of_first_pin_in (pins hg he) from we s
  else if pin_count_in_from_part_after =? 0
       then add_penalty_of_all_pins (pins hg he) from we s
       else s.

(** Second statement of [gainCacheUpdate]: the triggers on the pin count
    reached in block [to]. *)
Definition gainCacheUpdate_to
  (he : HyperedgeID) (we : HyperedgeWeight) (to : PartitionID)
  (pin_count_in_to_part_after : Z) (s : PartitionedHypergraph) : PartitionedHypergraph :=
  if pin_count_in_to_part_after =? 1
  then sub_penalty_of_all_pins (pins hg he) to we s
  else if pin_count_in_to_part_after =? 2
       then sub_benefit_of_pins_in (pins hg he) to we s
       else s.

Definition gainCacheUpdate
  (he : HyperedgeID) (we : HyperedgeWeight)
  (from : PartitionID) (pin_count_in_from_part_after : Z)
  (to : PartitionID) (pin_count_in_to_part_after : Z)
  (s : PartitionedHypergraph) : PartitionedHypergraph :=
  gainCacheUpdate_to he we to pin_count_in_to_part_after
    (gainCacheUpdate_from he we from pin_count_in_from_part_after s).

(** *** The move primitive *)

(** A delta function is called with (edge, weight, size, pin count in
    [from] after, pin count in [to] after).  It is a closure: it may
    change the caller's data [A] and, through the public interface, the
    partitioned hypergraph. *)
Definition DeltaFunc (A : Type) : Type :=
  HyperedgeID -> HyperedgeWeight -> Z -> Z -> Z ->
  PartitionedHypergraph * A -> PartitionedHypergraph * A.

(** [NOOP_FUNC] and [NoOpDeltaFunc] *)
Definition NOOP_FUNC {A : Type} : DeltaFunc A := fun _ _ _ _ _ st => st.

(** One attempt: the compare-and-swap on the ownership flag of [he]
    fails when the flag is set, otherwise the pin counts are moved, the
    delta function runs and the flag is released. *)
Definition updatePinCountOfHyperedgeWithoutGainUpdates {A : Type}
  (he : HyperedgeID) (from to : PartitionID) (delta_func : DeltaFunc A)
  (st : PartitionedHypergraph * A) : bool * (PartitionedHypergraph * A) :=
  let '(s, a) := st in
  if _pin_count_update_ownership s he
  then (false, st)
  else
    let s0 := with_ownership (upd (_pin_count_update_ownership s) he true) s in
    let '(pin_count_in_from_part_after, s1) :=
      decrementPinCountInPartWithoutGainUpdate he from s0 in
    let '(pin_count_in_to_part_after, s2) :=
      incrementPinCountInPartWithoutGainUpdate he to s1 in
    let '(s3, a3) :=
      delta_func he (edgeWeight hg he) (edgeSize hg he)
                 pin_count_in_from_part_after pin_count_in_to_part_after (s2, a) in
    (true, (with_ownership (upd (_pin_count_update_ownership s3) he false) s3, a3)).

(** [while ( !updatePinCountOfHyperedgeWithoutGainUpdates(...) );]
    A failed attempt leaves the state as it was, so a sequential
    execution leaves the loop after the first attempt or never. *)
Definition spin_updatePinCount {A : Type}
  (from to : PartitionID) (delta_func : DeltaFunc A)
  (he : HyperedgeID) (st : PartitionedHypergraph * A)
  : option (PartitionedHypergraph * A) :=
  let '(acquired, st') := updatePinCountOfHyperedgeWithoutGainUpdates he from to delta_func st in
  if acquired then Some st' else None.

(** [changeNodePart(u, from, to, max_weight_to, report_success, delta_func)].
    [Some (b, st)]: the call returns [b] in state [st]; [None]: it spins
    forever on an owned edge.  The two [assert]s are preconditions. *)
Definition changeNodePart {A : Type}
  (u : HypernodeID) (from to : PartitionID) (max_weight_to : HypernodeWeight)
  (report_success : A -> A) (delta_func : DeltaFunc A)
  (st : PartitionedHypergraph * A)
  : option (bool * (PartitionedHypergraph * A)) :=
  let '(s, a) := st in
  let wu := nodeWeight hg u in
  let '(to_weight_after, pw1) := add_fetch (_part_weights s) to wu in
  let '(from_weight_after, pw2) := fetch_sub pw1 from wu in
  let s2 := with_part_weights pw2 s in
  if (to_weight_after <=? max_weight_to) && (0 <? from_weight_after)
  then
    let s3 := with_part_ids (upd (_part_ids s2) u to) s2 in
    match for_each (spin_updatePinCount from to delta_func)
                   (incidentEdges hg u) (s3, report_success a) with
    | Some st' => Some (true, st')
    | None => None
    end
  else
    let pw3 := snd (fetch_sub pw2 to wu) in
    let pw4 := snd (fetch_add pw3 from wu) in
    Some (false, (with_part_weights pw4 s2, a)).

(** The curried overload: no weight limit, no callback. *)
Definition changeNodePart_curry {A : Type}
  (u : HypernodeID) (from to : PartitionID) (delta_func : DeltaFunc A)
  (st : PartitionedHypergraph * A) :=
  changeNodePart u from to HypernodeWeight_max (fun a => a) delta_func st.

(** [changeNodePartFullUpdate]: the caller's delta function, then
    [gainCacheUpdate] with the same pin counts. *)
Definition my_delta_func {A : Type} (from to : PartitionID) (delta_func : DeltaFunc A)
  : DeltaFunc A :=
  fun he edge_weight edge_size pin_count_in_from_part_after pin_count_in_to_part_after st0 =>
    let '(s1, a1) :=
      delta_func he edge_weight edge_size
                 pin_count_in_from_part_after pin_count_in_to_part_after st0 in
    (gainCacheUpdate he edge_weight from pin_count_in_from_part_after
                     to pin_count_in_to_part_after s1, a1).

Definition changeNodePartFullUpdate {A : Type}
  (u : HypernodeID) (from to : PartitionID) (max_weight_to : HypernodeWeight)
  (report_success : A -> A) (delta_func : DeltaFunc A)
  (st : PartitionedHypergraph * A) :=
  changeNodePart u from to max_weight_to report_success
                 (my_delta_func from to delta_func) st.

(** [Km1GainCache::delta]: the change of km1 caused on one edge. *)
Definition Km1GainCache_delta
  (he : HyperedgeID) (edge_weight : HyperedgeWeight) (edge_size : Z)
  (pin_count_in_from_part_after pin_count_in_to_part_after : Z) : HyperedgeWeight :=
  (if pin_count_in_to_part_after =? 1 then edge_weight else 0) +
  (if pin_count_in_from_part_after =? 0 then - edge_weight else 0).

(** *** Bulk initialisation after [setOnlyNodePart] *)

(** [applyPartWeightUpdates]: one [fetch_add] per block. *)
Definition applyPartWeightUpdates (part_weight_deltas : PartitionID -> HypernodeWeight)
  (s : PartitionedHypergraph) : PartitionedHypergraph :=
  fold_left (fun s' p =>
               with_part_weights
                 (snd (fetch_add (_part_weights s') p (part_weight_deltas p))) s')
            (range k) s.

(** [initializeBlockWeights]: the weights of the enabled nodes are
    accumulated in the local vector [pws] and applied.  One blocked
    range covers all nodes. *)
Definition initializeBlockWeights (s : PartitionedHypergraph) : PartitionedHypergraph :=
  let pws :=
    fold_left (fun (pws : PartitionID -> HypernodeWeight) u =>
                 if nodeIsEnabled hg u
                 then upd pws (partID s u) (pws (partID s u) + nodeWeight hg u)
                 else pws)
              (range (initialNumNodes hg)) (fun _ => 0) in
  applyPartWeightUpdates pws s.

(** Body of [assign] for one edge: count the pins per block in the
    thread-local vector [pin_counts], then store every non-zero count
    and reset the vector. *)
Definition initializePinCountOfEdge
  (st : (PartitionID -> Z) * PartitionedHypergraph) (he : HyperedgeID)
  : (PartitionID -> Z) * PartitionedHypergraph :=
  let '(pin_counts, s) := st in
  if edgeIsEnabled hg he
  then
    let pin_counts1 :=
      fold_left (fun (c : PartitionID -> Z) pin => upd c (partID s pin) (c (partID s pin) + 1))
                (pins hg he) pin_counts in
    fold_left (fun (st' : (PartitionID -> Z) * PartitionedHypergraph) p =>
                 let '(c, s') := st' in
                 let s'' :=
                   if 0 <? c p
                   then with_pins_in_part
                          (setPinCountInPart (_pins_in_part s') he p (c p))
                          (with_connectivity_set (cs_add (_connectivity_set s') he p) s')
                   else s' in
                 (upd c p 0, s''))
              (range k) (pin_counts1, s)
  else st.

Definition initializePinCountInPart (s : PartitionedHypergraph) : PartitionedHypergraph :=
  snd (fold_left initializePinCountOfEdge (range (initialNumEdges hg)) (fun _ => 0, s)).

(** The two tasks of the [parallel_invoke] work on disjoint members. *)
Definition initializePartition (s : PartitionedHypergraph) : PartitionedHypergraph :=
  initializePinCountInPart (initializeBlockWeights s).

(** *** Gain cache initialisation *)

(** The lambda [aggregate_contribution_of_he_for_vertex]; the three
    references it updates are returned as a triple
    (l_move_from_benefit, incident_edges_weight, l_move_to_penalty). *)
Definition aggregate_contribution_of_he_for_vertex
  (s : PartitionedHypergraph) (block_of_u : PartitionID)
  (acc : HyperedgeWeight * HyperedgeWeight * (PartitionID -> HyperedgeWeight))
  (he : HyperedgeID)
  : HyperedgeWeight * HyperedgeWeight * (PartitionID -> HyperedgeWeight) :=
  let '(l_move_from_benefit, incident_edges_weight, l_move_to_penalty) := acc in
  let edge_weight := edgeWeight hg he in
  let l_move_from_benefit' :=
    if pinCountInPart s he block_of_u =? 1
    then l_move_from_benefit + edge_weight else l_move_from_benefit in
  let l_move_to_penalty' :=
    fold_left (fun (m : PartitionID -> HyperedgeWeight) block => upd m block (m block - edge_weight))
              (connectivitySet s he) l_move_to_penalty in
  (l_move_from_benefit', incident_edges_weight + edge_weight, l_move_to_penalty').

(** [for (p = 0; p < _k; ++p) { penalty[penalty_index(u,p)].store(v p + w); v[p] = 0; }] *)
Definition store_penalties_and_reset
  (u : HypernodeID) (incident_edges_weight : HyperedgeWeight)
  (st : (PartitionID -> HyperedgeWeight) * PartitionedHypergraph)
  : (PartitionID -> HyperedgeWeight) * PartitionedHypergraph :=
  fold_left (fun (st' : (PartitionID -> HyperedgeWeight) * PartitionedHypergraph) p =>
               let '(m, s') := st' in
               (upd m p 0,
                with_move_to_penalty
                  (upd (_move_to_penalty s') (penalty_index u p) (m p + incident_edges_weight))
                  s'))
            (range k) st.

(** The low-degree path for one node: a sequential pass over its
    incident edges with the thread-local vector [l_move_to_penalty]. *)
Definition initializeGainOfLowDegreeNode
  (u : HypernodeID)
  (st : (PartitionID -> HyperedgeWeight) * PartitionedHypergraph)
  : (PartitionID -> HyperedgeWeight) * PartitionedHypergraph :=
  let '(l_move_to_penalty, s) := st in
  let from := partID s u in
  let '(l_move_from_benefit, incident_edges_weight, l_move_to_penalty1) :=
    fold_left (aggregate_contribution_of_he_for_vertex s from)
              (incidentEdges hg u) (0, 0, l_move_to_penalty) in
  let s1 := with_move_from_benefit (upd (_move_from_benefit s) u l_move_from_benefit) s in
  store_penalties_and_reset u incident_edges_weight (l_move_to_penalty1, s1).

(** Thread-local storage of the reduction: per worker the benefit so
    far, the incident edge weight so far and its penalty vector. *)
Record ThreadLocals := {
  ets_mfb : nat -> HyperedgeWeight;
  ets_iew : nat -> HyperedgeWeight;
  ets_mtp : nat -> PartitionID -> HyperedgeWeight
}.

Definition upd_nat {V : Type} (f : nat -> V) (i : nat) (v : V) : nat -> V :=
  fun j => if Nat.eqb j i then v else f j.

(** One blocked range of incident-net positions, run by worker [t]. *)
Definition runBlockedRange
  (s : PartitionedHypergraph) (from : PartitionID)
  (tl : ThreadLocals) (chunk : nat * list HyperedgeID) : ThreadLocals :=
  let '(t, hes) := chunk in
  let '(mfb, iew, mtp) :=
    fold_left (aggregate_contribution_of_he_for_vertex s from) hes
              (ets_mfb tl t, ets_iew tl t, ets_mtp tl t) in
  {| ets_mfb := upd_nat (ets_mfb tl) t mfb;
     ets_iew := upd_nat (ets_iew tl) t iew;
     ets_mtp := upd_nat (ets_mtp tl) t mtp |}.

(** [ets.combine(std::plus)] over the workers. *)
Definition ets_combine (num_threads : nat) (f : nat -> HyperedgeWeight) : HyperedgeWeight :=
  sumZ f (seq 0 num_threads).

(** The high-degree path for one node.  [schedule] lists the blocked
    ranges of its incident nets in the order they ran, each with the
    worker that ran it; the per-worker penalty vectors [mtp] are shared
    with the low-degree stage and are reset while they are summed. *)
Definition initializeGainOfHighDegreeNode
  (num_threads : nat) (schedule : list (nat * list HyperedgeID))
  (u : HypernodeID)
  (st : (nat -> PartitionID -> HyperedgeWeight) * PartitionedHypergraph)
  : (nat -> PartitionID -> HyperedgeWeight) * PartitionedHypergraph :=
  let '(mtp, s) := st in
  let from := partID s u in
  let tl :=
    fold_left (runBlockedRange s from) schedule
              {| ets_mfb := fun _ => 0; ets_iew := fun _ => 0; ets_mtp := mtp |} in
  let s1 :=
    with_move_from_benefit
      (upd (_move_from_benefit s) u (ets_combine num_threads (ets_mfb tl))) s in
  let incident_edges_weight := ets_combine num_threads (ets_iew tl) in
  fold_left (fun (st' : (nat -> PartitionID -> HyperedgeWeight) * PartitionedHypergraph) p =>
               let '(m, s') := st' in
               let move_to_penalty := ets_combine num_threads (fun t => m t p) in
               (fun t => if (t <? num_threads)%nat then upd (m t) p 0 else m t,
                with_move_to_penalty
                  (upd (_move_to_penalty s') (penalty_index u p)
                       (move_to_penalty + incident_edges_weight)) s'))
            (range k) (ets_mtp tl, s1).

(** [initializeGainInformation].  Stage 1 visits all nodes on worker 0
    and collects the high-degree ones; stage 2 runs the reduction for
    each of them with the blocked ranges [schedule u]. *)
Definition initializeGainInformation
  (num_threads : nat) (schedule : HypernodeID -> list (nat * list HyperedgeID))
  (s : PartitionedHypergraph) : PartitionedHypergraph :=
  let '(l_mtp, high_degree_vertices, s1) :=
    fold_left (fun (st : (PartitionID -> HyperedgeWeight) * list HypernodeID * PartitionedHypergraph) u =>
                 let '(l, high, s') := st in
                 if nodeIsEnabled hg u
                 then if nodeDegree hg u <=? HIGH_DEGREE_THRESHOLD
                      then let '(l', s'') := initializeGainOfLowDegreeNode u (l, s') in
                           (l', high, s'')
                      else (l, high ++ [u], s')
                 else st)
              (range (initialNumNodes hg)) (fun _ => 0, [], s) in
  let '(_, s2) :=
    fold_left (fun st u => initializeGainOfHighDegreeNode num_threads (schedule u) u st)
              high_degree_vertices
              (fun t => if Nat.eqb t 0 then l_mtp else fun _ => 0, s1) in
  with_is_gain_cache_initialized true s2.

(** *** Well-formedness and the tracked invariants *)

(** What the partitioned hypergraph relies on from the hypergraph: pin
    and incident-edge lists without repetition, enabled ids in range, and
    incidence read the same from both sides on the enabled part. *)
Record wf_hypergraph : Prop := {
  wf_pins_NoDup : forall e, NoDup (pins hg e);
  wf_incident_NoDup : forall u, NoDup (incidentEdges hg u);
  wf_node_range : forall u, nodeIsEnabled hg u = true -> 0 <= u < initialNumNodes hg;
  wf_edge_range : forall e, edgeIsEnabled hg e = true -> 0 <= e < initialNumEdges hg;
  wf_pins_enabled :
    forall e u, edgeIsEnabled hg e = true -> In u (pins hg e) -> nodeIsEnabled hg u = true;
  wf_incidence :
    forall u e, nodeIsEnabled hg u = true ->
      (In e (incidentEdges hg u) <-> edgeIsEnabled hg e = true /\ In u (pins hg e))
}.

(** Number of pins of [e] that [s] places in block [p], as a sum. *)
Definition pins_in_block (s : PartitionedHypergraph) (e : HyperedgeID) (p : PartitionID) : Z :=
  sumZ (fun v => if partID s v =? p then 1 else 0) (pins hg e).

(** Weight of the enabled nodes that [s] places in block [p]. *)
Definition weight_of_block (s : PartitionedHypergraph) (p : PartitionID) : HypernodeWeight :=
  sumZ (fun v => if partID s v =? p then nodeWeight hg v else 0) (nodes hg).

(** The stored pin counts are the recomputed ones. *)
Definition pin_count_inv (s : PartitionedHypergraph) : Prop :=
  forall e p, edgeIsEnabled hg e = true -> 0 <= p < k ->
    pinCountInPart s e p = pinCountInPartRecomputed s e p.

(** Invariant 2: a block is in the connectivity set of an edge exactly
    when the edge has a pin in it. *)
Definition connectivity_inv (s : PartitionedHypergraph) : Prop :=
  forall e p, edgeIsEnabled hg e = true -> 0 <= p < k ->
    (_connectivity_set s e p = true <-> 1 <= pinCountInPart s e p).

(** Invariant 3: the stored part weights are the recomputed ones. *)
Definition part_weight_inv (s : PartitionedHypergraph) : Prop :=
  forall p, 0 <= p < k -> partWeight s p = weight_of_block s p.

(** Invariant 1: the pin counts of an edge add up to its size. *)
Definition pin_sum_inv (s : PartitionedHypergraph) : Prop :=
  forall e, edgeIsEnabled hg e = true ->
    sumZ (pinCountInPart s e) (range k) = edgeSize hg e.

(** Every enabled node has a block. *)
Definition all_assigned (s : PartitionedHypergraph) : Prop :=
  forall u, nodeIsEnabled hg u = true -> 0 <= partID s u < k.

(** No edge is owned: the state between two moves of a sequential run. *)
Definition lock_free (s : PartitionedHypergraph) : Prop :=
  forall e, _pin_count_update_ownership s e = false.

(** The tracked partition information is consistent. *)
Record consistent (s : PartitionedHypergraph) : Prop := {
  cons_assigned : all_assigned s;
  cons_pin_count : pin_count_inv s;
  cons_connectivity : connectivity_inv s;
  cons_part_weight : part_weight_inv s;
  cons_lock_free : lock_free s
}.

(** The defining equations of the km1 gain cache (invariant 4). *)
Definition benefit_inv (s : PartitionedHypergraph) (v : HypernodeID) : Prop :=
  moveFromBenefit s v =
  sumZ (fun e => if pinCountInPart s e (partID s v) =? 1 then edgeWeight hg e else 0)
       (incidentEdges hg v).

Definition penalty_inv (s : PartitionedHypergraph) (v : HypernodeID) (p : PartitionID) : Prop :=
  moveToPenalty s v p =
  sumZ (fun e => if pinCountInPart s e p =? 0 then edgeWeight hg e else 0)
       (incidentEdges hg v).

(** Two states with the same partition members: part weights, part
    ids, pin counts and connectivity sets. *)
Definition same_partition (s s' : PartitionedHypergraph) : Prop :=
  _part_weights s = _part_weights s' /\
  _part_ids s = _part_ids s' /\
  _pins_in_part s = _pins_in_part s' /\
  _connectivity_set s = _connectivity_set s'.

(** A delta function that leaves the partition members and the
    ownership flags alone; it may change the gain cache and the
    caller's data. *)
Definition gain_only {A : Type} (delta_func : DeltaFunc A) : Prop :=
  forall he we sz c_from c_to s a,
    same_partition s (fst (delta_func he we sz c_from c_to (s, a))) /\
    _pin_count_update_ownership (fst (delta_func he we sz c_from c_to (s, a)))
    = _pin_count_update_ownership s.

(** The pin-count part of a move on one edge: decrement [from], then
    increment [to]. *)
Definition move_pin_of_edge (from to : PartitionID)
  (s : PartitionedHypergraph) (he : HyperedgeID) : PartitionedHypergraph :=
  snd (incrementPinCountInPartWithoutGainUpdate he to
         (snd (decrementPinCountInPartWithoutGainUpdate he from s))).

(** The state in which the incident edges of a moved node are visited:
    the part weights are shifted and the part id is already the new one. *)
Definition moved_header (s : PartitionedHypergraph) (u : HypernodeID) (from to : PartitionID)
  : PartitionedHypergraph :=
  with_part_ids (upd (_part_ids s) u to)
    (with_part_weights
       (upd (upd (_part_weights s) to (_part_weights s to + nodeWeight hg u)) from
            (upd (_part_weights s) to (_part_weights s to + nodeWeight hg u) from
             - nodeWeight hg u)) s).

(** The balance test as the code evaluates it: the weight of [to] after
    the addition, and the value [fetch_sub] hands back for [from], which
    is the weight of [from] before the subtraction. *)
Definition balance_test (s : PartitionedHypergraph) (u : HypernodeID)
           (from to : PartitionID) (max_weight_to : HypernodeWeight) : bool :=
  (partWeight s to + nodeWeight hg u <=? max_weight_to)
  && (0 <? upd (_part_weights s) to (_part_weights s to + nodeWeight hg u) from).

(** *** The effect of the delta update, entry by entry *)

(** 1 for the pin that the loop with [break] stops at, 0 for the others. *)
Definition first_pin_indicator (ids : HypernodeID -> PartitionID) (ps : list HypernodeID)
           (p : PartitionID) (x : HypernodeID) : Z :=
  match find (fun u => ids u =? p) ps with
  | Some u => if x =? u then 1 else 0
  | None => 0
  end.

(** How often the loop without [break] visits [x] as a pin in block [p]. *)
Definition pins_indicator (ids : HypernodeID -> PartitionID) (ps : list HypernodeID)
           (p : PartitionID) (x : HypernodeID) : Z :=
  sumZ (fun u => if (u =? x) && (ids u =? p) then 1 else 0) ps.

(** How often a loop over the pins writes slot [i] of the penalty array
    when it writes the slots of block [p]. *)
Definition index_count (ps : list HypernodeID) (p : PartitionID) (i : Z) : Z :=
  sumZ (fun u => if penalty_index u p =? i then 1 else 0) ps.

(** What one call of [gainCacheUpdate] adds to the benefit of [x]. *)
Definition benefit_delta (ids : HypernodeID -> PartitionID) (ps : list HypernodeID)
           (we : HyperedgeWeight) (from : PartitionID) (c_from : Z)
           (to : PartitionID) (c_to : Z) (x : HypernodeID) : Z :=
  (if c_from =? 1 then we * first_pin_indicator ids ps from x else 0)
  - (if c_to =? 1 then 0 else if c_to =? 2 then we * pins_indicator ids ps to x else 0).

(** What one call of [gainCacheUpdate] adds to slot [i] of the penalty array. *)
Definition penalty_delta (ps : list HypernodeID)
           (we : HyperedgeWeight) (from : PartitionID) (c_from : Z)
           (to : PartitionID) (c_to : Z) (i : Z) : Z :=
  (if c_from =? 1 then 0 else if c_from =? 0 then we * index_count ps from i else 0)
  - (if c_to =? 1 then we * index_count ps to i else 0).

(** A delta function of the caller that stays away from the partitioned
    hypergraph. *)
Definition caller_only {A : Type} (delta_func : DeltaFunc A) : Prop :=
  forall he we sz c_from c_to s a, fst (delta_func he we sz c_from c_to (s, a)) = s.

(** *** Reachable states *)

(** Assignment of blocks with [setNodePart], which tracks weights and
    pin counts as it goes. *)
Inductive assigning : PartitionedHypergraph -> Prop :=
| assigning_construct : assigning construct
| assigning_setNodePart s u p :
    assigning s ->
    nodeIsEnabled hg u = true -> partID s u = kInvalidPartition -> 0 <= p < k ->
    assigning (setNodePart u p s).

(** Assignment of blocks with [setOnlyNodePart] alone. *)
Inductive assigning_only : PartitionedHypergraph -> Prop :=
| assigning_only_construct : assigning_only construct
| assigning_only_setOnlyNodePart s u p :
    assigning_only s ->
    partID s u = kInvalidPartition -> 0 <= p < k ->
    assigning_only (setOnlyNodePart u p s).

(** States reached by a complete initial assignment, in either way,
    followed by successful moves.  A move is any call of
    [changeNodePart] that meets its preconditions, with a delta function
    that leaves the partition members alone (the no-op one, or the one of
    [changeNodePartFullUpdate]). *)
Inductive reachable : PartitionedHypergraph -> Prop :=
| reachable_setNodePart s :
    assigning s -> all_assigned s -> reachable s
| reachable_initializePartition s :
    assigning_only s -> all_assigned s -> reachable (initializePartition s)
| reachable_changeNodePart (A : Type) s (a : A) u from to max_weight_to
                           report_success (delta_func : DeltaFunc A) s' a' :
    reachable s ->
    gain_only delta_func ->
    nodeIsEnabled hg u = true -> partID s u = from -> from <> to -> 0 <= to < k ->
    changeNodePart u from to max_weight_to report_success delta_func (s, a)
    = Some (true, (s', a')) ->
    reachable s'.

(** *** Predicates of the properties

    States and entries the facts about initialisation and the gain
    cache are phrased with. *)

(** The invariants that hold while blocks are being assigned: nodes
    without a block count for no block. *)
Definition tracked (s : PartitionedHypergraph) : Prop :=
  pin_count_inv s /\ connectivity_inv s /\ part_weight_inv s /\ lock_free s.

(** A state in which only part ids were written since construction. *)
Definition fresh (s : PartitionedHypergraph) : Prop :=
  _pins_in_part s = (fun _ _ => 0) /\ _connectivity_set s = (fun _ _ => false) /\
  _part_weights s = (fun _ => 0) /\ _pin_count_update_ownership s = (fun _ => false).

(** The weight an edge takes away from the penalty of block [p]: its
    own, when [p] is in its connectivity set. *)
Definition in_connectivity_set (s : PartitionedHypergraph) (e : HyperedgeID) (p : PartitionID)
  : bool :=
  existsb (Z.eqb p) (connectivitySet s e).

(** The entries the code computes for one node: the benefit, and for a
    block the incident edge weight less the weight of the edges that
    have the block in their connectivity set. *)
Definition computed_benefit (s : PartitionedHypergraph) (u : HypernodeID) : HyperedgeWeight :=
  sumZ (fun e => if pinCountInPart s e (partID s u) =? 1 then edgeWeight hg e else 0)
       (incidentEdges hg u).

Definition computed_penalty (s : PartitionedHypergraph) (u : HypernodeID) (p : PartitionID)
  : HyperedgeWeight :=
  sumZ (edgeWeight hg) (incidentEdges hg u)
  - sumZ (fun e => if in_connectivity_set s e p then edgeWeight hg e else 0)
         (incidentEdges hg u).

(** What the initialisation of one node leaves behind, on either path. *)
Definition node_initialised (s s' : PartitionedHypergraph) (u : HypernodeID) : Prop :=
  same_partition s s' /\
  _pin_count_update_ownership s' = _pin_count_update_ownership s /\
  moveFromBenefit s' u = computed_benefit s u /\
  (forall q, 0 <= q < k -> moveToPenalty s' u q = computed_penalty s u q) /\
  (forall v, v <> u -> moveFromBenefit s' v = moveFromBenefit s v) /\
  (forall v q, v <> u -> 0 <= q < k -> moveToPenalty s' v q = moveToPenalty s v q).

Definition zero_vector (l : Z -> Z) : Prop := forall q, 0 <= q < k -> l q = 0.

Definition zero_vectors (T : nat) (m : nat -> Z -> Z) : Prop :=
  forall t q, (t < T)%nat -> 0 <= q < k -> m t q = 0.

(** The blocked ranges of a node cover its incident nets, each net
    once, and are run by workers that exist. *)
Definition valid_ranges (T : nat) (u : HypernodeID) (sched : list (nat * list Z)) : Prop :=
  Forall (fun c => (fst c < T)%nat) sched /\
  Permutation (concat (map snd sched)) (incidentEdges hg u).

Definition is_low_degree (u : HypernodeID) : bool :=
  nodeIsEnabled hg u && (nodeDegree hg u <=? HIGH_DEGREE_THRESHOLD).

Definition is_high_degree (u : HypernodeID) : bool :=
  nodeIsEnabled hg u && negb (nodeDegree hg u <=? HIGH_DEGREE_THRESHOLD).

(** The members a loop of [gainCacheUpdate] does not write. *)
Definition gain_frame (s s' : PartitionedHypergraph) : Prop :=
  same_partition s s' /\
  _pin_count_update_ownership s' = _pin_count_update_ownership s.

End Operations.

End PHG.

(* ------------------------------------------------------------------ *)
(** ** fm_details.h *)

Module FM.

Import PHG.

Section Details.

Variable hg : Hypergraph.
Variable k : PartitionID.
(** [context.partition.max_part_weights] *)
Variable max_part_weights : PartitionID -> HypernodeWeight.

(** One iteration of the loop over the blocks; the accumulator is
    ([to], [to_penalty], [best_to_weight]). *)
Definition bestDestinationBlock_step
  (s : PartitionedHypergraph) (u : HypernodeID) (from : PartitionID) (wu : HypernodeWeight)
  (acc : PartitionID * HyperedgeWeight * HypernodeWeight) (i : PartitionID)
  : PartitionID * HyperedgeWeight * HypernodeWeight :=
  let '(to, to_penalty, best_to_weight) := acc in
  if negb (i =? from)
  then
    let to_weight := partWeight s i in
    let penalty := moveToPenalty k s u i in
    if ((penalty <? to_penalty) || ((penalty =? to_penalty) && (to_weight <? best_to_weight)))
       && (to_weight + wu <=? max_part_weights i)
    then (i, penalty, to_weight)
    else acc
  else acc.

Definition bestDestinationBlock (s : PartitionedHypergraph) (u : HypernodeID)
  : PartitionID * HyperedgeWeight :=
  let wu := nodeWeight hg u in
  let from := partID s u in
  let from_weight := partWeight s from in
  let '(to, to_penalty, _) :=
    fold_left (bestDestinationBlock_step s u from wu) (range k)
              (kInvalidPartition, HyperedgeWeight_max, from_weight - wu) in
  let gain :=
    if negb (to =? kInvalidPartition)
    then moveFromBenefit s u - to_penalty
    else HyperedgeWeight_min in
  (to, gain).

(** Block [b] can take [u]: it is a block other than the one of [u]
    and its weight with [u] added stays within its limit. *)
Definition feasible (s : PartitionedHypergraph) (u : HypernodeID) (b : PartitionID) : Prop :=
  0 <= b < k /\ b <> partID s u /\
  partWeight s b + nodeWeight hg u <= max_part_weights b.

(** [b] is at least as good a destination as [b']: smaller penalty, or
    the same penalty and no more weight. *)
Definition no_worse (s : PartitionedHypergraph) (u : HypernodeID) (b b' : PartitionID) : Prop :=
  moveToPenalty k s u b < moveToPenalty k s u b' \/
  (moveToPenalty k s u b = moveToPenalty k s u b' /\ partWeight s b <= partWeight s b').

(** State of the search of [bestDestinationBlock] after the blocks
    satisfying [seen] were visited: nothing chosen and nothing feasible
    seen, or the chosen block is feasible and no worse than the feasible
    blocks seen. *)
Definition search_inv (s : PartitionedHypergraph) (u : HypernodeID)
           (seen : PartitionID -> Prop)
           (acc : PartitionID * HyperedgeWeight * HypernodeWeight) : Prop :=
  let '(to, to_penalty, best_to_weight) := acc in
  (to = kInvalidPartition /\ to_penalty = HyperedgeWeight_max /\
   forall b, seen b -> ~ feasible s u b) \/
  (feasible s u to /\ to_penalty = moveToPenalty k s u to /\
   best_to_weight = partWeight s to /\
   forall b, seen b -> feasible s u b -> no_worse s u to b).

End Details.

End FM.

(* ------------------------------------------------------------------ *)
(** ** Concrete instances *)

Module Scenarios.

Import PHG.

(** A hypergraph given by its pin lists: node and edge weights are
    functions, the incident edges of a node are the edges that list it,
    in ascending order; everything is enabled. *)
Definition hypergraph_of
  (num_nodes : Z) (edge_pins : list (list HypernodeID))
  (node_weight : HypernodeID -> HypernodeWeight) (edge_weight : HyperedgeID -> HyperedgeWeight)
  : Hypergraph :=
  let num_edges := Z.of_nat (length edge_pins) in
  let pins_of := fun e => nth (Z.to_nat e) edge_pins [] in
  {| initialNumNodes := num_nodes;
     initialNumEdges := num_edges;
     nodeWeight := node_weight;
     edgeWeight := edge_weight;
     pins := fun e => if (0 <=? e) && (e <? num_edges) then pins_of e else [];
     incidentEdges := fun u =>
       filter (fun e => existsb (Z.eqb u) (pins_of e)) (range num_edges);
     nodeIsEnabled := fun u => (0 <=? u) && (u <? num_nodes);
     edgeIsEnabled := fun e => (0 <=? e) && (e <? num_edges) |}.

(** Assign [part_id] to the nodes 0, 1, ... with [setOnlyNodePart], then
    [initializePartition] and [initializeGainInformation] (one worker,
    no high-degree node). *)
Definition assigned_only (part_id : list PartitionID) : PartitionedHypergraph :=
  fold_left (fun s up => setOnlyNodePart (fst up) (snd up) s)
            (combine (range (Z.of_nat (length part_id))) part_id) construct.

Definition partitioned (hg : Hypergraph) (k : PartitionID) (part_id : list PartitionID)
  : PartitionedHypergraph :=
  initializeGainInformation hg k 1 (fun _ => [])
    (initializePartition hg k (assigned_only part_id)).

(** Scenario 1 of the specification: V = {0,1}, e = {0,1}, unit
    weights, k = 2, part_id = [0,1]. *)
Definition smallest_hg : Hypergraph := hypergraph_of 2 [[0; 1]] (fun _ => 1) (fun _ => 1).
Definition smallest : PartitionedHypergraph := partitioned smallest_hg 2 [0; 1].

(** Scenario 3 of the specification: V = {0,1,2,3}, e = {0,1,2,3},
    unit weights, k = 2, part_id = [0,0,0,1]. *)
Definition delta_hg : Hypergraph := hypergraph_of 4 [[0; 1; 2; 3]] (fun _ => 1) (fun _ => 1).
Definition delta_phg : PartitionedHypergraph := partitioned delta_hg 2 [0; 0; 0; 1].

(** The state a move returns, or the state it was called on when the
    call does not return. *)
Definition state_after {A : Type} (r : option (bool * (PartitionedHypergraph * A)))
           (s : PartitionedHypergraph) : PartitionedHypergraph :=
  match r with
  | Some (_, (s', _)) => s'
  | None => s
  end.

(** Scenario 3 after node 2 went from block 0 to block 1 with the full
    gain-cache update, and after it went back; each block may carry
    weight 3. *)
Definition delta_moved : PartitionedHypergraph :=
  state_after (changeNodePartFullUpdate delta_hg 2 2 0 1 3 (fun a => a) NOOP_FUNC
                 (delta_phg, tt)) delta_phg.
Definition delta_back : PartitionedHypergraph :=
  state_after (changeNodePartFullUpdate delta_hg 2 2 1 0 3 (fun a => a) NOOP_FUNC
                 (delta_moved, tt)) delta_moved.

(** A move with a gain: V = {0,1,2}, e = {0,1}, unit weights, k = 2,
    part_id = [0,1,0]; node 0 goes from block 0 to block 1, which may
    carry weight 3, and leaves node 2 behind in block 0. *)
Definition gain_hg : Hypergraph := hypergraph_of 3 [[0; 1]] (fun _ => 1) (fun _ => 1).
Definition gain_phg : PartitionedHypergraph := partitioned gain_hg 2 [0; 1; 0].
Definition gain_moved : PartitionedHypergraph :=
  state_after (changeNodePart gain_hg 0 0 1 3 (fun a => a) NOOP_FUNC (gain_phg, tt)) gain_phg.

(** A node whose only edge carries the largest edge weight:
    V = {0,1,2}, e = {0,2} of weight 2^31 - 1, unit node weights, k = 2,
    part_id = [0,1,0], every block limited to weight 3. *)
Definition heavy_hg : Hypergraph :=
  hypergraph_of 3 [[0; 2]] (fun _ => 1) (fun _ => HyperedgeWeight_max).
Definition heavy_phg : PartitionedHypergraph := partitioned heavy_hg 2 [0; 1; 0].
Definition heavy_max_part_weights : PartitionID -> HypernodeWeight := fun _ => 3.

(** A star of 100001 two-pin edges {0,1}: both nodes have degree
    100001.  Node 0 is in block 0, node 1 in block 1, so every edge has
    one pin in each block. *)
Definition star_hg : Hypergraph :=
  {| initialNumNodes := 2;
     initialNumEdges := 100001;
     nodeWeight := fun _ => 1;
     edgeWeight := fun _ => 1;
     pins := fun e => if (0 <=? e) && (e <? 100001) then [0; 1] else [];
     incidentEdges := fun u => if (0 <=? u) && (u <? 2) then range 100001 else [];
     nodeIsEnabled := fun u => (0 <=? u) && (u <? 2);
     edgeIsEnabled := fun e => (0 <=? e) && (e <? 100001) |}.

Definition star_phg : PartitionedHypergraph :=
  {| _is_gain_cache_initialized := false;
     _part_weights := fun p => if (0 <=? p) && (p <? 2) then 1 else 0;
     _part_ids := fun u => if u =? 0 then 0 else if u =? 1 then 1 else kInvalidPartition;
     _pins_in_part := fun e p =>
       if (0 <=? e) && (e <? 100001) && (0 <=? p) && (p <? 2) then 1 else 0;
     _connectivity_set := fun e p => (0 <=? e) && (e <? 100001) && (0 <=? p) && (p <? 2);
     _move_to_penalty := fun _ => 0;
     _move_from_benefit := fun _ => 0;
     _pin_count_update_ownership := fun _ => false |}.

End Scenarios.

(* ------------------------------------------------------------------ *)
(** ** NumaWorkQueue and its use by MultiTryKWayFM *)

Module NumaQueue.
Import WorkQueue.

Section Queue.
Variable Work : Type.

(** [vec<ConcurrentDataContainer<Work>> queues], one per socket. *)
Record NumaWorkQueue := { queues : list (ConcurrentDataContainer Work) }.

(** A container holds the stack [st] (top last): its size is the height
    of the stack, which fills the front of the vector; the vector is
    shorter than the largest [size_t]. *)
Definition holds (c : ConcurrentDataContainer Work) (st : list Work) : Prop :=
  size c = Z.of_nat (length st) /\ firstn (length st) (elements c) = st /\
  Z.of_nat (length (elements c)) < 2 ^ 64 - 1.

(** [NumaWorkQueue(numSockets, maxNumElements)] *)
Definition make (Work_default : Work) (numSockets maxNumElements : nat) : NumaWorkQueue :=
  {| queues := repeat (WorkQueue.make Work Work_default maxNumElements) numSockets |}.

(** [queues[i] = c] *)
Fixpoint set_queue (qs : list (ConcurrentDataContainer Work)) (i : nat)
         (c : ConcurrentDataContainer Work) : list (ConcurrentDataContainer Work) :=
  match qs, i with
  | [], _ => []
  | _ :: qs', O => c :: qs'
  | q :: qs', S i' => q :: set_queue qs' i' c
  end.

(** [std::all_of(queues, q.empty())] *)
Definition empty (q : NumaWorkQueue) : bool := forallb WorkQueue.empty (queues q).

(** [push(w, socket) { queues[socket].push_back(w); }] *)
Definition push (w : Work) (socket : nat) (q : NumaWorkQueue) : outcome NumaWorkQueue :=
  match nth_error (queues q) socket with
  | None => OutOfBounds (Z.of_nat socket)
  | Some c =>
      match push_back w c with
      | Done c' => Done {| queues := set_queue (queues q) socket c' |}
      | OutOfBounds i => OutOfBounds i
      end
  end.

(** The scan of [tryPop] for the queue of largest size: the accumulator
    is ([maxIndex], [maxSize]), the comparison is strict. *)
Definition largest_queue (qs : list (ConcurrentDataContainer Work)) : nat * Z :=
  fold_left (fun (acc : nat * Z) (i : nat) =>
               let '(maxIndex, maxSize) := acc in
               match nth_error qs i with
               | Some c => if maxSize <? unsafe_size c then (i, unsafe_size c) else acc
               | None => acc
               end)
            (seq 0 (length qs)) (O, 0).

(** [tryPop(dest, preferredSocket)]: the preferred queue first, then the
    largest one.  The triple is (returned flag, [dest] after the call,
    queue after the call). *)
Definition tryPop (dest : Work) (preferredSocket : nat) (q : NumaWorkQueue)
  : outcome (bool * Work * NumaWorkQueue) :=
  match nth_error (queues q) preferredSocket with
  | None => OutOfBounds (Z.of_nat preferredSocket)
  | Some c =>
      match try_pop dest c with
      | OutOfBounds i => OutOfBounds i
      | Done (true, x, c') =>
          Done (true, x, {| queues := set_queue (queues q) preferredSocket c' |})
      | Done (false, dest1, c') =>
          let qs1 := set_queue (queues q) preferredSocket c' in
          let maxIndex := fst (largest_queue qs1) in
          match nth_error qs1 maxIndex with
          | None => OutOfBounds (Z.of_nat maxIndex)
          | Some cm =>
              match try_pop dest1 cm with
              | OutOfBounds i => OutOfBounds i
              | Done (b, x, cm') => Done (b, x, {| queues := set_queue qs1 maxIndex cm' |})
              end
          end
      end
  end.

(** [unsafe_size]: the sizes added up in a [size_t]. *)
Definition unsafe_size (q : NumaWorkQueue) : Z :=
  fold_left (fun s c => size_t_wrap (s + WorkQueue.unsafe_size c)) (queues q) 0.

End Queue.

Arguments queues {Work} n.
Arguments holds {Work} c st.
Arguments empty {Work} q.
Arguments push {Work} w socket q.
Arguments tryPop {Work} dest preferredSocket q.
Arguments unsafe_size {Work} q.
Arguments largest_queue {Work} qs.
Arguments set_queue {Work} qs i c.

End NumaQueue.

(* ------------------------------------------------------------------ *)
(** ** multitry_kway_fm.h: the seeds of a round *)

Module MultiTry.
Import WorkQueue PHG.

Section Round.

Variable hg : Hypergraph.
Variable k : PartitionID.

(** [common::get_numa_node_of_vertex] *)
Variable get_numa_node_of_vertex : HypernodeID -> nat.

(** The state the searches work on (partitioned hypergraph and shared
    data) and [fm.findMoves(phg, u, sharedData, searchID)], which is
    not part of the sources and does not touch the work queue. *)
Variable SearchState : Type.
Variable findMoves : HypernodeID -> SearchState -> SearchState.

(** The loop of [initialize] that inserts the border nodes into the
    work queues, in ascending order of the node ids. *)
Definition insertBorderNodes (s : PartitionedHypergraph)
           (refinementNodes : NumaQueue.NumaWorkQueue HypernodeID)
  : outcome (NumaQueue.NumaWorkQueue HypernodeID) :=
  fold_left (fun (acc : outcome (NumaQueue.NumaWorkQueue HypernodeID)) u =>
               match acc with
               | Done q =>
                   if isBorderNode hg k s u
                   then NumaQueue.push u (get_numa_node_of_vertex u) q
                   else Done q
               | OutOfBounds i => OutOfBounds i
               end)
            (range (initialNumNodes hg)) (Done refinementNodes).

(** How the loop of a task ends: [tryPop] returned false, it indexed a
    vector outside its bounds, or the loop is still running when the
    fuel is used up. *)
Inductive exit : Type :=
| Returned
| IndexedOutside (index : Z)
| StillRunning.

(** [while (refinementNodes.tryPop(u, socket)) fm.findMoves(phg, u, ...)]
    on one socket.  The result is the way the loop ends, the queue and
    the search state it leaves. *)
Fixpoint task (fuel : nat) (socket : nat) (u : HypernodeID)
         (refinementNodes : NumaQueue.NumaWorkQueue HypernodeID) (st : SearchState)
  : exit * NumaQueue.NumaWorkQueue HypernodeID * SearchState :=
  match fuel with
  | O => (StillRunning, refinementNodes, st)
  | S fuel' =>
      match NumaQueue.tryPop u socket refinementNodes with
      | OutOfBounds i => (IndexedOutside i, refinementNodes, st)
      | Done (false, _, q') => (Returned, q', st)
      | Done (true, u', q') => task fuel' socket u' q' (findMoves u' st)
      end
  end.

End Round.

End MultiTry.

(* ------------------------------------------------------------------ *)
(** ** Instances of the work queue *)

Module QueueInstances.
Import WorkQueue.

(** Two sockets with vectors of two slots: the queue of socket 0 is
    empty, the one of socket 1 holds node 7. *)
Definition one_seed : ConcurrentDataContainer Z :=
  Build_ConcurrentDataContainer Z 1 [7; 0].
Definition two_sockets : NumaQueue.NumaWorkQueue Z :=
  NumaQueue.Build_NumaWorkQueue Z [empty2; one_seed].

(** One socket with a vector of four slots, empty. *)
Definition empty4 : ConcurrentDataContainer Z := WorkQueue.make Z 0 4.

End QueueInstances.

(* ------------------------------------------------------------------ *)
(** ** fm_details.h: the gain update of a vertex in the queue *)

Module FMUpdate.
Import PHG FM.

Section Details.

Variable hg : Hypergraph.
Variable k : PartitionID.
Variable max_part_weights : PartitionID -> HypernodeWeight.

(** One iteration of the loop of [bestOfThree] over [parts]: the
    block of [u] and the invalid block are skipped. *)
Definition bestOfThree_step
  (s : PartitionedHypergraph) (u : HypernodeID) (from : PartitionID) (wu : HypernodeWeight)
  (acc : PartitionID * HyperedgeWeight * HypernodeWeight) (i : PartitionID)
  : PartitionID * HyperedgeWeight * HypernodeWeight :=
  let '(to, to_penalty, best_to_weight) := acc in
  if negb (i =? from) && negb (i =? kInvalidPartition)
  then
    let to_weight := partWeight s i in
    let penalty := moveToPenalty k s u i in
    if ((penalty <? to_penalty) || ((penalty =? to_penalty) && (to_weight <? best_to_weight)))
       && (to_weight + wu <=? max_part_weights i)
    then (i, penalty, to_weight)
    else acc
  else acc.

(** [bestOfThree(phg, u, from, parts)], [parts] a [std::array] of three
    blocks. *)
Definition bestOfThree (s : PartitionedHypergraph) (u : HypernodeID) (from : PartitionID)
           (parts : PartitionID * PartitionID * PartitionID)
  : PartitionID * HyperedgeWeight :=
  let wu := nodeWeight hg u in
  let from_weight := partWeight s from in
  let '(p0, p1, p2) := parts in
  let '(to, to_penalty, _) :=
    fold_left (bestOfThree_step s u from wu) [p0; p1; p2]
              (kInvalidPartition, HyperedgeWeight_max, from_weight - wu) in
  let gain :=
    if negb (to =? kInvalidPartition)
    then moveFromBenefit s u - to_penalty
    else HyperedgeWeight_min in
  (to, gain).

(** The pair ([newTarget], [gain]) that [updateGain(phg, v, move)]
    computes from the designated target of [v] and the two blocks of
    the move; it is then stored in [targetPart[v]] and handed to the
    priority queue, which are not part of the sources. *)
Definition updateGain (s : PartitionedHypergraph) (v : HypernodeID)
           (designatedTargetV : PartitionID) (move_from move_to : PartitionID)
  : PartitionID * HyperedgeWeight :=
  let pv := partID s v in
  if (k <? 4) || (designatedTargetV =? move_from) || (designatedTargetV =? move_to)
  then bestDestinationBlock hg k max_part_weights s v
  else bestOfThree s v pv (designatedTargetV, move_from, move_to).

(** The three blocks handed to [bestOfThree] are block ids or the
    invalid block. *)
Definition valid_parts (parts : PartitionID * PartitionID * PartitionID) : Prop :=
  let '(p0, p1, p2) := parts in
  forall i, In i [p0; p1; p2] -> i = kInvalidPartition \/ 0 <= i < k.

Definition part_of (parts : PartitionID * PartitionID * PartitionID) (b : PartitionID) : Prop :=
  let '(p0, p1, p2) := parts in In b [p0; p1; p2].

End Details.

End FMUpdate.

(* ------------------------------------------------------------------ *)
(** ** Further instances *)

Module Instances.
Import PHG Scenarios.

(** Four blocks: V = {0,1,2,3}, edges {0,1} and {0,2}, unit weights,
    k = 4, part_id = [0,1,2,3]; every block may carry weight 2. *)
Definition four_hg : Hypergraph := hypergraph_of 4 [[0; 1]; [0; 2]] (fun _ => 1) (fun _ => 1).
Definition four_phg : PartitionedHypergraph := partitioned four_hg 4 [0; 1; 2; 3].
Definition four_max_part_weights : PartitionID -> HypernodeWeight := fun _ => 2.

End Instances.

(* ------------------------------------------------------------------ *)
(** ** partitioned_hypergraph.h: resetting, recomputing, checking,
       restoring and extracting *)

Module Maintenance.
Import PHG.

(** Modelled from the spec: hypergraph_common.h is not part of the
    sources; the invalid node id and the invalid edge id are the largest
    values of the 32-bit types of the ids. *)
Definition kInvalidHypernode : HypernodeID := 2 ^ 32 - 1.
Definition kInvalidHyperedge : HyperedgeID := 2 ^ 32 - 1.

(** [struct ParallelHyperedge] of a removed single-pin or parallel net. *)
Record ParallelHyperedge := {
  removed_hyperedge : HyperedgeID;
  representative : HyperedgeID
}.

(** What [extract] hands to [HypergraphFactory::construct], and the
    node mapping it returns. *)
Record Extracted := {
  num_hypernodes : Z;
  num_hyperedges : Z;
  edge_vector : Z -> list HypernodeID;
  hyperedge_weight : Z -> HyperedgeWeight;
  hypernode_weight : Z -> HypernodeWeight;
  hn_mapping : HypernodeID -> HypernodeID
}.

Section Operations.

Variable hg : Hypergraph.
Variable k : PartitionID.

(** *** Partition information *)

Definition numIncidentCutHyperedges (s : PartitionedHypergraph) (u : HypernodeID) : Z :=
  fold_left (fun num_incident_cut_hyperedges he =>
               if 1 <? connectivity k s he
               then num_incident_cut_hyperedges + 1
               else num_incident_cut_hyperedges)
            (incidentEdges hg u) 0.

(** Modelled from the spec: [Hypergraph::setNodeWeight] stores the
    weight of one node. *)
Definition hg_setNodeWeight (u : HypernodeID) (weight : HypernodeWeight) : Hypergraph :=
  {| initialNumNodes := initialNumNodes hg;
     initialNumEdges := initialNumEdges hg;
     nodeWeight := upd (nodeWeight hg) u weight;
     edgeWeight := edgeWeight hg;
     pins := pins hg;
     incidentEdges := incidentEdges hg;
     nodeIsEnabled := nodeIsEnabled hg;
     edgeIsEnabled := edgeIsEnabled hg |}.

(** [setNodeWeight(u, weight)]: the weight of the block of [u] is
    shifted by the difference, then the hypergraph stores the weight. *)
Definition setNodeWeight (u : HypernodeID) (weight : HypernodeWeight)
           (s : PartitionedHypergraph) : Hypergraph * PartitionedHypergraph :=
  let block := partID s u in
  let s' :=
    if negb (block =? kInvalidPartition)
    then
      let delta := weight - nodeWeight hg u in
      with_part_weights (snd (fetch_add (_part_weights s) block delta)) s
    else s in
  (hg_setNodeWeight u weight, s').

(** [resetPartition]: all part ids invalid, all part weights zero; for
    every edge the pin counts of the blocks in its connectivity set are
    set to zero and the set is cleared. *)
Definition resetPartition (s : PartitionedHypergraph) : PartitionedHypergraph :=
  let s1 :=
    with_part_ids
      (fun u => if (0 <=? u) && (u <? initialNumNodes hg)
                then kInvalidPartition else _part_ids s u) s in
  let s2 :=
    with_part_weights
      (fold_left (fun (w : PartitionID -> HypernodeWeight) p => upd w p 0)
                 (range k) (_part_weights s1)) s1 in
  fold_left (fun s' he =>
               let s'' :=
                 fold_left (fun t block =>
                              with_pins_in_part
                                (setPinCountInPart (_pins_in_part t) he block 0) t)
                           (connectivitySet k s' he) s' in
               with_connectivity_set (cs_clear (_connectivity_set s'') he) s'')
            (edges hg) s2.

(** [recomputePartWeights] ("only for testing") *)
Definition recomputePartWeights (s : PartitionedHypergraph) : PartitionedHypergraph :=
  let s1 :=
    with_part_weights
      (fold_left (fun (w : PartitionID -> HypernodeWeight) p => upd w p 0)
                 (range k) (_part_weights s)) s in
  fold_left (fun s' u =>
               with_part_weights
                 (snd (fetch_add (_part_weights s') (partID s' u) (nodeWeight hg u))) s')
            (nodes hg) s1.

(** [recomputeMoveFromBenefit(u)] ("only for testing") *)
Definition recomputeMoveFromBenefit (u : HypernodeID) (s : PartitionedHypergraph)
  : PartitionedHypergraph :=
  with_move_from_benefit (upd (_move_from_benefit s) u (moveFromBenefitRecomputed hg s u)) s.

(** The loop of [checkTrackedPartitionInformation] over the blocks of
    one edge: the flag so far and [expected_connectivity]. *)
Definition checkPinCounts (s : PartitionedHypergraph) (e : HyperedgeID) (success : bool)
  : bool * PartitionID :=
  fold_left (fun (acc : bool * PartitionID) i =>
               let '(ok, expected_connectivity) := acc in
               let actual_pin_count_in_part := pinCountInPart s e i in
               (if negb (actual_pin_count_in_part =? pinCountInPartRecomputed hg s e i)
                then false else ok,
                expected_connectivity + (if 0 <? actual_pin_count_in_part then 1 else 0)))
            (range k) (success, 0).

(** The loop over the blocks of one node. *)
Definition checkPenalties (s : PartitionedHypergraph) (u : HypernodeID) (success : bool)
  : bool :=
  fold_left (fun (ok : bool) i =>
               if negb (partID s u =? i)
               then if negb (moveToPenalty k s u i =? moveToPenaltyRecomputed hg s u i)
                    then false else ok
               else ok)
            (range k) success.

(** [checkTrackedPartitionInformation] ("only for testing") *)
Definition checkTrackedPartitionInformation (s : PartitionedHypergraph) : bool :=
  let success1 :=
    fold_left (fun (success : bool) e =>
                 let '(ok, expected_connectivity) := checkPinCounts s e success in
                 if negb (expected_connectivity =? connectivity k s e) then false else ok)
              (edges hg) true in
  if _is_gain_cache_initialized s
  then
    fold_left (fun (success : bool) u =>
                 let ok :=
                   if negb (moveFromBenefit s u =? moveFromBenefitRecomputed hg s u)
                   then false else success in
                 checkPenalties s u ok)
              (nodes hg) success1
  else success1.

(** *** Restoring hyperedges *)

(** [restoreLargeEdge(he)], after the hypergraph has restored [he]:
    the pins are counted per block in thread-local vectors (the worker
    of position [pos] is [worker_of pos]), the vectors are added up and
    every non-zero count is stored. *)
Definition restoreLargeEdge (num_threads : nat) (worker_of : nat -> nat)
           (he : HyperedgeID) (s : PartitionedHypergraph) : PartitionedHypergraph :=
  let ets_pin_count_in_part :=
    fold_left (fun (ets : nat -> PartitionID -> Z) (pp : nat * HypernodeID) =>
                 let '(pos, pin) := pp in
                 let block := partID s pin in
                 let t := worker_of pos in
                 upd_nat ets t (upd (ets t) block (ets t block + 1)))
              (combine (seq 0 (length (pins hg he))) (pins hg he))
              (fun _ _ => 0) in
  fold_left (fun s' block =>
               let pin_count_in_part :=
                 sumZ (fun t => ets_pin_count_in_part t block) (seq 0 num_threads) in
               if 0 <? pin_count_in_part
               then
                 let s1 :=
                   with_pins_in_part
                     (setPinCountInPart (_pins_in_part s') he block pin_count_in_part) s' in
                 with_connectivity_set (cs_add (_connectivity_set s1) he block) s1
               else s')
            (range k) s.

(** The body of the loop of [restoreSinglePinAndParallelNets] for one
    restored net. *)
Definition restoreNet (s : PartitionedHypergraph) (ph : ParallelHyperedge)
  : PartitionedHypergraph :=
  let he := removed_hyperedge ph in
  if edgeSize hg he =? 1
  then
    let single_vertex_of_he := fold_left (fun _ pin => pin) (pins hg he) kInvalidHypernode in
    let block_of_single_pin := partID s single_vertex_of_he in
    let s1 := with_connectivity_set (cs_add (_connectivity_set s) he block_of_single_pin) s in
    let s2 :=
      with_pins_in_part (setPinCountInPart (_pins_in_part s1) he block_of_single_pin 1) s1 in
    if _is_gain_cache_initialized s2
    then
      let edge_weight := edgeWeight hg he in
      fold_left (fun s' block =>
                   if negb (block =? block_of_single_pin)
                   then with_move_to_penalty
                          (snd (add_fetch (_move_to_penalty s')
                                          (penalty_index k single_vertex_of_he block)
                                          edge_weight)) s'
                   else with_move_from_benefit
                          (snd (add_fetch (_move_from_benefit s') single_vertex_of_he
                                          edge_weight)) s')
                (range k) s2
    else s2
  else
    fold_left (fun s' block =>
                 let s1 := with_connectivity_set (cs_add (_connectivity_set s') he block) s' in
                 with_pins_in_part
                   (setPinCountInPart (_pins_in_part s1) he block
                      (pinCountInPart s1 (representative ph) block)) s1)
              (connectivitySet k s (representative ph)) s.

Definition restoreSinglePinAndParallelNets (hes_to_restore : list ParallelHyperedge)
           (s : PartitionedHypergraph) : PartitionedHypergraph :=
  fold_left restoreNet hes_to_restore s.

(** *** Extracting a block *)

(** Whether [extract] keeps the edge [he] for [block]. *)
Definition extract_keeps (s : PartitionedHypergraph) (block : PartitionID)
           (cut_net_splitting : bool) (he : HyperedgeID) : bool :=
  (1 <? pinCountInPart s he block) && (cut_net_splitting || (connectivity k s he =? 1)).

(** Compactification: the ids of the kept items in visiting order. *)
Definition compactify (keep : Z -> bool) (l : list Z) (invalid : Z) : (Z -> Z) * Z :=
  fold_left (fun (acc : (Z -> Z) * Z) x =>
               let '(mapping, num) := acc in
               if keep x then (upd mapping x num, num + 1) else acc)
            l (fun _ => invalid, 0).

(** [extract(task_group_id, block, cut_net_splitting)] up to the call
    of [HypergraphFactory::construct]; the community ids, which the
    hypergraph of the model does not carry, are left out. *)
Definition extract (block : PartitionID) (cut_net_splitting : bool)
           (s : PartitionedHypergraph) : Extracted :=
  let '(hn_map, num_hn) :=
    compactify (fun hn => partID s hn =? block) (nodes hg) kInvalidHypernode in
  let '(he_map, num_he) :=
    compactify (extract_keeps s block cut_net_splitting) (edges hg) kInvalidHyperedge in
  let '(ev, hew) :=
    fold_left (fun (acc : (Z -> list HypernodeID) * (Z -> HyperedgeWeight)) he =>
                 let '(ev, hew) := acc in
                 if extract_keeps s block cut_net_splitting he
                 then
                   (upd ev (he_map he)
                        (fold_left (fun (pins_of_he : list HypernodeID) pin =>
                                      if partID s pin =? block
                                      then pins_of_he ++ [hn_map pin]
                                      else pins_of_he)
                                   (pins hg he) (ev (he_map he))),
                    upd hew (he_map he) (edgeWeight hg he))
                 else acc)
              (edges hg) (fun _ => [], fun _ => 0) in
  let hnw :=
    fold_left (fun (hnw : Z -> HypernodeWeight) hn =>
                 if partID s hn =? block then upd hnw (hn_map hn) (nodeWeight hg hn) else hnw)
              (nodes hg) (fun _ => 0) in
  {| num_hypernodes := num_hn;
     num_hyperedges := num_he;
     edge_vector := ev;
     hyperedge_weight := hew;
     hypernode_weight := hnw;
     hn_mapping := hn_map |}.

(** *** Callers *)

(** [Multilevel], V-cycle branch of the initial partitioning, and
    [NLevelUncoarsener::initializeImpl]: every enabled node is given
    its block with [setOnlyNodePart] (the community id, or the block of
    the compactified hypergraph), then [initializePartition] runs. *)
Definition assignBlocks (block_of : HypernodeID -> PartitionID) (s : PartitionedHypergraph)
  : PartitionedHypergraph :=
  fold_left (fun t hn => setOnlyNodePart hn (block_of hn) t) (nodes hg) s.

Definition initialPartitionFrom (block_of : HypernodeID -> PartitionID)
           (s : PartitionedHypergraph) : PartitionedHypergraph :=
  initializePartition hg k (assignBlocks block_of s).

(** *** Predicates of the properties *)

(** The whole gain cache satisfies its defining equations. *)
Definition gain_cache_inv (s : PartitionedHypergraph) : Prop :=
  forall x, nodeIsEnabled hg x = true ->
    benefit_inv hg s x /\ forall p, 0 <= p < k -> penalty_inv hg k s x p.

(** What [checkTrackedPartitionInformation] compares: per edge the
    stored and the recomputed pin counts and the connectivity with the
    number of blocks that have a pin; with the gain cache initialised,
    per node the benefit and the penalties of the other blocks. *)
Definition tracked_information_correct (s : PartitionedHypergraph) : Prop :=
  (forall e, In e (edges hg) ->
     (forall i, 0 <= i < k -> pinCountInPart s e i = pinCountInPartRecomputed hg s e i) /\
     connectivity k s e
     = Z.of_nat (length (filter (fun i => 0 <? pinCountInPart s e i) (range k)))) /\
  (_is_gain_cache_initialized s = true ->
   forall u, In u (nodes hg) ->
     moveFromBenefit s u = moveFromBenefitRecomputed hg s u /\
     forall i, 0 <= i < k -> partID s u <> i ->
       moveToPenalty k s u i = moveToPenaltyRecomputed hg s u i).

(** Nothing is tracked: the pin counts, connectivity sets and part
    weights of the enabled edges and the blocks are those of a freshly
    constructed partitioned hypergraph. *)
Definition cleared (s : PartitionedHypergraph) : Prop :=
  (forall e q, edgeIsEnabled hg e = true -> 0 <= q < k ->
     pinCountInPart s e q = 0 /\ _connectivity_set s e q = false) /\
  (forall p, 0 <= p < k -> partWeight s p = 0) /\
  lock_free s.

(** The tracked information of one edge is in step with the part ids. *)
Definition edge_tracked (s : PartitionedHypergraph) (e : HyperedgeID) : Prop :=
  forall q, 0 <= q < k ->
    pinCountInPart s e q = pinCountInPartRecomputed hg s e q /\
    (_connectivity_set s e q = true <-> 1 <= pinCountInPart s e q).

(** Nothing is tracked for one edge. *)
Definition edge_cleared (s : PartitionedHypergraph) (e : HyperedgeID) : Prop :=
  forall q, 0 <= q < k -> pinCountInPart s e q = 0 /\ _connectivity_set s e q = false.

(** What [restoreSinglePinAndParallelNets] expects of the nets it is
    given: they are distinct and nothing is tracked for them; the pin
    of a single-pin net has a block; a parallel net has the pins of its
    representative, which is not among the restored nets and whose
    tracked information is in step. *)
Definition restorable (s : PartitionedHypergraph) (hes : list ParallelHyperedge) : Prop :=
  NoDup (map removed_hyperedge hes) /\
  forall ph, In ph hes ->
    edge_cleared s (removed_hyperedge ph) /\
    (edgeSize hg (removed_hyperedge ph) = 1 ->
     forall u, In u (pins hg (removed_hyperedge ph)) -> 0 <= partID s u < k) /\
    (edgeSize hg (removed_hyperedge ph) <> 1 ->
     ~ In (representative ph) (map removed_hyperedge hes) /\
     Permutation (pins hg (removed_hyperedge ph)) (pins hg (representative ph)) /\
     edge_tracked s (representative ph)).

End Operations.

(** Modelled from the spec: the hypergraph before an edge is restored
    ("previously excluded from gain-cache maintenance"): the edge is
    disabled and no node lists it among its incident nets. *)
Definition without_edge (hg : Hypergraph) (he : HyperedgeID) : Hypergraph :=
  {| initialNumNodes := initialNumNodes hg;
     initialNumEdges := initialNumEdges hg;
     nodeWeight := nodeWeight hg;
     edgeWeight := edgeWeight hg;
     pins := pins hg;
     incidentEdges := fun u => filter (fun e => negb (e =? he)) (incidentEdges hg u);
     nodeIsEnabled := nodeIsEnabled hg;
     edgeIsEnabled := fun e => negb (e =? he) && edgeIsEnabled hg e |}.

End Maintenance.

(* ------------------------------------------------------------------ *)
(** ** Instances with removed hyperedges *)

Module RestoreInstances.
Import PHG Maintenance Scenarios.

(** Nodes 0, 1, 2 with unit weights in the blocks 0, 1, 1; edge 0 is
    {0, 1}, edge 1 has the same pins and was removed as parallel to
    edge 0, edge 2 is the single-pin net {2} and was removed too. *)
Definition restore_hg : Hypergraph :=
  hypergraph_of 3 [[0; 1]; [1; 0]; [2]] (fun _ => 1) (fun _ => 1).

Definition removed_nets : list ParallelHyperedge :=
  [ {| removed_hyperedge := 1; representative := 0 |};
    {| removed_hyperedge := 2; representative := kInvalidHyperedge |} ].

Definition removed_phg : PartitionedHypergraph :=
  partitioned (without_edge (without_edge restore_hg 1) 2) 2 [0; 1; 1].

(** Nodes 0, 1 in the blocks 0, 1; edge 0 is {0, 1}, edge 1 is the
    removed single-pin net {1}. *)
Definition single_hg : Hypergraph :=
  hypergraph_of 2 [[0; 1]; [1]] (fun _ => 1) (fun _ => 1).

Definition single_net : ParallelHyperedge :=
  {| removed_hyperedge := 1; representative := kInvalidHyperedge |}.

Definition single_phg : PartitionedHypergraph :=
  partitioned (without_edge single_hg 1) 2 [0; 1].

(** Scenario 3 set up while its edge was removed as a large edge; two
    workers count the pins when it is restored. *)
Definition large_phg : PartitionedHypergraph :=
  partitioned (without_edge delta_hg 0) 2 [0; 0; 0; 1].

Definition two_workers (pos : nat) : nat := Nat.modulo pos 2.

(** Scenario 3 assigned node by node with [setNodePart]. *)
Definition delta_assigned : PartitionedHypergraph :=
  setNodePart delta_hg 3 1
    (setNodePart delta_hg 2 0 (setNodePart delta_hg 1 0 (setNodePart delta_hg 0 0 construct))).

End RestoreInstances.

(* ------------------------------------------------------------------ *)
(** ** [Km1GainCache] and [DeltaKm1GainCache] *)

Module Km1.
Import PHG WorkQueue.

(** [Km1GainCache]: the flag, the number of blocks and the table of
    k + 1 entries per node.  Modelled from the spec: [ds::Array] is not
    part of the sources; a table of [_size] entries, zero after
    [resize]. *)
Record Km1GainCache := {
  _is_initialized : bool;
  _k : PartitionID;
  _gain_cache : Z -> HyperedgeWeight;
  _size : Z
}.

(** The default constructor. *)
Definition make : Km1GainCache :=
  {| _is_initialized := false; _k := kInvalidPartition;
     _gain_cache := fun _ => 0; _size := 0 |}.

Definition isInitialized (c : Km1GainCache) : bool := _is_initialized c.

Definition reset (c : Km1GainCache) : Km1GainCache :=
  {| _is_initialized := false; _k := _k c; _gain_cache := _gain_cache c; _size := _size c |}.

Definition size (c : Km1GainCache) : Z := _size c.

(** [size_t(u) * ( _k + 1 )], in [size_t] arithmetic *)
Definition penalty_index (c : Km1GainCache) (u : HypernodeID) : Z :=
  size_t_wrap (u * (_k c + 1)).

(** [size_t(u) * ( _k + 1 ) + p + 1] *)
Definition benefit_index (c : Km1GainCache) (u : HypernodeID) (p : PartitionID) : Z :=
  size_t_wrap (u * (_k c + 1) + p + 1).

Definition allocateGainTable (num_nodes : HypernodeID) (k : PartitionID) (c : Km1GainCache)
  : Km1GainCache :=
  if size c =? 0
  then {| _is_initialized := _is_initialized c; _k := k;
          _gain_cache := fun _ => 0; _size := size_t_wrap (num_nodes * size_t_wrap (k + 1)) |}
  else c.

Definition penaltyTerm (c : Km1GainCache) (u : HypernodeID) : HyperedgeWeight :=
  _gain_cache c (penalty_index c u).

Definition benefitTerm (c : Km1GainCache) (u : HypernodeID) (to : PartitionID)
  : HyperedgeWeight :=
  _gain_cache c (benefit_index c u to).

Definition gain (c : Km1GainCache) (u : HypernodeID) (from to : PartitionID)
  : HyperedgeWeight :=
  benefitTerm c u to - penaltyTerm c u.

Definition nodeGainAssertions (c : Km1GainCache) (u : HypernodeID) (p : PartitionID) : bool :=
  if (p =? kInvalidPartition) || (_k c <=? p)
  then false
  else if size c <=? benefit_index c u p then false else true.

Section Recompute.

Variable hg : Hypergraph.

(** [recomputePenaltyTerm] and [recomputeBenefitTerm] ("only for
    testing"), on a partitioned hypergraph [s] *)
Definition recomputePenaltyTerm (s : PartitionedHypergraph) (u : HypernodeID)
  : HyperedgeWeight :=
  let block_of_u := partID s u in
  fold_left (fun penalty e =>
               if 1 <? pinCountInPart s e block_of_u then penalty + edgeWeight hg e else penalty)
            (incidentEdges hg u) 0.

Definition recomputeBenefitTerm (s : PartitionedHypergraph) (u : HypernodeID)
           (to : PartitionID) : HyperedgeWeight :=
  fold_left (fun benefit e =>
               if 1 <=? pinCountInPart s e to then benefit + edgeWeight hg e else benefit)
            (incidentEdges hg u) 0.

Definition recomputePenaltyTermEntry (s : PartitionedHypergraph) (u : HypernodeID)
           (c : Km1GainCache) : Km1GainCache :=
  {| _is_initialized := _is_initialized c; _k := _k c;
     _gain_cache := upd (_gain_cache c) (penalty_index c u) (recomputePenaltyTerm s u);
     _size := _size c |}.

End Recompute.

(** *** [DeltaKm1GainCache] *)

(** Modelled from the spec: [ds::DynamicFlatMap] is not part of the
    sources; a map from table indices to the delta of the entry, in
    which [operator[]] creates a missing entry with the value 0 and
    [get_if_contained] finds the entries that were created. *)
Definition DynamicFlatMap := Z -> option HyperedgeWeight.

Definition flat_clear : DynamicFlatMap := fun _ => None.

Definition get_if_contained (m : DynamicFlatMap) (key : Z) : option HyperedgeWeight := m key.

(** The delta a map holds for an index: 0 when it has no entry. *)
Definition flat_value (m : DynamicFlatMap) (key : Z) : HyperedgeWeight :=
  match get_if_contained m key with
  | Some v => v
  | None => 0
  end.

(** [m[key] += x] *)
Definition flat_add (m : DynamicFlatMap) (key : Z) (x : HyperedgeWeight) : DynamicFlatMap :=
  fun j => if j =? key
           then Some (match m key with Some v => v | None => 0 end + x)
           else m j.

Section Delta.

Variable hg : Hypergraph.
(** The shared gain cache the thread-local one refers to. *)
Variable c : Km1GainCache.

Definition delta_penaltyTerm (d : DynamicFlatMap) (u : HypernodeID) : HyperedgeWeight :=
  penaltyTerm c u
  + match get_if_contained d (penalty_index c u) with
    | Some penalty_delta => penalty_delta
    | None => 0
    end.

Definition delta_benefitTerm (d : DynamicFlatMap) (u : HypernodeID) (to : PartitionID)
  : HyperedgeWeight :=
  benefitTerm c u to
  + match get_if_contained d (benefit_index c u to) with
    | Some benefit_delta => benefit_delta
    | None => 0
    end.

Definition delta_gain (d : DynamicFlatMap) (u : HypernodeID) (from to : PartitionID)
  : HyperedgeWeight :=
  delta_benefitTerm d u to - delta_penaltyTerm d u.

(** [deltaGainUpdate]; [part_id] is [partitioned_hg.partID]. *)
Definition deltaGainUpdate (part_id : HypernodeID -> PartitionID)
           (he : HyperedgeID) (we : HyperedgeWeight)
           (from : PartitionID) (pin_count_in_from_part_after : Z)
           (to : PartitionID) (pin_count_in_to_part_after : Z)
           (d : DynamicFlatMap) : DynamicFlatMap :=
  let d1 :=
    if pin_count_in_from_part_after =? 1
    then fold_left (fun m u => if part_id u =? from
                               then flat_add m (penalty_index c u) (- we) else m)
                   (pins hg he) d
    else if pin_count_in_from_part_after =? 0
         then fold_left (fun m u => flat_add m (benefit_index c u from) (- we)) (pins hg he) d
         else d in
  if pin_count_in_to_part_after =? 1
  then fold_left (fun m u => flat_add m (benefit_index c u to) we) (pins hg he) d1
  else if pin_count_in_to_part_after =? 2
       then fold_left (fun m u => if part_id u =? to
                                  then flat_add m (penalty_index c u) we else m)
                      (pins hg he) d1
       else d1.

End Delta.

(** *** Predicates of the properties *)

(** What one edge with the pin counts [pc] adds to the benefit term of
    a pin for block [q], and to the penalty term of a pin in block [b]. *)
Definition benefit_contribution (pc : PartitionID -> Z) (we : HyperedgeWeight)
           (q : PartitionID) : HyperedgeWeight :=
  if 1 <=? pc q then we else 0.

Definition penalty_contribution (pc : PartitionID -> Z) (we : HyperedgeWeight)
           (b : PartitionID) : HyperedgeWeight :=
  if 1 <? pc b then we else 0.

(** The pin counts of an edge after a pin went from [from] to [to]. *)
Definition counts_after_move (pc : PartitionID -> Z) (from to : PartitionID)
  : PartitionID -> Z :=
  fun q => pc q + (if q =? to then 1 else 0) - (if q =? from then 1 else 0).

(** A table for [num_nodes] nodes and [k] blocks (a 32-bit signed
    number) that fits [size_t]. *)
Definition table_fits (num_nodes : HypernodeID) (k : PartitionID) : Prop :=
  0 <= num_nodes /\ 0 <= k < 2 ^ 31 /\ num_nodes * (k + 1) < 2 ^ 64.

End Km1.

Module Km1Instances.
Import PHG Scenarios Km1.

(** A table for [num_nodes] nodes and [k] blocks in which every entry
    holds its recomputed term in the state [s]. *)
Definition recomputed_cache (hg : Hypergraph) (num_nodes : HypernodeID) (k : PartitionID)
           (s : PartitionedHypergraph) : Km1GainCache :=
  {| _is_initialized := true;
     _k := k;
     _gain_cache := fun j =>
       if j mod (k + 1) =? 0
       then recomputePenaltyTerm hg s (j / (k + 1))
       else recomputeBenefitTerm hg s (j / (k + 1)) (j mod (k + 1) - 1);
     _size := num_nodes * (k + 1) |}.

Definition gain_cache_of_gain_phg : Km1GainCache := recomputed_cache gain_hg 3 2 gain_phg.

(** The shared table of scenario 3, and the part ids after node 2 went
    from block 0 to block 1. *)
Definition gain_cache_of_delta_phg : Km1GainCache := recomputed_cache delta_hg 4 2 delta_phg.

Definition delta_moved_ids : HypernodeID -> PartitionID := upd (partID delta_phg) 2 1.

End Km1Instances.

(* ================================================================== *)
(** * Properties *)

(** ** Utilities *)

Lemma In_range_from (len : nat) (start x : Z) :
  In x (range_from start len) <-> start <= x < start + Z.of_nat len.
Proof.
  revert start. induction len as [|len IH]; intros start; simpl.
  - lia.
  - rewrite IH. lia.
Qed.

Lemma In_range (n x : Z) : In x (range n) <-> 0 <= x < n.
Proof. unfold range. rewrite In_range_from. lia. Qed.

Lemma NoDup_range_from (len : nat) (start : Z) : NoDup (range_from start len).
Proof.
  revert start. induction len as [|len IH]; intros start; simpl; constructor.
  - rewrite In_range_from. lia.
  - apply IH.
Qed.

Lemma NoDup_range (n : Z) : NoDup (range n).
Proof. apply NoDup_range_from. Qed.

Lemma upd_same {V : Type} (f : Z -> V) i v : upd f i v i = v.
Proof. unfold upd. now rewrite Z.eqb_refl. Qed.

Lemma upd_other {V : Type} (f : Z -> V) i j v : j <> i -> upd f i v j = f j.
Proof. unfold upd. intros H. apply Z.eqb_neq in H. now rewrite H. Qed.

Lemma sumZ_app {X : Type} (f : X -> Z) (l1 l2 : list X) :
  sumZ f (l1 ++ l2) = sumZ f l1 + sumZ f l2.
Proof. induction l1 as [|x l1 IH]; simpl; lia. Qed.

Lemma sumZ_ext_in {X : Type} (f g : X -> Z) (l : list X) :
  (forall x, In x l -> f x = g x) -> sumZ f l = sumZ g l.
Proof.
  induction l as [|x l IH]; simpl; intros H; [reflexivity|].
  rewrite (H x) by auto. rewrite IH; auto.
Qed.

Lemma sumZ_Permutation {X : Type} (f : X -> Z) (l1 l2 : list X) :
  Permutation l1 l2 -> sumZ f l1 = sumZ f l2.
Proof. induction 1; simpl; lia. Qed.

(* ------------------------------------------------------------------ *)
(** ** atomic_wrapper.h *)

Module AtomicWrapperFacts.
Import AtomicWrapper.

(** The post-decrement of the source adds one to the stored value,
    for every integral type and every value. *)
Lemma postfix_decrement_is_postfix_increment (T : Integral) (a : IntegralAtomicWrapper) :
  postfix_decrement T a = postfix_increment T a.
Proof. reflexivity. Qed.

Lemma postfix_decrement_stores_successor (x : Z) :
  0 <= x < 2 ^ 64 - 1 ->
  postfix_decrement size_t {| _value := x |} = (x, {| _value := x + 1 |}).
Proof.
  intros H. unfold postfix_decrement, fetch_add, wrap. simpl.
  rewrite Z.mod_small by lia. reflexivity.
Qed.

(** C9: evaluation of [operator--(int)] on a [size_t] wrapper holding
    5.  The previous value 5 is returned, but the wrapper then holds
    6, where a post-decrement stores 4 (as the prefix form, which
    stores and returns 4, does). *)
Theorem postfix_decrement_on_5 :
  postfix_decrement size_t {| _value := 5 |} = (5, {| _value := 6 |}) /\
  prefix_decrement size_t {| _value := 5 |} = (4, {| _value := 4 |}).
Proof. split; reflexivity. Qed.

End AtomicWrapperFacts.

(* ------------------------------------------------------------------ *)
(** ** ConcurrentDataContainer *)

Module WorkQueueFacts.
Import WorkQueue.

(** [try_pop] subtracts one from [size] before it looks at the old
    value, whatever that value is. *)
Lemma try_pop_empty_size {T : Type} (dest : T) (c : ConcurrentDataContainer T) :
  size c = 0 ->
  try_pop dest c = Done (false, dest, {| size := 2 ^ 64 - 1; elements := elements c |}).
Proof.
  intros H. unfold try_pop. rewrite H. reflexivity.
Qed.

(** C10: evaluation of [try_pop] on the empty container.  It returns
    false, but the size wraps around to 2^64 - 1: [empty()] is false
    afterwards and the next [push_back] indexes [elements] at
    2^64 - 1 instead of 0. *)
Theorem try_pop_on_empty_container :
  empty empty2 = true /\
  try_pop 7 empty2 = Done (false, 7, {| size := 2 ^ 64 - 1; elements := [0; 0] |}) /\
  empty {| size := 2 ^ 64 - 1; elements := [0; 0] |} = false /\
  push_back 9 {| size := 2 ^ 64 - 1; elements := [0; 0] |} = OutOfBounds (2 ^ 64 - 1) /\
  push_back 9 empty2 = Done {| size := 1; elements := [9; 0] |}.
Proof. repeat split; reflexivity. Qed.

End WorkQueueFacts.

(* ------------------------------------------------------------------ *)
(** ** Scenario checks *)

Module ScenarioFacts.
Import PHG Scenarios.

Example smallest_values :
  km1 smallest_hg 2 smallest = 1 /\
  pinCountInPart smallest 0 0 = 1 /\ pinCountInPart smallest 0 1 = 1 /\
  connectivity 2 smallest 0 = 2 /\
  moveFromBenefit smallest 0 = 1 /\ moveToPenalty 2 smallest 0 1 = 0 /\
  km1Gain 2 smallest 0 0 1 = 1.
Proof. vm_compute. repeat split; reflexivity. Qed.

Example delta_values :
  pinCountInPart delta_phg 0 0 = 3 /\ pinCountInPart delta_phg 0 1 = 1 /\
  moveFromBenefit delta_phg 2 = 0 /\ moveFromBenefit delta_phg 3 = 1.
Proof. vm_compute. repeat split; reflexivity. Qed.

End ScenarioFacts.

(* ------------------------------------------------------------------ *)
(** ** isBorderNode *)

Module BorderNodeFacts.
Import PHG Scenarios.

(** C8, as amended: [isBorderNode u] is true exactly when the degree of
    [u] does not exceed HIGH_DEGREE_THRESHOLD = 100000 and some incident
    edge of [u] has connectivity above 1; for a node of larger degree
    it is false whatever its edges are. *)
Theorem isBorderNode_iff (hg : Hypergraph) (k : PartitionID)
        (s : PartitionedHypergraph) (u : HypernodeID) :
  isBorderNode hg k s u = true <->
  (nodeDegree hg u <= HIGH_DEGREE_THRESHOLD /\
   exists he, In he (incidentEdges hg u) /\ 1 < connectivity k s he).
Proof.
  unfold isBorderNode.
  destruct (nodeDegree hg u <=? HIGH_DEGREE_THRESHOLD) eqn:Hdeg.
  - apply Z.leb_le in Hdeg. rewrite existsb_exists. split.
    + intros [he [Hin Hc]]. split; [exact Hdeg|].
      exists he. split; [exact Hin | now apply Z.ltb_lt].
    + intros [_ [he [Hin Hc]]]. exists he. split; [exact Hin | now apply Z.ltb_lt].
  - apply Z.leb_gt in Hdeg. split; [discriminate|].
    intros [Hle _]. lia.
Qed.

(** C8, counterexample: node 0 of the star has 100001 incident edges,
    each with one pin in block 0 and one in block 1 (connectivity 2),
    and [isBorderNode] answers false. *)
Theorem isBorderNode_high_degree_false :
  (exists he, In he (incidentEdges star_hg 0) /\ 1 < connectivity 2 star_phg he) /\
  isBorderNode star_hg 2 star_phg 0 = false.
Proof.
  split.
  - exists 0. split.
    + change (incidentEdges star_hg 0) with (range 100001). apply In_range. lia.
    + vm_compute. reflexivity.
  - vm_compute. reflexivity.
Qed.

End BorderNodeFacts.

(* ------------------------------------------------------------------ *)
(** ** bestDestinationBlock *)

Module FMFacts.
Import PHG FM Scenarios.

Section Best.

Variable hg : Hypergraph.
Variable k : PartitionID.
Variable max_part_weights : PartitionID -> HypernodeWeight.
Variable s : PartitionedHypergraph.
Variable u : HypernodeID.

Local Abbreviation feas := (feasible hg k max_part_weights s u).
Local Abbreviation better := (no_worse k s u).
Local Abbreviation search_inv := (FM.search_inv hg k max_part_weights s u).

Lemma search_step (seen : PartitionID -> Prop) acc i :
  (forall b, feas b -> moveToPenalty k s u b < HyperedgeWeight_max) ->
  0 <= i < k ->
  search_inv seen acc ->
  search_inv (fun b => seen b \/ b = i)
             (bestDestinationBlock_step k max_part_weights s u (partID s u) (nodeWeight hg u) acc i).
Proof.
  intros Hsent Hi Hinv. destruct acc as [[to pen] w].
  unfold bestDestinationBlock_step.
  destruct (i =? partID s u) eqn:Hfrom; simpl.
  - (* the block of u itself is skipped *)
    apply Z.eqb_eq in Hfrom.
    destruct Hinv as [(E1 & E2 & Hno) | (Hf & E1 & E2 & Hbest)].
    + left. repeat split; auto. intros b [Hb | ->]; [auto|].
      intros (_ & Hne & _). congruence.
    + right. repeat split; auto; try apply Hf. intros b [Hb | ->] Hfb; [auto|].
      destruct Hfb as (_ & Hne & _). congruence.
  - apply Z.eqb_neq in Hfrom.
    destruct (((moveToPenalty k s u i <? pen)
               || ((moveToPenalty k s u i =? pen) && (partWeight s i <? w)))
              && (partWeight s i + nodeWeight hg u <=? max_part_weights i)) eqn:Hc.
    + (* i becomes the best block *)
      apply andb_true_iff in Hc. destruct Hc as [Hlt Hfit].
      apply Z.leb_le in Hfit.
      assert (Hfi : feas i) by (repeat split; auto; lia).
      right. repeat split; auto; try apply Hfi.
      intros b [Hb | ->] Hfb.
      * destruct Hinv as [(_ & _ & Hno) | (Hf & E1 & E2 & Hbest)].
        -- exfalso. exact (Hno b Hb Hfb).
        -- specialize (Hbest b Hb Hfb). subst pen w. unfold no_worse in *.
           apply orb_true_iff in Hlt. destruct Hlt as [Hlt | Hlt].
           ++ apply Z.ltb_lt in Hlt. lia.
           ++ apply andb_true_iff in Hlt. destruct Hlt as [He Hw].
              apply Z.eqb_eq in He. apply Z.ltb_lt in Hw. lia.
      * right. split; [reflexivity | lia].
    + (* i is not taken *)
      destruct Hinv as [(E1 & E2 & Hno) | (Hf & E1 & E2 & Hbest)].
      * left. repeat split; auto. intros b [Hb | ->] Hfb; [exact (Hno b Hb Hfb)|].
        pose proof (Hsent i Hfb) as Hs. destruct Hfb as (_ & _ & Hfit).
        apply Z.leb_le in Hfit. rewrite Hfit, andb_true_r in Hc. subst pen.
        apply orb_false_iff in Hc. destruct Hc as [Hc _]. apply Z.ltb_ge in Hc. lia.
      * right. repeat split; auto; try apply Hf. intros b [Hb | ->] Hfb; [auto|].
        destruct Hfb as (_ & _ & Hfit).
        apply Z.leb_le in Hfit. rewrite Hfit, andb_true_r in Hc. subst pen w.
        apply orb_false_iff in Hc. destruct Hc as [Hc1 Hc2]. apply Z.ltb_ge in Hc1.
        unfold no_worse.
        apply andb_false_iff in Hc2. destruct Hc2 as [Hc2 | Hc2].
        -- apply Z.eqb_neq in Hc2. lia.
        -- apply Z.ltb_ge in Hc2. lia.
Qed.

Lemma search_fold (l : list PartitionID) (seen : PartitionID -> Prop) acc :
  (forall b, feas b -> moveToPenalty k s u b < HyperedgeWeight_max) ->
  (forall i, In i l -> 0 <= i < k) ->
  search_inv seen acc ->
  search_inv (fun b => seen b \/ In b l)
             (fold_left (bestDestinationBlock_step k max_part_weights s u
                           (partID s u) (nodeWeight hg u)) l acc).
Proof.
  intros Hsent. revert seen acc.
  induction l as [|i l IH]; intros seen acc Hl Hinv; simpl.
  - destruct acc as [[to pen] w]. simpl in *.
    destruct Hinv as [(E1 & E2 & Hno) | (Hf & E1 & E2 & Hbest)].
    + left. repeat split; auto. intros b [Hb | []]. auto.
    + right. repeat split; auto; try apply Hf. intros b [Hb | []]. auto.
  - assert (Hi : 0 <= i < k) by (apply Hl; now left).
    pose proof (search_step seen acc i Hsent Hi Hinv) as Hstep.
    specialize (IH _ _ (fun j Hj => Hl j (or_intror Hj)) Hstep).
    destruct (fold_left _ l _) as [[to pen] w]. simpl in *.
    destruct IH as [(E1 & E2 & Hno) | (Hf & E1 & E2 & Hbest)].
    + left. repeat split; auto. intros b [Hb | [-> | Hb]]; apply Hno; auto.
    + right. repeat split; auto; try apply Hf.
      intros b [Hb | [-> | Hb]]; apply Hbest; auto.
Qed.


End Best.



End FMFacts.

(* ------------------------------------------------------------------ *)
(** ** Sums, membership and updates *)

(** Boolean membership in a list of ids. *)
Lemma existsb_eqb_In (x : Z) (l : list Z) : existsb (Z.eqb x) l = true <-> In x l.
Proof.
  rewrite existsb_exists. split.
  - intros [y [Hin Heq]]. apply Z.eqb_eq in Heq. now subst.
  - intros H. exists x. split; [exact H | apply Z.eqb_refl].
Qed.

Lemma existsb_eqb_notIn (x : Z) (l : list Z) : existsb (Z.eqb x) l = false <-> ~ In x l.
Proof.
  rewrite <- existsb_eqb_In. destruct (existsb (Z.eqb x) l); split; congruence.
Qed.

Lemma fold_left_cond_sum {X : Type} (c : X -> bool) (f : X -> Z) (l : list X) (a : Z) :
  fold_left (fun w e => if c e then w + f e else w) l a
  = a + sumZ (fun e => if c e then f e else 0) l.
Proof.
  revert a. induction l as [|x l IH]; intros a; simpl; [lia|].
  rewrite IH. destruct (c x); lia.
Qed.

Lemma sumZ_plus {X : Type} (f g : X -> Z) (l : list X) :
  sumZ (fun x => f x + g x) l = sumZ f l + sumZ g l.
Proof. induction l as [|x l IH]; simpl; lia. Qed.

Lemma sumZ_zero {X : Type} (f : X -> Z) (l : list X) :
  (forall x, In x l -> f x = 0) -> sumZ f l = 0.
Proof.
  induction l as [|x l IH]; simpl; intros H; [reflexivity|].
  rewrite (H x) by auto. rewrite IH; auto.
Qed.

Lemma sumZ_nonneg {X : Type} (f : X -> Z) (l : list X) :
  (forall x, In x l -> 0 <= f x) -> 0 <= sumZ f l.
Proof.
  induction l as [|x l IH]; simpl; intros H; [lia|].
  specialize (H x (or_introl eq_refl)) as Hx.
  assert (0 <= sumZ f l) by (apply IH; auto). lia.
Qed.

(** The sum of [f] over the single element [x] of a duplicate-free list. *)
Lemma sumZ_single (f : Z -> Z) (x : Z) (l : list Z) :
  NoDup l ->
  sumZ (fun y => if y =? x then f y else 0) l = if existsb (Z.eqb x) l then f x else 0.
Proof.
  induction 1 as [|y l Hy Hnd IH]; simpl; [reflexivity|].
  rewrite IH. destruct (Z.eqb_spec y x) as [->|Hne].
  - rewrite Z.eqb_refl. simpl.
    apply existsb_eqb_notIn in Hy. rewrite Hy. lia.
  - destruct (Z.eqb_spec x y); [congruence|]. simpl. lia.
Qed.

(** Sum restricted to a duplicate-free sublist. *)
Lemma sumZ_restrict (f : Z -> Z) (m l : list Z) :
  NoDup l -> NoDup m -> (forall x, In x m -> In x l) ->
  sumZ (fun y => if existsb (Z.eqb y) m then f y else 0) l = sumZ f m.
Proof.
  intros Hl. induction 1 as [|x m Hx Hm IH]; intros Hsub; simpl.
  - apply sumZ_zero. auto.
  - rewrite <- IH by (intros y Hy; apply Hsub; now right).
    assert (Hin : existsb (Z.eqb x) l = true) by (apply existsb_eqb_In, Hsub; now left).
    rewrite <- (Z.add_0_l (sumZ _ l)) at 1.
    replace (f x) with (if existsb (Z.eqb x) l then f x else 0) by now rewrite Hin.
    rewrite <- (sumZ_single f x l Hl), <- sumZ_plus.
    apply sumZ_ext_in. intros y _.
    destruct (Z.eqb_spec y x) as [->|Hne]; simpl.
    + apply existsb_eqb_notIn in Hx. rewrite Hx. lia.
    + lia.
Qed.

(** Changing the block of one node changes a per-block sum by the
    node's own term. *)
Lemma sumZ_upd_block (ids : Z -> Z) (f : Z -> Z) (l : list Z) (u newp p : Z) :
  NoDup l ->
  sumZ (fun v => if upd ids u newp v =? p then f v else 0) l =
  sumZ (fun v => if ids v =? p then f v else 0) l
  + (if existsb (Z.eqb u) l
     then (if newp =? p then f u else 0) - (if ids u =? p then f u else 0)
     else 0).
Proof.
  induction 1 as [|y l Hy Hnd IH]; simpl; [reflexivity|].
  rewrite IH. unfold upd at 1.
  destruct (Z.eqb_spec y u) as [->|Hne].
  - rewrite Z.eqb_refl. simpl.
    apply existsb_eqb_notIn in Hy. rewrite Hy. lia.
  - destruct (Z.eqb_spec u y); [congruence|]. simpl. lia.
Qed.

(** Exactly one block of [range k] is the block of a node. *)
Lemma sumZ_range_indicator (k x : Z) :
  sumZ (fun p => if x =? p then 1 else 0) (range k) = if (0 <=? x) && (x <? k) then 1 else 0.
Proof.
  rewrite (sumZ_ext_in _ (fun p => if p =? x then 1 else 0))
    by (intros p _; now rewrite Z.eqb_sym).
  rewrite (sumZ_single (fun _ => 1) x (range k) (NoDup_range k)).
  destruct (existsb (Z.eqb x) (range k)) eqn:E.
  - apply existsb_eqb_In, In_range in E.
    destruct (Z.leb_spec 0 x), (Z.ltb_spec x k); simpl; lia.
  - apply existsb_eqb_notIn in E. rewrite In_range in E.
    destruct (Z.leb_spec 0 x), (Z.ltb_spec x k); simpl; lia.
Qed.

Lemma sumZ_swap {X Y : Type} (f : X -> Y -> Z) (l : list X) (m : list Y) :
  sumZ (fun x => sumZ (f x) m) l = sumZ (fun y => sumZ (fun x => f x y) l) m.
Proof.
  induction l as [|x l IH]; simpl.
  - symmetry. apply sumZ_zero. auto.
  - rewrite IH. symmetry. apply sumZ_plus.
Qed.

Lemma length_filter_sum {X : Type} (c : X -> bool) (l : list X) :
  Z.of_nat (length (filter c l)) = sumZ (fun x => if c x then 1 else 0) l.
Proof.
  induction l as [|x l IH]; [reflexivity|].
  cbn [filter sumZ]. destruct (c x); cbn [length]; lia.
Qed.

Lemma sumZ_const_one {X : Type} (l : list X) : sumZ (fun _ => 1) l = Z.of_nat (length l).
Proof.
  induction l as [|x l IH]; [reflexivity|].
  cbn [sumZ length]. rewrite IH. lia.
Qed.

(* ------------------------------------------------------------------ *)
(** ** partitioned_hypergraph.h: pin counts and connectivity sets *)

Module PinFacts.
Import PHG.

Section Facts.

Variable hg : Hypergraph.
Variable k : PartitionID.

Lemma pinCountInPartRecomputed_sum s e p :
  pinCountInPartRecomputed hg s e p = pins_in_block hg s e p.
Proof.
  unfold pinCountInPartRecomputed, pins_in_block.
  rewrite (fold_left_cond_sum (fun u => partID s u =? p) (fun _ => 1)). lia.
Qed.

Lemma moveFromBenefitRecomputed_sum s u :
  moveFromBenefitRecomputed hg s u =
  sumZ (fun e => if pinCountInPart s e (partID s u) =? 1 then edgeWeight hg e else 0)
       (incidentEdges hg u).
Proof.
  unfold moveFromBenefitRecomputed.
  rewrite (fold_left_cond_sum (fun e => pinCountInPart s e (partID s u) =? 1) (edgeWeight hg)).
  lia.
Qed.

Lemma moveToPenaltyRecomputed_sum s u p :
  moveToPenaltyRecomputed hg s u p =
  sumZ (fun e => if pinCountInPart s e p =? 0 then edgeWeight hg e else 0)
       (incidentEdges hg u).
Proof.
  unfold moveToPenaltyRecomputed.
  rewrite (fold_left_cond_sum (fun e => pinCountInPart s e p =? 0) (edgeWeight hg)).
  lia.
Qed.

Lemma pins_in_block_nonneg s e p : 0 <= pins_in_block hg s e p.
Proof.
  apply sumZ_nonneg. intros v _. destruct (partID s v =? p); lia.
Qed.

Lemma pins_in_block_pos s e p u :
  In u (pins hg e) -> partID s u = p -> 1 <= pins_in_block hg s e p.
Proof.
  unfold pins_in_block. intros Hin Hp.
  induction (pins hg e) as [|v l IH]; simpl; [contradiction|].
  destruct Hin as [-> | Hin].
  - rewrite Hp, Z.eqb_refl.
    assert (0 <= sumZ (fun v => if partID s v =? p then 1 else 0) l).
    { apply sumZ_nonneg. intros v _. destruct (partID s v =? p); lia. }
    lia.
  - specialize (IH Hin). destruct (partID s v =? p); lia.
Qed.

(** *** One increment, one decrement *)

Lemma increment_fields e p s :
  let s' := snd (incrementPinCountInPartWithoutGainUpdate e p s) in
  fst (incrementPinCountInPartWithoutGainUpdate e p s) = pinCountInPart s e p + 1 /\
  _pins_in_part s' = setPinCountInPart (_pins_in_part s) e p (pinCountInPart s e p + 1) /\
  _connectivity_set s' =
    (if pinCountInPart s e p + 1 =? 1
     then cs_add (_connectivity_set s) e p else _connectivity_set s) /\
  _part_weights s' = _part_weights s /\ _part_ids s' = _part_ids s /\
  _move_to_penalty s' = _move_to_penalty s /\ _move_from_benefit s' = _move_from_benefit s /\
  _pin_count_update_ownership s' = _pin_count_update_ownership s /\
  _is_gain_cache_initialized s' = _is_gain_cache_initialized s.
Proof.
  unfold incrementPinCountInPartWithoutGainUpdate, incrementPinCountInPart, pinCountInPart.
  simpl. destruct (_pins_in_part s e p + 1 =? 1); simpl; repeat split; reflexivity.
Qed.

Lemma decrement_fields e p s :
  let s' := snd (decrementPinCountInPartWithoutGainUpdate e p s) in
  fst (decrementPinCountInPartWithoutGainUpdate e p s) = pinCountInPart s e p - 1 /\
  _pins_in_part s' = setPinCountInPart (_pins_in_part s) e p (pinCountInPart s e p - 1) /\
  _connectivity_set s' =
    (if pinCountInPart s e p - 1 =? 0
     then cs_remove (_connectivity_set s) e p else _connectivity_set s) /\
  _part_weights s' = _part_weights s /\ _part_ids s' = _part_ids s /\
  _move_to_penalty s' = _move_to_penalty s /\ _move_from_benefit s' = _move_from_benefit s /\
  _pin_count_update_ownership s' = _pin_count_update_ownership s /\
  _is_gain_cache_initialized s' = _is_gain_cache_initialized s.
Proof.
  unfold decrementPinCountInPartWithoutGainUpdate, decrementPinCountInPart, pinCountInPart.
  simpl. destruct (_pins_in_part s e p - 1 =? 0); simpl; repeat split; reflexivity.
Qed.

Lemma setPinCountInPart_at pc e p n e' p' :
  setPinCountInPart pc e p n e' p' = if (e' =? e) && (p' =? p) then n else pc e' p'.
Proof. reflexivity. Qed.

(** *** The pin-count part of a move on one edge *)

Lemma move_pin_frame from to s he :
  let s' := move_pin_of_edge from to s he in
  _part_weights s' = _part_weights s /\ _part_ids s' = _part_ids s /\
  _move_to_penalty s' = _move_to_penalty s /\ _move_from_benefit s' = _move_from_benefit s /\
  _pin_count_update_ownership s' = _pin_count_update_ownership s.
Proof.
  unfold move_pin_of_edge.
  destruct (increment_fields he to (snd (decrementPinCountInPartWithoutGainUpdate he from s)))
    as (_ & _ & _ & I1 & I2 & I3 & I4 & I5 & _).
  destruct (decrement_fields he from s) as (_ & _ & _ & D1 & D2 & D3 & D4 & D5 & _).
  cbv zeta. rewrite I1, I2, I3, I4, I5. auto.
Qed.

Lemma move_pin_pc from to s he e q :
  from <> to ->
  pinCountInPart (move_pin_of_edge from to s he) e q =
  pinCountInPart s e q
  + (if e =? he then (if q =? to then 1 else 0) - (if q =? from then 1 else 0) else 0).
Proof.
  intros Hne. unfold move_pin_of_edge.
  destruct (increment_fields he to (snd (decrementPinCountInPartWithoutGainUpdate he from s)))
    as (_ & I & _).
  destruct (decrement_fields he from s) as (_ & D & _).
  unfold pinCountInPart in *. rewrite I, D.
  rewrite !setPinCountInPart_at.
  destruct (Z.eqb_spec he he); [|congruence]. simpl.
  destruct (Z.eqb_spec e he), (Z.eqb_spec q to), (Z.eqb_spec q from),
           (Z.eqb_spec to from); subst; simpl; try lia; congruence.
Qed.

Lemma move_pin_cs from to s he e q :
  from <> to ->
  _connectivity_set (move_pin_of_edge from to s he) e q =
  if (e =? he) && (q =? from)
  then (if pinCountInPart s he from - 1 =? 0 then false else _connectivity_set s e q)
  else if (e =? he) && (q =? to)
       then (if pinCountInPart s he to + 1 =? 1 then true else _connectivity_set s e q)
       else _connectivity_set s e q.
Proof.
  intros Hne. unfold move_pin_of_edge.
  destruct (increment_fields he to (snd (decrementPinCountInPartWithoutGainUpdate he from s)))
    as (_ & _ & I & _).
  destruct (decrement_fields he from s) as (_ & D1 & D2 & _).
  rewrite I, D2. unfold pinCountInPart at 1 2. rewrite D1.
  rewrite setPinCountInPart_at.
  destruct (Z.eqb_spec he he); [|congruence].
  destruct (Z.eqb_spec to from); [congruence|]. simpl.
  unfold pinCountInPart.
  destruct (_pins_in_part s he to + 1 =? 1), (_pins_in_part s he from - 1 =? 0);
    unfold cs_add, cs_remove;
    destruct (Z.eqb_spec e he), (Z.eqb_spec q to), (Z.eqb_spec q from);
    subst; simpl; try reflexivity; congruence.
Qed.

(** *** All incident edges of the moved node *)

Lemma fold_move_frame from to l s :
  let s' := fold_left (move_pin_of_edge from to) l s in
  _part_weights s' = _part_weights s /\ _part_ids s' = _part_ids s /\
  _move_to_penalty s' = _move_to_penalty s /\ _move_from_benefit s' = _move_from_benefit s /\
  _pin_count_update_ownership s' = _pin_count_update_ownership s.
Proof.
  revert s. induction l as [|he l IH]; intros s; cbn [fold_left]; [cbv zeta; auto 6|].
  destruct (IH (move_pin_of_edge from to s he)) as (A1 & A2 & A3 & A4 & A5).
  destruct (move_pin_frame from to s he) as (B1 & B2 & B3 & B4 & B5).
  cbv zeta. rewrite A1, A2, A3, A4, A5. auto.
Qed.

Lemma fold_move_pc from to l s e q :
  from <> to -> NoDup l ->
  pinCountInPart (fold_left (move_pin_of_edge from to) l s) e q =
  pinCountInPart s e q
  + (if existsb (Z.eqb e) l
     then (if q =? to then 1 else 0) - (if q =? from then 1 else 0) else 0).
Proof.
  intros Hne Hnd. revert s. induction Hnd as [|he l Hhe Hnd IH]; intros s; simpl; [lia|].
  rewrite IH, move_pin_pc by assumption.
  destruct (Z.eqb_spec e he) as [->|Hd]; simpl.
  - apply existsb_eqb_notIn in Hhe. rewrite Hhe. lia.
  - lia.
Qed.

Lemma fold_move_cs from to l s e q :
  from <> to -> NoDup l ->
  _connectivity_set (fold_left (move_pin_of_edge from to) l s) e q =
  if existsb (Z.eqb e) l
  then _connectivity_set (move_pin_of_edge from to s e) e q
  else _connectivity_set s e q.
Proof.
  intros Hne Hnd. revert s. induction Hnd as [|he l Hhe Hnd IH]; intros s; simpl; [reflexivity|].
  rewrite IH. destruct (Z.eqb_spec e he) as [->|Hd]; simpl.
  - apply existsb_eqb_notIn in Hhe. rewrite Hhe. reflexivity.
  - destruct (existsb (Z.eqb e) l).
    + rewrite !move_pin_cs by assumption.
      rewrite !(move_pin_pc from to s he) by assumption.
      destruct (Z.eqb_spec e he); [congruence|]. simpl. rewrite !Z.add_0_r. reflexivity.
    + rewrite move_pin_cs by assumption.
      destruct (Z.eqb_spec e he); [congruence|]. reflexivity.
Qed.

End Facts.

End PinFacts.

(* ------------------------------------------------------------------ *)
(** ** partitioned_hypergraph.h: the move primitive *)

Module MoveFacts.
Import PHG PinFacts.

Section Facts.

Variable hg : Hypergraph.
Variable k : PartitionID.

Lemma same_partition_refl s : same_partition s s.
Proof. repeat split. Qed.

Lemma same_partition_sym s t : same_partition s t -> same_partition t s.
Proof. intros (A & B & C & D). repeat split; congruence. Qed.

Lemma same_partition_trans s t r :
  same_partition s t -> same_partition t r -> same_partition s r.
Proof. intros (A & B & C & D) (A' & B' & C' & D'). repeat split; congruence. Qed.

Lemma move_pin_same_partition from to s t he :
  same_partition s t ->
  same_partition (move_pin_of_edge from to s he) (move_pin_of_edge from to t he).
Proof.
  intros (A & B & C & D).
  destruct (move_pin_frame from to s he) as (S1 & S2 & _).
  destruct (move_pin_frame from to t he) as (T1 & T2 & _).
  unfold move_pin_of_edge in *.
  destruct (increment_fields he to (snd (decrementPinCountInPartWithoutGainUpdate he from s)))
    as (_ & Is1 & Is2 & _).
  destruct (increment_fields he to (snd (decrementPinCountInPartWithoutGainUpdate he from t)))
    as (_ & It1 & It2 & _).
  destruct (decrement_fields he from s) as (_ & Ds1 & Ds2 & _).
  destruct (decrement_fields he from t) as (_ & Dt1 & Dt2 & _).
  repeat split.
  - congruence.
  - congruence.
  - rewrite Is1, It1. unfold pinCountInPart. rewrite Ds1, Dt1.
    unfold pinCountInPart. rewrite C. reflexivity.
  - rewrite Is2, It2. unfold pinCountInPart. rewrite Ds1, Dt1, Ds2, Dt2.
    unfold pinCountInPart. rewrite C, D. reflexivity.
Qed.

Lemma fold_move_same_partition from to l s t :
  same_partition s t ->
  same_partition (fold_left (move_pin_of_edge from to) l s)
                 (fold_left (move_pin_of_edge from to) l t).
Proof.
  revert s t. induction l as [|he l IH]; intros s t H; simpl; [exact H|].
  apply IH. now apply move_pin_same_partition.
Qed.

(** One turn of the spin loop on a free edge does what
    [move_pin_of_edge] does to the partition members, and releases the
    edge. *)
Lemma spin_free {A : Type} (delta_func : DeltaFunc A) from to he s (a : A) :
  gain_only delta_func ->
  _pin_count_update_ownership s he = false ->
  exists s' a',
    spin_updatePinCount hg from to delta_func he (s, a) = Some (s', a') /\
    same_partition s' (move_pin_of_edge from to s he) /\
    (forall e, _pin_count_update_ownership s' e = _pin_count_update_ownership s e).
Proof.
  intros Hg Hown.
  unfold spin_updatePinCount, updatePinCountOfHyperedgeWithoutGainUpdates.
  rewrite Hown.
  set (s0 := with_ownership (upd (_pin_count_update_ownership s) he true) s).
  destruct (decrementPinCountInPartWithoutGainUpdate he from s0) as [cf s1] eqn:Hd.
  destruct (incrementPinCountInPartWithoutGainUpdate he to s1) as [ct s2] eqn:Hi.
  destruct (delta_func he (edgeWeight hg he) (edgeSize hg he) cf ct (s2, a)) as [s3 a3] eqn:Hdl.
  eexists; eexists. split; [reflexivity|].
  destruct (Hg he (edgeWeight hg he) (edgeSize hg he) cf ct s2 a) as [Hsp Hso].
  rewrite Hdl in Hsp, Hso. simpl in Hsp, Hso.
  assert (Hs2 : s2 = move_pin_of_edge from to s0 he).
  { unfold move_pin_of_edge. rewrite Hd. cbn [snd]. rewrite Hi. reflexivity. }
  split.
  - apply same_partition_trans with s3.
    + destruct Hsp as (P1 & P2 & P3 & P4). repeat split; simpl; congruence.
    + apply same_partition_sym in Hsp. apply same_partition_trans with s2; [exact Hsp|].
      rewrite Hs2. apply move_pin_same_partition. repeat split.
  - intros e. simpl. rewrite Hso, Hs2.
    destruct (move_pin_frame from to s0 he) as (_ & _ & _ & _ & F). rewrite F.
    simpl. unfold upd. destruct (Z.eqb_spec e he) as [->|]; [now rewrite Hown | reflexivity].
Qed.

Lemma for_each_free {A : Type} (delta_func : DeltaFunc A) from to l s (a : A) :
  gain_only delta_func ->
  lock_free s ->
  exists s' a',
    for_each (spin_updatePinCount hg from to delta_func) l (s, a) = Some (s', a') /\
    same_partition s' (fold_left (move_pin_of_edge from to) l s) /\
    lock_free s'.
Proof.
  intros Hg. revert s a. induction l as [|he l IH]; intros s a Hfree; simpl.
  - exists s, a. repeat split. exact Hfree.
  - destruct (spin_free delta_func from to he s a Hg (Hfree he)) as (s1 & a1 & E & Hsp & Hown).
    rewrite E.
    assert (Hfree1 : lock_free s1) by (intros e; rewrite Hown; apply Hfree).
    destruct (IH s1 a1 Hfree1) as (s' & a' & E' & Hsp' & Hfree').
    exists s', a'. split; [exact E'|]. split; [|exact Hfree'].
    apply same_partition_trans with (fold_left (move_pin_of_edge from to) l s1); [exact Hsp'|].
    now apply fold_move_same_partition.
Qed.

Lemma balance_test_spec s u from to max_weight_to :
  from <> to ->
  balance_test hg s u from to max_weight_to = true <->
  partWeight s to + nodeWeight hg u <= max_weight_to /\ 0 < partWeight s from.
Proof.
  intros Hne. unfold balance_test. rewrite upd_other by exact Hne.
  rewrite andb_true_iff, Z.leb_le, Z.ltb_lt. reflexivity.
Qed.

(** [changeNodePart] in terms of the balance test and the loop over the
    incident edges. *)
Lemma changeNodePart_unfold {A : Type} u from to max_weight_to
      (report_success : A -> A) (delta_func : DeltaFunc A) s (a : A) :
  changeNodePart hg u from to max_weight_to report_success delta_func (s, a) =
  if balance_test hg s u from to max_weight_to
  then match for_each (spin_updatePinCount hg from to delta_func) (incidentEdges hg u)
                      (moved_header hg s u from to, report_success a) with
       | Some st' => Some (true, st')
       | None => None
       end
  else Some (false,
             (with_part_weights
                (upd (upd (_part_weights (moved_header hg s u from to)) to
                          (_part_weights (moved_header hg s u from to) to - nodeWeight hg u))
                     from
                     (upd (_part_weights (moved_header hg s u from to)) to
                          (_part_weights (moved_header hg s u from to) to - nodeWeight hg u) from
                      + nodeWeight hg u))
                (with_part_weights (_part_weights (moved_header hg s u from to)) s), a)).
Proof. reflexivity. Qed.

(** A call on a lock-free state always returns, and it returns what the
    balance test says. *)
Lemma changeNodePart_returns {A : Type} u from to max_weight_to
      (report_success : A -> A) (delta_func : DeltaFunc A) s (a : A) :
  gain_only delta_func -> lock_free s ->
  exists s' a',
    changeNodePart hg u from to max_weight_to report_success delta_func (s, a)
    = Some (balance_test hg s u from to max_weight_to, (s', a')).
Proof.
  intros Hg Hfree. rewrite changeNodePart_unfold.
  destruct (balance_test hg s u from to max_weight_to).
  - assert (Hfree' : lock_free (moved_header hg s u from to)) by exact Hfree.
    destruct (for_each_free delta_func from to (incidentEdges hg u)
                (moved_header hg s u from to) (report_success a) Hg Hfree')
      as (s' & a' & E & _).
    rewrite E. eauto.
  - eauto.
Qed.

(** What a successful call does to the partition members. *)
Lemma changeNodePart_success {A : Type} u from to max_weight_to
      (report_success : A -> A) (delta_func : DeltaFunc A) s (a : A) s' a' :
  gain_only delta_func -> lock_free s ->
  changeNodePart hg u from to max_weight_to report_success delta_func (s, a)
  = Some (true, (s', a')) ->
  balance_test hg s u from to max_weight_to = true /\
  same_partition s' (fold_left (move_pin_of_edge from to) (incidentEdges hg u)
                               (moved_header hg s u from to)) /\
  lock_free s'.
Proof.
  intros Hg Hfree H. rewrite changeNodePart_unfold in H.
  destruct (balance_test hg s u from to max_weight_to); [|discriminate].
  split; [reflexivity|].
  assert (Hfree' : lock_free (moved_header hg s u from to)) by exact Hfree.
  destruct (for_each_free delta_func from to (incidentEdges hg u)
              (moved_header hg s u from to) (report_success a) Hg Hfree')
    as (s1 & a1 & E & Hsp & Hf1).
  rewrite E in H. inversion H; subst. auto.
Qed.

(** What a failed call leaves behind: the part weights are shifted and
    shifted back, nothing else is written. *)
Lemma changeNodePart_failure {A : Type} u from to max_weight_to
      (report_success : A -> A) (delta_func : DeltaFunc A) s (a : A) s' a' :
  changeNodePart hg u from to max_weight_to report_success delta_func (s, a)
  = Some (false, (s', a')) ->
  balance_test hg s u from to max_weight_to = false /\
  a' = a /\
  (forall p, partWeight s' p = partWeight s p) /\
  _part_ids s' = _part_ids s /\
  _pins_in_part s' = _pins_in_part s /\
  _connectivity_set s' = _connectivity_set s /\
  _move_to_penalty s' = _move_to_penalty s /\
  _move_from_benefit s' = _move_from_benefit s /\
  _pin_count_update_ownership s' = _pin_count_update_ownership s.
Proof.
  intros H. rewrite changeNodePart_unfold in H.
  destruct (balance_test hg s u from to max_weight_to).
  - destruct (for_each _ _ _); discriminate.
  - inversion H; subst. clear H. repeat split; try reflexivity.
    intros p. unfold partWeight, moved_header. cbn. unfold upd.
    destruct (Z.eqb_spec p from), (Z.eqb_spec p to), (Z.eqb_spec to from),
             (Z.eqb_spec from to), (Z.eqb_spec from from), (Z.eqb_spec to to);
      subst; try congruence; try lia.
Qed.

(** C2, what the code does: on a lock-free state the call returns true
    exactly when the weight of [to] with the node added is within the
    limit and the weight of [from] BEFORE the subtraction is positive. *)
Lemma changeNodePart_true_iff {A : Type} u from to max_weight_to
      (report_success : A -> A) (delta_func : DeltaFunc A) s (a : A) :
  gain_only delta_func -> lock_free s -> from <> to ->
  (exists st', changeNodePart hg u from to max_weight_to report_success delta_func (s, a)
               = Some (true, st')) <->
  (partWeight s to + nodeWeight hg u <= max_weight_to /\ 0 < partWeight s from).
Proof.
  intros Hg Hfree Hne. rewrite <- (balance_test_spec s u from to max_weight_to Hne).
  destruct (changeNodePart_returns u from to max_weight_to report_success delta_func s a Hg Hfree)
    as (s' & a' & E).
  rewrite E. split.
  - intros [st' H]. congruence.
  - intros H. rewrite H. eauto.
Qed.

End Facts.

End MoveFacts.

(* ------------------------------------------------------------------ *)
(** ** The tracked invariants *)

Module InvariantFacts.
Import PHG PinFacts MoveFacts.

Section Facts.

Variable hg : Hypergraph.
Variable k : PartitionID.
Hypothesis Hwf : wf_hypergraph hg.

Lemma NoDup_nodes : NoDup (nodes hg).
Proof. apply NoDup_filter, NoDup_range. Qed.

Lemma NoDup_edges : NoDup (edges hg).
Proof. apply NoDup_filter, NoDup_range. Qed.

Lemma In_nodes u : In u (nodes hg) <-> nodeIsEnabled hg u = true.
Proof.
  unfold nodes. rewrite filter_In, In_range. split; [tauto|].
  intros H. split; [apply (wf_node_range hg Hwf u H) | exact H].
Qed.

Lemma In_edges e : In e (edges hg) <-> edgeIsEnabled hg e = true.
Proof.
  unfold edges. rewrite filter_In, In_range. split; [tauto|].
  intros H. split; [apply (wf_edge_range hg Hwf e H) | exact H].
Qed.

(** For an enabled node and an enabled edge, "incident" and "pin" agree. *)
Lemma incident_iff_pin u e :
  nodeIsEnabled hg u = true -> edgeIsEnabled hg e = true ->
  existsb (Z.eqb e) (incidentEdges hg u) = existsb (Z.eqb u) (pins hg e).
Proof.
  intros Hu He.
  destruct (existsb (Z.eqb u) (pins hg e)) eqn:E.
  - apply existsb_eqb_In. apply (wf_incidence hg Hwf u e Hu).
    split; [exact He | now apply existsb_eqb_In].
  - apply existsb_eqb_notIn. intros Hin.
    apply (wf_incidence hg Hwf u e Hu) in Hin. destruct Hin as [_ Hin].
    apply existsb_eqb_In in Hin. congruence.
Qed.

Lemma incident_enabled u e :
  nodeIsEnabled hg u = true -> In e (incidentEdges hg u) ->
  edgeIsEnabled hg e = true /\ In u (pins hg e).
Proof. intros Hu Hin. now apply (wf_incidence hg Hwf u e Hu). Qed.

(** *** The invariants only read the partition members *)

Lemma pin_count_inv_same s t :
  same_partition s t -> pin_count_inv hg k t -> pin_count_inv hg k s.
Proof.
  intros (_ & B & C & _) H e p He Hp. specialize (H e p He Hp).
  unfold pinCountInPart, pinCountInPartRecomputed, partID in *. rewrite B, C. exact H.
Qed.

Lemma connectivity_inv_same s t :
  same_partition s t -> connectivity_inv hg k t -> connectivity_inv hg k s.
Proof.
  intros (_ & _ & C & D) H e p He Hp. specialize (H e p He Hp).
  unfold pinCountInPart in *. rewrite C, D. exact H.
Qed.

Lemma part_weight_inv_same s t :
  same_partition s t -> part_weight_inv hg k t -> part_weight_inv hg k s.
Proof.
  intros (A & B & _ & _) H p Hp. specialize (H p Hp).
  unfold partWeight, weight_of_block, partID in *. rewrite A, B. exact H.
Qed.

Lemma all_assigned_same s t :
  same_partition s t -> all_assigned hg k t -> all_assigned hg k s.
Proof.
  intros (_ & B & _ & _) H u Hu. specialize (H u Hu).
  unfold partID in *. rewrite B. exact H.
Qed.

Lemma consistent_same s t :
  same_partition s t -> lock_free s -> consistent hg k t -> consistent hg k s.
Proof.
  intros Hsp Hfree [H1 H2 H3 H4 _]. constructor.
  - now apply (all_assigned_same s t).
  - now apply (pin_count_inv_same s t).
  - now apply (connectivity_inv_same s t).
  - now apply (part_weight_inv_same s t).
  - exact Hfree.
Qed.

(** *** Recomputed values after a node changed its block *)

Lemma pins_in_block_upd s ids' u newp e p :
  _part_ids ids' = upd (_part_ids s) u newp ->
  pins_in_block hg ids' e p =
  pins_in_block hg s e p
  + (if existsb (Z.eqb u) (pins hg e)
     then (if newp =? p then 1 else 0) - (if partID s u =? p then 1 else 0) else 0).
Proof.
  intros H. unfold pins_in_block, partID. rewrite H.
  apply (sumZ_upd_block (_part_ids s) (fun _ => 1)). apply (wf_pins_NoDup hg Hwf).
Qed.

Lemma weight_of_block_upd s ids' u newp p :
  _part_ids ids' = upd (_part_ids s) u newp ->
  weight_of_block hg ids' p =
  weight_of_block hg s p
  + (if existsb (Z.eqb u) (nodes hg)
     then (if newp =? p then nodeWeight hg u else 0)
          - (if partID s u =? p then nodeWeight hg u else 0) else 0).
Proof.
  intros H. unfold weight_of_block, partID. rewrite H.
  apply (sumZ_upd_block (_part_ids s) (nodeWeight hg)). apply NoDup_nodes.
Qed.

(** *** A move keeps the state consistent *)

Lemma moved_consistent s u from to :
  consistent hg k s ->
  nodeIsEnabled hg u = true -> partID s u = from -> from <> to -> 0 <= to < k ->
  let t := fold_left (move_pin_of_edge from to) (incidentEdges hg u)
                     (moved_header hg s u from to) in
  all_assigned hg k t /\ pin_count_inv hg k t /\
  connectivity_inv hg k t /\ part_weight_inv hg k t.
Proof.
  intros [Has Hpc Hcs Hpw Hfree] Hu Hfrom Hne Hto t.
  assert (Hfromk : 0 <= from < k) by (rewrite <- Hfrom; apply Has, Hu).
  destruct (fold_move_frame from to (incidentEdges hg u) (moved_header hg s u from to))
    as (Fw & Fi & _).
  fold t in Fw, Fi.
  assert (Hids : _part_ids t = upd (_part_ids s) u to) by (rewrite Fi; reflexivity).
  assert (Hpct : forall e q, pinCountInPart t e q =
             pinCountInPart s e q
             + (if existsb (Z.eqb e) (incidentEdges hg u)
                then (if q =? to then 1 else 0) - (if q =? from then 1 else 0) else 0)).
  { intros e q. unfold t.
    rewrite fold_move_pc; [reflexivity | exact Hne | apply (wf_incident_NoDup hg Hwf)]. }
  split; [|split; [|split]].
  - (* every enabled node keeps a block *)
    intros v Hv. unfold partID. rewrite Hids. unfold upd.
    destruct (v =? u); [exact Hto | apply Has, Hv].
  - (* pin counts *)
    intros e p He Hp. rewrite pinCountInPartRecomputed_sum.
    rewrite (pins_in_block_upd s t u to e p Hids), Hpct, Hfrom.
    rewrite (incident_iff_pin u e Hu He).
    rewrite (Hpc e p He Hp), pinCountInPartRecomputed_sum.
    rewrite (Z.eqb_sym to p), (Z.eqb_sym from p). reflexivity.
  - (* connectivity sets *)
    intros e p He Hp. rewrite Hpct. unfold t.
    rewrite fold_move_cs; [| exact Hne | apply (wf_incident_NoDup hg Hwf)].
    destruct (existsb (Z.eqb e) (incidentEdges hg u)) eqn:Hin.
    + apply existsb_eqb_In in Hin.
      destruct (incident_enabled u e Hu Hin) as [_ Hpin].
      assert (H1 : 1 <= pinCountInPart s e from).
      { rewrite (Hpc e from He Hfromk), pinCountInPartRecomputed_sum.
        now apply (pins_in_block_pos hg s e from u). }
      assert (H0 : 0 <= pinCountInPart s e to).
      { rewrite (Hpc e to He Hto), pinCountInPartRecomputed_sum.
        apply pins_in_block_nonneg. }
      rewrite move_pin_cs by assumption.
      rewrite Z.eqb_refl. simpl.
      change (_pins_in_part (moved_header hg s u from to)) with (_pins_in_part s).
      change (_connectivity_set (moved_header hg s u from to)) with (_connectivity_set s).
      unfold pinCountInPart in *.
      pose proof (Hcs e from He Hfromk) as Cf. pose proof (Hcs e to He Hto) as Ct.
      pose proof (Hcs e p He Hp) as Cp. unfold pinCountInPart in Cf, Ct, Cp.
      destruct (Z.eqb_spec p from) as [->|Hpf]; [destruct (Z.eqb_spec from to); [congruence|]|
        destruct (Z.eqb_spec p to) as [->|Hpt]].
      * destruct (Z.eqb_spec (_pins_in_part s e from - 1) 0).
        -- split; [discriminate | lia].
        -- rewrite Cf. lia.
      * destruct (Z.eqb_spec (_pins_in_part s e to + 1) 1).
        -- split; [lia | reflexivity].
        -- rewrite Ct. lia.
      * rewrite Cp. lia.
    + change (_connectivity_set (moved_header hg s u from to)) with (_connectivity_set s).
      rewrite Z.add_0_r. apply Hcs; assumption.
  - (* part weights *)
    intros p Hp. rewrite (weight_of_block_upd s t u to p Hids), Hfrom.
    assert (Hin : existsb (Z.eqb u) (nodes hg) = true) by (apply existsb_eqb_In, In_nodes, Hu).
    rewrite Hin, <- (Hpw p Hp). unfold partWeight. rewrite Fw.
    unfold moved_header. cbn. unfold upd.
    destruct (Z.eqb_spec p from), (Z.eqb_spec p to), (Z.eqb_spec to p), (Z.eqb_spec from p),
             (Z.eqb_spec from to); subst; try congruence; try lia.
Qed.

Lemma changeNodePart_consistent {A : Type} u from to max_weight_to
      (report_success : A -> A) (delta_func : DeltaFunc A) s (a : A) s' a' :
  consistent hg k s -> gain_only delta_func ->
  nodeIsEnabled hg u = true -> partID s u = from -> from <> to -> 0 <= to < k ->
  changeNodePart hg u from to max_weight_to report_success delta_func (s, a)
  = Some (true, (s', a')) ->
  consistent hg k s'.
Proof.
  intros Hc Hg Hu Hfrom Hne Hto H.
  destruct (changeNodePart_success hg u from to max_weight_to report_success delta_func
              s a s' a' Hg (cons_lock_free hg k s Hc) H) as (_ & Hsp & Hfree).
  destruct (moved_consistent s u from to Hc Hu Hfrom Hne Hto) as (H1 & H2 & H3 & H4).
  apply (consistent_same s' _ Hsp Hfree). constructor; auto.
  intros e. destruct (fold_move_frame from to (incidentEdges hg u) (moved_header hg s u from to))
    as (_ & _ & _ & _ & F). rewrite F. apply (cons_lock_free hg k s Hc).
Qed.

End Facts.

End InvariantFacts.

(* ------------------------------------------------------------------ *)
(** ** Initial assignment with setNodePart *)

Module AssignFacts.
Import PHG PinFacts MoveFacts InvariantFacts.

Section Facts.

Variable hg : Hypergraph.
Variable k : PartitionID.
Hypothesis Hwf : wf_hypergraph hg.

Local Abbreviation tracked := (PHG.tracked hg k).

Local Abbreviation inc_step p :=
  (fun (s' : PartitionedHypergraph) (he : HyperedgeID) =>
     snd (incrementPinCountInPartWithoutGainUpdate he p s')).

Lemma fold_inc_frame p l s :
  _part_weights (fold_left (inc_step p) l s) = _part_weights s /\
  _part_ids (fold_left (inc_step p) l s) = _part_ids s /\
  _pin_count_update_ownership (fold_left (inc_step p) l s) = _pin_count_update_ownership s.
Proof.
  revert s. induction l as [|he l IH]; intros s; cbn [fold_left]; [auto|].
  destruct (IH (snd (incrementPinCountInPartWithoutGainUpdate he p s))) as (A1 & A2 & A3).
  destruct (increment_fields he p s) as (_ & _ & _ & B1 & B2 & _ & _ & B3 & _).
  rewrite A1, A2, A3. auto.
Qed.

Lemma fold_inc_pc p l s e q :
  NoDup l ->
  pinCountInPart (fold_left (inc_step p) l s) e q =
  pinCountInPart s e q + (if existsb (Z.eqb e) l && (q =? p) then 1 else 0).
Proof.
  intros Hnd. revert s. induction Hnd as [|he l Hhe Hnd IH]; intros s; cbn [fold_left existsb].
  - simpl. lia.
  - rewrite IH. destruct (increment_fields he p s) as (_ & I & _).
    unfold pinCountInPart in *. rewrite I, setPinCountInPart_at.
    destruct (Z.eqb_spec e he) as [->|Hd]; simpl.
    + apply existsb_eqb_notIn in Hhe. rewrite Hhe. simpl.
      destruct (Z.eqb_spec q p) as [->|]; lia.
    + lia.
Qed.

Lemma fold_inc_cs p l s e q :
  NoDup l ->
  _connectivity_set (fold_left (inc_step p) l s) e q =
  if existsb (Z.eqb e) l && (q =? p)
  then (if pinCountInPart s e p + 1 =? 1 then true else _connectivity_set s e q)
  else _connectivity_set s e q.
Proof.
  intros Hnd. revert s. induction Hnd as [|he l Hhe Hnd IH]; intros s; cbn [fold_left existsb].
  - reflexivity.
  - rewrite IH. destruct (increment_fields he p s) as (_ & I1 & I2 & _).
    unfold pinCountInPart in *. rewrite I1, I2, setPinCountInPart_at.
    destruct (Z.eqb_spec e he) as [->|Hd]; cbn [orb andb].
    + apply existsb_eqb_notIn in Hhe. rewrite Hhe. cbn [andb].
      destruct (_pins_in_part s he p + 1 =? 1); [|destruct (q =? p); reflexivity].
      unfold cs_add. rewrite Z.eqb_refl. cbn [andb]. destruct (q =? p); reflexivity.
    + assert (Hcs : (if _pins_in_part s he p + 1 =? 1
                     then cs_add (_connectivity_set s) he p
                     else _connectivity_set s) e q = _connectivity_set s e q).
      { destruct (_pins_in_part s he p + 1 =? 1); [|reflexivity].
        unfold cs_add. destruct (Z.eqb_spec e he); [contradiction | reflexivity]. }
      rewrite Hcs. reflexivity.
Qed.

Lemma construct_tracked : tracked construct.
Proof.
  split; [|split; [|split]].
  - intros e p He Hp. rewrite pinCountInPartRecomputed_sum. unfold pins_in_block.
    symmetry. apply sumZ_zero. intros v _.
    change (partID construct v) with kInvalidPartition. unfold kInvalidPartition.
    destruct (Z.eqb_spec (-1) p); [lia | reflexivity].
  - intros e p He Hp. change (_connectivity_set construct e p) with false.
    change (pinCountInPart construct e p) with 0. split; [discriminate | lia].
  - intros p Hp. unfold weight_of_block. change (partWeight construct p) with 0.
    symmetry. apply sumZ_zero. intros v _.
    change (partID construct v) with kInvalidPartition. unfold kInvalidPartition.
    destruct (Z.eqb_spec (-1) p); [lia | reflexivity].
  - intros e. reflexivity.
Qed.

Lemma setNodePart_tracked s u p :
  tracked s ->
  nodeIsEnabled hg u = true -> partID s u = kInvalidPartition -> 0 <= p < k ->
  tracked (setNodePart hg u p s).
Proof.
  intros (Hpc & Hcs & Hpw & Hfree) Hu Hold Hp.
  unfold setNodePart, fetch_add. cbv zeta. cbn [snd].
  set (s2 := with_part_weights _ (setOnlyNodePart u p s)).
  destruct (fold_inc_frame p (incidentEdges hg u) s2) as (Fw & Fi & Fo).
  set (t := fold_left _ (incidentEdges hg u) s2) in *.
  assert (Hids : _part_ids t = upd (_part_ids s) u p) by (rewrite Fi; reflexivity).
  assert (Hnd := wf_incident_NoDup hg Hwf u).
  split; [|split; [|split]].
  - intros e q He Hq. rewrite pinCountInPartRecomputed_sum.
    rewrite (pins_in_block_upd hg Hwf s t u p e q Hids). unfold t.
    rewrite fold_inc_pc by exact Hnd.
    rewrite (incident_iff_pin hg Hwf u e Hu He).
    change (pinCountInPart s2 e q) with (pinCountInPart s e q).
    rewrite (Hpc e q He Hq), pinCountInPartRecomputed_sum, Hold.
    unfold kInvalidPartition.
    destruct (existsb (Z.eqb u) (pins hg e)); cbn [andb]; [|reflexivity].
    rewrite (Z.eqb_sym p q).
    destruct (Z.eqb_spec (-1) q); [lia|]. lia.
  - intros e q He Hq. unfold t at 2. rewrite fold_inc_pc by exact Hnd.
    unfold t. rewrite fold_inc_cs by exact Hnd.
    change (pinCountInPart s2 e q) with (pinCountInPart s e q).
    change (pinCountInPart s2 e p) with (pinCountInPart s e p).
    change (_connectivity_set s2 e q) with (_connectivity_set s e q).
    pose proof (Hcs e q He Hq) as Cq.
    assert (H0 : 0 <= pinCountInPart s e q).
    { rewrite (Hpc e q He Hq), pinCountInPartRecomputed_sum. apply pins_in_block_nonneg. }
    destruct (existsb (Z.eqb e) (incidentEdges hg u)); simpl; [|rewrite Cq; lia].
    destruct (Z.eqb_spec q p) as [->|Hd]; [|rewrite Cq; lia].
    destruct (Z.eqb_spec (pinCountInPart s e p + 1) 1).
    + split; [lia | reflexivity].
    + rewrite Cq. lia.
  - intros q Hq. rewrite (weight_of_block_upd hg s t u p q Hids), Hold.
    assert (Hin : existsb (Z.eqb u) (nodes hg) = true)
      by (apply existsb_eqb_In, (In_nodes hg Hwf), Hu).
    rewrite Hin, <- (Hpw q Hq). unfold partWeight. rewrite Fw.
    unfold s2, kInvalidPartition.
    cbn [_part_weights with_part_weights with_part_ids setOnlyNodePart]. unfold upd.
    destruct (Z.eqb_spec q p), (Z.eqb_spec p q), (Z.eqb_spec (-1) q);
      subst; try congruence; try lia.
  - intros e. rewrite Fo. apply Hfree.
Qed.

Lemma assigning_tracked s : assigning hg k s -> tracked s.
Proof.
  induction 1 as [|s u p Hs IH Hu Hold Hp].
  - apply construct_tracked.
  - now apply setNodePart_tracked.
Qed.

End Facts.

End AssignFacts.

(* ------------------------------------------------------------------ *)
(** ** Bulk initialisation with initializePartition *)

Module InitFacts.
Import PHG PinFacts MoveFacts InvariantFacts.

Section Facts.

Variable hg : Hypergraph.
Variable k : PartitionID.
Hypothesis Hwf : wf_hypergraph hg.

Lemma in_range_mem (q : Z) : existsb (Z.eqb q) (range k) = (0 <=? q) && (q <? k).
Proof.
  destruct (existsb (Z.eqb q) (range k)) eqn:E.
  - apply existsb_eqb_In, In_range in E. symmetry.
    apply andb_true_iff. split; [apply Z.leb_le | apply Z.ltb_lt]; lia.
  - apply existsb_eqb_notIn in E. rewrite In_range in E. symmetry.
    apply andb_false_iff.
    destruct (Z.leb_spec 0 q); [right; apply Z.ltb_ge; lia | now left].
Qed.

(** *** Block weights *)

Lemma pws_fold (ids : Z -> Z) (l : list HypernodeID) (init : Z -> Z) (p : Z) :
  fold_left (fun (pws : PartitionID -> HypernodeWeight) u =>
               if nodeIsEnabled hg u
               then upd pws (ids u) (pws (ids u) + nodeWeight hg u)
               else pws) l init p
  = init p + sumZ (fun v => if ids v =? p then nodeWeight hg v else 0)
                  (filter (nodeIsEnabled hg) l).
Proof.
  revert init. induction l as [|x l IH]; intros init; cbn [fold_left filter]; [simpl; lia|].
  rewrite IH. destruct (nodeIsEnabled hg x); cbn [sumZ]; [|reflexivity].
  unfold upd. rewrite (Z.eqb_sym p (ids x)).
  destruct (Z.eqb_spec (ids x) p) as [->|]; lia.
Qed.

Lemma applyPartWeightUpdates_fold (deltas : Z -> Z) (l : list PartitionID) s :
  NoDup l ->
  let s' := fold_left (fun s' p =>
                         with_part_weights
                           (snd (fetch_add (_part_weights s') p (deltas p))) s') l s in
  (forall p, _part_weights s' p
             = _part_weights s p + (if existsb (Z.eqb p) l then deltas p else 0)) /\
  _part_ids s' = _part_ids s /\ _pins_in_part s' = _pins_in_part s /\
  _connectivity_set s' = _connectivity_set s /\
  _pin_count_update_ownership s' = _pin_count_update_ownership s.
Proof.
  intros Hnd. revert s. induction Hnd as [|x l Hx Hnd IH]; intros s; cbn [fold_left existsb].
  - cbv zeta. repeat split. intros p. lia.
  - specialize (IH (with_part_weights (snd (fetch_add (_part_weights s) x (deltas x))) s)).
    cbv zeta in IH. destruct IH as (W & I & P & C & O).
    cbv zeta. split; [|split; [|split; [|split]]]; try assumption.
    intros p. rewrite W. cbn [_part_weights with_part_weights fetch_add snd]. unfold upd.
    destruct (Z.eqb_spec p x) as [->|]; cbn [orb].
    + apply existsb_eqb_notIn in Hx. rewrite Hx. lia.
    + lia.
Qed.

Lemma initializeBlockWeights_fields s :
  let s' := initializeBlockWeights hg k s in
  (forall p, 0 <= p < k -> partWeight s' p = partWeight s p + weight_of_block hg s p) /\
  _part_ids s' = _part_ids s /\ _pins_in_part s' = _pins_in_part s /\
  _connectivity_set s' = _connectivity_set s /\
  _pin_count_update_ownership s' = _pin_count_update_ownership s.
Proof.
  unfold initializeBlockWeights, applyPartWeightUpdates. cbv zeta.
  match goal with
  | |- context [fold_left ?f (range k) s] =>
      destruct (applyPartWeightUpdates_fold
                  (fold_left (fun (pws : PartitionID -> HypernodeWeight) u =>
                                if nodeIsEnabled hg u
                                then upd pws (partID s u) (pws (partID s u) + nodeWeight hg u)
                                else pws)
                             (range (initialNumNodes hg)) (fun _ => 0))
                  (range k) s (NoDup_range k)) as (W & I & P & C & O)
  end.
  split; [|split; [|split; [|split]]]; try assumption.
  intros p Hp. unfold partWeight. rewrite W, in_range_mem.
  replace ((0 <=? p) && (p <? k)) with true
    by (symmetry; apply andb_true_iff; split; [apply Z.leb_le | apply Z.ltb_lt]; lia).
  rewrite (pws_fold (partID s)). reflexivity.
Qed.

(** *** Pin counts *)

Lemma count_pins_fold (ids : Z -> Z) (l : list HypernodeID) (c : Z -> Z) (q : Z) :
  fold_left (fun (c : PartitionID -> Z) pin => upd c (ids pin) (c (ids pin) + 1)) l c q
  = c q + sumZ (fun v => if ids v =? q then 1 else 0) l.
Proof.
  revert c. induction l as [|x l IH]; intros c; cbn [fold_left sumZ]; [lia|].
  rewrite IH. unfold upd. rewrite (Z.eqb_sym q (ids x)).
  destruct (Z.eqb_spec (ids x) q) as [->|]; lia.
Qed.

Local Abbreviation store_body he :=
  (fun (st' : (PartitionID -> Z) * PartitionedHypergraph) (p : PartitionID) =>
     let '(c, s') := st' in
     let s'' :=
       if 0 <? c p
       then with_pins_in_part
              (setPinCountInPart (_pins_in_part s') he p (c p))
              (with_connectivity_set (cs_add (_connectivity_set s') he p) s')
       else s' in
     (upd c p 0, s'')).

Lemma store_counts_fold he (l : list PartitionID) c s :
  NoDup l ->
  let r := fold_left (store_body he) l (c, s) in
  (forall q, fst r q = if existsb (Z.eqb q) l then 0 else c q) /\
  (forall e q, _pins_in_part (snd r) e q
               = if (e =? he) && existsb (Z.eqb q) l && (0 <? c q)
                 then c q else _pins_in_part s e q) /\
  (forall e q, _connectivity_set (snd r) e q
               = if (e =? he) && existsb (Z.eqb q) l && (0 <? c q)
                 then true else _connectivity_set s e q) /\
  _part_weights (snd r) = _part_weights s /\ _part_ids (snd r) = _part_ids s /\
  _pin_count_update_ownership (snd r) = _pin_count_update_ownership s.
Proof.
  intros Hnd. revert c s. induction Hnd as [|p l Hp Hnd IH]; intros c s; cbn [fold_left existsb].
  - cbv zeta. cbn [fst snd]. repeat split; intros; rewrite ?andb_false_r; reflexivity.
  - set (s1 := if 0 <? c p
               then with_pins_in_part
                      (setPinCountInPart (_pins_in_part s) he p (c p))
                      (with_connectivity_set (cs_add (_connectivity_set s) he p) s)
               else s).
    specialize (IH (upd c p 0) s1). cbv zeta in IH.
    destruct IH as (Hc & Hpc & Hcs & Hw & Hi & Ho).
    apply existsb_eqb_notIn in Hp.
    assert (Hc1 : forall q, existsb (Z.eqb q) l = true -> upd c p 0 q = c q).
    { intros q Hq. apply upd_other. intros ->. congruence. }
    cbv zeta. split; [|split; [|split; [|split; [|split]]]].
    + intros q. rewrite Hc. unfold upd.
      destruct (Z.eqb_spec q p) as [->|]; cbn [orb]; [|reflexivity].
      rewrite Hp. reflexivity.
    + intros e q. rewrite Hpc.
      destruct (existsb (Z.eqb q) l) eqn:Hq.
      * rewrite (Hc1 q Hq), andb_true_r, orb_true_r, andb_true_r.
        destruct ((e =? he) && (0 <? c q)); [reflexivity|].
        unfold s1. destruct (0 <? c p); [|reflexivity].
        cbn [_pins_in_part with_pins_in_part]. rewrite setPinCountInPart_at.
        destruct (Z.eqb_spec q p) as [->|]; [congruence|].
        rewrite andb_false_r. reflexivity.
      * rewrite andb_false_r, orb_false_r. cbn [andb].
        unfold s1. destruct (Z.eqb_spec q p) as [->|].
        -- destruct (0 <? c p); rewrite ?andb_true_r, ?andb_false_r; [|reflexivity].
           cbn [_pins_in_part with_pins_in_part]. rewrite setPinCountInPart_at.
           rewrite Z.eqb_refl, andb_true_r. reflexivity.
        -- rewrite andb_false_r. cbn [andb].
           destruct (0 <? c p); [|reflexivity].
           cbn [_pins_in_part with_pins_in_part]. rewrite setPinCountInPart_at.
           destruct (Z.eqb_spec q p); [contradiction|]. rewrite andb_false_r. reflexivity.
    + intros e q. rewrite Hcs.
      destruct (existsb (Z.eqb q) l) eqn:Hq.
      * rewrite (Hc1 q Hq), andb_true_r, orb_true_r, andb_true_r.
        destruct ((e =? he) && (0 <? c q)); [reflexivity|].
        unfold s1. destruct (0 <? c p); [|reflexivity].
        cbn [_connectivity_set with_pins_in_part with_connectivity_set]. unfold cs_add.
        destruct (Z.eqb_spec q p) as [->|]; [congruence|].
        rewrite andb_false_r. reflexivity.
      * rewrite andb_false_r, orb_false_r. cbn [andb].
        unfold s1. destruct (Z.eqb_spec q p) as [->|].
        -- destruct (0 <? c p); rewrite ?andb_true_r, ?andb_false_r; [|reflexivity].
           cbn [_connectivity_set with_pins_in_part with_connectivity_set]. unfold cs_add.
           rewrite Z.eqb_refl, andb_true_r. reflexivity.
        -- rewrite andb_false_r. cbn [andb].
           destruct (0 <? c p); [|reflexivity].
           cbn [_connectivity_set with_pins_in_part with_connectivity_set]. unfold cs_add.
           destruct (Z.eqb_spec q p); [contradiction|]. rewrite andb_false_r. reflexivity.
    + transitivity (_part_weights s1); [exact Hw|].
      unfold s1. destruct (0 <? c p); reflexivity.
    + transitivity (_part_ids s1); [exact Hi|].
      unfold s1. destruct (0 <? c p); reflexivity.
    + transitivity (_pin_count_update_ownership s1); [exact Ho|].
      unfold s1. destruct (0 <? c p); reflexivity.
Qed.

Lemma pins_in_block_ids s t e q :
  _part_ids s = _part_ids t -> pins_in_block hg s e q = pins_in_block hg t e q.
Proof. intros H. unfold pins_in_block, partID. rewrite H. reflexivity. Qed.

Lemma in_block_range q : 0 <= q < k -> existsb (Z.eqb q) (range k) = true.
Proof. intros H. apply existsb_eqb_In, In_range, H. Qed.

Lemma initializePinCountOfEdge_fields c s he :
  (forall q, 0 <= q < k -> c q = 0) ->
  let r := initializePinCountOfEdge hg k (c, s) he in
  (forall q, 0 <= q < k -> fst r q = 0) /\
  (forall e q, 0 <= q < k ->
     _pins_in_part (snd r) e q
     = if (e =? he) && edgeIsEnabled hg he && (0 <? pins_in_block hg s he q)
       then pins_in_block hg s he q else _pins_in_part s e q) /\
  (forall e q, 0 <= q < k ->
     _connectivity_set (snd r) e q
     = if (e =? he) && edgeIsEnabled hg he && (0 <? pins_in_block hg s he q)
       then true else _connectivity_set s e q) /\
  _part_weights (snd r) = _part_weights s /\ _part_ids (snd r) = _part_ids s /\
  _pin_count_update_ownership (snd r) = _pin_count_update_ownership s.
Proof.
  intros Hc. unfold initializePinCountOfEdge.
  destruct (edgeIsEnabled hg he).
  - set (c1 := fold_left (fun (c : PartitionID -> Z) pin =>
                            upd c (partID s pin) (c (partID s pin) + 1)) (pins hg he) c).
    assert (Hc1 : forall q, 0 <= q < k -> c1 q = pins_in_block hg s he q).
    { intros q Hq. unfold c1. rewrite (count_pins_fold (partID s)), (Hc q Hq). reflexivity. }
    destruct (store_counts_fold he (range k) c1 s (NoDup_range k))
      as (Sc & Spc & Scs & Sw & Si & So).
    cbv zeta. split; [|split; [|split; [|split; [|split]]]]; try assumption.
    + intros q Hq. rewrite Sc, (in_block_range q Hq). reflexivity.
    + intros e q Hq. rewrite Spc, (in_block_range q Hq), (Hc1 q Hq), !andb_true_r.
      reflexivity.
    + intros e q Hq. rewrite Scs, (in_block_range q Hq), (Hc1 q Hq), !andb_true_r.
      reflexivity.
  - cbv zeta. cbn [fst snd].
    repeat split; try assumption; intros; rewrite andb_false_r; reflexivity.
Qed.

Lemma initializePinCount_fold (l : list HyperedgeID) c s :
  NoDup l ->
  (forall q, 0 <= q < k -> c q = 0) ->
  let r := fold_left (initializePinCountOfEdge hg k) l (c, s) in
  (forall e q, 0 <= q < k ->
     _pins_in_part (snd r) e q
     = if existsb (Z.eqb e) l && edgeIsEnabled hg e && (0 <? pins_in_block hg s e q)
       then pins_in_block hg s e q else _pins_in_part s e q) /\
  (forall e q, 0 <= q < k ->
     _connectivity_set (snd r) e q
     = if existsb (Z.eqb e) l && edgeIsEnabled hg e && (0 <? pins_in_block hg s e q)
       then true else _connectivity_set s e q) /\
  _part_weights (snd r) = _part_weights s /\ _part_ids (snd r) = _part_ids s /\
  _pin_count_update_ownership (snd r) = _pin_count_update_ownership s.
Proof.
  intros Hnd. revert c s. induction Hnd as [|he l Hhe Hnd IH]; intros c s Hc;
    cbn [fold_left existsb].
  - cbv zeta. cbn [snd]. repeat split; reflexivity.
  - pose proof (initializePinCountOfEdge_fields c s he Hc) as HE. cbv zeta in HE.
    revert HE. destruct (initializePinCountOfEdge hg k (c, s) he) as [c' s'].
    cbn [fst snd]. intros (Ec & Epc & Ecs & Ew & Ei & Eo).
    destruct (IH c' s' Ec) as (Fpc & Fcs & Fw & Fi & Fo).
    apply existsb_eqb_notIn in Hhe.
    cbv zeta. split; [|split; [|split; [|split]]];
      [ | | exact (eq_trans Fw Ew) | exact (eq_trans Fi Ei) | exact (eq_trans Fo Eo)].
    + intros e q Hq. etransitivity; [exact (Fpc e q Hq)|].
      rewrite (Epc e q Hq), (pins_in_block_ids s' s e q Ei).
      destruct (Z.eqb_spec e he) as [->|]; cbn [orb andb]; [|reflexivity].
      rewrite Hhe. cbn [andb]. reflexivity.
    + intros e q Hq. etransitivity; [exact (Fcs e q Hq)|].
      rewrite (Ecs e q Hq), (pins_in_block_ids s' s e q Ei).
      destruct (Z.eqb_spec e he) as [->|]; cbn [orb andb]; [|reflexivity].
      rewrite Hhe. cbn [andb]. reflexivity.
Qed.

Lemma initializePinCountInPart_fields s :
  let t := initializePinCountInPart hg k s in
  (forall e q, 0 <= q < k ->
     _pins_in_part t e q
     = if existsb (Z.eqb e) (range (initialNumEdges hg)) && edgeIsEnabled hg e
          && (0 <? pins_in_block hg s e q)
       then pins_in_block hg s e q else _pins_in_part s e q) /\
  (forall e q, 0 <= q < k ->
     _connectivity_set t e q
     = if existsb (Z.eqb e) (range (initialNumEdges hg)) && edgeIsEnabled hg e
          && (0 <? pins_in_block hg s e q)
       then true else _connectivity_set s e q) /\
  _part_weights t = _part_weights s /\ _part_ids t = _part_ids s /\
  _pin_count_update_ownership t = _pin_count_update_ownership s.
Proof.
  exact (initializePinCount_fold (range (initialNumEdges hg)) (fun _ => 0) s
           (NoDup_range _) (fun _ _ => eq_refl)).
Qed.

(** *** The state after [initializePartition] *)

Lemma assigning_only_fresh s : assigning_only k s -> fresh s.
Proof.
  induction 1 as [|s u p Hs IH Hold Hp].
  - repeat split.
  - destruct IH as (A & B & C & D). repeat split; assumption.
Qed.

Lemma initializePartition_consistent s :
  fresh s -> all_assigned hg k s -> consistent hg k (initializePartition hg k s).
Proof.
  intros (Fp & Fc & Fw & Fo) Has.
  unfold initializePartition.
  destruct (initializeBlockWeights_fields s) as (Bw & Bi & Bp & Bc & Bo).
  set (s1 := initializeBlockWeights hg k s) in *.
  destruct (initializePinCountInPart_fields s1) as (Ipc & Ics & Iw & Ii & Io).
  set (t := initializePinCountInPart hg k s1) in *.
  assert (Hmem : forall e, edgeIsEnabled hg e = true ->
                           existsb (Z.eqb e) (range (initialNumEdges hg)) = true).
  { intros e He. apply existsb_eqb_In, In_range, (wf_edge_range hg Hwf e He). }
  assert (Hids : _part_ids t = _part_ids s) by congruence.
  assert (Hpc : forall e q, edgeIsEnabled hg e = true -> 0 <= q < k ->
                            pinCountInPart t e q = pins_in_block hg t e q).
  { intros e q He Hq. unfold pinCountInPart. rewrite (Ipc e q Hq), (Hmem e He), He.
    cbn [andb]. rewrite (pins_in_block_ids t s1 e q Ii).
    pose proof (pins_in_block_nonneg hg s1 e q) as H0.
    destruct (Z.ltb_spec 0 (pins_in_block hg s1 e q)); [reflexivity|].
    rewrite Bp, Fp. lia. }
  constructor.
  - intros u Hu. unfold partID. rewrite Hids. apply Has, Hu.
  - intros e q He Hq. rewrite pinCountInPartRecomputed_sum. now apply Hpc.
  - intros e q He Hq. rewrite (Hpc e q He Hq). rewrite (Ics e q Hq), (Hmem e He), He.
    cbn [andb]. rewrite (pins_in_block_ids t s1 e q Ii).
    destruct (Z.ltb_spec 0 (pins_in_block hg s1 e q)).
    + split; [lia | reflexivity].
    + rewrite Bc, Fc. split; [discriminate | lia].
  - intros p Hp. unfold partWeight. rewrite Iw. fold (partWeight s1 p).
    rewrite (Bw p Hp). unfold partWeight at 1. rewrite Fw.
    unfold weight_of_block, partID. rewrite Hids. lia.
  - intros e. rewrite Io, Bo, Fo. reflexivity.
Qed.

End Facts.

End InitFacts.

(* ------------------------------------------------------------------ *)
(** ** Invariants of the reachable states *)

Module ReachableFacts.
Import PHG PinFacts MoveFacts InvariantFacts AssignFacts InitFacts Scenarios.

Section Facts.

Variable hg : Hypergraph.
Variable k : PartitionID.
Hypothesis Hwf : wf_hypergraph hg.

Lemma reachable_consistent s : reachable hg k s -> consistent hg k s.
Proof.
  induction 1 as [s Hs Has | s Hs Has
                  | A s a u from to mw rs delta s' a' Hs IH Hg Hu Hfrom Hne Hto Hmove].
  - destruct (assigning_tracked hg k Hwf s Hs) as (H1 & H2 & H3 & H4).
    constructor; assumption.
  - apply (initializePartition_consistent hg k Hwf); [|exact Has].
    now apply assigning_only_fresh with k.
  - exact (changeNodePart_consistent hg k Hwf u from to mw rs delta s a s' a'
             IH Hg Hu Hfrom Hne Hto Hmove).
Qed.

(** The pin counts of an edge add up to its size once they are the
    recomputed ones and every pin has a block. *)
Lemma consistent_pin_sum s : consistent hg k s -> pin_sum_inv hg k s.
Proof.
  intros [Has Hpc _ _ _] e He. unfold edgeSize.
  rewrite (sumZ_ext_in _ (fun p => pins_in_block hg s e p)).
  2:{ intros p Hp. apply In_range in Hp.
      rewrite (Hpc e p He Hp). apply pinCountInPartRecomputed_sum. }
  unfold pins_in_block.
  transitivity (sumZ (fun v => sumZ (fun p => if partID s v =? p then 1 else 0) (range k))
                     (pins hg e)).
  { symmetry.
    apply (sumZ_swap (fun v p => if partID s v =? p then 1 else 0) (pins hg e) (range k)). }
  rewrite <- sumZ_const_one. apply sumZ_ext_in. intros v Hv.
  rewrite sumZ_range_indicator.
  assert (H : 0 <= partID s v < k) by (apply Has, (wf_pins_enabled hg Hwf e v He Hv)).
  destruct (Z.leb_spec 0 (partID s v)), (Z.ltb_spec (partID s v) k); simpl; lia.
Qed.


End Facts.

(** *** Hypergraphs given by pin lists are well-formed *)

Lemma hypergraph_of_wf (n : Z) (edge_pins : list (list HypernodeID)) nw ew :
  Forall (fun ps => NoDup ps) edge_pins ->
  Forall (Forall (fun u => 0 <= u < n)) edge_pins ->
  wf_hypergraph (hypergraph_of n edge_pins nw ew).
Proof.
  intros Hnd Hrange.
  assert (Hnth : forall e, 0 <= e < Z.of_nat (length edge_pins) ->
                           In (nth (Z.to_nat e) edge_pins []) edge_pins).
  { intros e He. apply nth_In. lia. }
  assert (Hen : forall e, (0 <=? e) && (e <? Z.of_nat (length edge_pins)) = true <->
                          0 <= e < Z.of_nat (length edge_pins)).
  { intros e. rewrite andb_true_iff, Z.leb_le, Z.ltb_lt. reflexivity. }
  constructor; cbn [pins incidentEdges nodeIsEnabled edgeIsEnabled initialNumNodes
                    initialNumEdges hypergraph_of].
  - intros e.
    match goal with |- NoDup (if ?c then _ else _) => destruct c eqn:E end.
    + apply Hen in E. rewrite Forall_forall in Hnd. apply Hnd, Hnth, E.
    + constructor.
  - intros u. apply NoDup_filter, NoDup_range.
  - intros u H. apply andb_true_iff in H. rewrite Z.leb_le, Z.ltb_lt in H. exact H.
  - intros e H. apply Hen, H.
  - intros e u He Hin. rewrite He in Hin. apply Hen in He.
    rewrite Forall_forall in Hrange. specialize (Hrange _ (Hnth e He)).
    rewrite Forall_forall in Hrange. specialize (Hrange u Hin).
    apply andb_true_iff. rewrite Z.leb_le, Z.ltb_lt. exact Hrange.
  - intros u e Hu. rewrite filter_In, In_range, existsb_eqb_In. split.
    + intros [He Hin]. apply Hen in He. rewrite He. auto.
    + intros [He Hin]. rewrite He in Hin. apply Hen in He. auto.
Qed.

Lemma delta_hg_wf : wf_hypergraph delta_hg.
Proof.
  apply hypergraph_of_wf.
  - repeat constructor; simpl; intuition lia.
  - repeat constructor; lia.
Qed.

Lemma delta_assigned_only : assigning_only 2 (assigned_only [0; 0; 0; 1]).
Proof.
  change (assigned_only [0; 0; 0; 1])
    with (setOnlyNodePart 3 1 (setOnlyNodePart 2 0 (setOnlyNodePart 1 0
            (setOnlyNodePart 0 0 construct)))).
  repeat (constructor; [| reflexivity | lia]). constructor.
Qed.

Lemma delta_all_assigned : all_assigned delta_hg 2 (assigned_only [0; 0; 0; 1]).
Proof.
  intros u Hu. apply (wf_node_range delta_hg delta_hg_wf) in Hu.
  change (initialNumNodes delta_hg) with 4 in Hu.
  assert (H : u = 0 \/ u = 1 \/ u = 2 \/ u = 3) by lia.
  destruct H as [-> | [-> | [-> | ->]]]; vm_compute; split; congruence.
Qed.

Lemma delta_reachable :
  reachable delta_hg 2 (initializePartition delta_hg 2 (assigned_only [0; 0; 0; 1])).
Proof.
  apply reachable_initializePartition.
  - exact delta_assigned_only.
  - exact delta_all_assigned.
Qed.


End ReachableFacts.

(* ------------------------------------------------------------------ *)
(** ** The balance test of changeNodePart *)

Module BalanceFacts.
Import PHG MoveFacts Scenarios.

(** C2: evaluation of [changeNodePart] on scenario 1 (two nodes of
    weight 1, one in each block), moving node 0 from block 0 to block 1
    without a weight limit.  Block 0 is left with weight 0 by the move,
    so the move has to be rejected; the call returns true and block 0
    is empty afterwards.  The value tested against 0 is the one
    [fetch_sub] hands back, the weight of block 0 before the
    subtraction. *)
Theorem changeNodePart_empties_block :
  partWeight smallest 0 - nodeWeight smallest_hg 0 = 0 /\
  match changeNodePart smallest_hg 0 0 1 HypernodeWeight_max (fun a => a) NOOP_FUNC
                       (smallest, tt) with
  | Some (true, (s', _)) => partWeight s' 0 = 0 /\ partWeight s' 1 = 2 /\ partID s' 0 = 1
  | _ => False
  end.
Proof. vm_compute. repeat split; reflexivity. Qed.

End BalanceFacts.

(* ------------------------------------------------------------------ *)
(** ** The km1 objective and the cached gain *)

Module GainFacts.
Import PHG PinFacts MoveFacts InvariantFacts.

Section Facts.

Variable hg : Hypergraph.
Variable k : PartitionID.
Hypothesis Hwf : wf_hypergraph hg.

Lemma connectivity_sum s e :
  connectivity k s e = sumZ (fun p => if _connectivity_set s e p then 1 else 0) (range k).
Proof. unfold connectivity, cs_connectivity, cs_connectivitySet. apply length_filter_sum. Qed.

Lemma km1_same s t : same_partition s t -> km1 hg k s = km1 hg k t.
Proof.
  intros (_ & _ & _ & D). unfold km1, connectivity. rewrite D. reflexivity.
Qed.

Lemma Km1GainCache_delta_spec he w sz c_from c_to :
  Km1GainCache_delta he w sz (c_from - 1) (c_to + 1)
  = w * ((if c_to =? 0 then 1 else 0) - (if c_from =? 1 then 1 else 0)).
Proof.
  unfold Km1GainCache_delta.
  destruct (Z.eqb_spec (c_to + 1) 1), (Z.eqb_spec c_to 0),
           (Z.eqb_spec (c_from - 1) 0), (Z.eqb_spec c_from 1); lia.
Qed.

Section Move.

Variable s : PartitionedHypergraph.
Variable u : HypernodeID.
Variables from to : PartitionID.
Hypothesis Hc : consistent hg k s.
Hypothesis Hu : nodeIsEnabled hg u = true.
Hypothesis Hfrom : partID s u = from.
Hypothesis Hne : from <> to.
Hypothesis Hto : 0 <= to < k.

Let t := fold_left (move_pin_of_edge from to) (incidentEdges hg u)
                   (moved_header hg s u from to).

Lemma from_in_range : 0 <= from < k.
Proof. rewrite <- Hfrom. apply (cons_assigned hg k s Hc), Hu. Qed.

(** The connectivity of an incident edge changes by the two events the
    delta of the gain cache looks at. *)
Lemma connectivity_after_move e :
  edgeIsEnabled hg e = true ->
  connectivity k t e =
  connectivity k s e
  + (if existsb (Z.eqb e) (incidentEdges hg u)
     then (if pinCountInPart s e to =? 0 then 1 else 0)
          - (if pinCountInPart s e from =? 1 then 1 else 0)
     else 0).
Proof.
  intros He. pose proof from_in_range as Hfk.
  destruct Hc as [Has Hpc Hcs Hpw Hfree].
  rewrite !connectivity_sum.
  destruct (existsb (Z.eqb e) (incidentEdges hg u)) eqn:Hin.
  - apply existsb_eqb_In in Hin.
    destruct (incident_enabled hg Hwf u e Hu Hin) as [_ Hpin].
    assert (H1 : 1 <= pinCountInPart s e from).
    { rewrite (Hpc e from He Hfk), pinCountInPartRecomputed_sum.
      now apply (pins_in_block_pos hg s e from u). }
    assert (H0 : 0 <= pinCountInPart s e to).
    { rewrite (Hpc e to He Hto), pinCountInPartRecomputed_sum. apply pins_in_block_nonneg. }
    pose proof (Hcs e from He Hfk) as Cf. pose proof (Hcs e to He Hto) as Ct.
    assert (Hto_in : existsb (Z.eqb to) (range k) = true) by (apply existsb_eqb_In, In_range, Hto).
    assert (Hfrom_in : existsb (Z.eqb from) (range k) = true)
      by (apply existsb_eqb_In, In_range, Hfk).
    transitivity
      (sumZ (fun p => (if _connectivity_set s e p then 1 else 0)
                      + ((if p =? to then (if pinCountInPart s e to =? 0 then 1 else 0) else 0)
                         + (if p =? from
                            then - (if pinCountInPart s e from =? 1 then 1 else 0) else 0)))
            (range k)).
    + apply sumZ_ext_in. intros p Hp. unfold t.
      rewrite fold_move_cs; [| exact Hne | apply (wf_incident_NoDup hg Hwf)].
      apply existsb_eqb_In in Hin. rewrite Hin.
      rewrite move_pin_cs by exact Hne. rewrite Z.eqb_refl. cbn [andb].
      change (pinCountInPart (moved_header hg s u from to)) with (pinCountInPart s).
      change (_connectivity_set (moved_header hg s u from to)) with (_connectivity_set s).
      assert (Bf : _connectivity_set s e from = true) by (apply Cf, H1).
      assert (Bt : _connectivity_set s e to = (1 <=? pinCountInPart s e to)).
      { destruct (Z.leb_spec 1 (pinCountInPart s e to)) as [L|L].
        - apply Ct, L.
        - destruct (_connectivity_set s e to); [|reflexivity].
          destruct Ct as [Ct _]. specialize (Ct eq_refl). lia. }
      destruct (Z.eqb_spec p from) as [->|Hpf].
      * destruct (Z.eqb_spec from to); [contradiction|]. rewrite Bf.
        destruct (Z.eqb_spec (pinCountInPart s e from - 1) 0),
                 (Z.eqb_spec (pinCountInPart s e from) 1); lia.
      * destruct (Z.eqb_spec p to) as [->|Hpt]; [|lia]. rewrite Bt.
        destruct (Z.eqb_spec (pinCountInPart s e to + 1) 1),
                 (Z.eqb_spec (pinCountInPart s e to) 0),
                 (Z.leb_spec 1 (pinCountInPart s e to)); lia.
    + rewrite !sumZ_plus.
      rewrite (sumZ_single (fun _ => if pinCountInPart s e to =? 0 then 1 else 0)
                           to (range k) (NoDup_range k)), Hto_in.
      rewrite (sumZ_single (fun _ => - (if pinCountInPart s e from =? 1 then 1 else 0))
                           from (range k) (NoDup_range k)), Hfrom_in.
      lia.
  - rewrite Z.add_0_r. apply sumZ_ext_in. intros p Hp. unfold t.
    rewrite fold_move_cs; [| exact Hne | apply (wf_incident_NoDup hg Hwf)].
    rewrite Hin. reflexivity.
Qed.

(** km1 after the move: km1 before plus the deltas of the incident edges. *)
Lemma km1_after_move :
  km1 hg k t =
  km1 hg k s
  + sumZ (fun e => Km1GainCache_delta e (edgeWeight hg e) (edgeSize hg e)
                     (pinCountInPart s e from - 1) (pinCountInPart s e to + 1))
         (incidentEdges hg u).
Proof.
  unfold km1.
  rewrite <- (sumZ_restrict
                (fun e => Km1GainCache_delta e (edgeWeight hg e) (edgeSize hg e)
                            (pinCountInPart s e from - 1) (pinCountInPart s e to + 1))
                (incidentEdges hg u) (edges hg)
                (NoDup_edges hg) (wf_incident_NoDup hg Hwf u)).
  2:{ intros e He. apply (In_edges hg Hwf). now apply (incident_enabled hg Hwf u e Hu). }
  rewrite <- sumZ_plus. apply sumZ_ext_in. intros e He.
  apply (In_edges hg Hwf) in He.
  rewrite (connectivity_after_move e He), Km1GainCache_delta_spec.
  destruct (existsb (Z.eqb e) (incidentEdges hg u)); lia.
Qed.

Lemma km1_after_move_gain :
  benefit_inv hg s u -> penalty_inv hg k s u to ->
  km1 hg k t = km1 hg k s - km1Gain k s u from to.
Proof.
  intros Hb Hp. rewrite km1_after_move. unfold km1Gain.
  unfold benefit_inv in Hb. unfold penalty_inv in Hp. rewrite Hb, Hp, Hfrom.
  rewrite (sumZ_ext_in _
             (fun e => (if pinCountInPart s e to =? 0 then edgeWeight hg e else 0)
                       + - (if pinCountInPart s e from =? 1 then edgeWeight hg e else 0))).
  2:{ intros e _. rewrite Km1GainCache_delta_spec.
      destruct (pinCountInPart s e to =? 0), (pinCountInPart s e from =? 1); lia. }
  rewrite sumZ_plus.
  assert (E : forall f l, sumZ (fun e : Z => - f e) l = - sumZ f l).
  { intros f l. induction l as [|x l IH]; simpl; lia. }
  rewrite (E (fun e => if pinCountInPart s e from =? 1 then edgeWeight hg e else 0)). lia.
Qed.

End Move.

(** C4: if the gain cache entries of [u] satisfy their defining
    equations in a consistent state, a successful move of [u] from its
    block [from] to another block [to] changes km1 by
    -(move_from_benefit(u) - move_to_penalty(u,to)), the negated
    [km1Gain(u, from, to)]. *)
Theorem km1_gain_correct {A : Type} u from to max_weight_to
        (report_success : A -> A) (delta_func : DeltaFunc A) s (a : A) s' a' :
  consistent hg k s -> gain_only delta_func ->
  nodeIsEnabled hg u = true -> partID s u = from -> from <> to -> 0 <= to < k ->
  benefit_inv hg s u -> penalty_inv hg k s u to ->
  changeNodePart hg u from to max_weight_to report_success delta_func (s, a)
  = Some (true, (s', a')) ->
  km1 hg k s' - km1 hg k s = - (moveFromBenefit s u - moveToPenalty k s u to) /\
  km1 hg k s' - km1 hg k s = - km1Gain k s u from to.
Proof.
  intros Hc Hg Hu Hfrom Hne Hto Hb Hp Hmove.
  destruct (changeNodePart_success hg u from to max_weight_to report_success delta_func
              s a s' a' Hg (cons_lock_free hg k s Hc) Hmove) as (_ & Hsp & _).
  rewrite (km1_same s' _ Hsp).
  rewrite (km1_after_move_gain s u from to Hc Hu Hfrom Hne Hto Hb Hp).
  unfold km1Gain. lia.
Qed.

End Facts.

End GainFacts.

(* ------------------------------------------------------------------ *)
(** ** Initialisation of the gain cache *)

Module GainInitFacts.
Import PHG PinFacts MoveFacts InvariantFacts InitFacts.

Section Facts.

Variable hg : Hypergraph.
Variable k : PartitionID.
Hypothesis Hwf : wf_hypergraph hg.

Local Abbreviation in_connectivity_set := (PHG.in_connectivity_set k).
Local Abbreviation computed_benefit := (PHG.computed_benefit hg).
Local Abbreviation computed_penalty := (PHG.computed_penalty hg k).
Local Abbreviation node_initialised := (PHG.node_initialised hg k).
Local Abbreviation zero_vector := (PHG.zero_vector k).
Local Abbreviation zero_vectors := (PHG.zero_vectors k).
Local Abbreviation valid_ranges := (PHG.valid_ranges hg).
Local Abbreviation is_low_degree := (PHG.is_low_degree hg).
Local Abbreviation is_high_degree := (PHG.is_high_degree hg).

(** Adding [d] to the slots listed in a duplicate-free list. *)
Lemma fold_upd_add (d : Z) (l : list Z) (m : Z -> Z) (p : Z) :
  NoDup l ->
  fold_left (fun (m : Z -> Z) b => upd m b (m b + d)) l m p
  = m p + (if existsb (Z.eqb p) l then d else 0).
Proof.
  intros Hnd. revert m. induction Hnd as [|x l Hx Hnd IH]; intros m; cbn [fold_left existsb].
  - lia.
  - rewrite IH. unfold upd. destruct (Z.eqb_spec p x) as [->|]; cbn [orb].
    + apply existsb_eqb_notIn in Hx. rewrite Hx. lia.
    + lia.
Qed.

Lemma in_connectivity_set_spec s e p :
  0 <= p < k -> in_connectivity_set s e p = _connectivity_set s e p.
Proof.
  intros Hp. unfold in_connectivity_set, connectivitySet, cs_connectivitySet.
  destruct (_connectivity_set s e p) eqn:B.
  - apply existsb_eqb_In, filter_In. split; [apply In_range, Hp | exact B].
  - apply existsb_eqb_notIn. rewrite filter_In. intros [_ H]. congruence.
Qed.

Lemma aggregate_fold s from (l : list HyperedgeID) b w (m : Z -> Z) :
  let r := fold_left (aggregate_contribution_of_he_for_vertex hg k s from) l (b, w, m) in
  fst (fst r) = b + sumZ (fun e => if pinCountInPart s e from =? 1 then edgeWeight hg e else 0) l /\
  snd (fst r) = w + sumZ (edgeWeight hg) l /\
  forall p, snd r p
            = m p - sumZ (fun e => if in_connectivity_set s e p then edgeWeight hg e else 0) l.
Proof.
  revert b w m. induction l as [|he l IH]; intros b w m; cbn [fold_left sumZ].
  - cbv zeta. cbn [fst snd]. repeat split; intros; lia.
  - change (aggregate_contribution_of_he_for_vertex hg k s from (b, w, m) he)
      with (if pinCountInPart s he from =? 1 then b + edgeWeight hg he else b,
            w + edgeWeight hg he,
            fold_left (fun (m : Z -> Z) block => upd m block (m block - edgeWeight hg he))
                      (connectivitySet k s he) m).
    specialize (IH (if pinCountInPart s he from =? 1 then b + edgeWeight hg he else b)
                   (w + edgeWeight hg he)
                   (fold_left (fun (m : Z -> Z) block => upd m block (m block - edgeWeight hg he))
                              (connectivitySet k s he) m)).
    cbv zeta in IH. destruct IH as (Hb & Hw & Hm).
    cbv zeta. split; [|split].
    + rewrite Hb. destruct (pinCountInPart s he from =? 1); lia.
    + rewrite Hw. lia.
    + intros p. rewrite Hm.
      rewrite (fold_upd_add (- edgeWeight hg he)).
      2:{ apply NoDup_filter, NoDup_range. }
      unfold in_connectivity_set at 2.
      destruct (existsb (Z.eqb p) (connectivitySet k s he)); lia.
Qed.

(** Index arithmetic of the flat penalty array. *)
Lemma penalty_index_offset u v q :
  0 <= q < k ->
  (0 <=? penalty_index k v q - u * k) && (penalty_index k v q - u * k <? k) = (v =? u).
Proof.
  intros Hq. unfold penalty_index.
  destruct (Z.eqb_spec v u) as [->|Hne].
  - apply andb_true_iff. rewrite Z.leb_le, Z.ltb_lt. lia.
  - apply andb_false_iff. rewrite Z.leb_gt, Z.ltb_ge.
    assert (H : v < u \/ u < v) by lia. destruct H; [left | right]; nia.
Qed.

Lemma store_penalties_fold u w (l : list PartitionID) (m : Z -> Z) s :
  NoDup l ->
  let r := fold_left (fun (st' : (Z -> Z) * PartitionedHypergraph) p =>
                        let '(m, s') := st' in
                        (upd m p 0,
                         with_move_to_penalty
                           (upd (_move_to_penalty s') (penalty_index k u p) (m p + w)) s'))
                     l (m, s) in
  (forall q, fst r q = if existsb (Z.eqb q) l then 0 else m q) /\
  (forall i, _move_to_penalty (snd r) i
             = if existsb (Z.eqb (i - u * k)) l then m (i - u * k) + w
               else _move_to_penalty s i) /\
  same_partition s (snd r) /\
  _move_from_benefit (snd r) = _move_from_benefit s /\
  _pin_count_update_ownership (snd r) = _pin_count_update_ownership s.
Proof.
  intros Hnd. revert m s. induction Hnd as [|p l Hp Hnd IH]; intros m s; cbn [fold_left existsb].
  - cbv zeta. cbn [fst snd]. repeat split.
  - specialize (IH (upd m p 0)
                   (with_move_to_penalty
                      (upd (_move_to_penalty s) (penalty_index k u p) (m p + w)) s)).
    cbv zeta in IH. destruct IH as (Hm & Hpen & Hsp & Hb & Ho).
    apply existsb_eqb_notIn in Hp.
    cbv zeta. split; [|split; [|split; [|split]]].
    + intros q. rewrite Hm. unfold upd.
      destruct (Z.eqb_spec q p) as [->|]; cbn [orb]; [now rewrite Hp | reflexivity].
    + intros i. rewrite Hpen. cbn [_move_to_penalty with_move_to_penalty].
      unfold upd, penalty_index.
      destruct (Z.eqb_spec (i - u * k) p) as [E|E]; cbn [orb].
      * rewrite E, Hp. destruct (Z.eqb_spec i (u * k + p)); [reflexivity | lia].
      * destruct (existsb (Z.eqb (i - u * k)) l) eqn:Hin.
        -- destruct (Z.eqb_spec (i - u * k) p); [contradiction | reflexivity].
        -- destruct (Z.eqb_spec i (u * k + p)); [lia | reflexivity].
    + apply same_partition_trans with (2 := Hsp). repeat split.
    + rewrite Hb. reflexivity.
    + rewrite Ho. reflexivity.
Qed.

Lemma initializeGainOfLowDegreeNode_spec u (l : Z -> Z) s :
  (forall q, 0 <= q < k -> l q = 0) ->
  let r := initializeGainOfLowDegreeNode hg k u (l, s) in
  (forall q, 0 <= q < k -> fst r q = 0) /\ node_initialised s (snd r) u.
Proof.
  intros Hl. unfold initializeGainOfLowDegreeNode.
  pose proof (aggregate_fold s (partID s u) (incidentEdges hg u) 0 0 l) as Hagg.
  cbv zeta in Hagg. revert Hagg.
  destruct (fold_left _ (incidentEdges hg u) (0, 0, l)) as [[b w] m].
  cbn [fst snd]. intros (Hb & Hw & Hm).
  pose proof (store_penalties_fold u w (range k) m
                (with_move_from_benefit (upd (_move_from_benefit s) u b) s)
                (NoDup_range k)) as Hst.
  cbv zeta in Hst. destruct Hst as (Sm & Spen & Ssp & Sb & So).
  unfold store_penalties_and_reset. cbv zeta.
  split; [|split; [|split; [|split; [|split; [|split]]]]].
  - intros q Hq. rewrite Sm, (in_block_range k q Hq). reflexivity.
  - apply same_partition_trans with (2 := Ssp). repeat split.
  - rewrite So. reflexivity.
  - unfold moveFromBenefit. rewrite Sb. cbn [_move_from_benefit with_move_from_benefit].
    rewrite upd_same, Hb. reflexivity.
  - intros q Hq. unfold moveToPenalty. rewrite Spen, in_range_mem.
    rewrite (penalty_index_offset u u q Hq), Z.eqb_refl.
    replace (penalty_index k u q - u * k) with q by (unfold penalty_index; lia).
    rewrite Hm, Hw, (Hl q Hq). unfold computed_penalty. lia.
  - intros v Hv. unfold moveFromBenefit. rewrite Sb.
    cbn [_move_from_benefit with_move_from_benefit]. now apply upd_other.
  - intros v q Hv Hq. unfold moveToPenalty. rewrite Spen, in_range_mem.
    rewrite (penalty_index_offset u v q Hq).
    destruct (Z.eqb_spec v u); [contradiction | reflexivity].
Qed.

(** *** The reduction over the workers *)

Lemma sumZ_upd_nat (f : nat -> Z) (t : nat) (v : Z) (l : list nat) :
  NoDup l ->
  sumZ (upd_nat f t v) l = sumZ f l + (if existsb (Nat.eqb t) l then v - f t else 0).
Proof.
  induction 1 as [|x l Hx Hnd IH]; cbn [sumZ existsb]; [lia|].
  rewrite IH. unfold upd_nat at 1.
  destruct (Nat.eqb_spec x t) as [->|Hne].
  - rewrite Nat.eqb_refl. cbn [orb].
    assert (E : existsb (Nat.eqb t) l = false).
    { destruct (existsb (Nat.eqb t) l) eqn:E; [|reflexivity].
      apply existsb_exists in E. destruct E as [y [Hy Ey]].
      apply Nat.eqb_eq in Ey. subst. contradiction. }
    rewrite E. lia.
  - destruct (Nat.eqb_spec t x); [congruence|]. cbn [orb]. lia.
Qed.

Lemma ets_combine_upd (T : nat) (f : nat -> Z) (t : nat) (v : Z) :
  (t < T)%nat ->
  ets_combine T (upd_nat f t v) = ets_combine T f + (v - f t).
Proof.
  intros Ht. unfold ets_combine. rewrite sumZ_upd_nat by apply seq_NoDup.
  assert (E : existsb (Nat.eqb t) (seq 0 T) = true).
  { apply existsb_exists. exists t. split; [apply in_seq; lia | apply Nat.eqb_refl]. }
  rewrite E. reflexivity.
Qed.

Lemma ets_combine_ext (T : nat) (f g : nat -> Z) :
  (forall t, (t < T)%nat -> f t = g t) -> ets_combine T f = ets_combine T g.
Proof.
  intros H. unfold ets_combine. apply sumZ_ext_in. intros t Ht. apply H.
  apply in_seq in Ht. lia.
Qed.

Lemma runBlockedRange_fold s from (T : nat) (sched : list (nat * list Z)) tl :
  Forall (fun c => (fst c < T)%nat) sched ->
  let tl' := fold_left (runBlockedRange hg k s from) sched tl in
  ets_combine T (ets_mfb tl')
  = ets_combine T (ets_mfb tl)
    + sumZ (fun e => if pinCountInPart s e from =? 1 then edgeWeight hg e else 0)
           (concat (map snd sched)) /\
  ets_combine T (ets_iew tl')
  = ets_combine T (ets_iew tl) + sumZ (edgeWeight hg) (concat (map snd sched)) /\
  forall p, ets_combine T (fun t => ets_mtp tl' t p)
            = ets_combine T (fun t => ets_mtp tl t p)
              - sumZ (fun e => if in_connectivity_set s e p then edgeWeight hg e else 0)
                     (concat (map snd sched)).
Proof.
  intros Hs. revert tl. induction Hs as [|[t hes] sched Ht Hs IH]; intros tl;
    cbn [fold_left map concat].
  - cbv zeta. cbn [sumZ]. repeat split; intros; lia.
  - cbn [fst] in Ht. unfold runBlockedRange at 2 4 6.
    pose proof (aggregate_fold s from hes (ets_mfb tl t) (ets_iew tl t) (ets_mtp tl t)) as Hagg.
    cbv zeta in Hagg. revert Hagg.
    destruct (fold_left _ hes (ets_mfb tl t, ets_iew tl t, ets_mtp tl t)) as [[b w] m].
    cbn [fst snd]. intros (Hb & Hw & Hm).
    specialize (IH {| ets_mfb := upd_nat (ets_mfb tl) t b;
                      ets_iew := upd_nat (ets_iew tl) t w;
                      ets_mtp := upd_nat (ets_mtp tl) t m |}).
    cbv zeta in IH. cbn [ets_mfb ets_iew ets_mtp] in IH.
    destruct IH as (Ib & Iw & Im).
    cbv zeta. rewrite !sumZ_app. split; [|split].
    + rewrite Ib, (ets_combine_upd T _ t b Ht), Hb. lia.
    + rewrite Iw, (ets_combine_upd T _ t w Ht), Hw. lia.
    + intros p. rewrite Im.
      rewrite (ets_combine_ext T (fun t0 => upd_nat (ets_mtp tl) t m t0 p)
                               (upd_nat (fun t0 => ets_mtp tl t0 p) t (m p))).
      2:{ intros t0 _. unfold upd_nat. destruct (Nat.eqb t0 t); reflexivity. }
      rewrite (ets_combine_upd T _ t (m p) Ht), Hm, sumZ_app. cbv beta. lia.
Qed.

Lemma high_store_fold (T : nat) u w (l : list Z) (m : nat -> Z -> Z) s :
  NoDup l ->
  let r := fold_left (fun (st' : (nat -> Z -> Z) * PartitionedHypergraph) p =>
                        let '(m, s') := st' in
                        let move_to_penalty := ets_combine T (fun t => m t p) in
                        (fun t => if (t <? T)%nat then upd (m t) p 0 else m t,
                         with_move_to_penalty
                           (upd (_move_to_penalty s') (penalty_index k u p)
                                (move_to_penalty + w)) s'))
                     l (m, s) in
  (forall t q, fst r t q = if (t <? T)%nat && existsb (Z.eqb q) l then 0 else m t q) /\
  (forall i, _move_to_penalty (snd r) i
             = if existsb (Z.eqb (i - u * k)) l
               then ets_combine T (fun t => m t (i - u * k)) + w
               else _move_to_penalty s i) /\
  same_partition s (snd r) /\
  _move_from_benefit (snd r) = _move_from_benefit s /\
  _pin_count_update_ownership (snd r) = _pin_count_update_ownership s.
Proof.
  intros Hnd. revert m s. induction Hnd as [|p l Hp Hnd IH]; intros m s; cbn [fold_left existsb].
  - cbv zeta. cbn [fst snd]. repeat split. intros t q. rewrite andb_false_r. reflexivity.
  - specialize (IH (fun t => if (t <? T)%nat then upd (m t) p 0 else m t)
                   (with_move_to_penalty
                      (upd (_move_to_penalty s) (penalty_index k u p)
                           (ets_combine T (fun t => m t p) + w)) s)).
    cbv zeta in IH. destruct IH as (Hm & Hpen & Hsp & Hb & Ho).
    apply existsb_eqb_notIn in Hp.
    cbv zeta. split; [|split; [|split; [|split]]].
    + intros t q. etransitivity; [exact (Hm t q)|]. unfold upd.
      destruct (t <? T)%nat; cbn [andb]; [|reflexivity].
      destruct (Z.eqb_spec q p) as [->|]; cbn [orb]; [now rewrite Hp | reflexivity].
    + intros i. etransitivity; [exact (Hpen i)|].
      cbn [_move_to_penalty with_move_to_penalty]. unfold upd, penalty_index.
      destruct (Z.eqb_spec (i - u * k) p) as [E|E]; cbn [orb].
      * rewrite E, Hp. destruct (Z.eqb_spec i (u * k + p)); [reflexivity | lia].
      * destruct (existsb (Z.eqb (i - u * k)) l) eqn:Hin.
        -- f_equal. apply ets_combine_ext. intros t Ht.
           apply Nat.ltb_lt in Ht. rewrite Ht.
           destruct (Z.eqb_spec (i - u * k) p); [contradiction | reflexivity].
        -- destruct (Z.eqb_spec i (u * k + p)); [lia | reflexivity].
    + apply same_partition_trans with (2 := Hsp). repeat split.
    + etransitivity; [exact Hb | reflexivity].
    + etransitivity; [exact Ho | reflexivity].
Qed.

Lemma initializeGainOfHighDegreeNode_spec (T : nat) sched u (mtp : nat -> Z -> Z) s :
  (forall t q, (t < T)%nat -> 0 <= q < k -> mtp t q = 0) ->
  Forall (fun c => (fst c < T)%nat) sched ->
  Permutation (concat (map snd sched)) (incidentEdges hg u) ->
  let r := initializeGainOfHighDegreeNode hg k T sched u (mtp, s) in
  (forall t q, (t < T)%nat -> 0 <= q < k -> fst r t q = 0) /\
  node_initialised s (snd r) u.
Proof.
  intros Hz Hs Hperm. unfold initializeGainOfHighDegreeNode.
  pose proof (runBlockedRange_fold s (partID s u) T sched
                {| ets_mfb := fun _ => 0; ets_iew := fun _ => 0; ets_mtp := mtp |} Hs) as Hrun.
  cbv zeta in Hrun. cbn [ets_mfb ets_iew ets_mtp] in Hrun.
  set (tl := fold_left (runBlockedRange hg k s (partID s u)) sched _) in *.
  destruct Hrun as (Rb & Rw & Rm).
  assert (Z0 : ets_combine T (fun _ => 0) = 0).
  { unfold ets_combine. apply sumZ_zero. reflexivity. }
  rewrite Z0 in Rb, Rw.
  pose proof (high_store_fold T u (ets_combine T (ets_iew tl)) (range k) (ets_mtp tl)
                (with_move_from_benefit
                   (upd (_move_from_benefit s) u (ets_combine T (ets_mfb tl))) s)
                (NoDup_range k)) as Hst.
  cbv zeta in Hst. destruct Hst as (Sm & Spen & Ssp & Sb & So).
  cbv zeta. split; [|split; [|split; [|split; [|split; [|split]]]]].
  - intros t q Ht Hq. etransitivity; [exact (Sm t q)|].
    apply Nat.ltb_lt in Ht. rewrite Ht, (in_block_range k q Hq). reflexivity.
  - apply same_partition_trans with (2 := Ssp). repeat split.
  - etransitivity; [exact So | reflexivity].
  - unfold moveFromBenefit. etransitivity; [exact (f_equal (fun f => f u) Sb)|].
    cbn [_move_from_benefit with_move_from_benefit].
    rewrite upd_same, Rb. unfold computed_benefit.
    rewrite (sumZ_Permutation _ _ _ Hperm). lia.
  - intros q Hq. unfold moveToPenalty. etransitivity; [exact (Spen _)|].
    rewrite in_range_mem, (penalty_index_offset u u q Hq), Z.eqb_refl.
    replace (penalty_index k u q - u * k) with q by (unfold penalty_index; lia).
    rewrite Rm, Rw. unfold computed_penalty.
    rewrite (ets_combine_ext T (fun t => mtp t q) (fun _ => 0)) by (intros t Ht; now apply Hz).
    rewrite Z0, !(sumZ_Permutation _ _ _ Hperm). lia.
  - intros v Hv. unfold moveFromBenefit. etransitivity; [exact (f_equal (fun f => f v) Sb)|].
    cbn [_move_from_benefit with_move_from_benefit]. now apply upd_other.
  - intros v q Hv Hq. unfold moveToPenalty. etransitivity; [exact (Spen _)|].
    rewrite in_range_mem, (penalty_index_offset u v q Hq).
    destruct (Z.eqb_spec v u); [contradiction | reflexivity].
Qed.

(** *** A pass over the nodes *)

Lemma computed_benefit_same s t u :
  same_partition s t -> computed_benefit t u = computed_benefit s u.
Proof.
  intros (_ & B & C & _). unfold computed_benefit, pinCountInPart, partID.
  rewrite B, C. reflexivity.
Qed.

Lemma computed_penalty_same s t u q :
  same_partition s t -> computed_penalty t u q = computed_penalty s u q.
Proof.
  intros (_ & _ & _ & D). unfold computed_penalty, in_connectivity_set, connectivitySet.
  rewrite D. reflexivity.
Qed.

Section Pass.

Variable X : Type.
Variable F : X * PartitionedHypergraph -> HypernodeID -> X * PartitionedHypergraph.
Variable inv : X -> Prop.
Variable touched : HypernodeID -> bool.
Variable ok : HypernodeID -> Prop.

Hypothesis HF : forall x s u,
  inv x -> ok u ->
  inv (fst (F (x, s) u)) /\
  (if touched u then node_initialised s (snd (F (x, s) u)) u else snd (F (x, s) u) = s).

Lemma pass_fold (L : list HypernodeID) x s :
  NoDup L -> (forall u, In u L -> ok u) -> inv x ->
  let r := fold_left F L (x, s) in
  inv (fst r) /\
  same_partition s (snd r) /\
  _pin_count_update_ownership (snd r) = _pin_count_update_ownership s /\
  (forall v, In v L -> touched v = true ->
     moveFromBenefit (snd r) v = computed_benefit s v /\
     forall q, 0 <= q < k -> moveToPenalty k (snd r) v q = computed_penalty s v q) /\
  (forall v, ~ In v L \/ touched v = false ->
     moveFromBenefit (snd r) v = moveFromBenefit s v /\
     forall q, 0 <= q < k -> moveToPenalty k (snd r) v q = moveToPenalty k s v q).
Proof.
  intros Hnd. revert x s. induction Hnd as [|u L Hu Hnd IH]; intros x s Hok Hinv;
    cbn [fold_left].
  - cbv zeta. cbn [fst snd]. split; [exact Hinv|]. split; [apply same_partition_refl|].
    split; [reflexivity|]. split; [intros v []|]. intros v _. split; reflexivity.
  - destruct (HF x s u Hinv (Hok u (or_introl eq_refl))) as [Hinv1 Hstep].
    destruct (F (x, s) u) as [x1 s1]. cbn [fst snd] in Hinv1, Hstep.
    specialize (IH x1 s1 (fun v Hv => Hok v (or_intror Hv)) Hinv1).
    cbv zeta in IH. destruct IH as (Iinv & Isp & Io & Iin & Iout).
    assert (Hs1 : same_partition s s1 /\
                  _pin_count_update_ownership s1 = _pin_count_update_ownership s).
    { destruct (touched u); [|subst s1; split; [apply same_partition_refl | reflexivity]].
      destruct Hstep as (A & B & _). auto. }
    destruct Hs1 as [Hsp1 Ho1].
    cbv zeta. split; [exact Iinv|]. split; [now apply same_partition_trans with s1|].
    split; [congruence|]. split.
    + intros v [<- | Hv] Htv.
      * rewrite Htv in Hstep. destruct Hstep as (_ & _ & Hb & Hp & _).
        destruct (Iout u (or_introl Hu)) as [Ob Op].
        split; [congruence|]. intros q Hq. rewrite (Op q Hq). now apply Hp.
      * destruct (Iin v Hv Htv) as [Ib Ip].
        rewrite (computed_benefit_same s s1 v Hsp1) in Ib. split; [exact Ib|].
        intros q Hq. rewrite (Ip q Hq). now apply computed_penalty_same.
    + intros v Hv.
      assert (Hv1 : ~ In v L \/ touched v = false).
      { destruct Hv as [Hv | Hv]; [left; intros H; apply Hv; now right | now right]. }
      destruct (Iout v Hv1) as [Ob Op].
      assert (Hvu : touched u = false \/ v <> u).
      { destruct Hv as [Hv | Hv].
        - right. intros ->. apply Hv. now left.
        - destruct (Z.eq_dec v u) as [->|]; [now left | now right]. }
      destruct (touched u) eqn:Htu.
      * destruct Hvu as [|Hvu]; [discriminate|].
        destruct Hstep as (_ & _ & _ & _ & Hb & Hp).
        split; [rewrite Ob; now apply Hb|].
        intros q Hq. rewrite (Op q Hq). now apply Hp.
      * subst s1. split; [exact Ob | exact Op].
Qed.

End Pass.

(** *** From the computed entries to the defining equations *)

Lemma computed_penalty_inv s u q :
  consistent hg k s -> nodeIsEnabled hg u = true -> 0 <= q < k ->
  computed_penalty s u q =
  sumZ (fun e => if pinCountInPart s e q =? 0 then edgeWeight hg e else 0)
       (incidentEdges hg u).
Proof.
  intros [_ Hpc Hcs _ _] Hu Hq. unfold computed_penalty.
  assert (E : forall f l, sumZ (fun e : Z => - f e) l = - sumZ f l).
  { intros f l. induction l as [|x l IH]; simpl; lia. }
  rewrite <- Z.add_opp_r, <- E, <- sumZ_plus.
  apply sumZ_ext_in. intros e He.
  destruct (incident_enabled hg Hwf u e Hu He) as [Hen _].
  rewrite (in_connectivity_set_spec s e q Hq).
  pose proof (Hcs e q Hen Hq) as C.
  assert (H0 : 0 <= pinCountInPart s e q).
  { rewrite (Hpc e q Hen Hq), pinCountInPartRecomputed_sum. apply pins_in_block_nonneg. }
  destruct (_connectivity_set s e q).
  - destruct C as [C _]. specialize (C eq_refl).
    destruct (Z.eqb_spec (pinCountInPart s e q) 0); lia.
  - destruct (Z.eqb_spec (pinCountInPart s e q) 0); [lia|].
    destruct C as [_ C]. assert (H1 : 1 <= pinCountInPart s e q) by lia.
    specialize (C H1). discriminate.
Qed.

(** *** The two stages of [initializeGainInformation] *)

Local Abbreviation stage1 :=
  (fun (st : (Z -> Z) * list Z * PartitionedHypergraph) (u : Z) =>
     let '(l, high, s') := st in
     if nodeIsEnabled hg u
     then if nodeDegree hg u <=? HIGH_DEGREE_THRESHOLD
          then let '(l', s'') := initializeGainOfLowDegreeNode hg k u (l, s') in
               (l', high, s'')
          else (l, high ++ [u], s')
     else st).

Lemma stage1_step (x : (Z -> Z) * list Z) s u :
  zero_vector (fst x) -> True ->
  zero_vector (fst (fst (stage1 (x, s) u))) /\
  (if is_low_degree u
   then node_initialised s (snd (stage1 (x, s) u)) u
   else snd (stage1 (x, s) u) = s).
Proof.
  intros Hz _. destruct x as [l high]. cbn [fst] in Hz. unfold is_low_degree.
  cbv beta iota.
  destruct (nodeIsEnabled hg u); cbn [andb]; [|split; [exact Hz | reflexivity]].
  destruct (nodeDegree hg u <=? HIGH_DEGREE_THRESHOLD); [|split; [exact Hz | reflexivity]].
  pose proof (initializeGainOfLowDegreeNode_spec u l s Hz) as H. cbv zeta in H.
  destruct (initializeGainOfLowDegreeNode hg k u (l, s)) as [l' s'']. exact H.
Qed.

Lemma stage1_high (L : list Z) (l : Z -> Z) (high : list Z) s :
  snd (fst (fold_left stage1 L (l, high, s))) = high ++ filter is_high_degree L.
Proof.
  revert l high s. induction L as [|u L IH]; intros l high s; cbn [fold_left filter].
  - cbn [fst snd]. now rewrite app_nil_r.
  - unfold is_high_degree at 1.
    destruct (nodeIsEnabled hg u); cbn [andb negb]; [|apply IH].
    destruct (nodeDegree hg u <=? HIGH_DEGREE_THRESHOLD); cbn [negb].
    + destruct (initializeGainOfLowDegreeNode hg k u (l, s)) as [l' s'']. apply IH.
    + rewrite IH, <- app_assoc. reflexivity.
Qed.

Lemma stage2_step (T : nat) (schedule : Z -> list (nat * list Z)) (m : nat -> Z -> Z) s u :
  zero_vectors T m -> valid_ranges T u (schedule u) ->
  zero_vectors T (fst (initializeGainOfHighDegreeNode hg k T (schedule u) u (m, s))) /\
  (if true
   then node_initialised s (snd (initializeGainOfHighDegreeNode hg k T (schedule u) u (m, s))) u
   else snd (initializeGainOfHighDegreeNode hg k T (schedule u) u (m, s)) = s).
Proof.
  intros Hz [Hs Hp].
  exact (initializeGainOfHighDegreeNode_spec T (schedule u) u m s Hz Hs Hp).
Qed.

Lemma with_initialized_fields s :
  same_partition s (with_is_gain_cache_initialized true s) /\
  _move_from_benefit (with_is_gain_cache_initialized true s) = _move_from_benefit s /\
  _move_to_penalty (with_is_gain_cache_initialized true s) = _move_to_penalty s /\
  _pin_count_update_ownership (with_is_gain_cache_initialized true s)
  = _pin_count_update_ownership s.
Proof. repeat split. Qed.

(** What [initializeGainInformation] stores and what it leaves alone. *)
Lemma initializeGainInformation_computed (T : nat) schedule s :
  (forall u, is_high_degree u = true -> valid_ranges T u (schedule u)) ->
  let s' := initializeGainInformation hg k T schedule s in
  same_partition s s' /\
  _pin_count_update_ownership s' = _pin_count_update_ownership s /\
  forall v, nodeIsEnabled hg v = true ->
    moveFromBenefit s' v = computed_benefit s v /\
    forall q, 0 <= q < k -> moveToPenalty k s' v q = computed_penalty s v q.
Proof.
  intros Hsched. unfold initializeGainInformation.
  pose proof (pass_fold ((Z -> Z) * list Z)%type stage1 (fun x => zero_vector (fst x))
                is_low_degree (fun _ => True) stage1_step
                (range (initialNumNodes hg)) (fun _ => 0, []) s
                (NoDup_range _) (fun _ _ => I) (fun _ _ => eq_refl)) as H1.
  pose proof (stage1_high (range (initialNumNodes hg)) (fun _ => 0) [] s) as Hhigh.
  cbv zeta in H1. revert H1 Hhigh.
  destruct (fold_left _ (range (initialNumNodes hg)) (fun _ => 0, [], s)) as [[l high] s1].
  cbn [fst snd app]. intros (Z1 & Sp1 & O1 & In1 & Out1) Hhigh.
  set (mtp0 := fun t : nat => if Nat.eqb t 0 then l else fun _ : Z => 0).
  assert (Hz0 : zero_vectors T mtp0).
  { intros t q _ Hq. unfold mtp0. destruct (Nat.eqb t 0); [now apply Z1 | reflexivity]. }
  assert (Hnd : NoDup high) by (rewrite Hhigh; apply NoDup_filter, NoDup_range).
  assert (Hok : forall u, In u high -> valid_ranges T u (schedule u)).
  { intros u Hu. apply Hsched. rewrite Hhigh in Hu. apply filter_In in Hu. apply Hu. }
  pose proof (pass_fold (nat -> Z -> Z)
                (fun st u => initializeGainOfHighDegreeNode hg k T (schedule u) u st)
                (zero_vectors T) (fun _ => true) (fun u => valid_ranges T u (schedule u))
                (stage2_step T schedule) high mtp0 s1 Hnd Hok Hz0) as H2.
  cbv zeta in H2. revert H2.
  destruct (fold_left _ high (mtp0, s1)) as [m2 s2].
  cbn [fst snd]. intros (_ & Sp2 & O2 & In2 & Out2).
  destruct (with_initialized_fields s2) as (Sp3 & B3 & P3 & O3).
  cbv zeta. split; [|split].
  - apply same_partition_trans with s1; [exact Sp1|].
    now apply same_partition_trans with s2.
  - congruence.
  - intros v Hv. unfold moveFromBenefit, moveToPenalty. rewrite B3, P3.
    fold (moveFromBenefit s2 v).
    assert (Hrange : In v (range (initialNumNodes hg)))
      by (apply In_range, (wf_node_range hg Hwf v Hv)).
    destruct (nodeDegree hg v <=? HIGH_DEGREE_THRESHOLD) eqn:Hdeg.
    + (* low degree: written in stage 1, untouched in stage 2 *)
      assert (Hlow : is_low_degree v = true) by (unfold is_low_degree; now rewrite Hv, Hdeg).
      assert (Hnot : ~ In v high).
      { rewrite Hhigh, filter_In. unfold is_high_degree. rewrite Hv, Hdeg. cbn.
        intros [_ H]. discriminate. }
      destruct (In1 v Hrange Hlow) as [Ib Ip].
      destruct (Out2 v (or_introl Hnot)) as [Ob Op].
      split; [congruence|]. intros q Hq.
      fold (moveToPenalty k s2 v q). rewrite (Op q Hq). now apply Ip.
    + (* high degree: written in stage 2 *)
      assert (Hin : In v high).
      { rewrite Hhigh, filter_In. split; [exact Hrange|].
        unfold is_high_degree. now rewrite Hv, Hdeg. }
      destruct (In2 v Hin eq_refl) as [Ib Ip].
      split; [rewrite Ib; now apply computed_benefit_same|].
      intros q Hq. fold (moveToPenalty k s2 v q).
      rewrite (Ip q Hq). now apply computed_penalty_same.
Qed.


End Facts.

End GainInitFacts.

(* ------------------------------------------------------------------ *)
(** ** The states of the scenarios *)

Module ScenarioStateFacts.
Import PHG Scenarios PinFacts MoveFacts InvariantFacts ReachableFacts GainFacts GainInitFacts.

Lemma NOOP_FUNC_gain_only (A : Type) : gain_only (@NOOP_FUNC A).
Proof.
  intros he we sz c_from c_to s a. cbn [NOOP_FUNC fst].
  split; [apply same_partition_refl | reflexivity].
Qed.

Lemma NOOP_FUNC_caller_only (A : Type) : caller_only (@NOOP_FUNC A).
Proof. intros he we sz c_from c_to s a. reflexivity. Qed.

(** A partition set up as in [partitioned] is consistent. *)
Lemma partitioned_consistent (hg : Hypergraph) (k : PartitionID) (part_id : list PartitionID) :
  wf_hypergraph hg ->
  assigning_only k (assigned_only part_id) ->
  all_assigned hg k (assigned_only part_id) ->
  (forall u, is_high_degree hg u = false) ->
  consistent hg k (partitioned hg k part_id).
Proof.
  intros Hwf Hao Hall Hlow. unfold partitioned.
  destruct (initializeGainInformation_computed hg k Hwf 1 (fun _ => [])
              (initializePartition hg k (assigned_only part_id)))
    as (Hsp & Ho & _).
  { intros u H. rewrite Hlow in H. discriminate. }
  assert (Hc : consistent hg k (initializePartition hg k (assigned_only part_id))).
  { apply (reachable_consistent hg k Hwf), reachable_initializePartition; assumption. }
  apply (consistent_same hg k _ _ (same_partition_sym _ _ Hsp)); [|exact Hc].
  unfold lock_free. rewrite Ho. apply (cons_lock_free _ _ _ Hc).
Qed.

Lemma delta_low_degree u : is_high_degree delta_hg u = false.
Proof.
  unfold is_high_degree. destruct (nodeIsEnabled delta_hg u) eqn:E; [|reflexivity].
  apply (wf_node_range delta_hg delta_hg_wf) in E.
  change (initialNumNodes delta_hg) with 4 in E.
  assert (H : u = 0 \/ u = 1 \/ u = 2 \/ u = 3) by lia.
  destruct H as [-> | [-> | [-> | ->]]]; reflexivity.
Qed.

Lemma delta_phg_consistent : consistent delta_hg 2 delta_phg.
Proof.
  apply partitioned_consistent.
  - exact delta_hg_wf.
  - exact delta_assigned_only.
  - exact delta_all_assigned.
  - exact delta_low_degree.
Qed.

Lemma gain_hg_wf : wf_hypergraph gain_hg.
Proof.
  apply hypergraph_of_wf.
  - repeat constructor; simpl; intuition lia.
  - repeat constructor; lia.
Qed.

Lemma gain_assigned_only : assigning_only 2 (assigned_only [0; 1; 0]).
Proof.
  change (assigned_only [0; 1; 0])
    with (setOnlyNodePart 2 0 (setOnlyNodePart 1 1 (setOnlyNodePart 0 0 construct))).
  repeat (constructor; [| reflexivity | lia]). constructor.
Qed.

Lemma gain_all_assigned : all_assigned gain_hg 2 (assigned_only [0; 1; 0]).
Proof.
  intros u Hu. apply (wf_node_range gain_hg gain_hg_wf) in Hu.
  change (initialNumNodes gain_hg) with 3 in Hu.
  assert (H : u = 0 \/ u = 1 \/ u = 2) by lia.
  destruct H as [-> | [-> | ->]]; vm_compute; split; congruence.
Qed.

Lemma gain_low_degree u : is_high_degree gain_hg u = false.
Proof.
  unfold is_high_degree. destruct (nodeIsEnabled gain_hg u) eqn:E; [|reflexivity].
  apply (wf_node_range gain_hg gain_hg_wf) in E.
  change (initialNumNodes gain_hg) with 3 in E.
  assert (H : u = 0 \/ u = 1 \/ u = 2) by lia.
  destruct H as [-> | [-> | ->]]; reflexivity.
Qed.

Lemma gain_phg_consistent : consistent gain_hg 2 gain_phg.
Proof.
  apply partitioned_consistent.
  - exact gain_hg_wf.
  - exact gain_assigned_only.
  - exact gain_all_assigned.
  - exact gain_low_degree.
Qed.

(** C4, witness: node 0 of the three-node scenario goes from block 0 to
    block 1; its edge is no longer cut, km1 goes from 1 to 0 and the
    cached gain is 1. *)
Lemma km1_gain_correct_witness :
  km1 gain_hg 2 gain_moved - km1 gain_hg 2 gain_phg
  = - (moveFromBenefit gain_phg 0 - moveToPenalty 2 gain_phg 0 1) /\
  km1 gain_hg 2 gain_moved - km1 gain_hg 2 gain_phg = - km1Gain 2 gain_phg 0 0 1.
Proof.
  apply (km1_gain_correct gain_hg 2 gain_hg_wf 0 0 1 3 (fun a => a) NOOP_FUNC
           gain_phg tt gain_moved tt).
  - exact gain_phg_consistent.
  - apply NOOP_FUNC_gain_only.
  - reflexivity.
  - reflexivity.
  - lia.
  - lia.
  - vm_compute. reflexivity.
  - vm_compute. reflexivity.
  - vm_compute. reflexivity.
Defined.


End ScenarioStateFacts.

(* ------------------------------------------------------------------ *)
(** ** The delta update of the gain cache *)

Module DeltaFacts.
Import PHG PinFacts MoveFacts InvariantFacts.

Section Facts.

Variable hg : Hypergraph.
Variable k : PartitionID.

Lemma gain_frame_refl s : gain_frame s s.
Proof. split; [apply same_partition_refl | reflexivity]. Qed.

Lemma gain_frame_trans s t r : gain_frame s t -> gain_frame t r -> gain_frame s r.
Proof.
  intros [A B] [A' B']. split; [now apply same_partition_trans with t | congruence].
Qed.

Lemma add_benefit_of_first_pin_in_effect ps from we s :
  let s' := add_benefit_of_first_pin_in ps from we s in
  gain_frame s s' /\ _move_to_penalty s' = _move_to_penalty s /\
  forall x, moveFromBenefit s' x
            = moveFromBenefit s x + we * first_pin_indicator (_part_ids s) ps from x.
Proof.
  cbv zeta. unfold first_pin_indicator.
  induction ps as [|u ps IH]; cbn [add_benefit_of_first_pin_in find].
  - split; [apply gain_frame_refl|]. split; [reflexivity|]. intros x. lia.
  - change (partID s u) with (_part_ids s u). destruct (_part_ids s u =? from).
    + split; [split; [repeat split | reflexivity]|]. split; [reflexivity|].
      intros x. unfold moveFromBenefit, fetch_add.
      cbn [_move_from_benefit with_move_from_benefit snd]. unfold upd.
      destruct (Z.eqb_spec x u) as [->|]; lia.
    + exact IH.
Qed.

Lemma add_penalty_of_all_pins_effect ps p we s :
  let s' := add_penalty_of_all_pins k ps p we s in
  gain_frame s s' /\ _move_from_benefit s' = _move_from_benefit s /\
  forall i, _move_to_penalty s' i = _move_to_penalty s i + we * index_count k ps p i.
Proof.
  cbv zeta. unfold add_penalty_of_all_pins, index_count.
  revert s. induction ps as [|u ps IH]; intros s; cbn [fold_left sumZ].
  - split; [apply gain_frame_refl|]. split; [reflexivity|]. intros i. lia.
  - destruct (IH (with_move_to_penalty
                    (snd (fetch_add (_move_to_penalty s) (penalty_index k u p) we)) s))
      as (F & B & P).
    split; [apply gain_frame_trans with (2 := F); split; [repeat split | reflexivity]|].
    split; [rewrite B; reflexivity|].
    intros i. rewrite P. unfold fetch_add.
    cbn [_move_to_penalty with_move_to_penalty snd]. unfold upd.
    rewrite (Z.eqb_sym i). destruct (Z.eqb_spec (penalty_index k u p) i) as [<-|]; lia.
Qed.

Lemma sub_penalty_of_all_pins_effect ps p we s :
  let s' := sub_penalty_of_all_pins k ps p we s in
  gain_frame s s' /\ _move_from_benefit s' = _move_from_benefit s /\
  forall i, _move_to_penalty s' i = _move_to_penalty s i - we * index_count k ps p i.
Proof.
  cbv zeta. unfold sub_penalty_of_all_pins, index_count.
  revert s. induction ps as [|u ps IH]; intros s; cbn [fold_left sumZ].
  - split; [apply gain_frame_refl|]. split; [reflexivity|]. intros i. lia.
  - destruct (IH (with_move_to_penalty
                    (snd (fetch_sub (_move_to_penalty s) (penalty_index k u p) we)) s))
      as (F & B & P).
    split; [apply gain_frame_trans with (2 := F); split; [repeat split | reflexivity]|].
    split; [rewrite B; reflexivity|].
    intros i. rewrite P. unfold fetch_sub.
    cbn [_move_to_penalty with_move_to_penalty snd]. unfold upd.
    rewrite (Z.eqb_sym i). destruct (Z.eqb_spec (penalty_index k u p) i) as [<-|]; lia.
Qed.

Lemma sub_benefit_of_pins_in_effect ps to we s :
  let s' := sub_benefit_of_pins_in ps to we s in
  gain_frame s s' /\ _move_to_penalty s' = _move_to_penalty s /\
  forall x, moveFromBenefit s' x
            = moveFromBenefit s x - we * pins_indicator (_part_ids s) ps to x.
Proof.
  cbv zeta. unfold sub_benefit_of_pins_in, pins_indicator.
  revert s. induction ps as [|u ps IH]; intros s; cbn [fold_left sumZ].
  - split; [apply gain_frame_refl|]. split; [reflexivity|]. intros x. lia.
  - change (partID s u) with (_part_ids s u).
    destruct (_part_ids s u =? to) eqn:E.
    + destruct (IH (with_move_from_benefit (snd (fetch_sub (_move_from_benefit s) u we)) s))
        as (F & P & B).
      split; [apply gain_frame_trans with (2 := F); split; [repeat split | reflexivity]|].
      split; [rewrite P; reflexivity|].
      intros x. rewrite B. unfold moveFromBenefit, fetch_sub.
      cbn [_move_from_benefit _part_ids with_move_from_benefit snd]. unfold upd.
      rewrite andb_true_r, (Z.eqb_sym x). destruct (Z.eqb_spec u x) as [->|]; lia.
    + destruct (IH s) as (F & P & B).
      split; [exact F|]. split; [exact P|].
      intros x. rewrite B, andb_false_r. lia.
Qed.

(** The whole of [gainCacheUpdate], entry by entry. *)
Lemma gainCacheUpdate_effect he we from c_from to c_to s :
  let s' := gainCacheUpdate hg k he we from c_from to c_to s in
  gain_frame s s' /\
  (forall x, moveFromBenefit s' x
             = moveFromBenefit s x
               + benefit_delta (_part_ids s) (pins hg he) we from c_from to c_to x) /\
  (forall i, _move_to_penalty s' i
             = _move_to_penalty s i + penalty_delta k (pins hg he) we from c_from to c_to i).
Proof.
  cbv zeta. unfold gainCacheUpdate, benefit_delta, penalty_delta.
  set (s1 := gainCacheUpdate_from hg k he we from c_from s).
  assert (H1 : gain_frame s s1 /\
               (forall x, moveFromBenefit s1 x
                          = moveFromBenefit s x
                            + (if c_from =? 1
                               then we * first_pin_indicator (_part_ids s) (pins hg he) from x
                               else 0)) /\
               (forall i, _move_to_penalty s1 i
                          = _move_to_penalty s i
                            + (if c_from =? 1 then 0
                               else if c_from =? 0
                                    then we * index_count k (pins hg he) from i else 0))).
  { unfold s1, gainCacheUpdate_from. destruct (c_from =? 1).
    - destruct (add_benefit_of_first_pin_in_effect (pins hg he) from we s) as (F & P & B).
      split; [exact F|]. split; [exact B|]. intros i. rewrite P. lia.
    - destruct (c_from =? 0).
      + destruct (add_penalty_of_all_pins_effect (pins hg he) from we s) as (F & B & P).
        split; [exact F|]. split; [|exact P]. intros x. unfold moveFromBenefit. rewrite B. lia.
      + split; [apply gain_frame_refl|]. split; intros; lia. }
  destruct H1 as (F1 & B1 & P1).
  assert (Hids : _part_ids s1 = _part_ids s) by (destruct F1 as [(_ & I & _) _]; congruence).
  unfold gainCacheUpdate_to. destruct (c_to =? 1).
  - destruct (sub_penalty_of_all_pins_effect (pins hg he) to we s1) as (F & B & P).
    split; [now apply gain_frame_trans with s1|]. split.
    + intros x. unfold moveFromBenefit in *. rewrite B, B1. lia.
    + intros i. rewrite P, P1. lia.
  - destruct (c_to =? 2).
    + destruct (sub_benefit_of_pins_in_effect (pins hg he) to we s1) as (F & P & B).
      split; [now apply gain_frame_trans with s1|]. split.
      * intros x. rewrite B, B1, Hids. lia.
      * intros i. rewrite P, P1. lia.
    + split; [exact F1|]. split.
      * intros x. rewrite B1. lia.
      * intros i. rewrite P1. lia.
Qed.

(** *** A move with the full gain cache update *)

Section FullUpdate.

Variable A : Type.
Variable delta_func : DeltaFunc A.
Hypothesis Hcaller : caller_only delta_func.
Variables from to : PartitionID.
Hypothesis Hne : from <> to.

Lemma my_delta_func_gain_only : gain_only (my_delta_func hg k from to delta_func).
Proof.
  intros he we sz cf ct s a. unfold my_delta_func.
  pose proof (Hcaller he we sz cf ct s a) as H.
  destruct (delta_func he we sz cf ct (s, a)) as [s1 a1]. cbn [fst] in *. subst s1.
  destruct (gainCacheUpdate_effect he we from cf to ct s) as ([F O] & _). auto.
Qed.

(** The sum of the benefit deltas of the edges in [l], read in state [s]. *)
Local Abbreviation benefit_sum s l x :=
  (sumZ (fun e => benefit_delta (_part_ids s) (pins hg e) (edgeWeight hg e)
                    from (pinCountInPart s e from - 1) to (pinCountInPart s e to + 1) x) l).

Local Abbreviation penalty_sum s l i :=
  (sumZ (fun e => penalty_delta k (pins hg e) (edgeWeight hg e)
                    from (pinCountInPart s e from - 1) to (pinCountInPart s e to + 1) i) l).

Lemma spin_full he s (a : A) :
  _pin_count_update_ownership s he = false ->
  exists s' a',
    spin_updatePinCount hg from to (my_delta_func hg k from to delta_func) he (s, a)
    = Some (s', a') /\
    same_partition s' (move_pin_of_edge from to s he) /\
    (forall e, _pin_count_update_ownership s' e = _pin_count_update_ownership s e) /\
    (forall x, moveFromBenefit s' x = moveFromBenefit s x + benefit_sum s [he] x) /\
    (forall i, _move_to_penalty s' i = _move_to_penalty s i + penalty_sum s [he] i).
Proof.
  intros Hown.
  unfold spin_updatePinCount, updatePinCountOfHyperedgeWithoutGainUpdates.
  rewrite Hown.
  set (s0 := with_ownership (upd (_pin_count_update_ownership s) he true) s).
  pose proof (decrement_fields he from s0) as HD. cbv zeta in HD.
  destruct (decrementPinCountInPartWithoutGainUpdate he from s0) as [cf s1] eqn:Ed.
  cbn [fst snd] in HD. destruct HD as (Dc & Dp & _).
  pose proof (increment_fields he to s1) as HI. cbv zeta in HI.
  destruct (incrementPinCountInPartWithoutGainUpdate he to s1) as [ct s2] eqn:Ei.
  cbn [fst snd] in HI. destruct HI as (Ic & _).
  assert (Hs2 : s2 = move_pin_of_edge from to s0 he).
  { unfold move_pin_of_edge. rewrite Ed. cbn [snd]. rewrite Ei. reflexivity. }
  unfold my_delta_func.
  pose proof (Hcaller he (edgeWeight hg he) (edgeSize hg he) cf ct s2 a) as Hd.
  destruct (delta_func he (edgeWeight hg he) (edgeSize hg he) cf ct (s2, a)) as [s3 a3].
  cbn [fst] in Hd. subst s3.
  destruct (gainCacheUpdate_effect he (edgeWeight hg he) from cf to ct s2)
    as ([Fsp Fo] & Gb & Gp).
  set (s4 := gainCacheUpdate hg k he (edgeWeight hg he) from cf to ct s2) in *.
  eexists; eexists. split; [reflexivity|].
  assert (Hcf : cf = pinCountInPart s he from - 1) by (rewrite Dc; reflexivity).
  assert (Hct : ct = pinCountInPart s he to + 1).
  { rewrite Ic. unfold pinCountInPart. rewrite Dp, setPinCountInPart_at.
    destruct (Z.eqb_spec to from); [congruence|]. rewrite andb_false_r. reflexivity. }
  destruct (move_pin_frame from to s0 he) as (_ & Mi & Mpen & Mben & Mo).
  rewrite <- Hs2 in Mi, Mpen, Mben, Mo.
  split; [|split; [|split]].
  - apply same_partition_trans with s4; [repeat split|].
    apply same_partition_trans with s2; [now apply same_partition_sym|].
    rewrite Hs2. apply move_pin_same_partition. repeat split.
  - intros e. cbn [_pin_count_update_ownership with_ownership]. rewrite Fo, Mo.
    unfold s0. cbn [_pin_count_update_ownership with_ownership]. unfold upd.
    destruct (Z.eqb_spec e he) as [->|]; [now rewrite Hown | reflexivity].
  - intros x. unfold moveFromBenefit in *.
    cbn [_move_from_benefit with_ownership sumZ].
    rewrite Gb, Mben, Mi, Hcf, Hct. unfold s0. cbn [_move_from_benefit _part_ids with_ownership].
    lia.
  - intros i. cbn [_move_to_penalty with_ownership sumZ].
    rewrite Gp, Mpen, Hcf, Hct. unfold s0. cbn [_move_to_penalty with_ownership]. lia.
Qed.

Lemma for_each_full (l : list HyperedgeID) s (a : A) :
  lock_free s -> NoDup l ->
  exists s' a',
    for_each (spin_updatePinCount hg from to (my_delta_func hg k from to delta_func)) l (s, a)
    = Some (s', a') /\
    same_partition s' (fold_left (move_pin_of_edge from to) l s) /\
    lock_free s' /\
    (forall x, moveFromBenefit s' x = moveFromBenefit s x + benefit_sum s l x) /\
    (forall i, _move_to_penalty s' i = _move_to_penalty s i + penalty_sum s l i).
Proof.
  intros Hfree Hnd. revert s a Hfree.
  induction Hnd as [|he l Hhe Hnd IH]; intros s a Hfree; cbn [for_each fold_left].
  - exists s, a. split; [reflexivity|]. split; [apply same_partition_refl|].
    split; [exact Hfree|]. split; intros; cbn [sumZ]; lia.
  - destruct (spin_full he s a (Hfree he)) as (s1 & a1 & E & Hsp & Hown & Hb & Hp).
    rewrite E.
    assert (Hfree1 : lock_free s1) by (intros e; rewrite Hown; apply Hfree).
    destruct (IH s1 a1 Hfree1) as (s' & a' & E' & Hsp' & Hfree' & Hb' & Hp').
    exists s', a'. split; [exact E'|].
    split; [apply same_partition_trans with (1 := Hsp'); now apply fold_move_same_partition|].
    split; [exact Hfree'|].
    pose proof Hsp as (_ & Hids & Hpc & _).
    destruct (move_pin_frame from to s he) as (_ & Mi & _).
    assert (Hrow : forall e, In e l -> forall q,
                     pinCountInPart s1 e q = pinCountInPart s e q).
    { intros e He q. unfold pinCountInPart at 1. rewrite Hpc.
      fold (pinCountInPart (move_pin_of_edge from to s he) e q).
      rewrite move_pin_pc by exact Hne.
      destruct (Z.eqb_spec e he) as [->|]; [contradiction | lia]. }
    split.
    + intros x. rewrite Hb', Hb. cbn [sumZ]. rewrite Z.add_0_r, <- Z.add_assoc. f_equal.
      f_equal. apply sumZ_ext_in. intros e He.
      rewrite Hids, Mi, !(Hrow e He). reflexivity.
    + intros i. rewrite Hp', Hp. cbn [sumZ]. rewrite Z.add_0_r, <- Z.add_assoc. f_equal.
      f_equal. apply sumZ_ext_in. intros e He.
      rewrite !(Hrow e He). reflexivity.
Qed.

(** What a successful move with the full update does to every member. *)
Lemma changeNodePartFullUpdate_success u max_weight_to (report_success : A -> A)
      s (a : A) s' a' :
  lock_free s -> NoDup (incidentEdges hg u) ->
  changeNodePartFullUpdate hg k u from to max_weight_to report_success delta_func (s, a)
  = Some (true, (s', a')) ->
  same_partition s' (fold_left (move_pin_of_edge from to) (incidentEdges hg u)
                               (moved_header hg s u from to)) /\
  lock_free s' /\
  (forall x, moveFromBenefit s' x
             = moveFromBenefit s x
               + benefit_sum (moved_header hg s u from to) (incidentEdges hg u) x) /\
  (forall i, _move_to_penalty s' i
             = _move_to_penalty s i
               + penalty_sum (moved_header hg s u from to) (incidentEdges hg u) i).
Proof.
  intros Hfree Hnd H. unfold changeNodePartFullUpdate in H.
  rewrite changeNodePart_unfold in H.
  destruct (balance_test hg s u from to max_weight_to); [|discriminate].
  assert (Hfree' : lock_free (moved_header hg s u from to)) by exact Hfree.
  destruct (for_each_full (incidentEdges hg u) (moved_header hg s u from to)
              (report_success a) Hfree' Hnd) as (s1 & a1 & E & Hsp & Hf1 & Hb & Hp).
  rewrite E in H. inversion H; subst. auto.
Qed.

End FullUpdate.

End Facts.

End DeltaFacts.

(* ------------------------------------------------------------------ *)
(** ** Which benefits the delta update touches *)

Module BenefitFacts.
Import PHG PinFacts MoveFacts InvariantFacts DeltaFacts Scenarios.

Lemma pins_indicator_NoDup (ids : Z -> Z) (ps : list Z) (p x : Z) :
  NoDup ps ->
  pins_indicator ids ps p x = if existsb (Z.eqb x) ps && (ids x =? p) then 1 else 0.
Proof.
  intros Hnd. unfold pins_indicator.
  rewrite (sumZ_ext_in _ (fun u => if u =? x then (if ids u =? p then 1 else 0) else 0))
    by (intros u _; destruct (u =? x); reflexivity).
  rewrite (sumZ_single (fun u => if ids u =? p then 1 else 0) x ps Hnd).
  destruct (existsb (Z.eqb x) ps); reflexivity.
Qed.

Lemma no_pin_in_block (ids : Z -> Z) (ps : list Z) (p : Z) :
  sumZ (fun u => if ids u =? p then 1 else 0) ps = 0 ->
  forall x, In x ps -> ids x <> p.
Proof.
  induction ps as [|u ps IH]; cbn [sumZ]; intros H x Hx; [contradiction|].
  assert (H0 : 0 <= sumZ (fun u => if ids u =? p then 1 else 0) ps).
  { apply sumZ_nonneg. intros y _. destruct (ids y =? p); lia. }
  destruct (Z.eqb_spec (ids u) p); [lia|].
  destruct Hx as [<- | Hx]; [assumption | apply IH; [lia | exact Hx]].
Qed.

(** With exactly one pin in the block, the loop with [break] and the
    loop without it visit the same pin. *)
Lemma first_pin_indicator_unique (ids : Z -> Z) (ps : list Z) (p x : Z) :
  NoDup ps ->
  sumZ (fun u => if ids u =? p then 1 else 0) ps = 1 ->
  first_pin_indicator ids ps p x = if existsb (Z.eqb x) ps && (ids x =? p) then 1 else 0.
Proof.
  unfold first_pin_indicator.
  induction 1 as [|u ps Hu Hnd IH]; cbn [sumZ find existsb]; intros Hsum; [lia|].
  destruct (Z.eqb_spec (ids u) p) as [Hup|Hup].
  - assert (Hrest : sumZ (fun u => if ids u =? p then 1 else 0) ps = 0) by lia.
    destruct (Z.eqb_spec x u) as [->|Hxu]; cbn [orb andb].
    + destruct (Z.eqb_spec (ids u) p); [reflexivity | contradiction].
    + destruct (existsb (Z.eqb x) ps) eqn:Hin; cbn [andb]; [|reflexivity].
      apply existsb_eqb_In in Hin.
      pose proof (no_pin_in_block ids ps p Hrest x Hin) as Hx.
      destruct (Z.eqb_spec (ids x) p); [contradiction | reflexivity].
  - rewrite IH by lia. destruct (Z.eqb_spec x u) as [->|Hxu]; cbn [orb andb]; [|reflexivity].
    apply existsb_eqb_notIn in Hu. rewrite Hu. cbn [andb].
    destruct (Z.eqb_spec (ids u) p); [contradiction | reflexivity].
Qed.

Lemma first_pin_indicator_other (ids : Z -> Z) (ps : list Z) (p x : Z) :
  ids x <> p -> first_pin_indicator ids ps p x = 0.
Proof.
  intros Hx. unfold first_pin_indicator.
  destruct (find (fun u => ids u =? p) ps) as [u|] eqn:E; [|reflexivity].
  apply find_some in E. destruct E as [_ E]. apply Z.eqb_eq in E.
  destruct (Z.eqb_spec x u); [congruence | reflexivity].
Qed.

(** With exactly one pin in the block there is such a pin. *)
Lemma one_pin_in_block (ids : Z -> Z) (ps : list Z) (p : Z) :
  NoDup ps ->
  sumZ (fun u => if ids u =? p then 1 else 0) ps = 1 ->
  exists u, In u ps /\ ids u = p /\ forall x, In x ps -> ids x = p -> x = u.
Proof.
  induction 1 as [|y ps Hy Hnd IH]; cbn [sumZ]; intros Hsum; [lia|].
  destruct (Z.eqb_spec (ids y) p) as [Hyp|Hyp].
  - assert (Hrest : sumZ (fun u => if ids u =? p then 1 else 0) ps = 0) by lia.
    exists y. split; [now left|]. split; [exact Hyp|].
    intros x [<- | Hx] Hxp; [reflexivity|].
    exfalso. exact (no_pin_in_block ids ps p Hrest x Hx Hxp).
  - destruct (IH ltac:(lia)) as (u & Hu & Hup & Huniq).
    exists u. split; [now right|]. split; [exact Hup|].
    intros x [<- | Hx] Hxp; [contradiction | now apply Huniq].
Qed.

(** With exactly two pins in the block, one of them [v], there is
    exactly one other. *)
Lemma other_pin_in_block (ids : Z -> Z) (ps : list Z) (p v : Z) :
  NoDup ps -> In v ps -> ids v = p ->
  sumZ (fun u => if ids u =? p then 1 else 0) ps = 2 ->
  exists u, u <> v /\ In u ps /\ ids u = p /\
            forall x, existsb (Z.eqb x) ps && (ids x =? p) = (x =? v) || (x =? u).
Proof.
  intros Hnd Hv Hvp Hsum.
  destruct (in_split v ps Hv) as (l1 & l2 & ->).
  apply NoDup_remove in Hnd. destruct Hnd as [Hnd Hnotin].
  rewrite sumZ_app in Hsum. cbn [sumZ] in Hsum.
  rewrite Hvp, Z.eqb_refl in Hsum.
  assert (Hone : sumZ (fun u => if ids u =? p then 1 else 0) (l1 ++ l2) = 1)
    by (rewrite sumZ_app; lia).
  destruct (one_pin_in_block ids (l1 ++ l2) p Hnd Hone) as (u & Hu & Hup & Huniq).
  assert (Huv : u <> v) by (intros ->; contradiction).
  exists u. split; [exact Huv|]. split.
  { apply in_app_iff in Hu. apply in_app_iff. destruct Hu; [now left | right; now right]. }
  split; [exact Hup|]. intros x.
  destruct (Z.eqb_spec x v) as [->|Hxv]; cbn [orb].
  - rewrite Hvp, Z.eqb_refl, andb_true_r. apply existsb_eqb_In, in_app_iff. right. now left.
  - destruct (Z.eqb_spec x u) as [->|Hxu].
    + rewrite Hup, Z.eqb_refl, andb_true_r. apply existsb_eqb_In.
      apply in_app_iff in Hu. apply in_app_iff. destruct Hu; [now left | right; now right].
    + destruct (Z.eqb_spec (ids x) p) as [Hxp|]; [|apply andb_false_r].
      rewrite andb_true_r. apply existsb_eqb_notIn. intros Hx.
      apply Hxu, Huniq; [|exact Hxp].
      apply in_app_iff in Hx. apply in_app_iff.
      destruct Hx as [Hx | [Hx | Hx]]; [now left | congruence | now right].
Qed.

Section Facts.

Variable hg : Hypergraph.
Variable k : PartitionID.


End Facts.



End BenefitFacts.

(* ------------------------------------------------------------------ *)
(** ** A move and its reversal *)

Module RoundTripFacts.
Import PHG PinFacts MoveFacts InvariantFacts ReachableFacts DeltaFacts BenefitFacts Scenarios
       ScenarioStateFacts.

(** The two penalty updates of one edge cancel, slot by slot. *)
Lemma penalty_delta_cancel (k : Z) (ps : list Z) (w a b ca cb i : Z) :
  penalty_delta k ps w a (ca - 1) b (cb + 1) i
  + penalty_delta k ps w b (cb + 1 - 1) a (ca - 1 + 1) i = 0.
Proof.
  unfold penalty_delta.
  destruct (Z.eqb_spec (ca - 1) 1), (Z.eqb_spec (ca - 1) 0), (Z.eqb_spec (ca - 1 + 1) 1),
           (Z.eqb_spec (cb + 1) 1), (Z.eqb_spec (cb + 1 - 1) 1), (Z.eqb_spec (cb + 1 - 1) 0);
    lia.
Qed.

(** The two benefit updates of one edge cancel for every node but the
    moved one, which loses the edge weight once per trigger it is caught
    by. *)
Lemma benefit_delta_cancel (ids : Z -> Z) (ps : list Z) (w a b v x : Z) :
  NoDup ps -> In v ps -> ids v = a -> a <> b ->
  let ca := sumZ (fun u => if ids u =? a then 1 else 0) ps in
  let cb := sumZ (fun u => if ids u =? b then 1 else 0) ps in
  benefit_delta (upd ids v b) ps w a (ca - 1) b (cb + 1) x
  + benefit_delta (upd (upd ids v b) v a) ps w b (cb + 1 - 1) a (ca - 1 + 1) x
  = if x =? v
    then - (w * ((if cb =? 1 then 1 else 0) + (if ca =? 2 then 1 else 0)))
    else 0.
Proof.
  intros Hnd Hv Hva Hab ca cb.
  assert (Hmem : existsb (Z.eqb v) ps = true) by now apply existsb_eqb_In.
  assert (Hca1 : sumZ (fun u => if upd ids v b u =? a then 1 else 0) ps = ca - 1).
  { rewrite (sumZ_upd_block ids (fun _ => 1) ps v b a Hnd), Hmem, Hva, Z.eqb_refl.
    destruct (Z.eqb_spec b a); [congruence|]. fold ca. lia. }
  assert (Hcb1 : sumZ (fun u => if upd ids v b u =? b then 1 else 0) ps = cb + 1).
  { rewrite (sumZ_upd_block ids (fun _ => 1) ps v b b Hnd), Hmem, Hva, Z.eqb_refl.
    destruct (Z.eqb_spec a b); [congruence|]. fold cb. lia. }
  assert (Hcb2 : sumZ (fun u => if upd (upd ids v b) v a u =? b then 1 else 0) ps = cb).
  { rewrite (sumZ_upd_block (upd ids v b) (fun _ => 1) ps v a b Hnd), Hmem, Hcb1, upd_same.
    rewrite Z.eqb_refl. destruct (Z.eqb_spec a b); [congruence|]. lia. }
  assert (Hids2 : forall u, upd (upd ids v b) v a u = ids u).
  { intros u. unfold upd. destruct (Z.eqb_spec u v) as [->|]; [now rewrite Hva | reflexivity]. }
  assert (H0 : 0 <= cb).
  { unfold cb. apply sumZ_nonneg. intros u _. destruct (ids u =? b); lia. }
  unfold benefit_delta.
  replace (cb + 1 - 1) with cb by lia. replace (ca - 1 + 1) with ca by lia.
  destruct (Z.eqb_spec (cb + 1) 1), (Z.eqb_spec (cb + 1) 2), (Z.eqb_spec cb 1),
           (Z.eqb_spec (ca - 1) 1), (Z.eqb_spec ca 1), (Z.eqb_spec ca 2); try lia;
    rewrite ?(pins_indicator_NoDup _ ps _ x Hnd);
    try rewrite (first_pin_indicator_unique _ ps a x Hnd) by (rewrite Hca1; lia);
    try rewrite (first_pin_indicator_unique _ ps b x Hnd) by (rewrite Hcb2; lia);
    rewrite ?Hids2; unfold upd;
    (destruct (Z.eqb_spec x v) as [->|];
     [ rewrite ?Hmem, ?Hva, ?Z.eqb_refl;
       destruct (Z.eqb_spec a b); [congruence|];
       destruct (Z.eqb_spec b a); [congruence|];
       cbn [andb]; lia
     | try lia;
       destruct (existsb (Z.eqb x) ps && (ids x =? a));
       destruct (existsb (Z.eqb x) ps && (ids x =? b)); lia ]).
Qed.

Section Facts.

Variable hg : Hypergraph.
Variable k : PartitionID.
Hypothesis Hwf : wf_hypergraph hg.

Variable A : Type.
Variables d1 d2 : DeltaFunc A.
Hypothesis Hd1 : caller_only d1.
Hypothesis Hd2 : caller_only d2.

Variable s s1 s2 : PartitionedHypergraph.
Variable v : HypernodeID.
Variables a b : PartitionID.
Variables mw1 mw2 : HypernodeWeight.
Variables rs1 rs2 : A -> A.
Variables x0 x1 x2 : A.

Hypothesis Hc : consistent hg k s.
Hypothesis Hv : nodeIsEnabled hg v = true.
Hypothesis Ha : partID s v = a.
Hypothesis Hab : a <> b.
Hypothesis Hb : 0 <= b < k.
Hypothesis Hmove1 :
  changeNodePartFullUpdate hg k v a b mw1 rs1 d1 (s, x0) = Some (true, (s1, x1)).
Hypothesis Hmove2 :
  changeNodePartFullUpdate hg k v b a mw2 rs2 d2 (s1, x1) = Some (true, (s2, x2)).

Let I := incidentEdges hg v.
Let t1 := fold_left (move_pin_of_edge a b) I (moved_header hg s v a b).
Let t2 := fold_left (move_pin_of_edge b a) I (moved_header hg s1 v b a).

Lemma blocks_differ_back : b <> a.
Proof. congruence. Qed.

Lemma incident_edges_NoDup : NoDup I.
Proof. apply (wf_incident_NoDup hg Hwf). Qed.

Lemma first_block_in_range : 0 <= a < k.
Proof. rewrite <- Ha. apply (cons_assigned hg k s Hc), Hv. Qed.

Lemma first_move :
  same_partition s1 t1 /\ lock_free s1 /\
  (forall x, moveFromBenefit s1 x
             = moveFromBenefit s x
               + sumZ (fun e => benefit_delta (upd (_part_ids s) v b) (pins hg e) (edgeWeight hg e)
                                  a (pinCountInPart s e a - 1) b (pinCountInPart s e b + 1) x) I) /\
  (forall i, _move_to_penalty s1 i
             = _move_to_penalty s i
               + sumZ (fun e => penalty_delta k (pins hg e) (edgeWeight hg e)
                                  a (pinCountInPart s e a - 1) b (pinCountInPart s e b + 1) i) I).
Proof.
  exact (changeNodePartFullUpdate_success hg k A d1 Hd1 a b Hab v mw1 rs1 s x0 s1 x1
           (cons_lock_free hg k s Hc) incident_edges_NoDup Hmove1).
Qed.

Lemma second_move :
  same_partition s2 t2 /\ lock_free s2 /\
  (forall x, moveFromBenefit s2 x
             = moveFromBenefit s1 x
               + sumZ (fun e => benefit_delta (upd (_part_ids s1) v a) (pins hg e) (edgeWeight hg e)
                                  b (pinCountInPart s1 e b - 1) a (pinCountInPart s1 e a + 1) x) I) /\
  (forall i, _move_to_penalty s2 i
             = _move_to_penalty s1 i
               + sumZ (fun e => penalty_delta k (pins hg e) (edgeWeight hg e)
                                  b (pinCountInPart s1 e b - 1) a (pinCountInPart s1 e a + 1) i) I).
Proof.
  destruct first_move as (_ & L1 & _).
  exact (changeNodePartFullUpdate_success hg k A d2 Hd2 b a blocks_differ_back v mw2 rs2
           s1 x1 s2 x2 L1 incident_edges_NoDup Hmove2).
Qed.

Lemma ids_after_first : _part_ids s1 = upd (_part_ids s) v b.
Proof.
  destruct first_move as ((_ & Hi & _) & _).
  destruct (fold_move_frame a b I (moved_header hg s v a b)) as (_ & Fi & _).
  rewrite Hi. unfold t1. rewrite Fi. reflexivity.
Qed.

Lemma pc_after_first e q :
  pinCountInPart s1 e q =
  pinCountInPart s e q
  + (if existsb (Z.eqb e) I then (if q =? b then 1 else 0) - (if q =? a then 1 else 0) else 0).
Proof.
  destruct first_move as ((_ & _ & Hp & _) & _).
  unfold pinCountInPart at 1. rewrite Hp. fold (pinCountInPart t1 e q). unfold t1.
  rewrite (fold_move_pc a b I _ e q Hab incident_edges_NoDup). reflexivity.
Qed.

Lemma cs_after_first e q :
  _connectivity_set s1 e q =
  if existsb (Z.eqb e) I
  then _connectivity_set (move_pin_of_edge a b s e) e q
  else _connectivity_set s e q.
Proof.
  destruct first_move as ((_ & _ & _ & Hcs) & _).
  rewrite Hcs. unfold t1. rewrite (fold_move_cs a b I _ e q Hab incident_edges_NoDup).
  destruct (existsb (Z.eqb e) I); [|reflexivity].
  rewrite !move_pin_cs by exact Hab. reflexivity.
Qed.

(** Part ids, pin counts and part weights are back. *)
Lemma round_trip_part_ids u : partID s2 u = partID s u.
Proof.
  destruct second_move as ((_ & Hi & _) & _).
  destruct (fold_move_frame b a I (moved_header hg s1 v b a)) as (_ & Fi & _).
  unfold partID. rewrite Hi. unfold t2. rewrite Fi.
  cbn [_part_ids moved_header with_part_ids with_part_weights].
  rewrite ids_after_first. unfold upd.
  destruct (Z.eqb_spec u v) as [->|]; [symmetry; exact Ha | reflexivity].
Qed.

Lemma round_trip_pin_counts e q : pinCountInPart s2 e q = pinCountInPart s e q.
Proof.
  destruct second_move as ((_ & _ & Hp & _) & _).
  unfold pinCountInPart at 1. rewrite Hp. fold (pinCountInPart t2 e q). unfold t2.
  rewrite (fold_move_pc b a I _ e q blocks_differ_back incident_edges_NoDup).
  change (pinCountInPart (moved_header hg s1 v b a) e q) with (pinCountInPart s1 e q).
  rewrite pc_after_first. destruct (existsb (Z.eqb e) I); lia.
Qed.

Lemma round_trip_part_weights p : partWeight s2 p = partWeight s p.
Proof.
  destruct second_move as ((Hw2 & _) & _). destruct first_move as ((Hw1 & _) & _).
  destruct (fold_move_frame b a I (moved_header hg s1 v b a)) as (Fw2 & _).
  destruct (fold_move_frame a b I (moved_header hg s v a b)) as (Fw1 & _).
  unfold partWeight. rewrite Hw2. unfold t2. rewrite Fw2.
  cbn [_part_weights moved_header with_part_ids with_part_weights].
  rewrite Hw1. unfold t1. rewrite Fw1.
  cbn [_part_weights moved_header with_part_ids with_part_weights]. unfold upd.
  destruct (Z.eqb_spec p a), (Z.eqb_spec p b), (Z.eqb_spec a b), (Z.eqb_spec b a),
           (Z.eqb_spec a a), (Z.eqb_spec b b); subst; try congruence; lia.
Qed.

Lemma round_trip_connectivity_sets e q : _connectivity_set s2 e q = _connectivity_set s e q.
Proof.
  destruct second_move as ((_ & _ & _ & Hcs) & _).
  rewrite Hcs. unfold t2.
  rewrite (fold_move_cs b a I _ e q blocks_differ_back incident_edges_NoDup).
  change (_connectivity_set (moved_header hg s1 v b a) e q) with (_connectivity_set s1 e q).
  destruct (existsb (Z.eqb e) I) eqn:Hin.
  - rewrite move_pin_cs by exact blocks_differ_back.
    change (pinCountInPart (moved_header hg s1 v b a)) with (pinCountInPart s1).
    change (_connectivity_set (moved_header hg s1 v b a) e q) with (_connectivity_set s1 e q).
    rewrite !pc_after_first, cs_after_first, Hin, Z.eqb_refl.
    rewrite move_pin_cs by exact Hab. rewrite Z.eqb_refl. cbn [andb].
    apply existsb_eqb_In in Hin.
    destruct (incident_enabled hg Hwf v e Hv Hin) as [He Hpin].
    destruct Hc as [_ Hpc Hcsi _ _].
    pose proof (Hcsi e a He first_block_in_range) as Ca. pose proof (Hcsi e b He Hb) as Cb.
    assert (H0 : 0 <= pinCountInPart s e b).
    { rewrite (Hpc e b He Hb), pinCountInPartRecomputed_sum. apply pins_in_block_nonneg. }
    destruct (Z.eqb_spec b a); [congruence|]. destruct (Z.eqb_spec a b); [congruence|].
    rewrite !Z.eqb_refl. cbn [Z.sub].
    destruct (Z.eqb_spec q b) as [->|Hqb].
    + destruct (Z.eqb_spec b a); [congruence|].
      destruct (Z.eqb_spec (pinCountInPart s e b + (1 - 0) - 1) 0) as [E|E].
      * destruct (_connectivity_set s e b); [|reflexivity].
        destruct Cb as [Cb _]. specialize (Cb eq_refl). lia.
      * destruct (Z.eqb_spec (pinCountInPart s e b + 1) 1); [lia | reflexivity].
    + destruct (Z.eqb_spec q a) as [->|Hqa]; [|reflexivity].
      destruct (Z.eqb_spec (pinCountInPart s e a + (0 - 1) + 1) 1) as [E|E].
      * destruct (_connectivity_set s e a); [reflexivity|].
        destruct Ca as [_ Ca]. assert (H1 : 1 <= pinCountInPart s e a) by lia.
        specialize (Ca H1). discriminate.
      * destruct (Z.eqb_spec (pinCountInPart s e a - 1) 0); [lia | reflexivity].
  - rewrite cs_after_first, Hin. reflexivity.
Qed.

(** Every penalty is back, slot by slot. *)
Lemma round_trip_penalties i : _move_to_penalty s2 i = _move_to_penalty s i.
Proof.
  destruct second_move as (_ & _ & _ & P2). destruct first_move as (_ & _ & _ & P1).
  rewrite P2, P1, <- Z.add_assoc, <- sumZ_plus.
  rewrite sumZ_zero; [lia|]. intros e He.
  assert (Hin : existsb (Z.eqb e) I = true) by now apply existsb_eqb_In.
  rewrite !pc_after_first, Hin, !Z.eqb_refl.
  destruct (Z.eqb_spec b a); [congruence|]. destruct (Z.eqb_spec a b); [congruence|].
  replace (pinCountInPart s e b + (1 - 0) - 1) with (pinCountInPart s e b + 1 - 1) by lia.
  replace (pinCountInPart s e a + (0 - 1) + 1) with (pinCountInPart s e a - 1 + 1) by lia.
  apply penalty_delta_cancel.
Qed.

(** The benefits: back for every node but the moved one. *)
Lemma round_trip_benefits x :
  moveFromBenefit s2 x =
  moveFromBenefit s x
  + sumZ (fun e => if x =? v
                   then - (edgeWeight hg e
                           * ((if pinCountInPart s e b =? 1 then 1 else 0)
                              + (if pinCountInPart s e a =? 2 then 1 else 0)))
                   else 0) I.
Proof.
  destruct second_move as (_ & _ & B2 & _). destruct first_move as (_ & _ & B1 & _).
  rewrite B2, B1, <- Z.add_assoc, <- sumZ_plus. f_equal.
  apply sumZ_ext_in. intros e He.
  assert (Hin : existsb (Z.eqb e) I = true) by now apply existsb_eqb_In.
  destruct (incident_enabled hg Hwf v e Hv He) as [Hen Hpin].
  destruct Hc as [_ Hpc _ _ _].
  rewrite !pc_after_first, Hin, !Z.eqb_refl, ids_after_first.
  destruct (Z.eqb_spec b a); [congruence|]. destruct (Z.eqb_spec a b); [congruence|].
  replace (pinCountInPart s e b + (1 - 0) - 1) with (pinCountInPart s e b + 1 - 1) by lia.
  replace (pinCountInPart s e a + (0 - 1) + 1) with (pinCountInPart s e a - 1 + 1) by lia.
  rewrite (Hpc e a Hen first_block_in_range), (Hpc e b Hen Hb), !pinCountInPartRecomputed_sum.
  exact (benefit_delta_cancel (_part_ids s) (pins hg e) (edgeWeight hg e) a b v x
           (wf_pins_NoDup hg Hwf e) Hpin Ha Hab).
Qed.

End Facts.




End RoundTripFacts.

(* ------------------------------------------------------------------ *)
(** ** Compound assignment and increment of the atomic wrapper *)

Module AtomicArithmeticFacts.
Import AtomicWrapper.

Section Facts.
Variable T : Integral.

Lemma wrap_add_sub (v x : Z) : wrap T (wrap T (v + x) - x) = wrap T v.
Proof.
  unfold wrap. destruct (is_signed T).
  - replace ((v + x + 2 ^ (bits T - 1)) mod 2 ^ bits T - 2 ^ (bits T - 1) - x
             + 2 ^ (bits T - 1))
      with ((v + x + 2 ^ (bits T - 1)) mod 2 ^ bits T - x) by lia.
    rewrite Zminus_mod_idemp_l. do 2 f_equal. lia.
  - rewrite Zminus_mod_idemp_l. f_equal. lia.
Qed.

Lemma wrap_sub_add (v x : Z) : wrap T (wrap T (v - x) + x) = wrap T v.
Proof.
  replace (v - x) with (v + - x) by lia.
  replace (wrap T (v + - x) + x) with (wrap T (v + - x) - - x) by lia.
  apply wrap_add_sub.
Qed.

Lemma wrap_idempotent (v : Z) : wrap T (wrap T v) = wrap T v.
Proof.
  pose proof (wrap_add_sub v 0) as H. rewrite Z.add_0_r, Z.sub_0_r in H. exact H.
Qed.

(** X1: on a wrapper that holds a value of [T], [x += arg] followed by
    [x -= arg] and [++x] followed by [--x] leave the value that was
    held, also when the intermediate value wraps around; each compound
    assignment returns the value it stored, and [--x] returns the value
    held at the start. *)
Theorem add_then_sub_restores (arg : Z) (a : IntegralAtomicWrapper) :
  wrap T (_value a) = _value a ->
  (snd (sub_assign T arg (snd (add_assign T arg a))) = a /\
   fst (add_assign T arg a) = _value (snd (add_assign T arg a)) /\
   fst (sub_assign T arg (snd (add_assign T arg a))) = _value a) /\
  (snd (prefix_decrement T (snd (prefix_increment T a))) = a /\
   fst (prefix_decrement T (snd (prefix_increment T a))) = _value a).
Proof.
  intros Hv. destruct a as [v]. cbn [_value] in Hv.
  unfold add_assign, sub_assign, prefix_increment, prefix_decrement, fetch_add, fetch_sub.
  cbn [fst snd _value].
  rewrite ?wrap_idempotent, ?wrap_add_sub, ?Hv. repeat split; reflexivity.
Qed.

End Facts.

(** Witness: the largest [size_t], where [+= 1] wraps around to 0. *)
Lemma add_then_sub_restores_witness :
  (snd (sub_assign size_t 1 (snd (add_assign size_t 1 {| _value := 2 ^ 64 - 1 |})))
   = {| _value := 2 ^ 64 - 1 |} /\
   fst (add_assign size_t 1 {| _value := 2 ^ 64 - 1 |})
   = _value (snd (add_assign size_t 1 {| _value := 2 ^ 64 - 1 |})) /\
   fst (sub_assign size_t 1 (snd (add_assign size_t 1 {| _value := 2 ^ 64 - 1 |})))
   = _value {| _value := 2 ^ 64 - 1 |}) /\
  (snd (prefix_decrement size_t (snd (prefix_increment size_t {| _value := 2 ^ 64 - 1 |})))
   = {| _value := 2 ^ 64 - 1 |} /\
   fst (prefix_decrement size_t (snd (prefix_increment size_t {| _value := 2 ^ 64 - 1 |})))
   = _value {| _value := 2 ^ 64 - 1 |}).
Proof.
  apply (add_then_sub_restores size_t). reflexivity.
Defined.

End AtomicArithmeticFacts.

(* ------------------------------------------------------------------ *)
(** ** The container as a stack *)

Module ContainerFacts.
Import WorkQueue NumaQueue.

Section Facts.
Variable T : Type.

Lemma length_list_set (l : list T) i x : length (list_set T l i x) = length l.
Proof.
  revert i. induction l as [|y l IH]; intros [|i]; simpl; auto.
Qed.

Lemma firstn_list_set (l : list T) i x :
  (i < length l)%nat -> firstn (S i) (list_set T l i x) = firstn i l ++ [x].
Proof.
  revert i. induction l as [|y l IH]; intros [|i] H; simpl in *; try lia.
  - reflexivity.
  - f_equal. apply IH. lia.
Qed.

Lemma holds_bounds (c : ConcurrentDataContainer T) st : holds c st -> (length st <= length (elements c))%nat.
Proof.
  intros (_ & F & _). rewrite <- F at 1. rewrite length_firstn. lia.
Qed.

Lemma push_back_holds el (c : ConcurrentDataContainer T) st :
  holds c st -> (length st < length (elements c))%nat ->
  exists c', push_back el c = Done c' /\ holds c' (st ++ [el]) /\
             length (elements c') = length (elements c).
Proof.
  intros (Hs & Hf & Hcap) Hlt. unfold push_back. rewrite Hs.
  destruct (Z.ltb_spec (Z.of_nat (length st)) (Z.of_nat (length (elements c)))); [|lia].
  eexists. split; [reflexivity|]. cbn [size elements]. rewrite Nat2Z.id.
  split; [|apply length_list_set].
  unfold holds. cbn [size elements]. rewrite length_app, length_list_set. cbn [length].
  split; [|split].
  - unfold size_t_wrap. rewrite Z.mod_small; lia.
  - replace (length st + 1)%nat with (S (length st)) by lia.
    rewrite firstn_list_set by exact Hlt. now rewrite Hf.
  - exact Hcap.
Qed.

Lemma try_pop_holds dest (c : ConcurrentDataContainer T) st x :
  holds c (st ++ [x]) ->
  exists c', try_pop dest c = Done (true, x, c') /\ holds c' st /\
             elements c' = elements c.
Proof.
  intros H. pose proof (holds_bounds _ _ H) as Hb. destruct H as (Hs & Hf & Hcap).
  rewrite length_app in *. cbn [length] in *.
  unfold try_pop. rewrite Hs.
  destruct (Z.ltb_spec 0 (Z.of_nat (length st + 1))); [|lia].
  replace (Z.to_nat (Z.of_nat (length st + 1) - 1)) with (length st) by lia.
  assert (Hn : nth_error (elements c) (length st) = Some x).
  { rewrite <- (firstn_skipn (length st + 1) (elements c)), Hf.
    rewrite nth_error_app1 by (rewrite length_app; simpl; lia).
    rewrite nth_error_app2 by lia. now rewrite Nat.sub_diag. }
  rewrite Hn. eexists. split; [reflexivity|]. split; [|reflexivity].
  unfold holds. cbn [size elements]. split; [|split].
  - unfold size_t_wrap. rewrite Z.mod_small; lia.
  - apply (f_equal (firstn (length st))) in Hf.
    rewrite firstn_firstn in Hf. replace (Nat.min (length st) (length st + 1)) with (length st) in Hf by lia.
    rewrite Hf, firstn_app, Nat.sub_diag, firstn_all. simpl. now rewrite app_nil_r.
  - exact Hcap.
Qed.

(** A pop from the container that holds the empty stack: false is
    returned and the size wraps around. *)
Lemma try_pop_empty dest (c : ConcurrentDataContainer T) :
  size c = 0 ->
  try_pop dest c = Done (false, dest, (Build_ConcurrentDataContainer T (2 ^ 64 - 1) (elements c))).
Proof. intros H. unfold try_pop. rewrite H. reflexivity. Qed.

(** A pop from a container whose size has wrapped around. *)
Lemma try_pop_wrapped dest (c : ConcurrentDataContainer T) :
  size c = 2 ^ 64 - 1 -> Z.of_nat (length (elements c)) < 2 ^ 64 - 1 ->
  try_pop dest c = OutOfBounds (2 ^ 64 - 2).
Proof.
  intros H Hcap. unfold try_pop. rewrite H.
  change (0 <? 2 ^ 64 - 1) with true. cbv iota.
  destruct (nth_error (elements c) (Z.to_nat (2 ^ 64 - 1 - 1))) eqn:E.
  - exfalso. assert (Hn : nth_error (elements c) (Z.to_nat (2 ^ 64 - 1 - 1)) <> None) by congruence.
    apply nth_error_Some in Hn. lia.
  - reflexivity.
Qed.

(** X2: on a container that holds a stack and has a free slot,
    [push_back(el)] followed by [try_pop(dest)] hands [el] back with the
    flag true and leaves the container holding the stack it held before
    (the size and the elements below it). *)
Theorem push_back_then_try_pop (el dest : T) (c : ConcurrentDataContainer T) (st : list T) :
  holds c st -> (length st < length (elements c))%nat ->
  exists c1 c2,
    push_back el c = Done c1 /\ try_pop dest c1 = Done (true, el, c2) /\ holds c2 st.
Proof.
  intros Hh Hlt.
  destruct (push_back_holds el c st Hh Hlt) as (c1 & E1 & Hh1 & _).
  destruct (try_pop_holds dest c1 st el Hh1) as (c2 & E2 & Hh2 & _).
  exists c1, c2. auto.
Qed.

End Facts.

(** Witness: node 9 pushed on the empty container of two slots. *)
Lemma push_back_then_try_pop_witness :
  exists c1 c2,
    push_back 9 empty2 = Done c1 /\ try_pop 0 c1 = Done (true, 9, c2) /\ holds c2 [].
Proof.
  apply (push_back_then_try_pop Z 9 0 empty2 []).
  - unfold holds. vm_compute. repeat split; congruence.
  - simpl. lia.
Defined.

End ContainerFacts.

(* ------------------------------------------------------------------ *)
(** ** NumaWorkQueue::tryPop *)

Module NumaQueueFacts.
Import WorkQueue NumaQueue ContainerFacts QueueInstances.

Section Facts.
Variable T : Type.

Lemma nth_error_set_queue_same (qs : list (ConcurrentDataContainer T)) i c :
  (i < length qs)%nat -> nth_error (set_queue qs i c) i = Some c.
Proof.
  revert i. induction qs as [|q qs IH]; intros [|i] H; simpl in *; try lia; auto.
  apply IH. lia.
Qed.

Lemma nth_error_set_queue_other (qs : list (ConcurrentDataContainer T)) i j c :
  i <> j -> nth_error (set_queue qs i c) j = nth_error qs j.
Proof.
  revert i j. induction qs as [|q qs IH]; intros [|i] [|j] H; simpl; auto; try lia.
Qed.

Lemma length_set_queue (qs : list (ConcurrentDataContainer T)) i c :
  length (set_queue qs i c) = length qs.
Proof.
  revert i. induction qs as [|q qs IH]; intros [|i]; simpl; auto.
Qed.

(** The scan stops at the queue whose size exceeds all others. *)
Lemma largest_queue_scan (qs : list (ConcurrentDataContainer T)) (p : nat) (M : Z) c
      (l : list nat) (acc : nat * Z) :
  nth_error qs p = Some c -> size c = M ->
  (forall i ci, i <> p -> nth_error qs i = Some ci -> size ci < M) ->
  (acc = (p, M) \/ (snd acc < M /\ In p l)) ->
  fold_left (fun (acc : nat * Z) (i : nat) =>
               let '(maxIndex, maxSize) := acc in
               match nth_error qs i with
               | Some c => if maxSize <? WorkQueue.unsafe_size c
                           then (i, WorkQueue.unsafe_size c) else acc
               | None => acc
               end) l acc = (p, M).
Proof.
  intros Hp HM Hother. revert acc.
  induction l as [|i l IH]; intros acc Hacc; cbn [fold_left].
  - destruct Hacc as [-> | [_ []]]. reflexivity.
  - apply IH. destruct acc as [mi ms]. cbn [snd] in Hacc.
    destruct (Nat.eq_dec i p) as [->|Hne].
    + rewrite Hp. unfold WorkQueue.unsafe_size. rewrite HM. left.
      destruct Hacc as [E | [Hlt _]].
      * inversion E; subst. now rewrite Z.ltb_irrefl.
      * destruct (Z.ltb_spec ms M); [reflexivity | lia].
    + destruct (nth_error qs i) as [ci|] eqn:Ei.
      * pose proof (Hother i ci Hne Ei) as Hci. unfold WorkQueue.unsafe_size.
        destruct Hacc as [E | [Hlt [Hin | Hin]]].
        -- inversion E; subst. left. destruct (Z.ltb_spec (size c) (size ci)); [lia | reflexivity].
        -- congruence.
        -- right. destruct (Z.ltb_spec ms (size ci)); cbn [snd]; auto.
      * destruct Hacc as [E | [Hlt [Hin | Hin]]]; auto. congruence.
Qed.

Lemma tryPop_preferred (dest : T) p (q : NumaWorkQueue T) c st x :
  nth_error (queues q) p = Some c -> holds c (st ++ [x]) ->
  exists c', tryPop dest p q = Done (true, x, {| queues := set_queue (queues q) p c' |}) /\
             holds c' st /\ elements c' = elements c.
Proof.
  intros Hp Hh. unfold tryPop. rewrite Hp.
  destruct (try_pop_holds T dest c st x Hh) as (c' & E & Hh' & He).
  rewrite E. exists c'. auto.
Qed.

Lemma tryPop_empty_preferred (dest : T) p (q : NumaWorkQueue T) c :
  nth_error (queues q) p = Some c -> size c = 0 ->
  (forall i ci, nth_error (queues q) i = Some ci ->
     0 <= size ci <= Z.of_nat (length (elements ci)) /\
     Z.of_nat (length (elements ci)) < 2 ^ 64 - 1) ->
  tryPop dest p q = OutOfBounds (2 ^ 64 - 2).
Proof.
  intros Hp Hs Hall. unfold tryPop. rewrite Hp, (try_pop_empty T dest c Hs).
  assert (Hlen : (p < length (queues q))%nat).
  { apply nth_error_Some. congruence. }
  set (c0 := Build_ConcurrentDataContainer T (2 ^ 64 - 1) (elements c)).
  cbv zeta.
  assert (Hmax : fst (largest_queue (set_queue (queues q) p c0)) = p).
  { unfold largest_queue.
    rewrite (largest_queue_scan (set_queue (queues q) p c0) p (2 ^ 64 - 1) c0); [reflexivity|..].
    - now apply nth_error_set_queue_same.
    - reflexivity.
    - intros i ci Hne Hi. rewrite nth_error_set_queue_other in Hi by congruence.
      destruct (Hall i ci Hi). lia.
    - right. cbn [snd]. split; [lia|]. apply in_seq. rewrite length_set_queue. lia. }
  rewrite Hmax, nth_error_set_queue_same by exact Hlen.
  rewrite (try_pop_wrapped T dest c0); [reflexivity | reflexivity |].
  apply (Hall p c Hp).
Qed.

(** X3: when the queue of the preferred socket holds a stack with
    top [x], [tryPop] returns true with [x]; the preferred queue then
    holds the rest of the stack and the queues of the other sockets are
    as they were. *)
Theorem tryPop_takes_preferred (dest : T) p (q : NumaWorkQueue T) c st x :
  nth_error (queues q) p = Some c -> holds c (st ++ [x]) ->
  exists c', tryPop dest p q = Done (true, x, {| queues := set_queue (queues q) p c' |}) /\
             holds c' st /\
             forall i, i <> p ->
               nth_error (set_queue (queues q) p c') i = nth_error (queues q) i.
Proof.
  intros Hp Hh. destruct (tryPop_preferred dest p q c st x Hp Hh) as (c' & E & Hh' & _).
  exists c'. split; [exact E|]. split; [exact Hh'|].
  intros i Hi. apply nth_error_set_queue_other. congruence.
Qed.

(** X4: when the queue of the preferred socket is empty, [tryPop]
    does not take an element from another socket.  The failed
    [try_pop] has already decremented the size of the preferred queue,
    which wraps around to the largest [size_t]; the scan for the
    largest queue therefore selects the preferred queue again, and the
    second [try_pop] indexes its vector at 2^64 - 2, outside its
    bounds.  The sizes of all queues are within their vectors, which
    are shorter than the largest [size_t]. *)
Theorem tryPop_empty_preferred_indexes_outside (dest : T) p (q : NumaWorkQueue T) c :
  nth_error (queues q) p = Some c -> size c = 0 ->
  (forall i ci, nth_error (queues q) i = Some ci ->
     0 <= size ci <= Z.of_nat (length (elements ci)) /\
     Z.of_nat (length (elements ci)) < 2 ^ 64 - 1) ->
  tryPop dest p q = OutOfBounds (2 ^ 64 - 2).
Proof. apply tryPop_empty_preferred. Qed.

End Facts.

(** Witness: socket 1 of the two-socket queue holds node 7. *)
Lemma tryPop_takes_preferred_witness :
  exists c', tryPop 0 1%nat two_sockets
             = Done (true, 7, {| queues := set_queue (queues two_sockets) 1 c' |}) /\
             holds c' [] /\
             forall i, i <> 1%nat ->
               nth_error (set_queue (queues two_sockets) 1 c') i
               = nth_error (queues two_sockets) i.
Proof.
  apply (tryPop_takes_preferred Z 0 1%nat two_sockets one_seed [] 7).
  - reflexivity.
  - unfold holds. vm_compute. repeat split; congruence.
Defined.

(** Witness: socket 0 of the two-socket queue is empty, socket 1 holds
    node 7. *)
Lemma tryPop_empty_preferred_indexes_outside_witness :
  tryPop 0 0%nat two_sockets = OutOfBounds (2 ^ 64 - 2).
Proof.
  apply (tryPop_empty_preferred_indexes_outside Z 0 0%nat two_sockets empty2).
  - reflexivity.
  - reflexivity.
  - intros [|[|i]] ci H; cbn in H.
    + inversion H; subst ci. vm_compute. repeat split; congruence.
    + inversion H; subst ci. vm_compute. repeat split; congruence.
    + destruct i; discriminate.
Defined.

End NumaQueueFacts.

(* ------------------------------------------------------------------ *)
(** ** The seeds of a round of MultiTryKWayFM *)

Module MultiTryFacts.
Import WorkQueue NumaQueue ContainerFacts NumaQueueFacts PHG MultiTry Scenarios QueueInstances.

Section Facts.

Variable hg : Hypergraph.
Variable k : PartitionID.
Variable SearchState : Type.
Variable findMoves : HypernodeID -> SearchState -> SearchState.

Lemma insert_fold (s : PartitionedHypergraph) (l : list HypernodeID)
      (c : ConcurrentDataContainer HypernodeID) (st : list HypernodeID) :
  holds c st ->
  (length st + length (filter (isBorderNode hg k s) l) <= length (elements c))%nat ->
  exists c',
    fold_left (fun (acc : outcome (NumaWorkQueue HypernodeID)) u =>
                 match acc with
                 | Done q =>
                     if isBorderNode hg k s u then NumaQueue.push u O q else Done q
                 | OutOfBounds i => OutOfBounds i
                 end) l (Done {| queues := [c] |})
    = Done {| queues := [c'] |} /\
    holds c' (st ++ filter (isBorderNode hg k s) l) /\
    length (elements c') = length (elements c).
Proof.
  revert c st. induction l as [|u l IH]; intros c st Hh Hcap; cbn [fold_left filter].
  - exists c. rewrite app_nil_r. auto.
  - cbn [filter] in Hcap. destruct (isBorderNode hg k s u).
    + cbn [length] in Hcap.
      destruct (push_back_holds HypernodeID u c st Hh) as (c1 & E1 & Hh1 & Hl1); [lia|].
      unfold NumaQueue.push at 2. cbn [queues nth_error]. rewrite E1. cbn [set_queue].
      destruct (IH c1 (st ++ [u]) Hh1) as (c' & E & Hh' & Hl').
      { rewrite length_app, Hl1. cbn [length]. lia. }
      exists c'. rewrite E, <- app_assoc in *. cbn [app] in Hh'. split; [reflexivity|].
      split; [exact Hh' | congruence].
    + apply IH; assumption.
Qed.

Lemma task_drains (st : list HypernodeID) :
  forall (fuel : nat) (u : HypernodeID) (c : ConcurrentDataContainer HypernodeID)
         (state : SearchState),
    holds c st -> (length st < fuel)%nat ->
    exists q',
      task SearchState findMoves fuel O u {| queues := [c] |} state
      = (IndexedOutside (2 ^ 64 - 2), q',
         fold_left (fun x v => findMoves v x) (rev st) state).
Proof.
  induction st as [|x st IH] using rev_ind; intros fuel u c state Hh Hfuel.
  - destruct fuel as [|fuel]; [simpl in Hfuel; lia|]. cbn [task].
    rewrite (tryPop_empty_preferred HypernodeID u O {| queues := [c] |} c).
    + eexists. reflexivity.
    + reflexivity.
    + apply Hh.
    + intros [|i] ci Hi; cbn [queues nth_error] in Hi.
      * inversion Hi; subst ci. destruct Hh as (Hs & _ & Hcap).
        cbn [length] in Hs. rewrite Hs. split; [lia | exact Hcap].
      * destruct i; discriminate.
  - rewrite length_app in Hfuel. cbn [length] in Hfuel.
    destruct fuel as [|fuel]; [lia|]. cbn [task].
    destruct (tryPop_preferred HypernodeID u O {| queues := [c] |} c st x eq_refl Hh)
      as (c' & E & Hh' & _).
    rewrite E. cbn [queues set_queue].
    destruct (IH fuel x c' (findMoves x state) Hh') as (q' & E'); [lia|].
    exists q'. rewrite E', rev_app_distr. reflexivity.
Qed.


End Facts.


End MultiTryFacts.

(* ------------------------------------------------------------------ *)
(** ** The destination of a vertex: bestDestinationBlock and bestOfThree *)

Module DestinationFacts.
Import PHG FM FMUpdate FMFacts Scenarios Instances.

Section Facts.

Variable hg : Hypergraph.
Variable k : PartitionID.
Variable max_part_weights : PartitionID -> HypernodeWeight.
Variable s : PartitionedHypergraph.
Variable u : HypernodeID.

Local Abbreviation feas := (feasible hg k max_part_weights s u).
Local Abbreviation better := (no_worse k s u).
Local Abbreviation step :=
  (bestDestinationBlock_step k max_part_weights s u (partID s u) (nodeWeight hg u)).
Local Abbreviation valid_parts := (FMUpdate.valid_parts k).
Local Abbreviation start :=
  (kInvalidPartition, HyperedgeWeight_max, partWeight s (partID s u) - nodeWeight hg u).

(** Whatever the penalties are, the search holds its initial value or a
    feasible block of the list together with its penalty. *)
Lemma search_safe (l : list PartitionID) :
  (forall i, In i l -> 0 <= i < k) ->
  fold_left step l start = start \/
  (let '(to, pen, _) := fold_left step l start in
   In to l /\ feas to /\ pen = moveToPenalty k s u to).
Proof.
  intros Hl.
  assert (G : forall l1 acc,
             (forall i, In i l1 -> 0 <= i < k) ->
             (acc = start \/
              (let '(to, pen, _) := acc in
               In to l /\ feas to /\ pen = moveToPenalty k s u to)) ->
             (forall i, In i l1 -> In i l) ->
             fold_left step l1 acc = start \/
             (let '(to, pen, _) := fold_left step l1 acc in
              In to l /\ feas to /\ pen = moveToPenalty k s u to)).
  { induction l1 as [|i l1 IH]; intros acc Hr Hacc Hsub; cbn [fold_left]; [exact Hacc|].
    apply IH.
    - intros j Hj. apply Hr. now right.
    - destruct acc as [[to pen] w]. unfold bestDestinationBlock_step.
      destruct (Z.eqb_spec i (partID s u)) as [|Hne]; cbn [negb]; [exact Hacc|].
      destruct (((moveToPenalty k s u i <? pen)
                 || ((moveToPenalty k s u i =? pen) && (partWeight s i <? w)))
                && (partWeight s i + nodeWeight hg u <=? max_part_weights i)) eqn:Hc;
        [|exact Hacc].
      right. apply andb_true_iff in Hc. destruct Hc as [_ Hfit]. apply Z.leb_le in Hfit.
      split; [apply Hsub; now left|]. split; [|reflexivity].
      split; [apply Hr; now left|]. split; [exact Hne | exact Hfit].
    - intros j Hj. apply Hsub. now right. }
  apply G; auto.
Qed.

(** The result of the search over a list of blocks, when no feasible
    block carries the largest edge weight as its penalty. *)
Lemma search_list (l : list PartitionID) :
  (forall b, feas b -> moveToPenalty k s u b < HyperedgeWeight_max) ->
  (forall i, In i l -> 0 <= i < k) ->
  let '(to, pen, _) := fold_left step l start in
  (to = kInvalidPartition /\ forall b, In b l -> ~ feas b) \/
  (In to l /\ feas to /\ pen = moveToPenalty k s u to /\
   forall b, In b l -> feas b -> better to b).
Proof.
  intros Hsent Hl.
  assert (Hinit : FM.search_inv hg k max_part_weights s u (fun _ => False) start).
  { left. repeat split; auto. }
  pose proof (search_fold hg k max_part_weights s u l _ _ Hsent Hl Hinit) as H.
  pose proof (search_safe l Hl) as Hsafe.
  destruct (fold_left step l start) as [[to pen] w]. cbn [FM.search_inv] in H.
  destruct H as [(E1 & E2 & Hno) | (Hf & E1 & E2 & Hbest)].
  - left. split; [exact E1|]. intros b Hb. apply Hno. now right.
  - right. destruct Hsafe as [E | (Hin & _)].
    + exfalso. inversion E; subst. destruct Hf as [Hr _]. unfold kInvalidPartition in Hr. lia.
    + split; [exact Hin|]. split; [exact Hf|]. split; [exact E1|].
      intros b Hb. apply Hbest. now right.
Qed.

(** [bestOfThree] runs the loop of [bestDestinationBlock] over the
    valid blocks among its three. *)
Lemma bestOfThree_fold (l : list PartitionID) acc :
  fold_left (bestOfThree_step k max_part_weights s u (partID s u) (nodeWeight hg u)) l acc
  = fold_left step (filter (fun i => negb (i =? kInvalidPartition)) l) acc.
Proof.
  revert acc. induction l as [|i l IH]; intros acc; cbn [fold_left filter]; [reflexivity|].
  destruct acc as [[to pen] w].
  unfold bestOfThree_step at 2.
  destruct (Z.eqb_spec i kInvalidPartition) as [Hi|Hi]; cbn [negb].
  - rewrite andb_false_r. apply IH.
  - rewrite andb_true_r. cbn [fold_left]. rewrite IH. reflexivity.
Qed.


Lemma bestOfThree_search parts :
  (forall b, feas b -> moveToPenalty k s u b < HyperedgeWeight_max) ->
  valid_parts parts ->
  (fst (bestOfThree hg k max_part_weights s u (partID s u) parts) = kInvalidPartition /\
   snd (bestOfThree hg k max_part_weights s u (partID s u) parts) = HyperedgeWeight_min /\
   forall b, part_of parts b -> ~ feas b) \/
  (part_of parts (fst (bestOfThree hg k max_part_weights s u (partID s u) parts)) /\
   feas (fst (bestOfThree hg k max_part_weights s u (partID s u) parts)) /\
   snd (bestOfThree hg k max_part_weights s u (partID s u) parts)
   = moveFromBenefit s u
     - moveToPenalty k s u (fst (bestOfThree hg k max_part_weights s u (partID s u) parts)) /\
   forall b, part_of parts b -> feas b ->
     better (fst (bestOfThree hg k max_part_weights s u (partID s u) parts)) b).
Proof.
  intros Hsent Hvalid. destruct parts as [[p0 p1] p2]. cbn [FMUpdate.valid_parts part_of] in *.
  unfold bestOfThree. rewrite bestOfThree_fold.
  set (l := filter (fun i => negb (i =? kInvalidPartition)) [p0; p1; p2]).
  assert (Hl : forall i, In i l <-> In i [p0; p1; p2] /\ i <> kInvalidPartition).
  { intros i. unfold l. rewrite filter_In, negb_true_iff, Z.eqb_neq. reflexivity. }
  assert (Hr : forall i, In i l -> 0 <= i < k).
  { intros i Hi. apply Hl in Hi. destruct Hi as [Hi Hne].
    destruct (Hvalid i Hi); [contradiction | assumption]. }
  pose proof (search_list l Hsent Hr) as H.
  destruct (fold_left step l start) as [[to pen] w].
  destruct H as [(E & Hno) | (Hin & Hf & Hpen & Hbest)].
  - left. subst to. cbn [negb fst snd]. rewrite Z.eqb_refl. cbn [negb].
    split; [reflexivity|]. split; [reflexivity|].
    intros b Hb Hfb. apply (Hno b); [|exact Hfb]. apply Hl. split; [exact Hb|].
    destruct Hfb as (Hrb & _). unfold kInvalidPartition. lia.
  - right. assert (Hto : (to =? kInvalidPartition) = false).
    { apply Z.eqb_neq. destruct Hf as (Hrt & _). unfold kInvalidPartition. lia. }
    rewrite Hto. cbn [negb fst snd].
    split; [apply Hl, Hin|]. split; [exact Hf|]. split; [now rewrite Hpen|].
    intros b Hb Hfb. apply Hbest; [|exact Hfb]. apply Hl. split; [exact Hb|].
    destruct Hfb as (Hrb & _). unfold kInvalidPartition. lia.
Qed.

Lemma bestDestinationBlock_search :
  (forall b, feas b -> moveToPenalty k s u b < HyperedgeWeight_max) ->
  (bestDestinationBlock hg k max_part_weights s u = (kInvalidPartition, HyperedgeWeight_min) /\
   forall b, ~ feas b) \/
  (feas (fst (bestDestinationBlock hg k max_part_weights s u)) /\
   snd (bestDestinationBlock hg k max_part_weights s u)
   = moveFromBenefit s u
     - moveToPenalty k s u (fst (bestDestinationBlock hg k max_part_weights s u)) /\
   forall b, feas b -> better (fst (bestDestinationBlock hg k max_part_weights s u)) b).
Proof.
  intros Hsent.
  pose proof (search_list (range k) Hsent (fun i Hi => proj1 (In_range k i) Hi)) as H.
  unfold bestDestinationBlock.
  destruct (fold_left step (range k) start) as [[to pen] w].
  destruct H as [(E & Hno) | (Hin & Hf & Hpen & Hbest)].
  - left. subst to. cbn [negb]. split; [reflexivity|].
    intros b Hfb. apply (Hno b); [|exact Hfb]. apply In_range, Hfb.
  - right. assert (Hto : (to =? kInvalidPartition) = false).
    { apply Z.eqb_neq. destruct Hf as (Hrt & _). unfold kInvalidPartition. lia. }
    rewrite Hto. cbn [negb fst snd]. split; [exact Hf|]. split; [now rewrite Hpen|].
    intros b Hfb. apply Hbest; [|exact Hfb]. apply In_range, Hfb.
Qed.

(** X7: [bestOfThree], called with the block of [u] as [from] and with
    three blocks each of which is a block id or the invalid block,
    returns a feasible block among the three that is no worse (least
    penalty, then least weight) than every feasible one of them,
    with the gain benefit(u) - penalty(u, block); when none of the three
    is feasible it returns the invalid block and the least gain.  As for
    [bestDestinationBlock], no feasible block may carry the largest edge
    weight as its penalty. *)
Theorem bestOfThree_spec parts :
  (forall b, feas b -> moveToPenalty k s u b < HyperedgeWeight_max) ->
  valid_parts parts ->
  ((exists b, part_of parts b /\ feas b) ->
   part_of parts (fst (bestOfThree hg k max_part_weights s u (partID s u) parts)) /\
   feas (fst (bestOfThree hg k max_part_weights s u (partID s u) parts)) /\
   (forall b, part_of parts b -> feas b ->
      better (fst (bestOfThree hg k max_part_weights s u (partID s u) parts)) b) /\
   snd (bestOfThree hg k max_part_weights s u (partID s u) parts)
   = moveFromBenefit s u
     - moveToPenalty k s u (fst (bestOfThree hg k max_part_weights s u (partID s u) parts))) /\
  ((forall b, part_of parts b -> ~ feas b) ->
   bestOfThree hg k max_part_weights s u (partID s u) parts
   = (kInvalidPartition, HyperedgeWeight_min)).
Proof.
  intros Hsent Hvalid.
  destruct (bestOfThree_search parts Hsent Hvalid) as [(E1 & E2 & Hno) | (Hin & Hf & Hg & Hbest)].
  - split.
    + intros (b & Hb & Hfb). exfalso. exact (Hno b Hb Hfb).
    + intros _. destruct (bestOfThree _ _ _ _ _ _ _). cbn [fst snd] in *. congruence.
  - split.
    + intros _. auto.
    + intros Hnone. exfalso. exact (Hnone _ Hin Hf).
Qed.

(** X8: the gain [updateGain] computes for [v] is the gain of
    [bestDestinationBlock], provided the block [bestDestinationBlock]
    chooses is the designated target of [v], the source or the target of
    the move (for k < 4, or when the designated target is one of the two
    blocks of the move, it is computed by [bestDestinationBlock]
    itself). *)
Theorem updateGain_gain designatedTargetV move_from move_to :
  (forall b, feas b -> moveToPenalty k s u b < HyperedgeWeight_max) ->
  valid_parts (designatedTargetV, move_from, move_to) ->
  part_of (designatedTargetV, move_from, move_to)
          (fst (bestDestinationBlock hg k max_part_weights s u)) ->
  snd (updateGain hg k max_part_weights s u designatedTargetV move_from move_to)
  = snd (bestDestinationBlock hg k max_part_weights s u).
Proof.
  intros Hsent Hvalid Hin. unfold updateGain.
  destruct ((k <? 4) || (designatedTargetV =? move_from) || (designatedTargetV =? move_to));
    [reflexivity|].
  destruct (bestOfThree_search _ Hsent Hvalid) as [(E1 & E2 & Hno) | (Hin3 & Hf3 & Hg3 & Hbest3)];
    destruct (bestDestinationBlock_search Hsent) as [(E & Hnone) | (Hf & Hg & Hbest)].
  - rewrite E2, E. reflexivity.
  - exfalso. exact (Hno _ Hin Hf).
  - exfalso. exact (Hnone _ Hf3).
  - rewrite Hg3, Hg.
    pose proof (Hbest3 _ Hin Hf) as H1. pose proof (Hbest _ Hf3) as H2.
    unfold no_worse in H1, H2. lia.
Qed.

End Facts.

Lemma four_sentinel b :
  feasible four_hg 4 four_max_part_weights four_phg 0 b ->
  moveToPenalty 4 four_phg 0 b < HyperedgeWeight_max.
Proof.
  intros (Hr & _).
  assert (Hb : b = 0 \/ b = 1 \/ b = 2 \/ b = 3) by lia.
  destruct Hb as [-> | [-> | [-> | ->]]]; vm_compute; reflexivity.
Qed.

Lemma four_valid_parts : valid_parts 4 (1, 2, 3).
Proof. intros i Hi. simpl in Hi. right. intuition lia. Qed.

(** Witness: node 0 of the four-block instance and the blocks 1, 2, 3. *)
Lemma bestOfThree_spec_witness :
  ((exists b, part_of (1, 2, 3) b /\ feasible four_hg 4 four_max_part_weights four_phg 0 b) ->
   part_of (1, 2, 3)
     (fst (bestOfThree four_hg 4 four_max_part_weights four_phg 0 (partID four_phg 0) (1, 2, 3))) /\
   feasible four_hg 4 four_max_part_weights four_phg 0
     (fst (bestOfThree four_hg 4 four_max_part_weights four_phg 0 (partID four_phg 0) (1, 2, 3))) /\
   (forall b, part_of (1, 2, 3) b ->
      feasible four_hg 4 four_max_part_weights four_phg 0 b ->
      no_worse 4 four_phg 0
        (fst (bestOfThree four_hg 4 four_max_part_weights four_phg 0 (partID four_phg 0)
                (1, 2, 3))) b) /\
   snd (bestOfThree four_hg 4 four_max_part_weights four_phg 0 (partID four_phg 0) (1, 2, 3))
   = moveFromBenefit four_phg 0
     - moveToPenalty 4 four_phg 0
         (fst (bestOfThree four_hg 4 four_max_part_weights four_phg 0 (partID four_phg 0)
                 (1, 2, 3)))) /\
  ((forall b, part_of (1, 2, 3) b ->
      ~ feasible four_hg 4 four_max_part_weights four_phg 0 b) ->
   bestOfThree four_hg 4 four_max_part_weights four_phg 0 (partID four_phg 0) (1, 2, 3)
   = (kInvalidPartition, HyperedgeWeight_min)).
Proof.
  apply (bestOfThree_spec four_hg 4 four_max_part_weights four_phg 0 (1, 2, 3)).
  - exact four_sentinel.
  - exact four_valid_parts.
Defined.

(** Witness: node 0 of the four-block instance with designated target
    1, after a move from block 2 to block 3. *)
Lemma updateGain_gain_witness :
  snd (updateGain four_hg 4 four_max_part_weights four_phg 0 1 2 3)
  = snd (bestDestinationBlock four_hg 4 four_max_part_weights four_phg 0).
Proof.
  apply (updateGain_gain four_hg 4 four_max_part_weights four_phg 0 1 2 3).
  - exact four_sentinel.
  - exact four_valid_parts.
  - vm_compute. left. reflexivity.
Defined.

End DestinationFacts.

(* ------------------------------------------------------------------ *)
(** ** The gain cache across a move *)

Module GainMaintenanceFacts.
Import PHG PinFacts MoveFacts InvariantFacts ReachableFacts DeltaFacts BenefitFacts Scenarios
       ScenarioStateFacts.

(** Two sums over duplicate-free lists agree when the summands agree on
    the common elements and vanish elsewhere. *)
Lemma sumZ_common (f g : Z -> Z) (l1 : list Z) :
  forall l2, NoDup l1 -> NoDup l2 ->
  (forall e, In e l1 -> ~ In e l2 -> f e = 0) ->
  (forall e, In e l2 -> ~ In e l1 -> g e = 0) ->
  (forall e, In e l1 -> In e l2 -> f e = g e) ->
  sumZ f l1 = sumZ g l2.
Proof.
  induction l1 as [|a l1 IH]; intros l2 H1 H2 Hf Hg Hfg.
  - symmetry. apply sumZ_zero. intros e He. apply Hg; auto.
  - inversion H1 as [|? ? Ha H1']; subst. cbn [sumZ].
    destruct (in_dec Z.eq_dec a l2) as [Hin|Hnot].
    + destruct (in_split a l2 Hin) as (m1 & m2 & ->).
      rewrite sumZ_app. cbn [sumZ].
      pose proof (NoDup_remove _ _ _ H2) as [H2' Ha2].
      rewrite (Hfg a (or_introl eq_refl) Hin).
      rewrite (IH (m1 ++ m2) H1' H2'); [rewrite sumZ_app; lia|..].
      * intros e He Hne. apply Hf; [now right|]. intros Hc.
        apply in_app_iff in Hc. destruct Hc as [Hc | [-> | Hc]];
          [apply Hne, in_app_iff; now left | contradiction | apply Hne, in_app_iff; now right].
      * intros e He Hne. apply Hg.
        -- apply in_app_iff in He. apply in_app_iff. destruct He; [now left | right; now right].
        -- intros [-> | Hc]; [contradiction | contradiction].
      * intros e He He2. apply Hfg; [now right|].
        apply in_app_iff in He2. apply in_app_iff. destruct He2; [now left | right; now right].
    + rewrite (Hf a (or_introl eq_refl) Hnot).
      rewrite (IH l2 H1' H2); [lia|..].
      * intros e He Hne. apply Hf; [now right | exact Hne].
      * intros e He Hne. apply Hg; [exact He|]. intros [-> | Hc]; contradiction.
      * intros e He He2. apply Hfg; [now right | exact He2].
Qed.

(** Two different pins in a block make a pin count of at least two. *)
Lemma two_pins_in_block (ids : Z -> Z) (ps : list Z) (p x v : Z) :
  NoDup ps -> In x ps -> In v ps -> x <> v -> ids x = p -> ids v = p ->
  2 <= sumZ (fun u => if ids u =? p then 1 else 0) ps.
Proof.
  intros Hnd Hx Hv Hne Hxp Hvp.
  destruct (in_split v ps Hv) as (l1 & l2 & ->).
  rewrite sumZ_app. cbn [sumZ]. rewrite Hvp, Z.eqb_refl.
  assert (Hx' : In x (l1 ++ l2)).
  { apply in_app_iff in Hx. apply in_app_iff.
    destruct Hx as [Hx | [Hx | Hx]]; [now left | congruence | now right]. }
  assert (H1 : 1 <= sumZ (fun u => if ids u =? p then 1 else 0) (l1 ++ l2)).
  { clear - Hx' Hxp. induction (l1 ++ l2) as [|y l IH]; [contradiction|]. cbn [sumZ].
    assert (H0 : 0 <= sumZ (fun u => if ids u =? p then 1 else 0) l).
    { apply sumZ_nonneg. intros z _. destruct (ids z =? p); lia. }
    destruct Hx' as [-> | Hx'].
    - rewrite Hxp, Z.eqb_refl. lia.
    - specialize (IH Hx'). destruct (ids y =? p); lia. }
  rewrite sumZ_app in H1. lia.
Qed.

Section Facts.

Variable hg : Hypergraph.
Variable k : PartitionID.
Hypothesis Hwf : wf_hypergraph hg.

(** Slot [penalty_index x p] is written once by a loop over the pins
    for block [p] when [x] is a pin, and not at all by a loop for
    another block. *)
Lemma index_count_slot (ps : list Z) (q x p : Z) :
  NoDup ps -> 0 <= p < k -> 0 <= q < k ->
  index_count k ps q (penalty_index k x p)
  = if (q =? p) && existsb (Z.eqb x) ps then 1 else 0.
Proof.
  intros Hnd Hp Hq. unfold index_count, penalty_index.
  rewrite (sumZ_ext_in _ (fun u => if u =? x then (if q =? p then 1 else 0) else 0)).
  - rewrite (sumZ_single (fun _ => if q =? p then 1 else 0) x ps Hnd).
    destruct (q =? p), (existsb (Z.eqb x) ps); reflexivity.
  - intros u _.
    destruct (Z.eqb_spec (u * k + q) (x * k + p)) as [E|E];
      destruct (Z.eqb_spec u x) as [->|Hux]; destruct (Z.eqb_spec q p) as [->|Hqp];
      try reflexivity; try lia; exfalso; nia.
Qed.

Section Move.

Variable A : Type.
Variable delta_func : DeltaFunc A.
Hypothesis Hcaller : caller_only delta_func.
Variable s s' : PartitionedHypergraph.
Variable v : HypernodeID.
Variables from to : PartitionID.
Variable max_weight_to : HypernodeWeight.
Variable report_success : A -> A.
Variables a a' : A.

Hypothesis Hc : consistent hg k s.
Hypothesis Hv : nodeIsEnabled hg v = true.
Hypothesis Hfrom : partID s v = from.
Hypothesis Hne : from <> to.
Hypothesis Hto : 0 <= to < k.
Hypothesis Hmove :
  changeNodePartFullUpdate hg k v from to max_weight_to report_success delta_func (s, a)
  = Some (true, (s', a')).

Lemma moved_from_in_range : 0 <= from < k.
Proof. rewrite <- Hfrom. apply (cons_assigned hg k s Hc), Hv. Qed.

Lemma moved_state :
  (forall x, partID s' x = if x =? v then to else partID s x) /\
  (forall e q, pinCountInPart s' e q
               = pinCountInPart s e q
                 + (if existsb (Z.eqb e) (incidentEdges hg v)
                    then (if q =? to then 1 else 0) - (if q =? from then 1 else 0) else 0)) /\
  (forall x, moveFromBenefit s' x
             = moveFromBenefit s x
               + sumZ (fun e => benefit_delta (upd (_part_ids s) v to) (pins hg e)
                                  (edgeWeight hg e) from (pinCountInPart s e from - 1)
                                  to (pinCountInPart s e to + 1) x)
                      (incidentEdges hg v)) /\
  (forall i, _move_to_penalty s' i
             = _move_to_penalty s i
               + sumZ (fun e => penalty_delta k (pins hg e) (edgeWeight hg e)
                                  from (pinCountInPart s e from - 1)
                                  to (pinCountInPart s e to + 1) i)
                      (incidentEdges hg v)).
Proof.
  destruct (changeNodePartFullUpdate_success hg k A delta_func Hcaller from to Hne v
              max_weight_to report_success s a s' a' (cons_lock_free hg k s Hc)
              (wf_incident_NoDup hg Hwf v) Hmove) as ((_ & Hi & Hp & _) & _ & HB & HP).
  destruct (fold_move_frame from to (incidentEdges hg v) (moved_header hg s v from to))
    as (_ & Fi & _).
  split; [|split; [|split]].
  - intros x. unfold partID. rewrite Hi, Fi. reflexivity.
  - intros e q. unfold pinCountInPart at 1. rewrite Hp.
    exact (fold_move_pc from to (incidentEdges hg v) _ e q Hne (wf_incident_NoDup hg Hwf v)).
  - exact HB.
  - exact HP.
Qed.

(** The stored pin counts of an incident edge of the moved node. *)
Lemma incident_counts e :
  In e (incidentEdges hg v) ->
  edgeIsEnabled hg e = true /\ In v (pins hg e) /\
  (forall q, 0 <= q < k ->
     pinCountInPart s e q = sumZ (fun u => if _part_ids s u =? q then 1 else 0) (pins hg e)) /\
  1 <= pinCountInPart s e from /\ 0 <= pinCountInPart s e to.
Proof.
  intros He. destruct (incident_enabled hg Hwf v e Hv He) as [Hen Hpin].
  assert (Hpc : forall q, 0 <= q < k ->
            pinCountInPart s e q = sumZ (fun u => if _part_ids s u =? q then 1 else 0) (pins hg e)).
  { intros q Hq. rewrite (cons_pin_count hg k s Hc e q Hen Hq), pinCountInPartRecomputed_sum.
    reflexivity. }
  split; [exact Hen|]. split; [exact Hpin|]. split; [exact Hpc|]. split.
  - rewrite (cons_pin_count hg k s Hc e from Hen moved_from_in_range),
      pinCountInPartRecomputed_sum.
    now apply (pins_in_block_pos hg s e from v).
  - rewrite (cons_pin_count hg k s Hc e to Hen Hto), pinCountInPartRecomputed_sum.
    apply pins_in_block_nonneg.
Qed.

(** Every penalty that satisfied its equation before the move
    satisfies it afterwards. *)
Lemma penalty_kept x p :
  nodeIsEnabled hg x = true -> 0 <= p < k ->
  penalty_inv hg k s x p -> penalty_inv hg k s' x p.
Proof.
  intros Hx Hp Hinv. destruct moved_state as (_ & Hpc' & _ & HP).
  pose proof moved_from_in_range as Hfk.
  unfold penalty_inv in *. unfold moveToPenalty in *. rewrite HP, Hinv.
  rewrite (sumZ_ext_in
             (fun e => if pinCountInPart s' e p =? 0 then edgeWeight hg e else 0)
             (fun e => (if pinCountInPart s e p =? 0 then edgeWeight hg e else 0)
                       + ((if pinCountInPart s' e p =? 0 then edgeWeight hg e else 0)
                          - (if pinCountInPart s e p =? 0 then edgeWeight hg e else 0))))
    by (intros e _; lia).
  rewrite sumZ_plus. f_equal. symmetry.
  apply sumZ_common.
  - apply (wf_incident_NoDup hg Hwf).
  - apply (wf_incident_NoDup hg Hwf).
  - intros e He Hnot. rewrite Hpc'.
    apply existsb_eqb_notIn in Hnot. rewrite Hnot, Z.add_0_r. lia.
  - intros e He Hnot. destruct (incident_counts e He) as (Hen & _).
    assert (Hnp : existsb (Z.eqb x) (pins hg e) = false).
    { rewrite <- (incident_iff_pin hg Hwf x e Hx Hen). now apply existsb_eqb_notIn. }
    unfold penalty_delta.
    rewrite !(index_count_slot (pins hg e) _ x p (wf_pins_NoDup hg Hwf e) Hp) by assumption.
    rewrite Hnp, !andb_false_r.
    destruct (pinCountInPart s e from - 1 =? 1), (pinCountInPart s e from - 1 =? 0),
             (pinCountInPart s e to + 1 =? 1); lia.
  - intros e Hex He. destruct (incident_counts e He) as (Hen & _ & _ & H1 & H0).
    assert (Hin : existsb (Z.eqb x) (pins hg e) = true).
    { rewrite <- (incident_iff_pin hg Hwf x e Hx Hen). now apply existsb_eqb_In. }
    assert (Hine : existsb (Z.eqb e) (incidentEdges hg v) = true) by now apply existsb_eqb_In.
    rewrite Hpc', Hine. unfold penalty_delta.
    rewrite !(index_count_slot (pins hg e) _ x p (wf_pins_NoDup hg Hwf e) Hp) by assumption.
    rewrite Hin, !andb_true_r.
    destruct (Z.eqb_spec p to) as [Ept|Hpt]; destruct (Z.eqb_spec p from) as [Epf|Hpf];
      try congruence.
    + subst p. rewrite Z.eqb_refl. destruct (Z.eqb_spec from to); [congruence|].
      cbn [andb].
      destruct (Z.eqb_spec (pinCountInPart s e from - 1) 1),
               (Z.eqb_spec (pinCountInPart s e from - 1) 0),
               (Z.eqb_spec (pinCountInPart s e to + 1) 1),
               (Z.eqb_spec (pinCountInPart s e to + (1 - 0)) 0),
               (Z.eqb_spec (pinCountInPart s e to) 0); lia.
    + subst p. rewrite Z.eqb_refl. destruct (Z.eqb_spec to from); [congruence|].
      cbn [andb].
      destruct (Z.eqb_spec (pinCountInPart s e from - 1) 1),
               (Z.eqb_spec (pinCountInPart s e from - 1) 0),
               (Z.eqb_spec (pinCountInPart s e to + 1) 1),
               (Z.eqb_spec (pinCountInPart s e from + (0 - 1)) 0),
               (Z.eqb_spec (pinCountInPart s e from) 0); lia.
    + destruct (Z.eqb_spec from p); [congruence|]. destruct (Z.eqb_spec to p); [congruence|].
      cbn [andb]. rewrite Z.add_0_r.
      destruct (pinCountInPart s e from - 1 =? 1), (pinCountInPart s e from - 1 =? 0),
               (pinCountInPart s e to + 1 =? 1); lia.
Qed.

(** The pins of an incident edge of the moved node that the part ids
    after the move place in a block. *)
Lemma counts_after e q :
  In e (incidentEdges hg v) -> 0 <= q < k ->
  sumZ (fun u => if upd (_part_ids s) v to u =? q then 1 else 0) (pins hg e)
  = pinCountInPart s e q + ((if to =? q then 1 else 0) - (if from =? q then 1 else 0)).
Proof.
  intros He Hq. destruct (incident_counts e He) as (_ & Hpin & Hpc & _).
  rewrite (sumZ_upd_block (_part_ids s) (fun _ => 1) (pins hg e) v to q (wf_pins_NoDup hg Hwf e)).
  apply existsb_eqb_In in Hpin. rewrite Hpin, <- (Hpc q Hq).
  fold (partID s v). rewrite Hfrom. reflexivity.
Qed.

(** The benefit of every node other than the moved one that satisfied
    its equation before the move satisfies it afterwards. *)
Lemma benefit_kept x :
  nodeIsEnabled hg x = true -> x <> v ->
  benefit_inv hg s x -> benefit_inv hg s' x.
Proof.
  intros Hx Hxv Hinv. destruct moved_state as (Hid & Hpc' & HB & _).
  pose proof moved_from_in_range as Hfk.
  assert (Hq : 0 <= partID s x < k) by apply (cons_assigned hg k s Hc x Hx).
  unfold benefit_inv in *. rewrite HB, Hinv, Hid.
  destruct (Z.eqb_spec x v); [contradiction|].
  set (q := partID s x) in *.
  rewrite (sumZ_ext_in
             (fun e => if pinCountInPart s' e q =? 1 then edgeWeight hg e else 0)
             (fun e => (if pinCountInPart s e q =? 1 then edgeWeight hg e else 0)
                       + ((if pinCountInPart s' e q =? 1 then edgeWeight hg e else 0)
                          - (if pinCountInPart s e q =? 1 then edgeWeight hg e else 0))))
    by (intros e _; lia).
  rewrite sumZ_plus. f_equal. symmetry.
  apply sumZ_common.
  - apply (wf_incident_NoDup hg Hwf).
  - apply (wf_incident_NoDup hg Hwf).
  - intros e He Hnot. rewrite Hpc'.
    apply existsb_eqb_notIn in Hnot. rewrite Hnot, Z.add_0_r. lia.
  - intros e He Hnot. destruct (incident_counts e He) as (Hen & _).
    assert (Hnp : existsb (Z.eqb x) (pins hg e) = false).
    { rewrite <- (incident_iff_pin hg Hwf x e Hx Hen). now apply existsb_eqb_notIn. }
    unfold benefit_delta.
    rewrite (pins_indicator_NoDup _ _ _ _ (wf_pins_NoDup hg Hwf e)), Hnp. cbn [andb].
    destruct (Z.eqb_spec (pinCountInPart s e from - 1) 1) as [E|E].
    + rewrite (first_pin_indicator_unique _ _ _ _ (wf_pins_NoDup hg Hwf e)).
      * rewrite Hnp. cbn [andb].
        destruct (pinCountInPart s e to + 1 =? 1), (pinCountInPart s e to + 1 =? 2); lia.
      * rewrite (counts_after e from He Hfk), Z.eqb_refl.
        destruct (Z.eqb_spec to from); [congruence | lia].
    + destruct (pinCountInPart s e to + 1 =? 1), (pinCountInPart s e to + 1 =? 2); lia.
  - intros e Hex He. destruct (incident_counts e He) as (Hen & Hvp & Hcnt & H1 & H0).
    assert (Hxp : In x (pins hg e)) by (apply (incident_enabled hg Hwf x e Hx Hex)).
    assert (Hin : existsb (Z.eqb x) (pins hg e) = true) by now apply existsb_eqb_In.
    assert (Hine : existsb (Z.eqb e) (incidentEdges hg v) = true) by now apply existsb_eqb_In.
    assert (Hidx : upd (_part_ids s) v to x = q).
    { unfold upd. destruct (Z.eqb_spec x v); [contradiction | reflexivity]. }
    rewrite Hpc', Hine. unfold benefit_delta.
    rewrite (pins_indicator_NoDup _ _ _ _ (wf_pins_NoDup hg Hwf e)), Hin, Hidx. cbn [andb].
    assert (Hfpi : pinCountInPart s e from - 1 = 1 ->
                   first_pin_indicator (upd (_part_ids s) v to) (pins hg e) from x
                   = if q =? from then 1 else 0).
    { intros E. rewrite (first_pin_indicator_unique _ _ _ _ (wf_pins_NoDup hg Hwf e)).
      - rewrite Hin, Hidx. reflexivity.
      - rewrite (counts_after e from He Hfk), Z.eqb_refl.
        destruct (Z.eqb_spec to from); [congruence | lia]. }
    destruct (Z.eqb_spec q from) as [Eqf|Nqf].
    + (* x shares the block the node leaves: at least two pins there *)
      assert (H2 : 2 <= pinCountInPart s e from).
      { rewrite (Hcnt from Hfk).
        apply (two_pins_in_block (_part_ids s) (pins hg e) from x v
                 (wf_pins_NoDup hg Hwf e) Hxp Hvp Hxv); [exact Eqf | exact Hfrom]. }
      destruct (Z.eqb_spec q to) as [Eqt|Nqt]; [congruence|]. rewrite Eqf.
      destruct (Z.eqb_spec from to); [congruence|].
      destruct (Z.eqb_spec (pinCountInPart s e from - 1) 1) as [E|E].
      * rewrite (Hfpi E).
        destruct (Z.eqb_spec (pinCountInPart s e to + 1) 1),
                 (Z.eqb_spec (pinCountInPart s e to + 1) 2),
                 (Z.eqb_spec (pinCountInPart s e from + (0 - 1)) 1),
                 (Z.eqb_spec (pinCountInPart s e from) 1); lia.
      * destruct (Z.eqb_spec (pinCountInPart s e to + 1) 1),
                 (Z.eqb_spec (pinCountInPart s e to + 1) 2),
                 (Z.eqb_spec (pinCountInPart s e from + (0 - 1)) 1),
                 (Z.eqb_spec (pinCountInPart s e from) 1); lia.
    + destruct (Z.eqb_spec q to) as [Eqt|Nqt].
      * (* x is in the block the node enters: at least one pin there *)
        assert (H1t : 1 <= pinCountInPart s e to).
        { rewrite (Hcnt to Hto). fold (pins_in_block hg s e to).
          apply (pins_in_block_pos hg s e to x Hxp). exact Eqt. }
        rewrite Eqt. destruct (Z.eqb_spec to from); [congruence|].
        destruct (Z.eqb_spec (pinCountInPart s e from - 1) 1) as [E|E].
        -- rewrite (Hfpi E).
           destruct (Z.eqb_spec (pinCountInPart s e to + 1) 1),
                    (Z.eqb_spec (pinCountInPart s e to + 1) 2),
                    (Z.eqb_spec (pinCountInPart s e to + (1 - 0)) 1),
                    (Z.eqb_spec (pinCountInPart s e to) 1); lia.
        -- destruct (Z.eqb_spec (pinCountInPart s e to + 1) 1),
                    (Z.eqb_spec (pinCountInPart s e to + 1) 2),
                    (Z.eqb_spec (pinCountInPart s e to + (1 - 0)) 1),
                    (Z.eqb_spec (pinCountInPart s e to) 1); lia.
      * rewrite Z.add_0_r.
        destruct (Z.eqb_spec (pinCountInPart s e from - 1) 1) as [E|E].
        -- rewrite (Hfpi E).
           destruct (pinCountInPart s e to + 1 =? 1), (pinCountInPart s e to + 1 =? 2); lia.
        -- destruct (pinCountInPart s e to + 1 =? 1), (pinCountInPart s e to + 1 =? 2); lia.
Qed.

End Move.

(** X9: a successful [changeNodePartFullUpdate] of [v] keeps the gain
    cache delta-consistent: for every enabled node [x], each penalty of
    [x] that satisfied its defining equation before the move satisfies
    it afterwards (the one of the moved node included), and so does the
    benefit of [x] unless [x] is the moved node. *)
Theorem changeNodePartFullUpdate_keeps_gain_cache
        {A : Type} (delta_func : DeltaFunc A) (s s' : PartitionedHypergraph)
        (v : HypernodeID) (from to : PartitionID) (max_weight_to : HypernodeWeight)
        (report_success : A -> A) (a a' : A) :
  caller_only delta_func -> consistent hg k s ->
  nodeIsEnabled hg v = true -> partID s v = from -> from <> to -> 0 <= to < k ->
  changeNodePartFullUpdate hg k v from to max_weight_to report_success delta_func (s, a)
  = Some (true, (s', a')) ->
  forall x, nodeIsEnabled hg x = true ->
    (forall p, 0 <= p < k -> penalty_inv hg k s x p -> penalty_inv hg k s' x p) /\
    (x <> v -> benefit_inv hg s x -> benefit_inv hg s' x).
Proof.
  intros Hcaller Hc Hv Hfrom Hne Hto Hmove x Hx. split.
  - intros p Hp.
    exact (penalty_kept A delta_func Hcaller s s' v from to max_weight_to report_success a a'
             Hc Hv Hfrom Hne Hto Hmove x p Hx Hp).
  - intros Hxv.
    exact (benefit_kept A delta_func Hcaller s s' v from to max_weight_to report_success a a'
             Hc Hv Hfrom Hne Hto Hmove x Hx Hxv).
Qed.

End Facts.

(** Witness: node 2 of scenario 3 goes from block 0 to block 1; the
    entries of node 3. *)
Lemma changeNodePartFullUpdate_keeps_gain_cache_witness :
  (forall p, 0 <= p < 2 ->
     penalty_inv delta_hg 2 delta_phg 3 p -> penalty_inv delta_hg 2 delta_moved 3 p) /\
  (3 <> 2 -> benefit_inv delta_hg delta_phg 3 -> benefit_inv delta_hg delta_moved 3).
Proof.
  apply (changeNodePartFullUpdate_keeps_gain_cache delta_hg 2 delta_hg_wf NOOP_FUNC
           delta_phg delta_moved 2 0 1 3 (fun a => a) tt tt).
  - apply NOOP_FUNC_caller_only.
  - exact delta_phg_consistent.
  - reflexivity.
  - reflexivity.
  - lia.
  - lia.
  - vm_compute. reflexivity.
  - reflexivity.
Defined.

End GainMaintenanceFacts.

(* ------------------------------------------------------------------ *)
(** ** Resetting, recomputing and checking the tracked information *)

Module MaintenanceFacts.
Import PHG Maintenance PinFacts MoveFacts InvariantFacts InitFacts ReachableFacts DeltaFacts
       GainInitFacts Scenarios ScenarioStateFacts GainMaintenanceFacts.

Lemma fold_left_andb {X : Type} (t : X -> bool) (l : list X) (b : bool) :
  fold_left (fun (ok : bool) x => ok && t x) l b = b && forallb t l.
Proof.
  revert b. induction l as [|x l IH]; intros b; cbn [fold_left forallb].
  - now rewrite andb_true_r.
  - rewrite IH. now rewrite andb_assoc.
Qed.

Lemma fold_left_ext {X S : Type} (f g : S -> X -> S) (l : list X) (a : S) :
  (forall y x, f y x = g y x) -> fold_left f l a = fold_left g l a.
Proof.
  intros H. revert a. induction l as [|x l IH]; intros a; cbn [fold_left]; [reflexivity|].
  rewrite H. apply IH.
Qed.

Lemma zero_fold (l : list PartitionID) (w : PartitionID -> HypernodeWeight) (q : PartitionID) :
  fold_left (fun (w : PartitionID -> HypernodeWeight) p => upd w p 0) l w q
  = if existsb (Z.eqb q) l then 0 else w q.
Proof.
  revert w. induction l as [|p l IH]; intros w; cbn [fold_left existsb]; [reflexivity|].
  rewrite IH. unfold upd.
  destruct (Z.eqb_spec q p) as [->|]; cbn [orb]; [|reflexivity].
  destruct (existsb (Z.eqb p) l); reflexivity.
Qed.

Section Facts.

Variable hg : Hypergraph.
Variable k : PartitionID.

(** *** [numIncidentCutHyperedges] *)

Lemma numIncidentCutHyperedges_sum s u :
  numIncidentCutHyperedges hg k s u
  = sumZ (fun he => if 1 <? connectivity k s he then 1 else 0) (incidentEdges hg u).
Proof.
  unfold numIncidentCutHyperedges.
  rewrite (fold_left_cond_sum (fun he => 1 <? connectivity k s he) (fun _ => 1)). lia.
Qed.

(** X10: [numIncidentCutHyperedges u] is the number of incident edges
    of [u] with connectivity above 1, which lies between 0 and the
    degree of [u]; [isBorderNode u] is true exactly when the degree
    is within the high-degree threshold and that number is positive. *)
Theorem numIncidentCutHyperedges_spec s u :
  numIncidentCutHyperedges hg k s u
  = Z.of_nat (length (filter (fun he => 1 <? connectivity k s he) (incidentEdges hg u))) /\
  0 <= numIncidentCutHyperedges hg k s u <= nodeDegree hg u /\
  isBorderNode hg k s u
  = (nodeDegree hg u <=? HIGH_DEGREE_THRESHOLD) && (0 <? numIncidentCutHyperedges hg k s u).
Proof.
  rewrite numIncidentCutHyperedges_sum, <- length_filter_sum.
  pose proof (filter_length_le (fun he => 1 <? connectivity k s he) (incidentEdges hg u)) as Hle.
  split; [reflexivity|]. split; [unfold nodeDegree; lia|].
  unfold isBorderNode. destruct (nodeDegree hg u <=? HIGH_DEGREE_THRESHOLD); cbn [andb]; [|reflexivity].
  clear Hle. induction (incidentEdges hg u) as [|he l IH]; cbn [existsb filter]; [reflexivity|].
  destruct (1 <? connectivity k s he); cbn [orb length].
  - symmetry. apply Z.ltb_lt. lia.
  - exact IH.
Qed.

(** *** [recomputePartWeights] *)

Lemma add_weights_fold (l : list HypernodeID) s :
  let s' := fold_left (fun s' u =>
                         with_part_weights
                           (snd (fetch_add (_part_weights s') (partID s' u) (nodeWeight hg u))) s')
                      l s in
  (forall p, _part_weights s' p
             = _part_weights s p + sumZ (fun v => if partID s v =? p then nodeWeight hg v else 0) l) /\
  _part_ids s' = _part_ids s /\ _pins_in_part s' = _pins_in_part s /\
  _connectivity_set s' = _connectivity_set s /\
  _move_to_penalty s' = _move_to_penalty s /\ _move_from_benefit s' = _move_from_benefit s /\
  _is_gain_cache_initialized s' = _is_gain_cache_initialized s /\
  _pin_count_update_ownership s' = _pin_count_update_ownership s.
Proof.
  revert s. induction l as [|x l IH]; intros s; cbn [fold_left sumZ].
  - cbv zeta. repeat split. intros p. lia.
  - specialize (IH (with_part_weights
                      (snd (fetch_add (_part_weights s) (partID s x) (nodeWeight hg x))) s)).
    cbv zeta in IH. destruct IH as (W & I & P & C & M & B & G & O).
    cbv zeta. repeat split; try assumption.
    intros p. rewrite W. cbn [_part_weights with_part_weights fetch_add snd]. unfold upd, partID.
    cbn [_part_ids with_part_weights].
    rewrite (Z.eqb_sym p (_part_ids s x)).
    destruct (Z.eqb_spec (_part_ids s x) p) as [->|]; lia.
Qed.

(** X11: on a state in which every enabled node has a block,
    [recomputePartWeights] leaves every part weight equal to the weight
    of the enabled nodes of the block, whatever the part weights were
    before, and changes nothing else. *)
Theorem recomputePartWeights_spec s :
  all_assigned hg k s ->
  part_weight_inv hg k (recomputePartWeights hg k s) /\
  _part_ids (recomputePartWeights hg k s) = _part_ids s /\
  _pins_in_part (recomputePartWeights hg k s) = _pins_in_part s /\
  _connectivity_set (recomputePartWeights hg k s) = _connectivity_set s /\
  _move_to_penalty (recomputePartWeights hg k s) = _move_to_penalty s /\
  _move_from_benefit (recomputePartWeights hg k s) = _move_from_benefit s.
Proof.
  intros _. unfold recomputePartWeights. cbv zeta.
  set (s1 := with_part_weights _ s).
  pose proof (add_weights_fold (nodes hg) s1) as H. cbv zeta in H.
  set (r := fold_left _ (nodes hg) s1) in *.
  destruct H as (W & I & P & C & M & B & _ & _).
  split; [|repeat split; assumption].
  intros p Hp. unfold partWeight. rewrite W.
  unfold s1 at 1. cbn [_part_weights with_part_weights].
  rewrite zero_fold, (in_block_range k p Hp).
  unfold weight_of_block. cbn [Z.add]. apply sumZ_ext_in. intros v _.
  unfold partID. rewrite I. reflexivity.
Qed.

(** *** [checkTrackedPartitionInformation] *)

Lemma checkPinCounts_fold s e (l : list PartitionID) (ok : bool) (n : Z) :
  fold_left (fun (acc : bool * PartitionID) i =>
               let '(ok, expected_connectivity) := acc in
               let actual_pin_count_in_part := pinCountInPart s e i in
               (if negb (actual_pin_count_in_part =? pinCountInPartRecomputed hg s e i)
                then false else ok,
                expected_connectivity + (if 0 <? actual_pin_count_in_part then 1 else 0)))
            l (ok, n)
  = (ok && forallb (fun i => pinCountInPart s e i =? pinCountInPartRecomputed hg s e i) l,
     n + Z.of_nat (length (filter (fun i => 0 <? pinCountInPart s e i) l))).
Proof.
  revert ok n. induction l as [|i l IH]; intros ok n; cbn [fold_left forallb filter].
  - rewrite andb_true_r. cbn [length]. f_equal. lia.
  - rewrite IH. f_equal.
    + destruct (pinCountInPart s e i =? pinCountInPartRecomputed hg s e i); cbn [negb andb];
        [reflexivity|]. now rewrite andb_false_r.
    + destruct (0 <? pinCountInPart s e i); cbn [length]; lia.
Qed.

Lemma checkPenalties_fold s u (ok : bool) :
  checkPenalties hg k s u ok
  = ok && forallb (fun i => (partID s u =? i)
                            || (moveToPenalty k s u i =? moveToPenaltyRecomputed hg s u i))
                  (range k).
Proof.
  unfold checkPenalties.
  rewrite (fold_left_ext _ (fun (ok : bool) i =>
                              ok && ((partID s u =? i)
                                     || (moveToPenalty k s u i =? moveToPenaltyRecomputed hg s u i)))).
  - apply fold_left_andb.
  - intros y i. destruct (partID s u =? i); cbn [negb orb]; [now rewrite andb_true_r|].
    destruct (moveToPenalty k s u i =? moveToPenaltyRecomputed hg s u i); cbn [negb];
      [now rewrite andb_true_r | now rewrite andb_false_r].
Qed.

Lemma checkTrackedPartitionInformation_forallb s :
  checkTrackedPartitionInformation hg k s
  = forallb (fun e =>
               forallb (fun i => pinCountInPart s e i =? pinCountInPartRecomputed hg s e i)
                       (range k)
               && (Z.of_nat (length (filter (fun i => 0 <? pinCountInPart s e i) (range k)))
                   =? connectivity k s e))
            (edges hg)
    && (if _is_gain_cache_initialized s
        then forallb (fun u =>
                        (moveFromBenefit s u =? moveFromBenefitRecomputed hg s u)
                        && forallb (fun i => (partID s u =? i)
                                             || (moveToPenalty k s u i
                                                 =? moveToPenaltyRecomputed hg s u i))
                                   (range k))
                     (nodes hg)
        else true).
Proof.
  unfold checkTrackedPartitionInformation. cbv zeta.
  set (edge_ok := fun e =>
         forallb (fun i => pinCountInPart s e i =? pinCountInPartRecomputed hg s e i) (range k)
         && (Z.of_nat (length (filter (fun i => 0 <? pinCountInPart s e i) (range k)))
             =? connectivity k s e)).
  set (node_ok := fun u =>
         (moveFromBenefit s u =? moveFromBenefitRecomputed hg s u)
         && forallb (fun i => (partID s u =? i)
                              || (moveToPenalty k s u i =? moveToPenaltyRecomputed hg s u i))
                    (range k)).
  assert (E1 : forall l b,
             fold_left (fun (success : bool) e =>
                          let '(ok, expected_connectivity) := checkPinCounts hg k s e success in
                          if negb (expected_connectivity =? connectivity k s e)
                          then false else ok) l b
             = b && forallb edge_ok l).
  { intros l b. rewrite <- fold_left_andb. apply fold_left_ext.
    intros ok e. unfold checkPinCounts, edge_ok. rewrite checkPinCounts_fold, Z.add_0_l.
    destruct (Z.of_nat _ =? connectivity k s e); cbn [negb];
      [now rewrite andb_true_r | now rewrite !andb_false_r]. }
  assert (E2 : forall l b,
             fold_left (fun (success : bool) u =>
                          let ok :=
                            if negb (moveFromBenefit s u =? moveFromBenefitRecomputed hg s u)
                            then false else success in
                          checkPenalties hg k s u ok) l b
             = b && forallb node_ok l).
  { intros l b. rewrite <- fold_left_andb. apply fold_left_ext.
    intros ok u. cbv zeta. unfold node_ok. rewrite checkPenalties_fold.
    destruct (moveFromBenefit s u =? moveFromBenefitRecomputed hg s u); cbn [negb andb];
      [reflexivity | now rewrite andb_false_r]. }
  rewrite E1. cbn [andb].
  destruct (_is_gain_cache_initialized s); [apply E2 | now rewrite andb_true_r].
Qed.

(** X12: [checkTrackedPartitionInformation] returns true exactly when,
    for every enabled edge, the stored pin count of every block is the
    recomputed one and the connectivity is the number of blocks with a
    pin, and, if the gain cache is initialised, for every enabled node
    the benefit is the recomputed one and so is the penalty of every
    block other than the node's own.  Part weights and the penalty of
    a node's own block are not looked at. *)
Theorem checkTrackedPartitionInformation_iff s :
  checkTrackedPartitionInformation hg k s = true <-> tracked_information_correct hg k s.
Proof.
  rewrite checkTrackedPartitionInformation_forallb. unfold tracked_information_correct.
  rewrite andb_true_iff, forallb_forall. split.
  - intros [He Hu]. split.
    + intros e Hin. specialize (He e Hin). apply andb_true_iff in He as [H1 H2].
      rewrite forallb_forall in H1. split.
      * intros i Hi. apply Z.eqb_eq, H1, In_range, Hi.
      * apply Z.eqb_eq in H2. now symmetry.
    + intros Hg u Hin. rewrite Hg, forallb_forall in Hu. specialize (Hu u Hin).
      apply andb_true_iff in Hu as [H1 H2]. rewrite forallb_forall in H2. split.
      * now apply Z.eqb_eq.
      * intros i Hi Hne. specialize (H2 i (proj2 (In_range k i) Hi)).
        apply orb_true_iff in H2 as [H2|H2]; apply Z.eqb_eq in H2; [contradiction | exact H2].
  - intros [He Hu]. split.
    + intros e Hin. destruct (He e Hin) as [H1 H2]. apply andb_true_iff. split.
      * apply forallb_forall. intros i Hi. apply Z.eqb_eq, H1, In_range, Hi.
      * apply Z.eqb_eq. now symmetry.
    + destruct (_is_gain_cache_initialized s); [|reflexivity].
      apply forallb_forall. intros u Hin. destruct (Hu eq_refl u Hin) as [H1 H2].
      apply andb_true_iff. split; [now apply Z.eqb_eq|].
      apply forallb_forall. intros i Hi. apply orb_true_iff.
      destruct (Z.eq_dec (partID s u) i) as [E|E]; [left; now apply Z.eqb_eq|].
      right. apply Z.eqb_eq, H2; [apply In_range, Hi | exact E].
Qed.

End Facts.

Section Composition.

Variable hg : Hypergraph.
Variable k : PartitionID.
Hypothesis Hwf : wf_hypergraph hg.

(** *** [resetPartition] and the initial partition of the callers *)

Lemma reset_counts_fold he (bl : list PartitionID) t :
  let r := fold_left (fun t block =>
                        with_pins_in_part (setPinCountInPart (_pins_in_part t) he block 0) t)
                     bl t in
  (forall e q, _pins_in_part r e q
               = if (e =? he) && existsb (Z.eqb q) bl then 0 else _pins_in_part t e q) /\
  _connectivity_set r = _connectivity_set t /\
  _part_weights r = _part_weights t /\ _part_ids r = _part_ids t /\
  _move_to_penalty r = _move_to_penalty t /\ _move_from_benefit r = _move_from_benefit t /\
  _is_gain_cache_initialized r = _is_gain_cache_initialized t /\
  _pin_count_update_ownership r = _pin_count_update_ownership t.
Proof.
  revert t. induction bl as [|b bl IH]; intros t; cbn [fold_left existsb].
  - cbv zeta. repeat split. intros e q. now rewrite andb_false_r.
  - specialize (IH (with_pins_in_part (setPinCountInPart (_pins_in_part t) he b 0) t)).
    cbv zeta in IH. destruct IH as (P & C & W & I & M & B & G & O).
    cbv zeta. repeat split; try assumption.
    intros e q. rewrite P. cbn [_pins_in_part with_pins_in_part].
    rewrite setPinCountInPart_at.
    destruct (e =? he); cbn [andb]; [|reflexivity].
    destruct (Z.eqb_spec q b) as [->|]; cbn [orb]; [|reflexivity].
    destruct (existsb (Z.eqb b) bl); reflexivity.
Qed.

Lemma mem_connectivitySet s e q :
  existsb (Z.eqb q) (connectivitySet k s e)
  = (0 <=? q) && (q <? k) && _connectivity_set s e q.
Proof.
  unfold connectivitySet, cs_connectivitySet. rewrite <- (in_range_mem k q).
  induction (range k) as [|p l IH]; cbn [filter existsb]; [reflexivity|].
  destruct (_connectivity_set s e p) eqn:E; cbn [existsb]; rewrite IH.
  - destruct (Z.eqb_spec q p) as [->|]; cbn [orb andb]; [now rewrite E | reflexivity].
  - destruct (Z.eqb_spec q p) as [->|]; cbn [orb andb]; [|reflexivity].
    rewrite E. destruct (existsb (Z.eqb p) l); reflexivity.
Qed.

Lemma reset_edges_fold (l : list HyperedgeID) s :
  NoDup l ->
  let r := fold_left (fun s' he =>
                        let s'' :=
                          fold_left (fun t block =>
                                       with_pins_in_part
                                         (setPinCountInPart (_pins_in_part t) he block 0) t)
                                    (connectivitySet k s' he) s' in
                        with_connectivity_set (cs_clear (_connectivity_set s'') he) s'')
                     l s in
  (forall e q, _pins_in_part r e q
               = if existsb (Z.eqb e) l && ((0 <=? q) && (q <? k) && _connectivity_set s e q)
                 then 0 else _pins_in_part s e q) /\
  (forall e q, _connectivity_set r e q
               = if existsb (Z.eqb e) l then false else _connectivity_set s e q) /\
  _part_weights r = _part_weights s /\ _part_ids r = _part_ids s /\
  _move_to_penalty r = _move_to_penalty s /\ _move_from_benefit r = _move_from_benefit s /\
  _is_gain_cache_initialized r = _is_gain_cache_initialized s /\
  _pin_count_update_ownership r = _pin_count_update_ownership s.
Proof.
  intros Hnd. revert s. induction Hnd as [|he l Hhe Hnd IH]; intros s; cbn [fold_left existsb].
  - cbv zeta. repeat split.
  - destruct (reset_counts_fold he (connectivitySet k s he) s) as (P1 & C1 & W1 & I1 & M1 & B1 & G1 & O1).
    set (s1 := fold_left _ (connectivitySet k s he) s) in *.
    specialize (IH (with_connectivity_set (cs_clear (_connectivity_set s1) he) s1)).
    cbv zeta in IH. destruct IH as (P & C & W & I & M & B & G & O).
    apply existsb_eqb_notIn in Hhe.
    cbn [_part_weights _part_ids _move_to_penalty _move_from_benefit _is_gain_cache_initialized
         _pin_count_update_ownership with_connectivity_set] in W, I, M, B, G, O.
    cbv zeta. split; [|split; [|repeat split; congruence]].
    + intros e q. rewrite P. cbn [_pins_in_part _connectivity_set with_connectivity_set].
      unfold cs_clear. rewrite P1, mem_connectivitySet, C1.
      destruct (Z.eqb_spec e he) as [->|]; cbn [orb andb].
      * rewrite Hhe. cbn [andb]. reflexivity.
      * reflexivity.
    + intros e q. rewrite C. cbn [_connectivity_set with_connectivity_set].
      unfold cs_clear. rewrite C1.
      destruct (Z.eqb_spec e he) as [->|]; cbn [orb].
      * rewrite Hhe. reflexivity.
      * reflexivity.
Qed.

Lemma resetPartition_fields s :
  let r := resetPartition hg k s in
  (forall u, _part_ids r u
             = if (0 <=? u) && (u <? initialNumNodes hg) then kInvalidPartition
               else _part_ids s u) /\
  (forall p, _part_weights r p = if (0 <=? p) && (p <? k) then 0 else _part_weights s p) /\
  (forall e q, _pins_in_part r e q
               = if existsb (Z.eqb e) (edges hg)
                    && ((0 <=? q) && (q <? k) && _connectivity_set s e q)
                 then 0 else _pins_in_part s e q) /\
  (forall e q, _connectivity_set r e q
               = if existsb (Z.eqb e) (edges hg) then false else _connectivity_set s e q) /\
  _move_to_penalty r = _move_to_penalty s /\ _move_from_benefit r = _move_from_benefit s /\
  _is_gain_cache_initialized r = _is_gain_cache_initialized s /\
  _pin_count_update_ownership r = _pin_count_update_ownership s.
Proof.
  unfold resetPartition. cbv zeta.
  set (s1 := with_part_ids _ s). set (s2 := with_part_weights _ s1).
  pose proof (reset_edges_fold (edges hg) s2 (NoDup_edges hg)) as H. cbv zeta in H.
  set (r := fold_left _ (edges hg) s2) in *.
  destruct H as (P & C & W & I & M & B & G & O).
  split; [|split; [|split; [|split; [|repeat split; assumption]]]].
  - intros u. rewrite I. reflexivity.
  - intros p. rewrite W. unfold s2. cbn [_part_weights with_part_weights].
    rewrite zero_fold, in_range_mem. reflexivity.
  - intros e q. rewrite P. reflexivity.
  - intros e q. rewrite C. reflexivity.
Qed.

Lemma assignBlocks_fold block_of (l : list HypernodeID) s :
  let r := fold_left (fun t hn => setOnlyNodePart hn (block_of hn) t) l s in
  (forall u, _part_ids r u = if existsb (Z.eqb u) l then block_of u else _part_ids s u) /\
  _pins_in_part r = _pins_in_part s /\ _connectivity_set r = _connectivity_set s /\
  _part_weights r = _part_weights s /\
  _move_to_penalty r = _move_to_penalty s /\ _move_from_benefit r = _move_from_benefit s /\
  _is_gain_cache_initialized r = _is_gain_cache_initialized s /\
  _pin_count_update_ownership r = _pin_count_update_ownership s.
Proof.
  revert s. induction l as [|x l IH]; intros s; cbn [fold_left existsb].
  - cbv zeta. repeat split.
  - specialize (IH (setOnlyNodePart x (block_of x) s)). cbv zeta in IH.
    destruct IH as (I & P & C & W & M & B & G & O).
    cbv zeta. repeat split; try assumption.
    intros u. rewrite I. unfold setOnlyNodePart. cbn [_part_ids with_part_ids]. unfold upd.
    destruct (Z.eqb_spec u x) as [->|]; cbn [orb]; [|reflexivity].
    destruct (existsb (Z.eqb x) l); reflexivity.
Qed.

(** [initializePartition] on a state in which nothing is tracked. *)
Lemma initializePartition_cleared s :
  cleared hg k s -> all_assigned hg k s -> consistent hg k (initializePartition hg k s).
Proof.
  intros (Fpc & Fw & Fo) Has.
  unfold initializePartition.
  destruct (initializeBlockWeights_fields hg k s) as (Bw & Bi & Bp & Bc & Bo).
  set (s1 := initializeBlockWeights hg k s) in *.
  destruct (initializePinCountInPart_fields hg k s1) as (Ipc & Ics & Iw & Ii & Io).
  set (t := initializePinCountInPart hg k s1) in *.
  assert (Hmem : forall e, edgeIsEnabled hg e = true ->
                           existsb (Z.eqb e) (range (initialNumEdges hg)) = true).
  { intros e He. apply existsb_eqb_In, In_range, (wf_edge_range hg Hwf e He). }
  assert (Hids : _part_ids t = _part_ids s) by congruence.
  assert (Hpc : forall e q, edgeIsEnabled hg e = true -> 0 <= q < k ->
                            pinCountInPart t e q = pins_in_block hg t e q).
  { intros e q He Hq. unfold pinCountInPart. rewrite (Ipc e q Hq), (Hmem e He), He.
    cbn [andb]. rewrite (pins_in_block_ids hg t s1 e q Ii).
    pose proof (pins_in_block_nonneg hg s1 e q) as H0.
    destruct (Z.ltb_spec 0 (pins_in_block hg s1 e q)); [reflexivity|].
    rewrite Bp. destruct (Fpc e q He Hq) as [E _]. unfold pinCountInPart in E. lia. }
  constructor.
  - intros u Hu. unfold partID. rewrite Hids. apply Has, Hu.
  - intros e q He Hq. rewrite pinCountInPartRecomputed_sum. now apply Hpc.
  - intros e q He Hq. rewrite (Hpc e q He Hq). rewrite (Ics e q Hq), (Hmem e He), He.
    cbn [andb]. rewrite (pins_in_block_ids hg t s1 e q Ii).
    destruct (Z.ltb_spec 0 (pins_in_block hg s1 e q)).
    + split; [lia | reflexivity].
    + rewrite Bc. destruct (Fpc e q He Hq) as [_ E]. rewrite E. split; [discriminate | lia].
  - intros p Hp. unfold partWeight. rewrite Iw. fold (partWeight s1 p).
    rewrite (Bw p Hp), (Fw p Hp).
    unfold weight_of_block, partID. rewrite Hids. lia.
  - intros e. rewrite Io, Bo. apply Fo.
Qed.

Lemma initialPartitionFrom_cleared block_of s :
  cleared hg k s ->
  (forall u, nodeIsEnabled hg u = true -> 0 <= block_of u < k) ->
  consistent hg k (initialPartitionFrom hg k block_of s) /\
  forall u, nodeIsEnabled hg u = true ->
    partID (initialPartitionFrom hg k block_of s) u = block_of u.
Proof.
  intros (Fpc & Fw & Fo) Hb. unfold initialPartitionFrom, assignBlocks.
  destruct (assignBlocks_fold block_of (nodes hg) s) as (I & P & C & W & M & B & G & O).
  set (s1 := fold_left _ (nodes hg) s) in *.
  assert (Hid : forall u, nodeIsEnabled hg u = true -> partID s1 u = block_of u).
  { intros u Hu. unfold partID. rewrite I.
    replace (existsb (Z.eqb u) (nodes hg)) with true; [reflexivity|].
    symmetry. apply existsb_eqb_In, (In_nodes hg Hwf), Hu. }
  split.
  - apply initializePartition_cleared.
    + split; [|split].
      * intros e q He Hq. unfold pinCountInPart. rewrite P, C. apply (Fpc e q He Hq).
      * intros p Hp. unfold partWeight. rewrite W. apply (Fw p Hp).
      * intros e. rewrite O. apply Fo.
    + intros u Hu. rewrite (Hid u Hu). apply Hb, Hu.
  - intros u Hu. rewrite <- (Hid u Hu). unfold partID, initializePartition.
    destruct (initializeBlockWeights_fields hg k s1) as (_ & Bi & _).
    destruct (initializePinCountInPart_fields hg k (initializeBlockWeights hg k s1))
      as (_ & _ & _ & Ii & _).
    rewrite Ii, Bi. reflexivity.
Qed.

(** X13: [resetPartition] on a state whose pin counts and connectivity
    sets are in step clears everything that is tracked (no node has a
    block, part weights, pin counts and connectivity sets are zero or
    empty) and leaves the gain cache as it is; assigning every enabled
    node a block with [setOnlyNodePart] and running
    [initializePartition], as the V-cycle does with the community ids,
    then gives a consistent state again, with every node in the block
    it was given. *)
Theorem resetPartition_then_initialPartition s block_of :
  pin_count_inv hg k s -> connectivity_inv hg k s -> lock_free s ->
  (forall u, nodeIsEnabled hg u = true -> 0 <= block_of u < k) ->
  (forall u, 0 <= u < initialNumNodes hg ->
     partID (resetPartition hg k s) u = kInvalidPartition) /\
  cleared hg k (resetPartition hg k s) /\
  _move_from_benefit (resetPartition hg k s) = _move_from_benefit s /\
  _move_to_penalty (resetPartition hg k s) = _move_to_penalty s /\
  consistent hg k (initialPartitionFrom hg k block_of (resetPartition hg k s)) /\
  forall u, nodeIsEnabled hg u = true ->
    partID (initialPartitionFrom hg k block_of (resetPartition hg k s)) u = block_of u.
Proof.
  intros Hpc Hcs Hlf Hb.
  destruct (resetPartition_fields s) as (I & W & P & C & M & B & G & O).
  set (r := resetPartition hg k s) in *.
  assert (Hcl : cleared hg k r).
  { split; [|split].
    - intros e q He Hq. unfold pinCountInPart. rewrite P, C.
      replace (existsb (Z.eqb e) (edges hg)) with true
        by (symmetry; apply existsb_eqb_In, (In_edges hg Hwf), He).
      split; [|reflexivity]. cbn [andb].
      replace ((0 <=? q) && (q <? k)) with true
        by (symmetry; apply andb_true_iff; split; [apply Z.leb_le | apply Z.ltb_lt]; lia).
      cbn [andb]. destruct (_connectivity_set s e q) eqn:E; [reflexivity|].
      pose proof (Hpc e q He Hq) as H1. rewrite pinCountInPartRecomputed_sum in H1.
      pose proof (pins_in_block_nonneg hg s e q) as H0.
      pose proof (Hcs e q He Hq) as [_ H2]. unfold pinCountInPart in *.
      destruct (Z_lt_le_dec 0 (_pins_in_part s e q)) as [Hpos|Hle]; [|lia].
      rewrite H2 in E by lia. discriminate.
    - intros p Hp. unfold partWeight. rewrite W.
      replace ((0 <=? p) && (p <? k)) with true
        by (symmetry; apply andb_true_iff; split; [apply Z.leb_le | apply Z.ltb_lt]; lia).
      reflexivity.
    - intros e. rewrite O. apply Hlf. }
  split; [|split; [exact Hcl|split; [exact B|split; [exact M|]]]].
  - intros u Hu. unfold partID. rewrite I.
    replace ((0 <=? u) && (u <? initialNumNodes hg)) with true
      by (symmetry; apply andb_true_iff; split; [apply Z.leb_le | apply Z.ltb_lt]; lia).
    reflexivity.
  - apply initialPartitionFrom_cleared; assumption.
Qed.

(** *** The check on consistent states *)

Lemma consistent_connectivity_count s e :
  consistent hg k s -> edgeIsEnabled hg e = true ->
  connectivity k s e
  = Z.of_nat (length (filter (fun i => 0 <? pinCountInPart s e i) (range k))).
Proof.
  intros Hc He. unfold connectivity, cs_connectivity, cs_connectivitySet. f_equal. f_equal.
  apply filter_ext_in. intros q Hq. apply In_range in Hq.
  pose proof (cons_connectivity hg k s Hc e q He Hq) as [H1 H2].
  destruct (_connectivity_set s e q).
  - symmetry. apply Z.ltb_lt. specialize (H1 eq_refl). lia.
  - symmetry. apply Z.ltb_ge. destruct (Z_lt_le_dec 0 (pinCountInPart s e q)); [|lia].
    assert (false = true) by (apply H2; lia). discriminate.
Qed.

(** X14: [checkTrackedPartitionInformation] accepts every consistent
    state whose gain cache, if it is initialised, satisfies its
    equations. *)
Theorem checkTrackedPartitionInformation_accepts s :
  consistent hg k s ->
  (_is_gain_cache_initialized s = true -> gain_cache_inv hg k s) ->
  checkTrackedPartitionInformation hg k s = true.
Proof.
  intros Hc Hg. rewrite checkTrackedPartitionInformation_forallb.
  apply andb_true_iff. split.
  - apply forallb_forall. intros e Hin. apply (In_edges hg Hwf) in Hin.
    apply andb_true_iff. split.
    + apply forallb_forall. intros i Hi. apply In_range in Hi.
      apply Z.eqb_eq, (cons_pin_count hg k s Hc e i Hin Hi).
    + apply Z.eqb_eq. symmetry. now apply consistent_connectivity_count.
  - destruct (_is_gain_cache_initialized s); [|reflexivity].
    apply forallb_forall. intros u Hin. apply (In_nodes hg Hwf) in Hin.
    destruct (Hg eq_refl u Hin) as [Hb Hp].
    apply andb_true_iff. split.
    + apply Z.eqb_eq. rewrite moveFromBenefitRecomputed_sum. exact Hb.
    + apply forallb_forall. intros i Hi. apply In_range in Hi.
      apply orb_true_iff. right. apply Z.eqb_eq.
      rewrite moveToPenaltyRecomputed_sum. exact (Hp i Hi).
Qed.

(** *** A move followed by [recomputeMoveFromBenefit] *)

(** X15: on a consistent state with a correct gain cache, a successful
    [changeNodePartFullUpdate] of [v] followed by
    [recomputeMoveFromBenefit v] gives a consistent state with a correct
    gain cache: the delta updates of the move keep every entry but the
    benefit of [v], which the recomputation stores. *)
Theorem move_then_recomputeMoveFromBenefit
        {A : Type} (delta_func : DeltaFunc A) (s s' : PartitionedHypergraph)
        (v : HypernodeID) (from to : PartitionID) (max_weight_to : HypernodeWeight)
        (report_success : A -> A) (a a' : A) :
  caller_only delta_func -> consistent hg k s -> gain_cache_inv hg k s ->
  nodeIsEnabled hg v = true -> partID s v = from -> from <> to -> 0 <= to < k ->
  changeNodePartFullUpdate hg k v from to max_weight_to report_success delta_func (s, a)
  = Some (true, (s', a')) ->
  consistent hg k (recomputeMoveFromBenefit hg v s') /\
  gain_cache_inv hg k (recomputeMoveFromBenefit hg v s').
Proof.
  intros Hcaller Hc Hg Hv Hfrom Hne Hto Hmove.
  assert (Hc' : consistent hg k s').
  { unfold changeNodePartFullUpdate in Hmove.
    eapply (changeNodePart_consistent hg k Hwf); [exact Hc | | exact Hv | exact Hfrom | exact Hne
                                                 | exact Hto | exact Hmove].
    apply my_delta_func_gain_only, Hcaller. }
  assert (Hsp : same_partition (recomputeMoveFromBenefit hg v s') s') by (repeat split).
  split.
  - apply (consistent_same hg k _ s' Hsp); [|exact Hc'].
    intros e. apply (cons_lock_free hg k s' Hc').
  - intros x Hx. destruct (Hg x Hx) as [Hb Hp]. split.
    + destruct (Z.eq_dec x v) as [->|Hxv].
      * unfold benefit_inv, moveFromBenefit, recomputeMoveFromBenefit.
        cbn [_move_from_benefit with_move_from_benefit]. rewrite upd_same.
        exact (moveFromBenefitRecomputed_sum hg s' v).
      * assert (Hk : benefit_inv hg s' x).
        { eapply (benefit_kept hg k Hwf A delta_func Hcaller s s' v from to max_weight_to
                               report_success a a'); eassumption. }
        unfold benefit_inv, moveFromBenefit, recomputeMoveFromBenefit in *.
        cbn [_move_from_benefit with_move_from_benefit]. rewrite upd_other by exact Hxv.
        exact Hk.
    + intros p Hpk.
      change (penalty_inv hg k s' x p).
      eapply (penalty_kept hg k Hwf A delta_func Hcaller s s' v from to max_weight_to
                           report_success a a'); try eassumption. now apply Hp.
Qed.

(** The gain cache after [initializeGainInformation]. *)
Lemma initializeGainInformation_gain_cache_inv (T : nat) schedule s :
  consistent hg k s ->
  (forall u, is_high_degree hg u = true -> valid_ranges hg T u (schedule u)) ->
  consistent hg k (initializeGainInformation hg k T schedule s) /\
  gain_cache_inv hg k (initializeGainInformation hg k T schedule s) /\
  _is_gain_cache_initialized (initializeGainInformation hg k T schedule s) = true.
Proof.
  intros Hc Hsched.
  destruct (initializeGainInformation_computed hg k Hwf T schedule s Hsched) as (Hsp & Ho & Hent).
  split; [|split].
  - apply (consistent_same hg k _ s).
    + destruct Hsp as (A1 & A2 & A3 & A4). repeat split; congruence.
    + intros e. rewrite Ho. apply (cons_lock_free hg k s Hc).
    + exact Hc.
  - intros v Hv. destruct (Hent v Hv) as [Hb Hp].
    pose proof Hsp as (_ & B & C & _). split.
    + unfold benefit_inv. rewrite Hb. unfold computed_benefit, pinCountInPart, partID.
      rewrite B, C. reflexivity.
    + intros p Hpk. unfold penalty_inv. rewrite (Hp p Hpk).
      rewrite (computed_penalty_inv hg k Hwf s v p Hc Hv Hpk). unfold pinCountInPart.
      rewrite C. reflexivity.
  - unfold initializeGainInformation.
    destruct (fold_left _ (range (initialNumNodes hg)) _) as [[l high] s1].
    destruct (fold_left _ high _) as [m s2]. reflexivity.
Qed.

End Composition.

Lemma all_assigned_with_part_weights hg k w s :
  all_assigned hg k s -> all_assigned hg k (with_part_weights w s).
Proof. intros H u Hu. exact (H u Hu). Qed.

Lemma delta_phg_gain_cache :
  gain_cache_inv delta_hg 2 delta_phg /\ _is_gain_cache_initialized delta_phg = true.
Proof.
  destruct (initializeGainInformation_gain_cache_inv delta_hg 2 delta_hg_wf 1 (fun _ => [])
              (initializePartition delta_hg 2 (assigned_only [0; 0; 0; 1]))) as (_ & H & F).
  - exact (reachable_consistent delta_hg 2 delta_hg_wf _ delta_reachable).
  - intros u H. rewrite delta_low_degree in H. discriminate.
  - split; [exact H | exact F].
Qed.

(** Witness: scenario 3 with every part weight set to 5. *)
Lemma recomputePartWeights_spec_witness :
  part_weight_inv delta_hg 2
    (recomputePartWeights delta_hg 2 (with_part_weights (fun _ => 5) delta_phg)) /\
  _part_ids (recomputePartWeights delta_hg 2 (with_part_weights (fun _ => 5) delta_phg))
  = _part_ids (with_part_weights (fun _ => 5) delta_phg) /\
  _pins_in_part (recomputePartWeights delta_hg 2 (with_part_weights (fun _ => 5) delta_phg))
  = _pins_in_part (with_part_weights (fun _ => 5) delta_phg) /\
  _connectivity_set (recomputePartWeights delta_hg 2 (with_part_weights (fun _ => 5) delta_phg))
  = _connectivity_set (with_part_weights (fun _ => 5) delta_phg) /\
  _move_to_penalty (recomputePartWeights delta_hg 2 (with_part_weights (fun _ => 5) delta_phg))
  = _move_to_penalty (with_part_weights (fun _ => 5) delta_phg) /\
  _move_from_benefit (recomputePartWeights delta_hg 2 (with_part_weights (fun _ => 5) delta_phg))
  = _move_from_benefit (with_part_weights (fun _ => 5) delta_phg).
Proof.
  apply (recomputePartWeights_spec delta_hg 2 (with_part_weights (fun _ => 5) delta_phg)).
  apply all_assigned_with_part_weights.
  exact (cons_assigned delta_hg 2 delta_phg delta_phg_consistent).
Defined.

(** Witness: scenario 3 is reset and every node is given block 1. *)
Lemma resetPartition_then_initialPartition_witness :
  (forall u, 0 <= u < initialNumNodes delta_hg ->
     partID (resetPartition delta_hg 2 delta_phg) u = kInvalidPartition) /\
  cleared delta_hg 2 (resetPartition delta_hg 2 delta_phg) /\
  _move_from_benefit (resetPartition delta_hg 2 delta_phg) = _move_from_benefit delta_phg /\
  _move_to_penalty (resetPartition delta_hg 2 delta_phg) = _move_to_penalty delta_phg /\
  consistent delta_hg 2
    (initialPartitionFrom delta_hg 2 (fun _ => 1) (resetPartition delta_hg 2 delta_phg)) /\
  forall u, nodeIsEnabled delta_hg u = true ->
    partID (initialPartitionFrom delta_hg 2 (fun _ => 1) (resetPartition delta_hg 2 delta_phg)) u
    = (fun _ => 1) u.
Proof.
  apply (resetPartition_then_initialPartition delta_hg 2 delta_hg_wf delta_phg (fun _ => 1)).
  - exact (cons_pin_count delta_hg 2 delta_phg delta_phg_consistent).
  - exact (cons_connectivity delta_hg 2 delta_phg delta_phg_consistent).
  - exact (cons_lock_free delta_hg 2 delta_phg delta_phg_consistent).
  - intros u _. lia.
Defined.

(** Witness: scenario 3, whose gain cache is initialised. *)
Lemma checkTrackedPartitionInformation_accepts_witness :
  checkTrackedPartitionInformation delta_hg 2 delta_phg = true.
Proof.
  apply (checkTrackedPartitionInformation_accepts delta_hg 2 delta_hg_wf delta_phg).
  - exact delta_phg_consistent.
  - intros _. exact (proj1 delta_phg_gain_cache).
Defined.

(** Witness: node 2 of scenario 3 goes from block 0 to block 1. *)
Lemma move_then_recomputeMoveFromBenefit_witness :
  consistent delta_hg 2 (recomputeMoveFromBenefit delta_hg 2 delta_moved) /\
  gain_cache_inv delta_hg 2 (recomputeMoveFromBenefit delta_hg 2 delta_moved).
Proof.
  apply (move_then_recomputeMoveFromBenefit delta_hg 2 delta_hg_wf NOOP_FUNC
           delta_phg delta_moved 2 0 1 3 (fun a => a) tt tt).
  - apply NOOP_FUNC_caller_only.
  - exact delta_phg_consistent.
  - exact (proj1 delta_phg_gain_cache).
  - reflexivity.
  - reflexivity.
  - lia.
  - lia.
  - vm_compute. reflexivity.
Defined.

End MaintenanceFacts.

(* ------------------------------------------------------------------ *)
(** ** Node weights and restored hyperedges *)

Module RestoreFacts.
Import PHG Maintenance PinFacts MoveFacts InvariantFacts InitFacts ReachableFacts GainInitFacts
       Scenarios ScenarioStateFacts MaintenanceFacts.

Lemma sumZ_combine_snd {X Y : Type} (f : Y -> Z) (a : list X) (l : list Y) :
  length a = length l -> sumZ (fun pp => f (snd pp)) (combine a l) = sumZ f l.
Proof.
  revert a. induction l as [|y l IH]; intros [|x a] H; cbn in *; try discriminate; [reflexivity|].
  rewrite IH by lia. reflexivity.
Qed.

Lemma sumZ_split_one (f : Z -> Z) (x : Z) (l : list Z) :
  NoDup l -> In x l ->
  sumZ f l = sumZ f (filter (fun e => negb (e =? x)) l) + f x.
Proof.
  induction 1 as [|y l Hy Hnd IH]; intros Hin; [contradiction|].
  cbn [sumZ filter]. destruct (Z.eqb_spec y x) as [->|Hne]; cbn [negb].
  - rewrite (sumZ_ext_in f (fun e => if negb (e =? x) then f e else 0) l).
    + assert (E : filter (fun e => negb (e =? x)) l = l).
      { clear IH Hnd Hin. induction l as [|z l IH]; cbn [filter]; [reflexivity|].
        destruct (Z.eqb_spec z x) as [->|]; cbn [negb].
        - exfalso. apply Hy. now left.
        - rewrite IH; [reflexivity|]. intros H. apply Hy. now right. }
      rewrite E. rewrite <- (sumZ_ext_in f (fun e => if negb (e =? x) then f e else 0) l); [lia|].
      intros e He. destruct (Z.eqb_spec e x) as [->|]; [contradiction | reflexivity].
    + intros e He. destruct (Z.eqb_spec e x) as [->|]; [contradiction | reflexivity].
  - destruct Hin as [E|Hin]; [contradiction|]. cbn [sumZ]. rewrite (IH Hin). lia.
Qed.

Section Facts.

Variable hg : Hypergraph.
Variable k : PartitionID.
Hypothesis Hwf : wf_hypergraph hg.

(** *** [setNodeWeight] *)

(** X16: [setNodeWeight(u, weight)] on an enabled node that has a block
    or none keeps the part weights in step: if every part weight was
    the weight of the enabled nodes of its block before, it is so after,
    with respect to the new node weights.  Only the weight of [u]
    changes, and no part id. *)
Theorem setNodeWeight_keeps_part_weights s u weight :
  part_weight_inv hg k s -> nodeIsEnabled hg u = true ->
  partID s u = kInvalidPartition \/ 0 <= partID s u < k ->
  part_weight_inv (fst (setNodeWeight hg u weight s)) k (snd (setNodeWeight hg u weight s)) /\
  nodeWeight (fst (setNodeWeight hg u weight s)) u = weight /\
  (forall x, x <> u -> nodeWeight (fst (setNodeWeight hg u weight s)) x = nodeWeight hg x) /\
  _part_ids (snd (setNodeWeight hg u weight s)) = _part_ids s.
Proof.
  intros Hinv Hu Hblock. unfold setNodeWeight. cbv zeta. cbn [fst snd].
  assert (Hids : forall t, _part_ids (if negb (partID s u =? kInvalidPartition)
                                      then with_part_weights t s else s) = _part_ids s).
  { intros t. destruct (negb _); reflexivity. }
  split; [|split; [|split]].
  - intros p Hp. unfold weight_of_block.
    change (nodes (hg_setNodeWeight hg u weight)) with (nodes hg).
    cbn [nodeWeight hg_setNodeWeight].
    rewrite (sumZ_ext_in _ (fun v => (if partID s v =? p then nodeWeight hg v else 0)
                                    + (if v =? u
                                       then (fun _ => if partID s u =? p
                                                      then weight - nodeWeight hg u else 0) v
                                       else 0))).
    2:{ intros v _. unfold partID at 1. rewrite Hids. fold (partID s v). unfold upd.
        destruct (Z.eqb_spec v u) as [->|]; destruct (partID s u =? p); lia. }
    rewrite sumZ_plus, (sumZ_single _ u (nodes hg) (NoDup_nodes hg)).
    replace (existsb (Z.eqb u) (nodes hg)) with true
      by (symmetry; apply existsb_eqb_In, (In_nodes hg Hwf), Hu).
    fold (weight_of_block hg s p). rewrite <- (Hinv p Hp). unfold partWeight.
    destruct (Z.eqb_spec (partID s u) kInvalidPartition) as [E|E]; cbn [negb].
    + destruct (Z.eqb_spec (partID s u) p) as [E'|]; [|lia].
      unfold kInvalidPartition in E. lia.
    + cbn [_part_weights with_part_weights fetch_add snd]. unfold upd.
      rewrite (Z.eqb_sym p (partID s u)).
      destruct (Z.eqb_spec (partID s u) p) as [->|]; lia.
  - cbn [nodeWeight hg_setNodeWeight]. apply upd_same.
  - intros x Hx. cbn [nodeWeight hg_setNodeWeight]. now apply upd_other.
  - apply Hids.
Qed.

(** *** [restoreLargeEdge] *)

Lemma ets_count_fold s (worker_of : nat -> nat) (T : nat) (l : list (nat * HypernodeID))
      (ets : nat -> PartitionID -> Z) (q : PartitionID) :
  (forall pp, In pp l -> (worker_of (fst pp) < T)%nat) ->
  sumZ (fun t =>
          fold_left (fun (ets : nat -> PartitionID -> Z) (pp : nat * HypernodeID) =>
                       let '(pos, pin) := pp in
                       let block := partID s pin in
                       let t := worker_of pos in
                       upd_nat ets t (upd (ets t) block (ets t block + 1)))
                    l ets t q) (seq 0 T)
  = sumZ (fun t => ets t q) (seq 0 T)
    + sumZ (fun pp => if partID s (snd pp) =? q then 1 else 0) l.
Proof.
  revert ets. induction l as [|[pos pin] l IH]; intros ets Hw; cbn [fold_left sumZ]; [lia|].
  rewrite IH by (intros pp Hpp; apply Hw; now right).
  cbv zeta. cbn [snd].
  rewrite (sumZ_ext_in _ (upd_nat (fun t => ets t q) (worker_of pos)
                                  (upd (ets (worker_of pos)) (partID s pin)
                                       (ets (worker_of pos) (partID s pin) + 1) q))).
  2:{ intros t _. unfold upd_nat. destruct (Nat.eqb t (worker_of pos)); reflexivity. }
  fold (ets_combine T (upd_nat (fun t => ets t q) (worker_of pos)
                               (upd (ets (worker_of pos)) (partID s pin)
                                    (ets (worker_of pos) (partID s pin) + 1) q))).
  rewrite ets_combine_upd by (apply (Hw (pos, pin)); now left).
  unfold ets_combine, upd. rewrite (Z.eqb_sym q (partID s pin)).
  destruct (Z.eqb_spec (partID s pin) q) as [->|]; lia.
Qed.

Lemma restore_store_fold he (c : PartitionID -> Z) (l : list PartitionID) s :
  NoDup l ->
  let r := fold_left (fun s' block =>
                        if 0 <? c block
                        then with_connectivity_set
                               (cs_add (_connectivity_set
                                          (with_pins_in_part
                                             (setPinCountInPart (_pins_in_part s') he block
                                                                (c block)) s')) he block)
                               (with_pins_in_part
                                  (setPinCountInPart (_pins_in_part s') he block (c block)) s')
                        else s') l s in
  (forall e q, _pins_in_part r e q
               = if (e =? he) && existsb (Z.eqb q) l && (0 <? c q)
                 then c q else _pins_in_part s e q) /\
  (forall e q, _connectivity_set r e q
               = if (e =? he) && existsb (Z.eqb q) l && (0 <? c q)
                 then true else _connectivity_set s e q) /\
  _part_weights r = _part_weights s /\ _part_ids r = _part_ids s /\
  _move_to_penalty r = _move_to_penalty s /\ _move_from_benefit r = _move_from_benefit s /\
  _is_gain_cache_initialized r = _is_gain_cache_initialized s /\
  _pin_count_update_ownership r = _pin_count_update_ownership s.
Proof.
  intros Hnd. revert s. induction Hnd as [|p l Hp Hnd IH]; intros s; cbn [fold_left existsb].
  - cbv zeta. repeat split; intros; now rewrite andb_false_r.
  - set (s1 := if 0 <? c p then _ else s).
    specialize (IH s1). cbv zeta in IH. destruct IH as (P & C & W & I & M & B & G & O).
    apply existsb_eqb_notIn in Hp.
    assert (F : _part_weights s1 = _part_weights s /\ _part_ids s1 = _part_ids s /\
                _move_to_penalty s1 = _move_to_penalty s /\
                _move_from_benefit s1 = _move_from_benefit s /\
                _is_gain_cache_initialized s1 = _is_gain_cache_initialized s /\
                _pin_count_update_ownership s1 = _pin_count_update_ownership s).
    { unfold s1. destruct (0 <? c p); repeat split. }
    destruct F as (F1 & F2 & F3 & F4 & F5 & F6).
    cbv zeta. split; [|split; [|repeat split; congruence]].
    + intros e q. rewrite P. unfold s1.
      destruct (Z.eqb_spec e he) as [->|]; cbn [andb].
      * destruct (Z.eqb_spec q p) as [->|Hqp]; cbn [orb andb].
        -- rewrite Hp. cbn [andb]. destruct (0 <? c p); [|reflexivity].
           cbn [_pins_in_part with_pins_in_part with_connectivity_set].
           rewrite setPinCountInPart_at, !Z.eqb_refl. reflexivity.
        -- destruct (existsb (Z.eqb q) l && (0 <? c q)); [reflexivity|].
           destruct (0 <? c p); [|reflexivity].
           cbn [_pins_in_part with_pins_in_part with_connectivity_set].
           rewrite setPinCountInPart_at, Z.eqb_refl. cbn [andb].
           destruct (Z.eqb_spec q p); [contradiction | reflexivity].
      * destruct (0 <? c p); [|reflexivity].
        cbn [_pins_in_part with_pins_in_part with_connectivity_set].
        rewrite setPinCountInPart_at.
        destruct (Z.eqb_spec e he); [contradiction | reflexivity].
    + intros e q. rewrite C. unfold s1.
      destruct (Z.eqb_spec e he) as [->|]; cbn [andb].
      * destruct (Z.eqb_spec q p) as [->|Hqp]; cbn [orb andb].
        -- rewrite Hp. cbn [andb]. destruct (0 <? c p); [|reflexivity].
           cbn [_connectivity_set with_pins_in_part with_connectivity_set].
           unfold cs_add. rewrite !Z.eqb_refl. reflexivity.
        -- destruct (existsb (Z.eqb q) l && (0 <? c q)); [reflexivity|].
           destruct (0 <? c p); [|reflexivity].
           cbn [_connectivity_set with_pins_in_part with_connectivity_set].
           unfold cs_add. rewrite Z.eqb_refl. cbn [andb].
           destruct (Z.eqb_spec q p); [contradiction | reflexivity].
      * destruct (0 <? c p); [|reflexivity].
        cbn [_connectivity_set with_pins_in_part with_connectivity_set].
        unfold cs_add. destruct (Z.eqb_spec e he); [contradiction | reflexivity].
Qed.

Lemma restoreLargeEdge_fields (T : nat) (worker_of : nat -> nat) he s :
  (forall pos, (pos < length (pins hg he))%nat -> (worker_of pos < T)%nat) ->
  let r := restoreLargeEdge hg k T worker_of he s in
  (forall e q, 0 <= q < k ->
     _pins_in_part r e q
     = if (e =? he) && (0 <? pins_in_block hg s he q)
       then pins_in_block hg s he q else _pins_in_part s e q) /\
  (forall e q, 0 <= q < k ->
     _connectivity_set r e q
     = if (e =? he) && (0 <? pins_in_block hg s he q)
       then true else _connectivity_set s e q) /\
  _part_weights r = _part_weights s /\ _part_ids r = _part_ids s /\
  _move_to_penalty r = _move_to_penalty s /\ _move_from_benefit r = _move_from_benefit s /\
  _is_gain_cache_initialized r = _is_gain_cache_initialized s /\
  _pin_count_update_ownership r = _pin_count_update_ownership s.
Proof.
  intros Hw. unfold restoreLargeEdge. cbv zeta.
  set (ets := fold_left _ (combine (seq 0 (length (pins hg he))) (pins hg he)) (fun _ _ => 0)).
  assert (Hc : forall q, sumZ (fun t => ets t q) (seq 0 T) = pins_in_block hg s he q).
  { intros q. unfold ets. rewrite (ets_count_fold s worker_of T).
    - rewrite sumZ_zero by reflexivity.
      rewrite (sumZ_combine_snd (fun v => if partID s v =? q then 1 else 0))
        by apply length_seq.
      reflexivity.
    - intros [pos pin] Hin. cbn [fst]. apply Hw.
      apply in_combine_l, in_seq in Hin. lia. }
  pose proof (restore_store_fold he (fun block => sumZ (fun t => ets t block) (seq 0 T))
                (range k) s (NoDup_range k)) as H.
  cbv beta zeta in H.
  set (r := fold_left _ (range k) s) in *.
  destruct H as (P & C & W & I & M & B & G & O).
  split; [|split; [|repeat split; assumption]].
  - intros e q Hq. rewrite P, (in_block_range k q Hq), Hc, andb_true_r. reflexivity.
  - intros e q Hq. rewrite C, (in_block_range k q Hq), Hc, andb_true_r. reflexivity.
Qed.

(** X17: [restoreLargeEdge(he)], on an edge for which nothing is
    tracked and whose pins all have a block, stores for every block the
    number of pins of [he] in it and puts the block into the
    connectivity set exactly when it has a pin, whichever worker counts
    which pin.  The tracked information of the other edges, the part
    ids, the part weights and the gain cache are not touched. *)
Theorem restoreLargeEdge_spec (num_threads : nat) (worker_of : nat -> nat) he s :
  (forall pos, (pos < length (pins hg he))%nat -> (worker_of pos < num_threads)%nat) ->
  (forall u, In u (pins hg he) -> 0 <= partID s u < k) ->
  edge_cleared k s he ->
  edge_tracked hg k (restoreLargeEdge hg k num_threads worker_of he s) he /\
  (forall e q, e <> he -> 0 <= q < k ->
     pinCountInPart (restoreLargeEdge hg k num_threads worker_of he s) e q
     = pinCountInPart s e q /\
     _connectivity_set (restoreLargeEdge hg k num_threads worker_of he s) e q
     = _connectivity_set s e q) /\
  _part_ids (restoreLargeEdge hg k num_threads worker_of he s) = _part_ids s /\
  _part_weights (restoreLargeEdge hg k num_threads worker_of he s) = _part_weights s /\
  _move_to_penalty (restoreLargeEdge hg k num_threads worker_of he s) = _move_to_penalty s /\
  _move_from_benefit (restoreLargeEdge hg k num_threads worker_of he s) = _move_from_benefit s.
Proof.
  intros Hw _ Hcl.
  destruct (restoreLargeEdge_fields num_threads worker_of he s Hw)
    as (P & C & W & I & M & B & _ & _).
  set (r := restoreLargeEdge hg k num_threads worker_of he s) in *.
  split; [|split; [|repeat split; assumption]].
  - intros q Hq. unfold pinCountInPart. rewrite (P he q Hq), (C he q Hq), Z.eqb_refl.
    cbn [andb]. rewrite pinCountInPartRecomputed_sum, (pins_in_block_ids hg r s he q I).
    pose proof (pins_in_block_nonneg hg s he q) as H0.
    destruct (Hcl q Hq) as [Z0 C0]. unfold pinCountInPart in Z0.
    destruct (Z.ltb_spec 0 (pins_in_block hg s he q)).
    + split; [reflexivity|]. split; [lia | reflexivity].
    + rewrite Z0, C0. split; [lia|]. split; [discriminate | lia].
  - intros e q He Hq. unfold pinCountInPart. rewrite (P e q Hq), (C e q Hq).
    destruct (Z.eqb_spec e he); [contradiction|]. cbn [andb]. split; reflexivity.
Qed.

(** *** [restoreSinglePinAndParallelNets] *)

Lemma edge_tracked_frame s t e :
  (forall q, _pins_in_part t e q = _pins_in_part s e q /\
             _connectivity_set t e q = _connectivity_set s e q) ->
  _part_ids t = _part_ids s ->
  edge_tracked hg k s e -> edge_tracked hg k t e.
Proof.
  intros Hf Hi Ht q Hq. destruct (Ht q Hq) as [H1 H2]. destruct (Hf q) as [F1 F2].
  unfold pinCountInPart in *. rewrite F1, F2.
  rewrite pinCountInPartRecomputed_sum in *.
  rewrite (pins_in_block_ids hg t s e q Hi). split; assumption.
Qed.

Lemma edge_cleared_frame s t e :
  (forall q, _pins_in_part t e q = _pins_in_part s e q /\
             _connectivity_set t e q = _connectivity_set s e q) ->
  edge_cleared k s e -> edge_cleared k t e.
Proof.
  intros Hf Hc q Hq. destruct (Hc q Hq) as [H1 H2]. destruct (Hf q) as [F1 F2].
  unfold pinCountInPart in *. rewrite F1, F2. split; assumption.
Qed.

(** The gain-cache loop of a restored single-pin net. *)
Lemma single_pin_gain_fold v b w (l : list PartitionID) s :
  NoDup l ->
  let r := fold_left (fun s' block =>
                        if negb (block =? b)
                        then with_move_to_penalty
                               (snd (add_fetch (_move_to_penalty s') (penalty_index k v block) w)) s'
                        else with_move_from_benefit
                               (snd (add_fetch (_move_from_benefit s') v w)) s') l s in
  (forall x, _move_from_benefit r x
             = _move_from_benefit s x + (if (x =? v) && existsb (Z.eqb b) l then w else 0)) /\
  (forall i, _move_to_penalty r i
             = _move_to_penalty s i
               + w * sumZ (fun p => if negb (p =? b) && (penalty_index k v p =? i)
                                    then 1 else 0) l) /\
  _pins_in_part r = _pins_in_part s /\ _connectivity_set r = _connectivity_set s /\
  _part_weights r = _part_weights s /\ _part_ids r = _part_ids s /\
  _is_gain_cache_initialized r = _is_gain_cache_initialized s /\
  _pin_count_update_ownership r = _pin_count_update_ownership s.
Proof.
  intros Hnd. revert s. induction Hnd as [|p l Hp Hnd IH]; intros s; cbn [fold_left existsb sumZ].
  - cbv zeta. repeat split; intros; rewrite ?andb_false_r; lia.
  - set (s1 := if negb (p =? b) then _ else _).
    specialize (IH s1). cbv zeta in IH. destruct IH as (B & M & P & C & W & I & G & O).
    apply existsb_eqb_notIn in Hp.
    assert (F : _pins_in_part s1 = _pins_in_part s /\ _connectivity_set s1 = _connectivity_set s /\
                _part_weights s1 = _part_weights s /\ _part_ids s1 = _part_ids s /\
                _is_gain_cache_initialized s1 = _is_gain_cache_initialized s /\
                _pin_count_update_ownership s1 = _pin_count_update_ownership s).
    { unfold s1. destruct (negb (p =? b)); repeat split. }
    destruct F as (F1 & F2 & F3 & F4 & F5 & F6).
    cbv zeta. split; [|split; [|repeat split; congruence]].
    + intros x. rewrite B. unfold s1.
      destruct (Z.eqb_spec p b) as [->|Hpb]; cbn [negb].
      * cbn [_move_from_benefit with_move_from_benefit add_fetch snd]. unfold upd.
        rewrite Z.eqb_refl. cbn [orb]. rewrite Hp, andb_false_r, andb_true_r.
        destruct (Z.eqb_spec x v) as [->|]; lia.
      * cbn [_move_from_benefit with_move_to_penalty].
        rewrite (Z.eqb_sym b p). destruct (Z.eqb_spec p b); [contradiction|]. cbn [orb]. lia.
    + intros i. rewrite M. unfold s1.
      destruct (Z.eqb_spec p b) as [->|Hpb]; cbn [negb andb].
      * cbn [_move_to_penalty with_move_from_benefit]. lia.
      * cbn [_move_to_penalty with_move_to_penalty add_fetch snd]. unfold upd.
        rewrite (Z.eqb_sym i (penalty_index k v p)).
        destruct (Z.eqb_spec (penalty_index k v p) i) as [<-|]; lia.
Qed.

Lemma penalty_index_inj v x p p' :
  0 <= p < k -> 0 <= p' < k -> penalty_index k v p' = penalty_index k x p -> v = x /\ p' = p.
Proof.
  unfold penalty_index. intros Hp Hp' E.
  assert (v = x).
  { destruct (Z.lt_trichotomy v x) as [H|[H|H]]; [exfalso|exact H|exfalso]; nia. }
  subst. lia.
Qed.

Lemma penalty_slot_count v b x p :
  0 <= p < k ->
  sumZ (fun p' => if negb (p' =? b) && (penalty_index k v p' =? penalty_index k x p)
                  then 1 else 0) (range k)
  = if (x =? v) && negb (p =? b) then 1 else 0.
Proof.
  intros Hp.
  rewrite (sumZ_ext_in _ (fun p' => if p' =? p
                                    then (fun _ => if (x =? v) && negb (p =? b) then 1 else 0) p'
                                    else 0)).
  - rewrite (sumZ_single _ p (range k) (NoDup_range k)), (in_block_range k p Hp). reflexivity.
  - intros p' Hp'. apply In_range in Hp'.
    destruct (Z.eqb_spec (penalty_index k v p') (penalty_index k x p)) as [E|E].
    + destruct (penalty_index_inj v x p p' Hp Hp' E) as [-> ->].
      rewrite !Z.eqb_refl, andb_true_r. reflexivity.
    + rewrite andb_false_r. destruct (Z.eqb_spec p' p) as [->|]; [|reflexivity].
      destruct (Z.eqb_spec x v) as [->|]; [contradiction | reflexivity].
Qed.

Lemma single_pin_net he :
  edgeSize hg he = 1 -> exists v, pins hg he = [v].
Proof.
  unfold edgeSize. destruct (pins hg he) as [|v [|w l]]; cbn [length]; intros H; try lia.
  now exists v.
Qed.

(** What restoring a single-pin net writes. *)
Lemma restoreNet_single s ph v :
  pins hg (removed_hyperedge ph) = [v] ->
  let he := removed_hyperedge ph in
  let b := partID s v in
  let r := restoreNet hg k s ph in
  (forall e q, _pins_in_part r e q
               = if (e =? he) && (q =? b) then 1 else _pins_in_part s e q) /\
  (forall e q, _connectivity_set r e q
               = if (e =? he) && (q =? b) then true else _connectivity_set s e q) /\
  _part_weights r = _part_weights s /\ _part_ids r = _part_ids s /\
  (forall x, _move_from_benefit r x
             = _move_from_benefit s x
               + (if _is_gain_cache_initialized s && (x =? v) && (0 <=? b) && (b <? k)
                  then edgeWeight hg he else 0)) /\
  (forall x p, 0 <= p < k ->
     moveToPenalty k r x p
     = moveToPenalty k s x p
       + (if _is_gain_cache_initialized s && (x =? v) && negb (p =? b)
          then edgeWeight hg he else 0)) /\
  _is_gain_cache_initialized r = _is_gain_cache_initialized s.
Proof.
  intros Hpins. cbv zeta. unfold restoreNet.
  replace (edgeSize hg (removed_hyperedge ph) =? 1) with true
    by (symmetry; apply Z.eqb_eq; unfold edgeSize; now rewrite Hpins).
  rewrite Hpins. cbn [fold_left]. cbv zeta.
  set (he := removed_hyperedge ph). set (b := partID s v).
  set (s1 := with_connectivity_set (cs_add (_connectivity_set s) he b) s).
  set (s2 := with_pins_in_part (setPinCountInPart (_pins_in_part s1) he b 1) s1).
  change (_is_gain_cache_initialized s2) with (_is_gain_cache_initialized s).
  assert (P2 : forall e q, _pins_in_part s2 e q
                           = if (e =? he) && (q =? b) then 1 else _pins_in_part s e q).
  { intros e q. unfold s2, s1. cbn [_pins_in_part with_pins_in_part with_connectivity_set].
    apply setPinCountInPart_at. }
  assert (C2 : forall e q, _connectivity_set s2 e q
                           = if (e =? he) && (q =? b) then true else _connectivity_set s e q).
  { intros e q. reflexivity. }
  destruct (_is_gain_cache_initialized s) eqn:G; cbn [andb].
  - destruct (single_pin_gain_fold v b (edgeWeight hg he) (range k) s2 (NoDup_range k))
      as (B & M & P & C & W & I & G' & O).
    set (r := fold_left _ (range k) s2) in *.
    split; [|split; [|split; [|split; [|split; [|split]]]]].
    + intros e q. rewrite P. apply P2.
    + intros e q. rewrite C. apply C2.
    + rewrite W. reflexivity.
    + rewrite I. reflexivity.
    + intros x. rewrite B, in_range_mem. cbn [_move_from_benefit s2 s1].
      unfold s2, s1. cbn [_move_from_benefit with_pins_in_part with_connectivity_set].
      destruct (x =? v); cbn [andb]; [|reflexivity].
      destruct (0 <=? b); cbn [andb]; reflexivity.
    + intros x p Hp. unfold moveToPenalty. rewrite M, (penalty_slot_count v b x p Hp).
      unfold s2, s1. cbn [_move_to_penalty with_pins_in_part with_connectivity_set].
      destruct ((x =? v) && negb (p =? b)); lia.
    + rewrite G'. exact G.
  - split; [exact P2|]. split; [exact C2|]. split; [reflexivity|]. split; [reflexivity|].
    split; [|split].
    + intros x. unfold s2, s1.
      cbn [_move_from_benefit with_pins_in_part with_connectivity_set]. lia.
    + intros x p Hp. unfold moveToPenalty, s2, s1.
      cbn [_move_to_penalty with_pins_in_part with_connectivity_set]. lia.
    + exact G.
Qed.

(** What restoring a parallel net writes. *)
Lemma restoreNet_parallel_fold he rep (bl : list PartitionID) s :
  he <> rep ->
  let r := fold_left (fun s' block =>
                        let s1 :=
                          with_connectivity_set (cs_add (_connectivity_set s') he block) s' in
                        with_pins_in_part
                          (setPinCountInPart (_pins_in_part s1) he block
                             (pinCountInPart s1 rep block)) s1) bl s in
  (forall e q, _pins_in_part r e q
               = if (e =? he) && existsb (Z.eqb q) bl
                 then _pins_in_part s rep q else _pins_in_part s e q) /\
  (forall e q, _connectivity_set r e q
               = if (e =? he) && existsb (Z.eqb q) bl then true else _connectivity_set s e q) /\
  _part_weights r = _part_weights s /\ _part_ids r = _part_ids s /\
  _move_to_penalty r = _move_to_penalty s /\ _move_from_benefit r = _move_from_benefit s /\
  _is_gain_cache_initialized r = _is_gain_cache_initialized s.
Proof.
  intros Hne. revert s. induction bl as [|b bl IH]; intros s; cbn [fold_left existsb].
  - cbv zeta. repeat split; intros; now rewrite andb_false_r.
  - cbv zeta.
    set (s1 := with_connectivity_set (cs_add (_connectivity_set s) he b) s).
    set (s2 := with_pins_in_part _ s1).
    specialize (IH s2). cbv zeta in IH. destruct IH as (P & C & W & I & M & B & G).
    assert (P2 : forall e q, _pins_in_part s2 e q
                             = if (e =? he) && (q =? b)
                               then _pins_in_part s rep b else _pins_in_part s e q).
    { intros e q. unfold s2, s1, pinCountInPart.
      cbn [_pins_in_part with_pins_in_part with_connectivity_set].
      apply setPinCountInPart_at. }
    split; [|split; [|repeat split; assumption]].
    + intros e q. rewrite P, !P2.
      destruct (Z.eqb_spec rep he) as [E|_]; [congruence|]. cbn [andb].
      destruct (Z.eqb_spec e he) as [->|]; cbn [andb]; [|reflexivity].
      destruct (Z.eqb_spec q b) as [->|]; cbn [orb]; [|reflexivity].
      destruct (existsb (Z.eqb b) bl); reflexivity.
    + intros e q. rewrite C. unfold s2, s1.
      cbn [_connectivity_set with_pins_in_part with_connectivity_set]. unfold cs_add.
      destruct (Z.eqb_spec e he) as [->|]; cbn [andb]; [|reflexivity].
      destruct (Z.eqb_spec q b) as [->|]; cbn [orb]; [|reflexivity].
      destruct (existsb (Z.eqb b) bl); reflexivity.
Qed.

(** One restored net: its tracked information is in step afterwards,
    and that of the other edges is as before. *)
Lemma restoreNet_tracked s ph :
  edge_cleared k s (removed_hyperedge ph) ->
  (edgeSize hg (removed_hyperedge ph) = 1 ->
   forall u, In u (pins hg (removed_hyperedge ph)) -> 0 <= partID s u < k) ->
  (edgeSize hg (removed_hyperedge ph) <> 1 ->
   removed_hyperedge ph <> representative ph /\
   Permutation (pins hg (removed_hyperedge ph)) (pins hg (representative ph)) /\
   edge_tracked hg k s (representative ph)) ->
  edge_tracked hg k (restoreNet hg k s ph) (removed_hyperedge ph) /\
  (forall e q, e <> removed_hyperedge ph ->
     _pins_in_part (restoreNet hg k s ph) e q = _pins_in_part s e q /\
     _connectivity_set (restoreNet hg k s ph) e q = _connectivity_set s e q) /\
  _part_ids (restoreNet hg k s ph) = _part_ids s /\
  _part_weights (restoreNet hg k s ph) = _part_weights s.
Proof.
  intros Hcl Hsingle Hpar.
  destruct (Z.eq_dec (edgeSize hg (removed_hyperedge ph)) 1) as [E1|E1].
  - destruct (single_pin_net _ E1) as (v & Hpins).
    destruct (restoreNet_single s ph v Hpins) as (P & C & W & I & _).
    assert (Hb : 0 <= partID s v < k) by (apply (Hsingle E1); rewrite Hpins; now left).
    split; [|split; [|split; assumption]].
    + intros q Hq. unfold pinCountInPart. rewrite P, C, Z.eqb_refl. cbn [andb].
      rewrite pinCountInPartRecomputed_sum,
        (pins_in_block_ids hg (restoreNet hg k s ph) s _ q I).
      unfold pins_in_block. rewrite Hpins. cbn [sumZ]. rewrite (Z.eqb_sym q (partID s v)).
      destruct (Hcl q Hq) as [Z0 C0]. unfold pinCountInPart in Z0.
      destruct (partID s v =? q).
      * split; [lia|]. split; [lia | reflexivity].
      * rewrite Z0, C0. split; [lia|]. split; [discriminate | lia].
    + intros e q He. rewrite P, C.
      destruct (Z.eqb_spec e (removed_hyperedge ph)); [contradiction|]. split; reflexivity.
  - destruct (Hpar E1) as (Hne & Hperm & Hrep).
    assert (R : restoreNet hg k s ph
                = fold_left (fun s' block =>
                               let s1 :=
                                 with_connectivity_set
                                   (cs_add (_connectivity_set s') (removed_hyperedge ph) block) s' in
                               with_pins_in_part
                                 (setPinCountInPart (_pins_in_part s1) (removed_hyperedge ph) block
                                    (pinCountInPart s1 (representative ph) block)) s1)
                            (connectivitySet k s (representative ph)) s).
    { unfold restoreNet. destruct (Z.eqb_spec (edgeSize hg (removed_hyperedge ph)) 1);
        [contradiction | reflexivity]. }
    destruct (restoreNet_parallel_fold (removed_hyperedge ph) (representative ph)
                (connectivitySet k s (representative ph)) s Hne) as (P & C & W & I & _).
    rewrite <- R in P, C, W, I.
    split; [|split; [|split; assumption]].
    + intros q Hq. unfold pinCountInPart. rewrite P, C, Z.eqb_refl. cbn [andb].
      rewrite mem_connectivitySet.
      replace ((0 <=? q) && (q <? k)) with true
        by (symmetry; apply andb_true_iff; split; [apply Z.leb_le | apply Z.ltb_lt]; lia).
      cbn [andb].
      rewrite pinCountInPartRecomputed_sum,
        (pins_in_block_ids hg (restoreNet hg k s ph) s _ q I).
      destruct (Hrep q Hq) as [R1 R2]. rewrite pinCountInPartRecomputed_sum in R1.
      unfold pinCountInPart in R1, R2.
      assert (Hsame : pins_in_block hg s (removed_hyperedge ph) q
                      = pins_in_block hg s (representative ph) q).
      { unfold pins_in_block. now apply sumZ_Permutation. }
      pose proof (pins_in_block_nonneg hg s (representative ph) q) as H0.
      destruct (Hcl q Hq) as [Z0 C0]. unfold pinCountInPart in Z0.
      destruct (_connectivity_set s (representative ph) q) eqn:Ecs.
      * split; [lia|]. split; [intros _; apply R2; reflexivity | reflexivity].
      * rewrite Z0, C0.
        assert (_pins_in_part s (representative ph) q = 0).
        { destruct (Z_lt_le_dec 0 (_pins_in_part s (representative ph) q)) as [Hpos|]; [|lia].
          assert (false = true) by (apply R2; lia). discriminate. }
        split; [lia|]. split; [discriminate | lia].
    + intros e q He. rewrite P, C.
      destruct (Z.eqb_spec e (removed_hyperedge ph)); [contradiction|]. split; reflexivity.
Qed.

Lemma restorable_step s ph hes :
  restorable hg k s (ph :: hes) -> restorable hg k (restoreNet hg k s ph) hes.
Proof.
  intros (Hnd & Hall). cbn [map] in Hnd. inversion Hnd as [|? ? Hnot Hnd']; subst.
  destruct (Hall ph (or_introl eq_refl)) as (Hcl & Hs & Hp).
  destruct (restoreNet_tracked s ph Hcl Hs) as (_ & Hframe & Hids & _).
  { intros E. destruct (Hp E) as (Hn & Hperm & Hrep). split; [|split; assumption].
    intros Heq. apply Hn. rewrite <- Heq. cbn [map]. now left. }
  split; [exact Hnd'|]. intros ph' Hin.
  destruct (Hall ph' (or_intror Hin)) as (Hcl' & Hs' & Hp').
  assert (Hne : removed_hyperedge ph' <> removed_hyperedge ph).
  { intros E. apply Hnot. rewrite <- E. now apply in_map. }
  split; [|split].
  - apply (edge_cleared_frame s); [|exact Hcl']. intros q. now apply Hframe.
  - intros E u Hu. unfold partID. rewrite Hids. now apply Hs'.
  - intros E. destruct (Hp' E) as (Hn & Hperm & Hrep). split; [|split].
    + intros Hin'. apply Hn. cbn [map]. now right.
    + exact Hperm.
    + apply (edge_tracked_frame s); [|exact Hids|exact Hrep].
      intros q. apply Hframe. intros Heq. apply Hn. rewrite Heq. cbn [map]. now left.
Qed.

Lemma restoreNets_tracked hes :
  forall s, restorable hg k s hes ->
  (forall ph, In ph hes ->
     edge_tracked hg k (restoreSinglePinAndParallelNets hg k hes s) (removed_hyperedge ph)) /\
  (forall e q, ~ In e (map removed_hyperedge hes) ->
     _pins_in_part (restoreSinglePinAndParallelNets hg k hes s) e q = _pins_in_part s e q /\
     _connectivity_set (restoreSinglePinAndParallelNets hg k hes s) e q
     = _connectivity_set s e q) /\
  _part_ids (restoreSinglePinAndParallelNets hg k hes s) = _part_ids s /\
  _part_weights (restoreSinglePinAndParallelNets hg k hes s) = _part_weights s.
Proof.
  induction hes as [|ph hes IH]; intros s Hr.
  - cbn. split; [intros ph' []|]. repeat split.
  - pose proof (restorable_step s ph hes Hr) as Hr'.
    destruct Hr as (Hnd & Hall). cbn [map] in Hnd. inversion Hnd as [|? ? Hnot Hnd']; subst.
    destruct (Hall ph (or_introl eq_refl)) as (Hcl & Hs & Hp).
    destruct (restoreNet_tracked s ph Hcl Hs) as (Ht & Hframe & Hids & Hw).
    { intros E. destruct (Hp E) as (Hn & Hperm & Hrep). split; [|split; assumption].
      intros Heq. apply Hn. rewrite <- Heq. cbn [map]. now left. }
    destruct (IH (restoreNet hg k s ph) Hr') as (IHt & IHf & IHi & IHw).
    unfold restoreSinglePinAndParallelNets in *. cbn [fold_left].
    split; [|split; [|split; congruence]].
    + intros ph' [<-|Hin].
      * apply (edge_tracked_frame (restoreNet hg k s ph)); [|exact IHi|exact Ht].
        intros q. now apply IHf.
      * now apply IHt.
    + intros e q Hnin. cbn [map] in Hnin.
      destruct (IHf e q) as [A1 A2]; [intros H; apply Hnin; now right|].
      destruct (Hframe e q) as [B1 B2]; [intros H; apply Hnin; now left|].
      split; congruence.
Qed.

(** X18: [restoreSinglePinAndParallelNets], given distinct nets for
    which nothing is tracked (a single-pin net whose pin has a block,
    or a net with the pins of a representative that stays in place and
    is in step), leaves the pin counts and the connectivity set of
    every restored net in step with the part ids and those of all other
    edges, the part ids and the part weights untouched; so if the other
    enabled edges were in step, all enabled edges are. *)
Theorem restoreSinglePinAndParallelNets_tracked s hes :
  restorable hg k s hes ->
  (forall ph, In ph hes ->
     edge_tracked hg k (restoreSinglePinAndParallelNets hg k hes s) (removed_hyperedge ph)) /\
  (forall e q, ~ In e (map removed_hyperedge hes) ->
     pinCountInPart (restoreSinglePinAndParallelNets hg k hes s) e q = pinCountInPart s e q /\
     _connectivity_set (restoreSinglePinAndParallelNets hg k hes s) e q
     = _connectivity_set s e q) /\
  _part_ids (restoreSinglePinAndParallelNets hg k hes s) = _part_ids s /\
  _part_weights (restoreSinglePinAndParallelNets hg k hes s) = _part_weights s /\
  ((forall e, edgeIsEnabled hg e = true -> ~ In e (map removed_hyperedge hes) ->
      edge_tracked hg k s e) ->
   pin_count_inv hg k (restoreSinglePinAndParallelNets hg k hes s) /\
   connectivity_inv hg k (restoreSinglePinAndParallelNets hg k hes s)).
Proof.
  intros Hr. destruct (restoreNets_tracked hes s Hr) as (Ht & Hf & Hi & Hw).
  split; [exact Ht|]. split; [exact Hf|]. split; [exact Hi|]. split; [exact Hw|].
  intros Hother.
  assert (Hall : forall e, edgeIsEnabled hg e = true ->
                           edge_tracked hg k (restoreSinglePinAndParallelNets hg k hes s) e).
  { intros e He. destruct (in_dec Z.eq_dec e (map removed_hyperedge hes)) as [Hin|Hnin].
    - apply in_map_iff in Hin as (ph & <- & Hin). now apply Ht.
    - apply (edge_tracked_frame s); [|exact Hi|now apply Hother].
      intros q. now apply Hf. }
  split.
  - intros e p He Hp. apply (Hall e He p Hp).
  - intros e p He Hp. apply (Hall e He p Hp).
Qed.

(** *** The gain cache across a restored single-pin net *)

Lemma filter_other (he : Z) (l : list Z) :
  ~ In he l -> filter (fun e => negb (e =? he)) l = l.
Proof.
  induction l as [|z l IH]; cbn [filter]; intros H; [reflexivity|].
  destruct (Z.eqb_spec z he) as [->|]; cbn [negb].
  - exfalso. apply H. now left.
  - rewrite IH; [reflexivity|]. intros Hin. apply H. now right.
Qed.

(** X19: restoring a single-pin net keeps an initialised gain cache
    correct.  If, before the net [he] with the single pin [v] is
    restored, every entry satisfies its equation over the incident nets
    without [he], then after [restoreSinglePinAndParallelNets] has
    handled [he] every entry satisfies its equation over all incident
    nets: the benefit of [v] and its penalties for the other blocks have
    grown by the weight of [he]. *)
Theorem restoreNet_single_pin_gain_cache s ph v :
  pins hg (removed_hyperedge ph) = [v] ->
  edgeIsEnabled hg (removed_hyperedge ph) = true ->
  0 <= partID s v < k ->
  edge_cleared k s (removed_hyperedge ph) ->
  _is_gain_cache_initialized s = true ->
  gain_cache_inv (without_edge hg (removed_hyperedge ph)) k s ->
  gain_cache_inv hg k (restoreNet hg k s ph).
Proof.
  intros Hpins He Hb Hcl Hflag Hinv.
  destruct (restoreNet_single s ph v Hpins) as (P & C & W & I & B & M & G).
  cbv zeta in P, C, W, I, B, M, G.
  set (he := removed_hyperedge ph) in *. set (r := restoreNet hg k s ph) in *.
  assert (Hv : nodeIsEnabled hg v = true).
  { apply (wf_pins_enabled hg Hwf he v He). rewrite Hpins. now left. }
  assert (Hinc : forall x, nodeIsEnabled hg x = true ->
                           (In he (incidentEdges hg x) <-> x = v)).
  { intros x Hx. rewrite (wf_incidence hg Hwf x he Hx), Hpins. cbn [In].
    split; [intros (_ & [E|[]]); now symmetry | intros ->; auto]. }
  assert (Hpc : forall e q, e <> he -> pinCountInPart r e q = pinCountInPart s e q).
  { intros e q Hne. unfold pinCountInPart. rewrite P.
    destruct (Z.eqb_spec e he); [contradiction | reflexivity]. }
  assert (Hid : forall x, partID r x = partID s x).
  { intros x. unfold partID. now rewrite I. }
  assert (Hlt : (0 <=? partID s v) && (partID s v <? k) = true).
  { apply andb_true_iff. split; [apply Z.leb_le | apply Z.ltb_lt]; lia. }
  intros x Hx. destruct (Hinv x Hx) as [Hbx Hpx].
  unfold benefit_inv, penalty_inv in *.
  cbn [incidentEdges without_edge edgeWeight] in Hbx, Hpx.
  destruct (Z.eq_dec x v) as [->|Hxv].
  - assert (Hin : In he (incidentEdges hg v)) by (now apply Hinc).
    split.
    + unfold moveFromBenefit. rewrite B, Hflag, Z.eqb_refl. cbn [andb].
      rewrite Hlt.
      rewrite (sumZ_split_one _ he (incidentEdges hg v) (wf_incident_NoDup hg Hwf v) Hin).
      unfold moveFromBenefit in Hbx. rewrite Hbx. f_equal.
      * apply sumZ_ext_in. intros e Hein. apply filter_In in Hein as [_ Hne].
        rewrite Hid, Hpc; [reflexivity|].
        intros ->. rewrite Z.eqb_refl in Hne. discriminate.
      * unfold pinCountInPart. rewrite P, Hid, !Z.eqb_refl. reflexivity.
    + intros p Hp. rewrite (M v p Hp), Hflag, Z.eqb_refl. cbn [andb].
      rewrite (sumZ_split_one _ he (incidentEdges hg v) (wf_incident_NoDup hg Hwf v) Hin).
      rewrite (Hpx p Hp). f_equal.
      * apply sumZ_ext_in. intros e Hein. apply filter_In in Hein as [_ Hne].
        rewrite Hpc; [reflexivity|].
        intros ->. rewrite Z.eqb_refl in Hne. discriminate.
      * unfold pinCountInPart. rewrite P, Z.eqb_refl. cbn [andb].
        destruct (Z.eqb_spec p (partID s v)); cbn [negb]; [reflexivity|].
        destruct (Hcl p Hp) as [Z0 _]. unfold pinCountInPart in Z0. rewrite Z0. reflexivity.
  - assert (Hnin : ~ In he (incidentEdges hg x)).
    { intros Hin. apply Hxv. now apply (Hinc x Hx). }
    rewrite (filter_other he _ Hnin) in Hbx, Hpx.
    assert (Hne : forall e, In e (incidentEdges hg x) -> e <> he) by (intros e Hin ->; auto).
    split.
    + unfold moveFromBenefit. rewrite B.
      destruct (Z.eqb_spec x v); [contradiction|]. rewrite andb_false_r. cbn [andb].
      unfold moveFromBenefit in Hbx. rewrite Hbx, Z.add_0_r.
      apply sumZ_ext_in. intros e Hin. rewrite Hid, Hpc by (now apply Hne). reflexivity.
    + intros p Hp. rewrite (M x p Hp).
      destruct (Z.eqb_spec x v); [contradiction|]. rewrite andb_false_r. cbn [andb].
      rewrite (Hpx p Hp), Z.add_0_r.
      apply sumZ_ext_in. intros e Hin. rewrite Hpc by (now apply Hne). reflexivity.
Qed.

End Facts.

End RestoreFacts.

(* ------------------------------------------------------------------ *)
(** ** Extracting a block *)

Module ExtractFacts.
Import PHG Maintenance PinFacts MoveFacts InvariantFacts InitFacts ReachableFacts
       Scenarios ScenarioStateFacts MaintenanceFacts.

(** Compactification numbers the kept items in visiting order. *)
Lemma compactify_fold (keep : Z -> bool) (l : list Z) :
  NoDup l -> forall (m : Z -> Z) (n : Z),
  let r := fold_left (fun (acc : (Z -> Z) * Z) x =>
                        let '(mapping, num) := acc in
                        if keep x then (upd mapping x num, num + 1) else acc) l (m, n) in
  snd r = n + Z.of_nat (length (filter keep l)) /\
  (forall x, ~ In x (filter keep l) -> fst r x = m x) /\
  (forall i x, nth_error (filter keep l) i = Some x -> fst r x = n + Z.of_nat i).
Proof.
  induction 1 as [|a l Ha Hnd IH]; intros m n; cbn [fold_left filter].
  - cbv zeta. cbn [fst snd length]. split; [lia|]. split; [reflexivity|].
    intros [|i] x H; discriminate.
  - destruct (keep a) eqn:Ka.
    + specialize (IH (upd m a n) (n + 1)). cbv zeta in IH. destruct IH as (N & F & I).
      cbv zeta. split; [|split].
      * rewrite N. cbn [length]. lia.
      * intros x Hx. rewrite F by (intros H; apply Hx; now right).
        apply upd_other. intros ->. apply Hx. now left.
      * intros [|i] x Hx; cbn [nth_error] in Hx.
        -- inversion Hx; subst x. rewrite F.
           ++ rewrite upd_same. lia.
           ++ intros H. apply filter_In in H as [H _]. contradiction.
        -- rewrite (I i x Hx). lia.
    + apply IH.
Qed.

Lemma compactify_spec (keep : Z -> bool) (l : list Z) (invalid : Z) :
  NoDup l ->
  snd (compactify keep l invalid) = Z.of_nat (length (filter keep l)) /\
  (forall x, ~ In x (filter keep l) -> fst (compactify keep l invalid) x = invalid) /\
  (forall i x, nth_error (filter keep l) i = Some x ->
     fst (compactify keep l invalid) x = Z.of_nat i).
Proof.
  intros Hnd. destruct (compactify_fold keep l Hnd (fun _ => invalid) 0) as (N & F & I).
  unfold compactify. split; [|split].
  - rewrite N. lia.
  - exact F.
  - intros i x Hx. rewrite (I i x Hx). lia.
Qed.

Lemma compactify_inj (keep : Z -> bool) (l : list Z) (invalid : Z) a b :
  NoDup l -> In a l -> In b l -> keep a = true -> keep b = true ->
  fst (compactify keep l invalid) a = fst (compactify keep l invalid) b -> a = b.
Proof.
  intros Hnd Ha Hb Ka Kb E.
  destruct (compactify_spec keep l invalid Hnd) as (_ & _ & I).
  destruct (In_nth_error (filter keep l) a) as (i & Hi); [apply filter_In; auto|].
  destruct (In_nth_error (filter keep l) b) as (j & Hj); [apply filter_In; auto|].
  rewrite (I i a Hi), (I j b Hj) in E. apply Nat2Z.inj in E. subst j. congruence.
Qed.

Lemma push_pins_fold (inb : Z -> bool) (f : Z -> Z) (ps : list Z) (init : list Z) :
  fold_left (fun (pins_of_he : list Z) pin =>
               if inb pin then pins_of_he ++ [f pin] else pins_of_he) ps init
  = init ++ map f (filter inb ps).
Proof.
  revert init. induction ps as [|p ps IH]; intros init; cbn [fold_left filter].
  - cbn [map]. now rewrite app_nil_r.
  - rewrite IH. destruct (inb p); [|reflexivity].
    cbn [map]. rewrite <- app_assoc. reflexivity.
Qed.

Lemma NoDup_map_in {X Y : Type} (f : X -> Y) (l : list X) :
  (forall a b, In a l -> In b l -> f a = f b -> a = b) -> NoDup l -> NoDup (map f l).
Proof.
  intros Hinj Hnd. induction Hnd as [|x l Hx Hnd IH]; cbn [map]; constructor.
  - intros Hin. apply in_map_iff in Hin as (y & E & Hy). apply Hx.
    replace x with y; [exact Hy|]. apply Hinj; [now right | now left | exact E].
  - apply IH. intros a b Ha Hb. apply Hinj; now right.
Qed.

Lemma two_elements {X : Type} (l : list X) (a b : X) :
  In a l -> In b l -> a <> b -> (2 <= length l)%nat.
Proof.
  destruct l as [|x [|y l]]; cbn [In length]; intros Ha Hb Hne; [contradiction| |lia].
  destruct Ha as [<-|[]], Hb as [<-|[]]. contradiction.
Qed.

Section Facts.

Variable hg : Hypergraph.
Variable k : PartitionID.

Lemma edge_vector_fold (keep inb : Z -> bool) (idx f : Z -> Z) (l : list HyperedgeID) :
  NoDup l ->
  (forall a b, In a l -> In b l -> keep a = true -> keep b = true -> idx a = idx b -> a = b) ->
  forall (ev : Z -> list HypernodeID) (hew : Z -> HyperedgeWeight),
  let r := fold_left (fun (acc : (Z -> list HypernodeID) * (Z -> HyperedgeWeight)) he =>
                        let '(ev, hew) := acc in
                        if keep he
                        then
                          (upd ev (idx he)
                               (fold_left (fun (pins_of_he : list HypernodeID) pin =>
                                             if inb pin
                                             then pins_of_he ++ [f pin]
                                             else pins_of_he)
                                          (pins hg he) (ev (idx he))),
                           upd hew (idx he) (edgeWeight hg he))
                        else acc) l (ev, hew) in
  (forall he, In he l -> keep he = true ->
     fst r (idx he) = ev (idx he) ++ map f (filter inb (pins hg he)) /\
     snd r (idx he) = edgeWeight hg he) /\
  (forall j, (forall he, In he l -> keep he = true -> idx he <> j) ->
     fst r j = ev j /\ snd r j = hew j).
Proof.
  induction 1 as [|a l Ha Hnd IH]; intros Hinj ev hew; cbn [fold_left].
  - cbv zeta. cbn [fst snd]. split; [intros he []|]. intros j _. split; reflexivity.
  - assert (Hinj' : forall x y, In x l -> In y l -> keep x = true -> keep y = true ->
                                idx x = idx y -> x = y).
    { intros x y Hx Hy. apply Hinj; now right. }
    destruct (keep a) eqn:Ka.
    + specialize (IH Hinj' (upd ev (idx a)
                               (fold_left (fun (pins_of_he : list HypernodeID) pin =>
                                             if inb pin then pins_of_he ++ [f pin]
                                             else pins_of_he) (pins hg a) (ev (idx a))))
                     (upd hew (idx a) (edgeWeight hg a))).
      cbv zeta in IH. destruct IH as (K & F). cbv zeta. split.
      * intros he [<-|Hin] Kh.
        -- destruct (F (idx a)) as [F1 F2].
           { intros he Hin Kh' E. apply Ha. replace a with he; [exact Hin|].
             apply Hinj; auto; [now right | now left]. }
           rewrite F1, F2, !upd_same, push_pins_fold. split; reflexivity.
        -- destruct (K he Hin Kh) as [K1 K2]. rewrite K1, K2. split; [|reflexivity].
           rewrite upd_other; [reflexivity|].
           intros E. apply Ha. replace a with he; [exact Hin|].
           apply Hinj; auto; [now right | now left].
      * intros j Hj. destruct (F j) as [F1 F2].
        { intros he Hin. apply Hj. now right. }
        rewrite F1, F2.
        assert (idx a <> j) by (apply Hj; [now left | exact Ka]).
        rewrite !upd_other by congruence. split; reflexivity.
    + specialize (IH Hinj' ev hew). cbv zeta in IH. destruct IH as (K & F). cbv zeta. split.
      * intros he [<-|Hin] Kh; [congruence|]. now apply K.
      * intros j Hj. apply F. intros he Hin. apply Hj. now right.
Qed.

Lemma node_weight_fold (keep : Z -> bool) (idx : Z -> Z) (l : list HypernodeID) :
  NoDup l ->
  (forall a b, In a l -> In b l -> keep a = true -> keep b = true -> idx a = idx b -> a = b) ->
  forall (hnw : Z -> HypernodeWeight),
  forall hn, In hn l -> keep hn = true ->
    fold_left (fun (hnw : Z -> HypernodeWeight) hn =>
                 if keep hn then upd hnw (idx hn) (nodeWeight hg hn) else hnw) l hnw (idx hn)
    = nodeWeight hg hn.
Proof.
  induction 1 as [|a l Ha Hnd IH]; intros Hinj hnw hn Hin Kh; [contradiction|].
  cbn [fold_left].
  assert (Hinj' : forall x y, In x l -> In y l -> keep x = true -> keep y = true ->
                              idx x = idx y -> x = y).
  { intros x y Hx Hy. apply Hinj; now right. }
  destruct Hin as [<-|Hin].
  - rewrite Kh.
    assert (Fr : forall (l' : list Z) h,
               (forall y, In y l' -> keep y = true -> idx y <> idx a) ->
               fold_left (fun (hnw : Z -> HypernodeWeight) hn =>
                            if keep hn then upd hnw (idx hn) (nodeWeight hg hn) else hnw) l' h
                         (idx a) = h (idx a)).
    { induction l' as [|y l' IHl]; intros h Hy; cbn [fold_left]; [reflexivity|].
      rewrite IHl by (intros z Hz; apply Hy; now right).
      destruct (keep y) eqn:Ky; [|reflexivity].
      apply upd_other. intros E. symmetry in E. revert E. apply Hy; [now left | exact Ky]. }
    rewrite Fr.
    + apply upd_same.
    + intros y Hy Ky E. apply Ha. replace a with y; [exact Hy|].
      apply Hinj; auto; [now right | now left].
  - apply IH; assumption.
Qed.

Lemma extract_spec_fields (block : PartitionID) (cut_net_splitting : bool) s :
  let r := extract hg k block cut_net_splitting s in
  let ns := filter (fun hn => partID s hn =? block) (nodes hg) in
  let es := filter (extract_keeps k s block cut_net_splitting) (edges hg) in
  num_hypernodes r = Z.of_nat (length ns) /\
  num_hyperedges r = Z.of_nat (length es) /\
  (forall i hn, nth_error ns i = Some hn ->
     hn_mapping r hn = Z.of_nat i /\ hypernode_weight r (Z.of_nat i) = nodeWeight hg hn) /\
  (forall hn, ~ In hn ns -> hn_mapping r hn = kInvalidHypernode) /\
  (forall j he, nth_error es j = Some he ->
     edge_vector r (Z.of_nat j)
     = map (hn_mapping r) (filter (fun pin => partID s pin =? block) (pins hg he)) /\
     hyperedge_weight r (Z.of_nat j) = edgeWeight hg he).
Proof.
  cbv zeta. unfold extract.
  assert (Hn : NoDup (nodes hg)) by (apply NoDup_filter, NoDup_range).
  assert (He : NoDup (edges hg)) by (apply NoDup_filter, NoDup_range).
  destruct (compactify_spec (fun hn => partID s hn =? block) (nodes hg) kInvalidHypernode Hn)
    as (N1 & N2 & N3).
  destruct (compactify_spec (extract_keeps k s block cut_net_splitting) (edges hg)
              kInvalidHyperedge He) as (E1 & E2 & E3).
  pose proof (compactify_inj (fun hn => partID s hn =? block) (nodes hg) kInvalidHypernode)
    as Ninj.
  pose proof (compactify_inj (extract_keeps k s block cut_net_splitting) (edges hg)
                kInvalidHyperedge) as Einj.
  destruct (compactify (fun hn => partID s hn =? block) (nodes hg) kInvalidHypernode)
    as [hn_map num_hn].
  destruct (compactify (extract_keeps k s block cut_net_splitting) (edges hg) kInvalidHyperedge)
    as [he_map num_he].
  cbn [fst snd] in *.
  pose proof (edge_vector_fold (extract_keeps k s block cut_net_splitting)
                (fun pin => partID s pin =? block) he_map hn_map (edges hg) He
                (fun a b Ha Hb Ka Kb => Einj a b He Ha Hb Ka Kb)
                (fun _ => []) (fun _ => 0)) as HV.
  cbv zeta in HV. destruct HV as (HV & _).
  destruct (fold_left _ (edges hg) (fun _ => [], fun _ => 0)) as [ev hew].
  cbn [fst snd num_hypernodes num_hyperedges edge_vector hyperedge_weight hypernode_weight
       hn_mapping] in *.
  split; [exact N1|]. split; [exact E1|]. split; [|split; [exact N2|]].
  - intros i hn Hi. split; [now apply N3|].
    rewrite <- (N3 i hn Hi).
    pose proof (nth_error_In _ _ Hi) as Hin. apply filter_In in Hin as [Hin Kh].
    apply (node_weight_fold (fun hn => partID s hn =? block) hn_map (nodes hg) Hn
             (fun a b Ha Hb Ka Kb => Ninj a b Hn Ha Hb Ka Kb)); assumption.
  - intros j he Hj.
    pose proof (nth_error_In _ _ Hj) as Hin. apply filter_In in Hin as [Hin Kh].
    rewrite <- (E3 j he Hj). destruct (HV he Hin Kh) as [V1 V2]. rewrite V1, V2.
    split; reflexivity.
Qed.
(** X20: [extract(block, cut_net_splitting)] numbers the enabled nodes
    of the block 0, 1, ... in ascending order of their ids and maps
    every other node to the invalid id; it numbers in the same way the
    enabled edges with more than one pin in the block (and, without
    cut-net splitting, connectivity 1).  The j-th such edge is handed
    over with its weight and with the new ids of its pins that are in
    the block, in pin order; the i-th node with its weight. *)
Theorem extract_spec (block : PartitionID) (cut_net_splitting : bool) s :
  let r := extract hg k block cut_net_splitting s in
  let ns := filter (fun hn => partID s hn =? block) (nodes hg) in
  let es := filter (extract_keeps k s block cut_net_splitting) (edges hg) in
  num_hypernodes r = Z.of_nat (length ns) /\
  num_hyperedges r = Z.of_nat (length es) /\
  (forall i hn, nth_error ns i = Some hn ->
     hn_mapping r hn = Z.of_nat i /\ hypernode_weight r (Z.of_nat i) = nodeWeight hg hn) /\
  (forall hn, ~ In hn ns -> hn_mapping r hn = kInvalidHypernode) /\
  (forall j he, nth_error es j = Some he ->
     edge_vector r (Z.of_nat j)
     = map (hn_mapping r) (filter (fun pin => partID s pin =? block) (pins hg he)) /\
     hyperedge_weight r (Z.of_nat j) = edgeWeight hg he).
Proof. exact (extract_spec_fields block cut_net_splitting s). Qed.

(** X21: on a consistent state of a well-formed hypergraph, what
    [extract] hands over for a block is a hypergraph of its own: every
    extracted edge lists each of its pins once, by a node id below
    [num_hypernodes]; it has as many pins as the edge has in the block,
    which is at least two; and without cut-net splitting it has all the
    pins of the edge. *)
Theorem extract_valid (block : PartitionID) (cut_net_splitting : bool) s :
  wf_hypergraph hg -> consistent hg k s -> 0 <= block < k ->
  forall j he,
    nth_error (filter (extract_keeps k s block cut_net_splitting) (edges hg)) j = Some he ->
    Forall (fun x => 0 <= x < num_hypernodes (extract hg k block cut_net_splitting s))
           (edge_vector (extract hg k block cut_net_splitting s) (Z.of_nat j)) /\
    NoDup (edge_vector (extract hg k block cut_net_splitting s) (Z.of_nat j)) /\
    Z.of_nat (length (edge_vector (extract hg k block cut_net_splitting s) (Z.of_nat j)))
    = pinCountInPart s he block /\
    2 <= pinCountInPart s he block /\
    (cut_net_splitting = false ->
     Z.of_nat (length (edge_vector (extract hg k block cut_net_splitting s) (Z.of_nat j)))
     = edgeSize hg he).
Proof.
  intros Hwf Hc Hb j he Hj.
  pose proof (extract_spec_fields block cut_net_splitting s) as H. cbv zeta in H.
  destruct H as (N & _ & HN & _ & HE).
  destruct (HE j he Hj) as [HV _]. rewrite HV, N. clear HV HE.
  set (r := extract hg k block cut_net_splitting s) in *.
  set (ns := filter (fun hn => partID s hn =? block) (nodes hg)) in *.
  pose proof (nth_error_In _ _ Hj) as Hin. apply filter_In in Hin as [Hin Kh].
  apply (In_edges hg Hwf) in Hin.
  assert (Hidx : forall pin, In pin (filter (fun pin => partID s pin =? block) (pins hg he)) ->
                             exists i, nth_error ns i = Some pin).
  { intros pin Hp. apply filter_In in Hp as [Hp Kp]. apply In_nth_error.
    apply filter_In. split; [|exact Kp].
    apply (In_nodes hg Hwf), (wf_pins_enabled hg Hwf he pin Hin Hp). }
  assert (Hlen : Z.of_nat (length (map (hn_mapping r)
                                       (filter (fun pin => partID s pin =? block) (pins hg he))))
                 = pinCountInPart s he block).
  { rewrite length_map, length_filter_sum.
    rewrite (cons_pin_count hg k s Hc he block Hin Hb), pinCountInPartRecomputed_sum.
    reflexivity. }
  assert (Hge : 2 <= pinCountInPart s he block).
  { unfold extract_keeps in Kh. apply andb_true_iff in Kh as [Kh _].
    apply Z.ltb_lt in Kh. lia. }
  split; [|split; [|split; [exact Hlen|split; [exact Hge|]]]].
  - apply Forall_forall. intros x Hx. apply in_map_iff in Hx as (pin & <- & Hp).
    destruct (Hidx pin Hp) as (i & Hi). destruct (HN i pin Hi) as [-> _].
    assert (i < length ns)%nat by (apply nth_error_Some; congruence). lia.
  - apply NoDup_map_in.
    + intros a b Ha Hb' E.
      destruct (Hidx a Ha) as (i & Hi). destruct (Hidx b Hb') as (i' & Hi').
      destruct (HN i a Hi) as [Ea _]. destruct (HN i' b Hi') as [Eb _].
      rewrite Ea, Eb in E. apply Nat2Z.inj in E. subst i'. congruence.
    + apply NoDup_filter, (wf_pins_NoDup hg Hwf).
  - intros Hcns. rewrite Hlen.
    unfold extract_keeps in Kh. rewrite Hcns in Kh. cbn [orb] in Kh.
    apply andb_true_iff in Kh as [_ Kc]. apply Z.eqb_eq in Kc.
    rewrite <- (consistent_pin_sum hg k Hwf s Hc he Hin).
    rewrite (sumZ_ext_in _ (fun q => if q =? block then pinCountInPart s he q else 0)).
    + rewrite (sumZ_single (pinCountInPart s he) block (range k) (NoDup_range k)),
        (in_block_range k block Hb). reflexivity.
    + intros q Hq. destruct (Z.eqb_spec q block) as [->|Hne]; [reflexivity|].
      apply In_range in Hq.
      pose proof (cons_connectivity hg k s Hc he q Hin Hq) as [_ Hq2].
      pose proof (cons_connectivity hg k s Hc he block Hin Hb) as [_ Hb2].
      pose proof (cons_pin_count hg k s Hc he q Hin Hq) as Hq0.
      rewrite pinCountInPartRecomputed_sum in Hq0.
      pose proof (pins_in_block_nonneg hg s he q) as H0.
      destruct (Z_lt_le_dec 0 (pinCountInPart s he q)) as [Hpos|]; [exfalso|lia].
      unfold connectivity, cs_connectivity, cs_connectivitySet in Kc.
      assert (2 <= length (filter (_connectivity_set s he) (range k)))%nat.
      { apply (two_elements _ q block); [| |exact Hne].
        - apply filter_In. split; [now apply In_range | apply Hq2; lia].
        - apply filter_In. split; [now apply In_range | apply Hb2; lia]. }
      lia.
Qed.

End Facts.

End ExtractFacts.

(* ------------------------------------------------------------------ *)
(** ** The instances with removed hyperedges *)

Module RestoreInstanceFacts.
Import PHG Maintenance PinFacts MoveFacts InvariantFacts InitFacts ReachableFacts GainInitFacts
       Scenarios ScenarioStateFacts MaintenanceFacts RestoreFacts ExtractFacts RestoreInstances.

Lemma without_edge_wf hg he : wf_hypergraph hg -> wf_hypergraph (without_edge hg he).
Proof.
  intros Hwf. constructor; cbn [pins incidentEdges nodeIsEnabled edgeIsEnabled initialNumNodes
                                 initialNumEdges without_edge].
  - apply (wf_pins_NoDup hg Hwf).
  - intros u. apply NoDup_filter, (wf_incident_NoDup hg Hwf).
  - apply (wf_node_range hg Hwf).
  - intros e He. apply andb_true_iff in He as [_ He]. now apply (wf_edge_range hg Hwf).
  - intros e u He. apply andb_true_iff in He as [_ He]. now apply (wf_pins_enabled hg Hwf).
  - intros u e Hu. rewrite filter_In, (wf_incidence hg Hwf u e Hu), andb_true_iff. tauto.
Qed.

Lemma restore_hg_wf : wf_hypergraph restore_hg.
Proof.
  apply hypergraph_of_wf.
  - repeat constructor; simpl; intuition lia.
  - repeat constructor; lia.
Qed.

Lemma single_hg_wf : wf_hypergraph single_hg.
Proof.
  apply hypergraph_of_wf.
  - repeat constructor; simpl; intuition lia.
  - repeat constructor; lia.
Qed.

Lemma block_cases (q : Z) : 0 <= q < 2 -> q = 0 \/ q = 1.
Proof. lia. Qed.

(** Witness: the weight of node 2 of scenario 3 is set to 5. *)
Lemma setNodeWeight_keeps_part_weights_witness :
  part_weight_inv (fst (setNodeWeight delta_hg 2 5 delta_phg)) 2
                  (snd (setNodeWeight delta_hg 2 5 delta_phg)) /\
  nodeWeight (fst (setNodeWeight delta_hg 2 5 delta_phg)) 2 = 5 /\
  (forall x, x <> 2 -> nodeWeight (fst (setNodeWeight delta_hg 2 5 delta_phg)) x
                       = nodeWeight delta_hg x) /\
  _part_ids (snd (setNodeWeight delta_hg 2 5 delta_phg)) = _part_ids delta_phg.
Proof.
  apply (setNodeWeight_keeps_part_weights delta_hg 2 delta_hg_wf delta_phg 2 5).
  - exact (cons_part_weight delta_hg 2 delta_phg delta_phg_consistent).
  - reflexivity.
  - right. replace (partID delta_phg 2) with 0 by (vm_compute; reflexivity). lia.
Defined.

Lemma large_phg_cleared : edge_cleared 2 large_phg 0.
Proof.
  intros q Hq. destruct (block_cases q Hq) as [-> | ->]; split; vm_compute; reflexivity.
Qed.

(** Witness: the edge of scenario 3 is restored, its pins counted by two
    workers in turn. *)
Lemma restoreLargeEdge_spec_witness :
  edge_tracked delta_hg 2 (restoreLargeEdge delta_hg 2 2 two_workers 0 large_phg) 0 /\
  (forall e q, e <> 0 -> 0 <= q < 2 ->
     pinCountInPart (restoreLargeEdge delta_hg 2 2 two_workers 0 large_phg) e q
     = pinCountInPart large_phg e q /\
     _connectivity_set (restoreLargeEdge delta_hg 2 2 two_workers 0 large_phg) e q
     = _connectivity_set large_phg e q) /\
  _part_ids (restoreLargeEdge delta_hg 2 2 two_workers 0 large_phg) = _part_ids large_phg /\
  _part_weights (restoreLargeEdge delta_hg 2 2 two_workers 0 large_phg)
  = _part_weights large_phg /\
  _move_to_penalty (restoreLargeEdge delta_hg 2 2 two_workers 0 large_phg)
  = _move_to_penalty large_phg /\
  _move_from_benefit (restoreLargeEdge delta_hg 2 2 two_workers 0 large_phg)
  = _move_from_benefit large_phg.
Proof.
  apply (restoreLargeEdge_spec delta_hg 2 2 two_workers 0 large_phg).
  - intros pos _. unfold two_workers. apply Nat.mod_upper_bound. lia.
  - intros u Hu. simpl in Hu.
    destruct Hu as [<- | [<- | [<- | [<- | []]]]];
      match goal with
      | |- 0 <= partID large_phg ?n < 2 =>
          let v := eval vm_compute in (partID large_phg n) in
          replace (partID large_phg n) with v by (vm_compute; reflexivity); lia
      end.
  - exact large_phg_cleared.
Defined.

Lemma removed_phg_values :
  (forall q, 0 <= q < 2 ->
     pinCountInPart removed_phg 0 q = 1 /\ _connectivity_set removed_phg 0 q = true /\
     pinCountInPartRecomputed restore_hg removed_phg 0 q = 1 /\
     pinCountInPart removed_phg 1 q = 0 /\ _connectivity_set removed_phg 1 q = false /\
     pinCountInPart removed_phg 2 q = 0 /\ _connectivity_set removed_phg 2 q = false) /\
  partID removed_phg 2 = 1.
Proof.
  split; [|vm_compute; reflexivity].
  intros q Hq. destruct (block_cases q Hq) as [-> | ->]; repeat split; vm_compute; reflexivity.
Qed.

Lemma removed_nets_restorable : restorable restore_hg 2 removed_phg removed_nets.
Proof.
  destruct removed_phg_values as (Hv & Hp2).
  split.
  - cbn. repeat constructor; simpl; intuition lia.
  - intros ph [<- | [<- | []]]; cbn [removed_hyperedge representative].
    + split; [|split].
      * intros q Hq. destruct (Hv q Hq) as (_ & _ & _ & A & B & _). auto.
      * intros E. vm_compute in E. discriminate.
      * intros _. split; [|split].
        -- cbn. intuition lia.
        -- change (pins restore_hg 1) with [1; 0]. change (pins restore_hg 0) with [0; 1].
           apply perm_swap.
        -- intros q Hq. destruct (Hv q Hq) as (A & B & C & _). rewrite A, B, C.
           split; [reflexivity|]. split; [lia | reflexivity].
    + split; [|split].
      * intros q Hq. destruct (Hv q Hq) as (_ & _ & _ & _ & _ & A & B). auto.
      * intros _ u Hu. change (pins restore_hg 2) with [2] in Hu.
        destruct Hu as [<- | []]. rewrite Hp2. lia.
      * intros E. exfalso. apply E. reflexivity.
Qed.

(** Witness: the parallel net 1 and the single-pin net 2 are restored
    beside edge 0. *)
Lemma restoreSinglePinAndParallelNets_tracked_witness :
  (forall ph, In ph removed_nets ->
     edge_tracked restore_hg 2
       (restoreSinglePinAndParallelNets restore_hg 2 removed_nets removed_phg)
       (removed_hyperedge ph)) /\
  (forall e q, ~ In e (map removed_hyperedge removed_nets) ->
     pinCountInPart (restoreSinglePinAndParallelNets restore_hg 2 removed_nets removed_phg) e q
     = pinCountInPart removed_phg e q /\
     _connectivity_set (restoreSinglePinAndParallelNets restore_hg 2 removed_nets removed_phg) e q
     = _connectivity_set removed_phg e q) /\
  _part_ids (restoreSinglePinAndParallelNets restore_hg 2 removed_nets removed_phg)
  = _part_ids removed_phg /\
  _part_weights (restoreSinglePinAndParallelNets restore_hg 2 removed_nets removed_phg)
  = _part_weights removed_phg /\
  ((forall e, edgeIsEnabled restore_hg e = true ->
      ~ In e (map removed_hyperedge removed_nets) ->
      edge_tracked restore_hg 2 removed_phg e) ->
   pin_count_inv restore_hg 2
     (restoreSinglePinAndParallelNets restore_hg 2 removed_nets removed_phg) /\
   connectivity_inv restore_hg 2
     (restoreSinglePinAndParallelNets restore_hg 2 removed_nets removed_phg)).
Proof.
  apply (restoreSinglePinAndParallelNets_tracked restore_hg 2 removed_phg removed_nets).
  exact removed_nets_restorable.
Defined.

Lemma single_assigned_only : assigning_only 2 (assigned_only [0; 1]).
Proof.
  change (assigned_only [0; 1]) with (setOnlyNodePart 1 1 (setOnlyNodePart 0 0 construct)).
  repeat (constructor; [| reflexivity | lia]). constructor.
Qed.

Lemma single_all_assigned : all_assigned (without_edge single_hg 1) 2 (assigned_only [0; 1]).
Proof.
  intros u Hu. apply (wf_node_range single_hg single_hg_wf) in Hu.
  change (initialNumNodes single_hg) with 2 in Hu.
  assert (H : u = 0 \/ u = 1) by lia.
  destruct H as [-> | ->]; vm_compute; split; congruence.
Qed.

Lemma single_low_degree u : is_high_degree (without_edge single_hg 1) u = false.
Proof.
  unfold is_high_degree. destruct (nodeIsEnabled (without_edge single_hg 1) u) eqn:E;
    [|reflexivity].
  apply (wf_node_range single_hg single_hg_wf) in E.
  change (initialNumNodes single_hg) with 2 in E.
  assert (H : u = 0 \/ u = 1) by lia.
  destruct H as [-> | ->]; reflexivity.
Qed.

Lemma single_phg_gain_cache :
  gain_cache_inv (without_edge single_hg 1) 2 single_phg /\
  _is_gain_cache_initialized single_phg = true.
Proof.
  destruct (initializeGainInformation_gain_cache_inv (without_edge single_hg 1) 2
              (without_edge_wf single_hg 1 single_hg_wf) 1 (fun _ => [])
              (initializePartition (without_edge single_hg 1) 2 (assigned_only [0; 1])))
    as (_ & H & F).
  - apply (initializePartition_consistent _ 2 (without_edge_wf single_hg 1 single_hg_wf)).
    + apply (assigning_only_fresh 2), single_assigned_only.
    + exact single_all_assigned.
  - intros u H. rewrite single_low_degree in H. discriminate.
  - split; [exact H | exact F].
Qed.

(** Witness: the single-pin net {1} is restored beside the edge {0, 1}. *)
Lemma restoreNet_single_pin_gain_cache_witness :
  gain_cache_inv single_hg 2 (restoreNet single_hg 2 single_phg single_net).
Proof.
  apply (restoreNet_single_pin_gain_cache single_hg 2 single_hg_wf single_phg single_net 1).
  - reflexivity.
  - reflexivity.
  - replace (partID single_phg 1) with 1 by (vm_compute; reflexivity). lia.
  - intros q Hq. destruct (block_cases q Hq) as [-> | ->]; split; vm_compute; reflexivity.
  - exact (proj2 single_phg_gain_cache).
  - exact (proj1 single_phg_gain_cache).
Defined.

(** Witness: block 0 of scenario 3 is extracted with cut-net splitting;
    its only edge keeps the pins 0, 1, 2. *)
Lemma extract_valid_witness :
  Forall (fun x => 0 <= x < num_hypernodes (extract delta_hg 2 0 true delta_phg))
         (edge_vector (extract delta_hg 2 0 true delta_phg) (Z.of_nat 0)) /\
  NoDup (edge_vector (extract delta_hg 2 0 true delta_phg) (Z.of_nat 0)) /\
  Z.of_nat (length (edge_vector (extract delta_hg 2 0 true delta_phg) (Z.of_nat 0)))
  = pinCountInPart delta_phg 0 0 /\
  2 <= pinCountInPart delta_phg 0 0 /\
  (true = false ->
   Z.of_nat (length (edge_vector (extract delta_hg 2 0 true delta_phg) (Z.of_nat 0)))
   = edgeSize delta_hg 0).
Proof.
  apply (extract_valid delta_hg 2 0 true delta_phg delta_hg_wf delta_phg_consistent).
  - lia.
  - vm_compute. reflexivity.
Defined.

End RestoreInstanceFacts.

(* ------------------------------------------------------------------ *)
(** ** Outcome of a move and what the part ids determine *)

Module StateFacts.
Import PHG Maintenance PinFacts MoveFacts InvariantFacts InitFacts ReachableFacts GainFacts
       Scenarios ScenarioStateFacts RestoreInstances.

Section Facts.

Variable hg : Hypergraph.
Variable k : PartitionID.
Hypothesis Hwf : wf_hypergraph hg.


(** *** What the part ids determine *)

Lemma pins_in_block_same_ids s t e p :
  edgeIsEnabled hg e = true ->
  (forall u, nodeIsEnabled hg u = true -> partID s u = partID t u) ->
  pins_in_block hg s e p = pins_in_block hg t e p.
Proof.
  intros He Hid. unfold pins_in_block. apply sumZ_ext_in. intros v Hv.
  rewrite (Hid v (wf_pins_enabled hg Hwf e v He Hv)). reflexivity.
Qed.

Lemma consistent_states_agree s t :
  consistent hg k s -> consistent hg k t ->
  (forall u, nodeIsEnabled hg u = true -> partID s u = partID t u) ->
  (forall e p, edgeIsEnabled hg e = true -> 0 <= p < k ->
     pinCountInPart s e p = pinCountInPart t e p /\
     _connectivity_set s e p = _connectivity_set t e p) /\
  (forall p, 0 <= p < k -> partWeight s p = partWeight t p) /\
  km1 hg k s = km1 hg k t.
Proof.
  intros Hs Ht Hid.
  assert (Hpc : forall e p, edgeIsEnabled hg e = true -> 0 <= p < k ->
                            pinCountInPart s e p = pinCountInPart t e p).
  { intros e p He Hp.
    rewrite (cons_pin_count hg k s Hs e p He Hp), (cons_pin_count hg k t Ht e p He Hp),
      !pinCountInPartRecomputed_sum.
    now apply pins_in_block_same_ids. }
  assert (Hcs : forall e p, edgeIsEnabled hg e = true -> 0 <= p < k ->
                            _connectivity_set s e p = _connectivity_set t e p).
  { intros e p He Hp.
    pose proof (cons_connectivity hg k s Hs e p He Hp) as [S1 S2].
    pose proof (cons_connectivity hg k t Ht e p He Hp) as [T1 T2].
    rewrite (Hpc e p He Hp) in S1, S2.
    destruct (_connectivity_set s e p), (_connectivity_set t e p); try reflexivity.
    - symmetry. apply T2, S1. reflexivity.
    - apply S2, T1. reflexivity. }
  split; [|split].
  - intros e p He Hp. split; [now apply Hpc | now apply Hcs].
  - intros p Hp.
    rewrite (cons_part_weight hg k s Hs p Hp), (cons_part_weight hg k t Ht p Hp).
    unfold weight_of_block. apply sumZ_ext_in. intros v Hv.
    apply (In_nodes hg Hwf) in Hv. rewrite (Hid v Hv). reflexivity.
  - unfold km1. apply sumZ_ext_in. intros e He. apply (In_edges hg Hwf) in He.
    rewrite !(connectivity_sum k). f_equal. f_equal.
    apply sumZ_ext_in. intros p Hp. apply In_range in Hp. rewrite (Hcs e p He Hp). reflexivity.
Qed.

(** X23: the part ids determine what is tracked.  Two states reached
    by an initial assignment in either way ([setNodePart], or
    [setOnlyNodePart] and [initializePartition]) and by successful
    moves, in which every enabled node has the same block, have the
    same pin counts and connectivity sets on the enabled edges, the
    same part weights and the same km1. *)
Theorem reachable_states_agree s t :
  reachable hg k s -> reachable hg k t ->
  (forall u, nodeIsEnabled hg u = true -> partID s u = partID t u) ->
  (forall e p, edgeIsEnabled hg e = true -> 0 <= p < k ->
     pinCountInPart s e p = pinCountInPart t e p /\
     _connectivity_set s e p = _connectivity_set t e p) /\
  (forall p, 0 <= p < k -> partWeight s p = partWeight t p) /\
  km1 hg k s = km1 hg k t.
Proof.
  intros Hs Ht Hid.
  apply consistent_states_agree; [| |exact Hid]; now apply (reachable_consistent hg k Hwf).
Qed.

(** X24: on a consistent state the connectivity of an enabled edge
    without pins is 0, and that of an enabled edge with pins lies
    between 1 and the smaller of [k] and the size of the edge. *)
Theorem connectivity_bounds s e :
  consistent hg k s -> edgeIsEnabled hg e = true ->
  (pins hg e = [] -> connectivity k s e = 0) /\
  (pins hg e <> [] -> 1 <= connectivity k s e <= Z.min k (edgeSize hg e)).
Proof.
  intros Hc He.
  assert (Hpc : forall p, 0 <= p < k -> pinCountInPart s e p = pins_in_block hg s e p).
  { intros p Hp. rewrite (cons_pin_count hg k s Hc e p He Hp). apply pinCountInPartRecomputed_sum. }
  assert (Hind : forall p, In p (range k) ->
                           0 <= (if _connectivity_set s e p then 1 else 0)
                           <= pinCountInPart s e p).
  { intros p Hp. apply In_range in Hp.
    pose proof (cons_connectivity hg k s Hc e p He Hp) as [H1 _].
    pose proof (pins_in_block_nonneg hg s e p) as H0. rewrite <- (Hpc p Hp) in H0.
    destruct (_connectivity_set s e p); [specialize (H1 eq_refl)|]; lia. }
  assert (Hle : connectivity k s e <= edgeSize hg e).
  { rewrite (connectivity_sum k), <- (consistent_pin_sum hg k Hwf s Hc e He).
    clear - Hind. induction (range k) as [|p l IH]; cbn [sumZ]; [lia|].
    pose proof (Hind p (or_introl eq_refl)) as Hp.
    assert (IH' := IH (fun q Hq => Hind q (or_intror Hq))). lia. }
  assert (H0 : 0 <= connectivity k s e).
  { unfold connectivity, cs_connectivity. lia. }
  split.
  - intros Hnil. unfold edgeSize in Hle. rewrite Hnil in Hle. cbn [length] in Hle. lia.
  - intros Hne. destruct (pins hg e) as [|v ps] eqn:Hpins; [contradiction|].
    assert (Hv : In v (pins hg e)) by (rewrite Hpins; now left).
    pose proof (wf_pins_enabled hg Hwf e v He Hv) as Hen.
    pose proof (cons_assigned hg k s Hc v Hen) as Hb.
    assert (Hin : In (partID s v) (connectivitySet k s e)).
    { apply filter_In. split; [now apply In_range|].
      apply (cons_connectivity hg k s Hc e (partID s v) He Hb).
      rewrite (Hpc _ Hb). now apply (pins_in_block_pos hg s e (partID s v) v). }
    assert (Hk : connectivity k s e <= k).
    { unfold connectivity, cs_connectivity, cs_connectivitySet.
      pose proof (filter_length_le (_connectivity_set s e) (range k)) as Hf.
      assert (length (range k) = Z.to_nat k).
      { unfold range. generalize (Z.to_nat k) 0.
        induction n as [|n IH]; intros z; simpl; [reflexivity | now rewrite IH]. }
      lia. }
    assert (1 <= connectivity k s e).
    { unfold connectivity, cs_connectivity. fold (connectivitySet k s e).
      destruct (connectivitySet k s e); [contradiction | cbn [length]; lia]. }
    lia.
Qed.

End Facts.

Lemma delta_assigned_assigning : assigning delta_hg 2 delta_assigned.
Proof.
  unfold delta_assigned.
  repeat (constructor; [| reflexivity | vm_compute; reflexivity | lia]). constructor.
Qed.

Lemma delta_assigned_reachable : reachable delta_hg 2 delta_assigned.
Proof.
  apply reachable_setNodePart; [exact delta_assigned_assigning|].
  intros u Hu. apply (wf_node_range delta_hg delta_hg_wf) in Hu.
  change (initialNumNodes delta_hg) with 4 in Hu.
  assert (H : u = 0 \/ u = 1 \/ u = 2 \/ u = 3) by lia.
  destruct H as [-> | [-> | [-> | ->]]]; vm_compute; split; congruence.
Qed.


(** Witness: scenario 3 assigned with [setNodePart], and with
    [setOnlyNodePart] followed by [initializePartition]. *)
Lemma reachable_states_agree_witness :
  (forall e p, edgeIsEnabled delta_hg e = true -> 0 <= p < 2 ->
     pinCountInPart delta_assigned e p
     = pinCountInPart (initializePartition delta_hg 2 (assigned_only [0; 0; 0; 1])) e p /\
     _connectivity_set delta_assigned e p
     = _connectivity_set (initializePartition delta_hg 2 (assigned_only [0; 0; 0; 1])) e p) /\
  (forall p, 0 <= p < 2 ->
     partWeight delta_assigned p
     = partWeight (initializePartition delta_hg 2 (assigned_only [0; 0; 0; 1])) p) /\
  km1 delta_hg 2 delta_assigned
  = km1 delta_hg 2 (initializePartition delta_hg 2 (assigned_only [0; 0; 0; 1])).
Proof.
  apply (reachable_states_agree delta_hg 2 delta_hg_wf delta_assigned
           (initializePartition delta_hg 2 (assigned_only [0; 0; 0; 1]))).
  - exact delta_assigned_reachable.
  - exact delta_reachable.
  - intros u Hu. apply (wf_node_range delta_hg delta_hg_wf) in Hu.
    change (initialNumNodes delta_hg) with 4 in Hu.
    assert (H : u = 0 \/ u = 1 \/ u = 2 \/ u = 3) by lia.
    destruct H as [-> | [-> | [-> | ->]]]; vm_compute; reflexivity.
Defined.

(** Witness: the edge of scenario 3, with pins in both blocks. *)
Lemma connectivity_bounds_witness :
  (pins delta_hg 0 = [] -> connectivity 2 delta_phg 0 = 0) /\
  (pins delta_hg 0 <> [] -> 1 <= connectivity 2 delta_phg 0 <= Z.min 2 (edgeSize delta_hg 0)).
Proof.
  apply (connectivity_bounds delta_hg 2 delta_hg_wf delta_phg 0).
  - exact delta_phg_consistent.
  - reflexivity.
Defined.

End StateFacts.

(* ------------------------------------------------------------------ *)
(** ** The km1 gain cache with benefit and penalty terms *)

Module Km1Facts.
Import PHG WorkQueue PinFacts MoveFacts InvariantFacts ReachableFacts GainFacts Scenarios
       ScenarioStateFacts Km1 Km1Instances.

Lemma sumZ_minus {X : Type} (f g : X -> Z) (l : list X) :
  sumZ (fun x => f x - g x) l = sumZ f l - sumZ g l.
Proof. induction l as [|x l IH]; cbn [sumZ]; lia. Qed.

(** *** The layout of the table *)

Lemma slot_small (n k u j : Z) :
  table_fits n k -> 0 <= u < n -> 0 <= j <= k ->
  size_t_wrap (u * (k + 1) + j) = u * (k + 1) + j /\ 0 <= u * (k + 1) + j < n * (k + 1).
Proof.
  intros (Hn & Hk & Hfit) Hu Hj.
  assert (H : 0 <= u * (k + 1) + j < n * (k + 1)) by nia.
  split; [|exact H]. unfold size_t_wrap. apply Z.mod_small. lia.
Qed.

Lemma slot_inj (k u u' j j' : Z) :
  0 <= j <= k -> 0 <= j' <= k -> u * (k + 1) + j = u' * (k + 1) + j' -> u = u' /\ j = j'.
Proof.
  intros Hj Hj' E.
  assert (u = u').
  { destruct (Z.lt_trichotomy u u') as [H|[H|H]]; [exfalso|exact H|exfalso]; nia. }
  subst. lia.
Qed.

Section Layout.

Variable num_nodes : HypernodeID.
Variable k : PartitionID.
Variable c : Km1GainCache.
Hypothesis Hfit : table_fits num_nodes k.
Hypothesis Hk : _k c = k.

Lemma penalty_index_value u :
  0 <= u < num_nodes ->
  Km1.penalty_index c u = u * (k + 1) /\ 0 <= u * (k + 1) < num_nodes * (k + 1).
Proof.
  intros Hu. unfold Km1.penalty_index. rewrite Hk.
  destruct Hfit as (_ & Hk0 & _).
  destruct (slot_small num_nodes k u 0 Hfit Hu) as [E B]; [lia|].
  rewrite Z.add_0_r in E, B. split; assumption.
Qed.

Lemma benefit_index_value u p :
  0 <= u < num_nodes -> 0 <= p < k ->
  benefit_index c u p = u * (k + 1) + (p + 1) /\
  0 <= u * (k + 1) + (p + 1) < num_nodes * (k + 1).
Proof.
  intros Hu Hp. unfold benefit_index. rewrite Hk.
  destruct (slot_small num_nodes k u (p + 1) Hfit Hu) as [E B]; [lia|].
  split; [|exact B]. rewrite <- E. f_equal. lia.
Qed.

Lemma benefit_index_inj u u' p p' :
  0 <= u < num_nodes -> 0 <= u' < num_nodes -> 0 <= p < k -> 0 <= p' < k ->
  benefit_index c u p = benefit_index c u' p' -> u = u' /\ p = p'.
Proof.
  intros Hu Hu' Hp Hp' E.
  destruct (benefit_index_value u p Hu Hp) as [E1 _].
  destruct (benefit_index_value u' p' Hu' Hp') as [E2 _].
  rewrite E1, E2 in E.
  destruct (slot_inj k u u' (p + 1) (p' + 1)) as [-> H]; [lia|lia|exact E|]. split; lia.
Qed.

Lemma penalty_slot_inj u u' :
  0 <= u < num_nodes -> 0 <= u' < num_nodes ->
  Km1.penalty_index c u = Km1.penalty_index c u' -> u = u'.
Proof.
  intros Hu Hu' E.
  destruct (penalty_index_value u Hu) as [E1 _].
  destruct (penalty_index_value u' Hu') as [E2 _].
  rewrite E1, E2 in E. destruct Hfit as (_ & Hk0 & _).
  destruct (slot_inj k u u' 0 0) as [-> _]; [lia|lia|lia|reflexivity].
Qed.

Lemma benefit_penalty_apart u u' p :
  0 <= u < num_nodes -> 0 <= u' < num_nodes -> 0 <= p < k ->
  benefit_index c u p <> Km1.penalty_index c u'.
Proof.
  intros Hu Hu' Hp E.
  destruct (benefit_index_value u p Hu Hp) as [E1 _].
  destruct (penalty_index_value u' Hu') as [E2 _].
  rewrite E1, E2 in E.
  destruct (slot_inj k u u' (p + 1) 0) as [_ H]; lia.
Qed.

End Layout.

(** X25: [allocateGainTable(num_nodes, k)] on a fresh gain cache gives
    a table of num_nodes * (k + 1) entries, provided that number fits
    [size_t].  For every node below [num_nodes] and every block below
    [k], [nodeGainAssertions] returns true, the penalty index and the
    benefit indices lie inside the table, and no two of these entries,
    of the same node or of different nodes, share an index. *)
Theorem allocateGainTable_layout (num_nodes : HypernodeID) (k : PartitionID) :
  table_fits num_nodes k ->
  size (allocateGainTable num_nodes k make) = num_nodes * (k + 1) /\
  (forall u p, 0 <= u < num_nodes -> 0 <= p < k ->
     nodeGainAssertions (allocateGainTable num_nodes k make) u p = true /\
     0 <= Km1.penalty_index (allocateGainTable num_nodes k make) u
       < size (allocateGainTable num_nodes k make) /\
     0 <= benefit_index (allocateGainTable num_nodes k make) u p
       < size (allocateGainTable num_nodes k make)) /\
  (forall u u' p p', 0 <= u < num_nodes -> 0 <= u' < num_nodes ->
     0 <= p < k -> 0 <= p' < k ->
     (benefit_index (allocateGainTable num_nodes k make) u p
      = benefit_index (allocateGainTable num_nodes k make) u' p' -> u = u' /\ p = p') /\
     (Km1.penalty_index (allocateGainTable num_nodes k make) u
      = Km1.penalty_index (allocateGainTable num_nodes k make) u' -> u = u') /\
     benefit_index (allocateGainTable num_nodes k make) u p
     <> Km1.penalty_index (allocateGainTable num_nodes k make) u').
Proof.
  intros Hfit. pose proof Hfit as (Hn & Hk & Hlt).
  set (c := allocateGainTable num_nodes k make).
  assert (Hkc : _k c = k) by reflexivity.
  assert (Hsize : size c = num_nodes * (k + 1)).
  { unfold c, allocateGainTable, size. cbn [_size make Z.eqb].
    unfold size_t_wrap. rewrite (Z.mod_small (k + 1)) by lia. apply Z.mod_small. nia. }
  split; [exact Hsize|]. split.
  - intros u p Hu Hp.
    destruct (penalty_index_value num_nodes k c Hfit Hkc u Hu) as [E1 B1].
    destruct (benefit_index_value num_nodes k c Hfit Hkc u p Hu Hp) as [E2 B2].
    rewrite Hsize, E1, E2. split; [|split; assumption].
    unfold nodeGainAssertions. rewrite Hkc, Hsize, E2.
    destruct (Z.eqb_spec p kInvalidPartition) as [E|_]; [unfold kInvalidPartition in E; lia|].
    destruct (Z.leb_spec k p); [lia|]. cbn [orb].
    destruct (Z.leb_spec (num_nodes * (k + 1)) (u * (k + 1) + (p + 1))); [lia | reflexivity].
  - intros u u' p p' Hu Hu' Hp Hp'. split; [|split].
    + now apply (benefit_index_inj num_nodes k c Hfit Hkc).
    + now apply (penalty_slot_inj num_nodes k c Hfit Hkc).
    + now apply (benefit_penalty_apart num_nodes k c Hfit Hkc).
Qed.

(** *** The gain and the km1 objective *)

Section Gain.

Variable hg : Hypergraph.
Variable k : PartitionID.
Hypothesis Hwf : wf_hypergraph hg.

Lemma recomputePenaltyTerm_sum s u :
  recomputePenaltyTerm hg s u
  = sumZ (fun e => if 1 <? pinCountInPart s e (partID s u) then edgeWeight hg e else 0)
         (incidentEdges hg u).
Proof.
  unfold recomputePenaltyTerm. cbv zeta.
  rewrite (fold_left_cond_sum (fun e => 1 <? pinCountInPart s e (partID s u)) (edgeWeight hg)).
  lia.
Qed.

Lemma recomputeBenefitTerm_sum s u to :
  recomputeBenefitTerm hg s u to
  = sumZ (fun e => if 1 <=? pinCountInPart s e to then edgeWeight hg e else 0)
         (incidentEdges hg u).
Proof.
  unfold recomputeBenefitTerm.
  rewrite (fold_left_cond_sum (fun e => 1 <=? pinCountInPart s e to) (edgeWeight hg)). lia.
Qed.

(** X26: the gain of [Km1GainCache] is the decrease of km1.  If the
    penalty term of [u] and its benefit term for [to] hold their
    recomputed values in a consistent state, then a successful move of
    [u] from its block to the other block [to] lowers km1 by
    [gain(u, from, to)] = benefitTerm(u, to) - penaltyTerm(u). *)
Theorem Km1GainCache_gain_correct {A : Type} (c : Km1GainCache) u from to max_weight_to
        (report_success : A -> A) (delta_func : DeltaFunc A) s (a : A) s' a' :
  consistent hg k s -> gain_only delta_func ->
  nodeIsEnabled hg u = true -> partID s u = from -> from <> to -> 0 <= to < k ->
  penaltyTerm c u = recomputePenaltyTerm hg s u ->
  benefitTerm c u to = recomputeBenefitTerm hg s u to ->
  changeNodePart hg u from to max_weight_to report_success delta_func (s, a)
  = Some (true, (s', a')) ->
  km1 hg k s' = km1 hg k s - gain c u from to.
Proof.
  intros Hc Hg Hu Hfrom Hne Hto Hp Hb Hmove.
  destruct (changeNodePart_success hg u from to max_weight_to report_success delta_func
              s a s' a' Hg (cons_lock_free hg k s Hc) Hmove) as (_ & Hsp & _).
  rewrite (km1_same hg k s' _ Hsp).
  rewrite (km1_after_move hg k Hwf s u from to Hc Hu Hfrom Hne Hto).
  unfold gain. rewrite Hp, Hb, recomputePenaltyTerm_sum, recomputeBenefitTerm_sum, Hfrom.
  rewrite (sumZ_ext_in _
             (fun e => (if 1 <? pinCountInPart s e from then edgeWeight hg e else 0)
                       - (if 1 <=? pinCountInPart s e to then edgeWeight hg e else 0))).
  - rewrite sumZ_minus. lia.
  - intros e He.
    destruct (incident_enabled hg Hwf u e Hu He) as [Hen Hpin].
    pose proof (from_in_range hg k s u from Hc Hu Hfrom) as Hfk.
    pose proof (cons_pin_count hg k s Hc e from Hen Hfk) as Pf.
    pose proof (cons_pin_count hg k s Hc e to Hen Hto) as Pt.
    rewrite pinCountInPartRecomputed_sum in Pf, Pt.
    pose proof (pins_in_block_pos hg s e from u Hpin Hfrom) as H1.
    pose proof (pins_in_block_nonneg hg s e to) as H0.
    rewrite Km1GainCache_delta_spec.
    destruct (Z.eqb_spec (pinCountInPart s e to) 0), (Z.eqb_spec (pinCountInPart s e from) 1),
      (Z.leb_spec 1 (pinCountInPart s e to)), (Z.ltb_spec 1 (pinCountInPart s e from)); lia.
Qed.

End Gain.

(** *** The thread-local gain cache *)

Lemma flat_value_add m key x j :
  flat_value (flat_add m key x) j = flat_value m j + (if j =? key then x else 0).
Proof.
  unfold flat_value, get_if_contained, flat_add.
  destruct (Z.eqb_spec j key) as [->|]; [|lia]. reflexivity.
Qed.

Lemma flat_fold (cond : Z -> bool) (key : Z -> Z) (x : Z) (l : list Z) (d : DynamicFlatMap) j :
  flat_value (fold_left (fun m u => if cond u then flat_add m (key u) x else m) l d) j
  = flat_value d j + x * sumZ (fun u => if cond u && (key u =? j) then 1 else 0) l.
Proof.
  revert d. induction l as [|u l IH]; intros d; cbn [fold_left sumZ]; [lia|].
  rewrite IH. destruct (cond u); cbn [andb]; [|lia].
  rewrite flat_value_add, (Z.eqb_sym j (key u)). destruct (key u =? j); lia.
Qed.

Lemma count_key (cond : Z -> bool) (key : Z -> Z) (l : list Z) (x : Z) :
  NoDup l -> (forall u, In u l -> key u = key x -> u = x) ->
  sumZ (fun u => if cond u && (key u =? key x) then 1 else 0) l
  = if existsb (Z.eqb x) l && cond x then 1 else 0.
Proof.
  intros Hnd Hinj.
  rewrite (sumZ_ext_in _ (fun u => if u =? x then (fun _ => if cond x then 1 else 0) u else 0)).
  - rewrite (sumZ_single _ x l Hnd). destruct (existsb (Z.eqb x) l), (cond x); reflexivity.
  - intros u Hu. destruct (Z.eqb_spec (key u) (key x)) as [E|E].
    + rewrite (Hinj u Hu E), Z.eqb_refl, andb_true_r. reflexivity.
    + rewrite andb_false_r. destruct (Z.eqb_spec u x) as [->|]; [contradiction | reflexivity].
Qed.

Lemma count_none (cond : Z -> bool) (key : Z -> Z) (l : list Z) (j : Z) :
  (forall u, In u l -> key u <> j) ->
  sumZ (fun u => if cond u && (key u =? j) then 1 else 0) l = 0.
Proof.
  intros H. apply sumZ_zero. intros u Hu.
  destruct (Z.eqb_spec (key u) j) as [E|E]; [exfalso; exact (H u Hu E)|].
  now rewrite andb_false_r.
Qed.

Section Delta.

Variable hg : Hypergraph.
Variable num_nodes : HypernodeID.
Variable k : PartitionID.
Variable c : Km1GainCache.
Hypothesis Hfit : table_fits num_nodes k.
Hypothesis Hk : _k c = k.

Variable ids : HypernodeID -> PartitionID.
Variable he : HyperedgeID.
Hypothesis Hnd : NoDup (pins hg he).
Hypothesis Hpins : forall u, In u (pins hg he) -> 0 <= u < num_nodes.

(** What the four loops of [deltaGainUpdate] add to the benefit entry
    of [x] for [q] and to the penalty entry of [x]. *)
Lemma benefit_loop_at_benefit w b d x q :
  0 <= b < k -> 0 <= q < k -> 0 <= x < num_nodes ->
  flat_value (fold_left (fun m u => flat_add m (benefit_index c u b) w) (pins hg he) d)
             (benefit_index c x q)
  = flat_value d (benefit_index c x q)
    + (if existsb (Z.eqb x) (pins hg he) && (q =? b) then w else 0).
Proof.
  intros Hb Hq Hx.
  pose proof (flat_fold (fun _ => true) (fun u => benefit_index c u b) w (pins hg he) d
                (benefit_index c x q)) as H.
  cbv beta iota in H. rewrite H. clear H.
  destruct (Z.eqb_spec q b) as [->|Hne].
  - rewrite (count_key (fun _ => true) (fun u => benefit_index c u b) (pins hg he) x Hnd).
    + destruct (existsb (Z.eqb x) (pins hg he)); cbn [andb]; lia.
    + intros u Hu E. cbv beta in E.
      now destruct (benefit_index_inj num_nodes k c Hfit Hk u x b b (Hpins u Hu) Hx Hb Hb E).
  - rewrite count_none; [rewrite andb_false_r; lia|].
    intros u Hu E. cbv beta in E.
    destruct (benefit_index_inj num_nodes k c Hfit Hk u x b q (Hpins u Hu) Hx Hb Hq E). lia.
Qed.

Lemma benefit_loop_at_penalty w b d x :
  0 <= b < k -> 0 <= x < num_nodes ->
  flat_value (fold_left (fun m u => flat_add m (benefit_index c u b) w) (pins hg he) d)
             (Km1.penalty_index c x)
  = flat_value d (Km1.penalty_index c x).
Proof.
  intros Hb Hx.
  pose proof (flat_fold (fun _ => true) (fun u => benefit_index c u b) w (pins hg he) d
                (Km1.penalty_index c x)) as H.
  cbv beta iota in H. rewrite H. clear H.
  rewrite count_none; [lia|].
  intros u Hu. exact (benefit_penalty_apart num_nodes k c Hfit Hk u x b (Hpins u Hu) Hx Hb).
Qed.

Lemma penalty_loop_at_penalty w b d x :
  0 <= x < num_nodes ->
  flat_value (fold_left (fun m u => if ids u =? b
                                    then flat_add m (Km1.penalty_index c u) w else m)
                        (pins hg he) d) (Km1.penalty_index c x)
  = flat_value d (Km1.penalty_index c x)
    + (if existsb (Z.eqb x) (pins hg he) && (ids x =? b) then w else 0).
Proof.
  intros Hx.
  rewrite (flat_fold (fun u => ids u =? b) (fun u => Km1.penalty_index c u) w).
  rewrite (count_key (fun u => ids u =? b) (fun u => Km1.penalty_index c u) (pins hg he) x Hnd).
  - destruct (existsb (Z.eqb x) (pins hg he) && (ids x =? b)); lia.
  - intros u Hu E. cbv beta in E.
    exact (penalty_slot_inj num_nodes k c Hfit Hk u x (Hpins u Hu) Hx E).
Qed.

Lemma penalty_loop_at_benefit w b d x q :
  0 <= q < k -> 0 <= x < num_nodes ->
  flat_value (fold_left (fun m u => if ids u =? b
                                    then flat_add m (Km1.penalty_index c u) w else m)
                        (pins hg he) d) (benefit_index c x q)
  = flat_value d (benefit_index c x q).
Proof.
  intros Hq Hx.
  rewrite (flat_fold (fun u => ids u =? b) (fun u => Km1.penalty_index c u) w).
  rewrite count_none; [lia|].
  intros u Hu E. cbv beta in E. symmetry in E.
  exact (benefit_penalty_apart num_nodes k c Hfit Hk x u q Hx (Hpins u Hu) Hq E).
Qed.

(** X27: one call of [DeltaKm1GainCache::deltaGainUpdate] for an edge
    [he] one of whose pins went from [from] to [to], called with the
    pin counts after the move, brings the thread-local terms of the
    pins of [he] up to date with what [he] contributes: the benefit
    term of every pin for every block changes by the change of the
    contribution of [he] (its weight while the block has a pin), and
    the penalty term of every pin changes by the change of the
    contribution of [he] for the block the pin is in (its weight while
    that block has more than one pin).  The terms of all other nodes
    are as before.  For the moved pin the block is its new one: what
    [he] contributed to its penalty term for the old block is not
    taken back. *)
Theorem deltaGainUpdate_edge (we : HyperedgeWeight) (from to : PartitionID)
        (pc : PartitionID -> Z) (d : DynamicFlatMap) (x : HypernodeID) :
  0 <= from < k -> 0 <= to < k -> from <> to -> 1 <= pc from -> 0 <= pc to ->
  0 <= x < num_nodes ->
  (forall q, 0 <= q < k ->
     delta_benefitTerm c
       (deltaGainUpdate hg c ids he we from (pc from - 1) to (pc to + 1) d) x q
     = delta_benefitTerm c d x q
       + (if existsb (Z.eqb x) (pins hg he)
          then benefit_contribution (counts_after_move pc from to) we q
               - benefit_contribution pc we q
          else 0)) /\
  delta_penaltyTerm c (deltaGainUpdate hg c ids he we from (pc from - 1) to (pc to + 1) d) x
  = delta_penaltyTerm c d x
    + (if existsb (Z.eqb x) (pins hg he)
       then penalty_contribution (counts_after_move pc from to) we (ids x)
            - penalty_contribution pc we (ids x)
       else 0).
Proof.
  intros Hf Ht Hne Hpf Hpt Hx.
  change ((forall q, 0 <= q < k ->
            benefitTerm c x q
            + flat_value (deltaGainUpdate hg c ids he we from (pc from - 1) to (pc to + 1) d)
                         (benefit_index c x q)
            = benefitTerm c x q + flat_value d (benefit_index c x q)
              + (if existsb (Z.eqb x) (pins hg he)
                 then benefit_contribution (counts_after_move pc from to) we q
                      - benefit_contribution pc we q
                 else 0)) /\
         (penaltyTerm c x
         + flat_value (deltaGainUpdate hg c ids he we from (pc from - 1) to (pc to + 1) d)
                      (Km1.penalty_index c x)
         = penaltyTerm c x + flat_value d (Km1.penalty_index c x)
           + (if existsb (Z.eqb x) (pins hg he)
              then penalty_contribution (counts_after_move pc from to) we (ids x)
                   - penalty_contribution pc we (ids x)
              else 0))).
  unfold deltaGainUpdate, benefit_contribution, penalty_contribution, counts_after_move.
  cbv zeta. split.
  - intros q Hq.
    destruct (Z.eqb_spec (pc to + 1) 1) as [T1|T1];
      [|destruct (Z.eqb_spec (pc to + 1) 2) as [T2|T2]];
      (destruct (Z.eqb_spec (pc from - 1) 1) as [F1|F1];
       [|destruct (Z.eqb_spec (pc from - 1) 0) as [F0|F0]]);
      rewrite ?benefit_loop_at_benefit, ?penalty_loop_at_benefit,
        ?benefit_loop_at_benefit, ?penalty_loop_at_benefit by assumption;
      (destruct (existsb (Z.eqb x) (pins hg he)); cbn [andb]; [|lia]);
      destruct (Z.eqb_spec q to) as [Eqt|Eqt]; destruct (Z.eqb_spec q from) as [Eqf|Eqf];
      try (exfalso; lia);
      cbv beta iota; try rewrite Eqt in *; try rewrite Eqf in *;
      repeat match goal with
             | |- context [1 <=? ?a] => destruct (Z.leb_spec 1 a)
             end; lia.
  - destruct (Z.eqb_spec (pc to + 1) 1) as [T1|T1];
      [|destruct (Z.eqb_spec (pc to + 1) 2) as [T2|T2]];
      (destruct (Z.eqb_spec (pc from - 1) 1) as [F1|F1];
       [|destruct (Z.eqb_spec (pc from - 1) 0) as [F0|F0]]);
      rewrite ?benefit_loop_at_penalty, ?penalty_loop_at_penalty,
        ?benefit_loop_at_penalty, ?penalty_loop_at_penalty by assumption;
      (destruct (existsb (Z.eqb x) (pins hg he)); cbn [andb]; [|lia]);
      destruct (Z.eqb_spec (ids x) to) as [Eqt|Eqt];
      destruct (Z.eqb_spec (ids x) from) as [Eqf|Eqf];
      try (exfalso; lia);
      cbv beta iota; try rewrite Eqt in *; try rewrite Eqf in *;
      repeat match goal with
             | |- context [1 <? ?a] => destruct (Z.ltb_spec 1 a)
             end; lia.
Qed.

End Delta.

Lemma table_fits_small : table_fits 4 2.
Proof. unfold table_fits. repeat split; try lia; reflexivity. Qed.

(** Witness: a table for four nodes and two blocks. *)
Lemma allocateGainTable_layout_witness :
  size (allocateGainTable 4 2 make) = 4 * (2 + 1) /\
  (forall u p, 0 <= u < 4 -> 0 <= p < 2 ->
     nodeGainAssertions (allocateGainTable 4 2 make) u p = true /\
     0 <= Km1.penalty_index (allocateGainTable 4 2 make) u < size (allocateGainTable 4 2 make) /\
     0 <= benefit_index (allocateGainTable 4 2 make) u p < size (allocateGainTable 4 2 make)) /\
  (forall u u' p p', 0 <= u < 4 -> 0 <= u' < 4 -> 0 <= p < 2 -> 0 <= p' < 2 ->
     (benefit_index (allocateGainTable 4 2 make) u p
      = benefit_index (allocateGainTable 4 2 make) u' p' -> u = u' /\ p = p') /\
     (Km1.penalty_index (allocateGainTable 4 2 make) u
      = Km1.penalty_index (allocateGainTable 4 2 make) u' -> u = u') /\
     benefit_index (allocateGainTable 4 2 make) u p
     <> Km1.penalty_index (allocateGainTable 4 2 make) u').
Proof. apply (allocateGainTable_layout 4 2). exact table_fits_small. Defined.

(** Witness: node 0 of the three-node scenario goes from block 0 to
    block 1, which may carry weight 3; the table holds the recomputed
    terms. *)
Lemma Km1GainCache_gain_correct_witness :
  km1 gain_hg 2 gain_moved = km1 gain_hg 2 gain_phg - gain gain_cache_of_gain_phg 0 0 1.
Proof.
  apply (Km1GainCache_gain_correct gain_hg 2 gain_hg_wf gain_cache_of_gain_phg 0 0 1 3
           (fun a => a) NOOP_FUNC gain_phg tt gain_moved tt).
  - exact gain_phg_consistent.
  - apply NOOP_FUNC_gain_only.
  - reflexivity.
  - reflexivity.
  - lia.
  - lia.
  - vm_compute. reflexivity.
  - vm_compute. reflexivity.
  - vm_compute. reflexivity.
Defined.

(** Witness: the edge of scenario 3 after node 2 went from block 0,
    which had three pins, to block 1, which had one; the terms of
    node 3. *)
Lemma deltaGainUpdate_edge_witness :
  (forall q, 0 <= q < 2 ->
     delta_benefitTerm gain_cache_of_delta_phg
       (deltaGainUpdate delta_hg gain_cache_of_delta_phg delta_moved_ids 0 1 0
          (pinCountInPart delta_phg 0 0 - 1) 1 (pinCountInPart delta_phg 0 1 + 1) flat_clear) 3 q
     = delta_benefitTerm gain_cache_of_delta_phg flat_clear 3 q
       + (if existsb (Z.eqb 3) (pins delta_hg 0)
          then benefit_contribution (counts_after_move (pinCountInPart delta_phg 0) 0 1) 1 q
               - benefit_contribution (pinCountInPart delta_phg 0) 1 q
          else 0)) /\
  delta_penaltyTerm gain_cache_of_delta_phg
    (deltaGainUpdate delta_hg gain_cache_of_delta_phg delta_moved_ids 0 1 0
       (pinCountInPart delta_phg 0 0 - 1) 1 (pinCountInPart delta_phg 0 1 + 1) flat_clear) 3
  = delta_penaltyTerm gain_cache_of_delta_phg flat_clear 3
    + (if existsb (Z.eqb 3) (pins delta_hg 0)
       then penalty_contribution (counts_after_move (pinCountInPart delta_phg 0) 0 1) 1
              (delta_moved_ids 3)
            - penalty_contribution (pinCountInPart delta_phg 0) 1 (delta_moved_ids 3)
       else 0).
Proof.
  apply (deltaGainUpdate_edge delta_hg 4 2 gain_cache_of_delta_phg table_fits_small eq_refl
           delta_moved_ids 0 (wf_pins_NoDup delta_hg delta_hg_wf 0)).
  - intros u Hu. simpl in Hu. lia.
  - lia.
  - lia.
  - lia.
  - replace (pinCountInPart delta_phg 0 0) with 3 by (vm_compute; reflexivity). lia.
  - replace (pinCountInPart delta_phg 0 1) with 1 by (vm_compute; reflexivity). lia.
  - lia.
Defined.

End Km1Facts.
